(** * A shallow embedding of the gomoku engine

    The development follows the C++ sources: [Board] (two bitboards of three
    64-bit chunks, an incremental Zobrist key and the side to move),
    [ThreatSolver] (window scan over every line), [HistoryHeuristic] and
    [SearchEngine] (iterative-deepening alpha-beta with a transposition
    table and killer moves).

    Conventions.  A C++ [int] is a [Z].  Coordinates, counts, depths and the
    scores of single patterns are small, and plain arithmetic of [Z] is used
    for them; the sums of scores kept by [evaluatePlayer], [evaluate] and
    [orderMoves] and the entries of the history table can leave the range
    of [int], and every such operation is written with [wrapInt], the
    two's-complement wrap-around of the compiled program (the C++ standard
    leaves signed overflow undefined).  A [uint64_t] is a [Z] in
    [0, 2^64); the board only ors, ands and xors such words, so they stay
    in range.  [std::unordered_map] is a [gmap].  What the standard leaves
    to the library, the order [std::sort] gives to elements that compare
    equal and the order in which an [unordered_map] is traversed, is a
    parameter of the model ([StdLibrary]): what is proved with it holds for
    every library. *)

From Stdlib Require Import ZArith List Bool Lia.
From stdpp Require Import base tactics option list numbers sorting gmap.
Import ListNotations.
Local Open Scope Z_scope.

(** ** std::mt19937_64

    [Board::initZobrist] fills its tables from a 64-bit Mersenne twister
    seeded with a constant.  The generator is the standard one
    (n = 312, m = 156, r = 31); only its first block of outputs is needed. *)

Module MT.

Definition mask64 : Z := 18446744073709551615.

Fixpoint seed_from (k : nat) (i prev : Z) : list Z :=
  match k with
  | O => []
  | S k' =>
      let v := Z.land (6364136223846793005 * Z.lxor prev (Z.shiftr prev 62) + i)
                      mask64 in
      v :: seed_from k' (i + 1) v
  end.

Definition seed (s : Z) : list Z := s :: seed_from 311 1 s.

Definition word (st : list Z) (i : nat) : Z := nth i st 0.

Definition twist_at (st : list Z) (i : nat) : list Z :=
  let y := Z.lor (Z.land (word st i) 18446744071562067968)
                 (Z.land (word st (Nat.modulo (i + 1) 312)) 2147483647) in
  let mag := if Z.odd y then 13043109905998158313 else 0 in
  <[ i := Z.lxor (Z.lxor (word st (Nat.modulo (i + 156) 312)) (Z.shiftr y 1)) mag ]> st.

Definition twist (st : list Z) : list Z := fold_left twist_at (seq 0 312) st.

Definition temper (y : Z) : Z :=
  let y := Z.lxor y (Z.land (Z.shiftr y 29) 6148914691236517205) in
  let y := Z.lxor y (Z.land (Z.shiftl y 17) 8202884508482404352) in
  let y := Z.lxor y (Z.land (Z.shiftl y 37) 18444473444759240704) in
  Z.lxor y (Z.shiftr y 43).

(** The first 312 values returned by successive calls of [rng()]. *)
Definition outputs (s : Z) : list Z := map temper (twist (seed s)).

End MT.

(** ** Board *)

Inductive Player := Black | White.

(** [static_cast<int>(player)]: Black is 0 and White is 1. *)
Definition playerIndex (p : Player) : Z :=
  match p with Black => 0 | White => 1 end.

Definition other (p : Player) : Player :=
  match p with Black => White | White => Black end.

Definition Player_eqb (p q : Player) : bool :=
  match p, q with
  | Black, Black | White, White => true
  | _, _ => false
  end.

Record Move := mkMove { mx : Z; my : Z }.

Definition Move_eqb (a b : Move) : bool :=
  (mx a =? mx b) && (my a =? my b).

#[global] Instance Player_eq_dec : EqDecision Player.
Proof. solve_decision. Defined.

#[global] Instance Move_eq_dec : EqDecision Move.
Proof. solve_decision. Defined.

(** One player's stones: [uint64_t bb[p][3]]. *)
Record Chunks := mkChunks { w0 : Z; w1 : Z; w2 : Z }.

Record Board := mkBoard {
  bbBlack : Chunks;
  bbWhite : Chunks;
  hashKey : Z;
  side_to_move : Player
}.

Definition chunk (cs : Chunks) (c : Z) : Z :=
  if c =? 0 then w0 cs else if c =? 1 then w1 cs else w2 cs.

Definition setChunk (cs : Chunks) (c : Z) (v : Z) : Chunks :=
  if c =? 0 then mkChunks v (w1 cs) (w2 cs)
  else if c =? 1 then mkChunks (w0 cs) v (w2 cs)
  else mkChunks (w0 cs) (w1 cs) v.

(** [bb[p][c]] and the assignment to it. *)
Definition bb (b : Board) (p : Player) (c : Z) : Z :=
  match p with Black => chunk (bbBlack b) c | White => chunk (bbWhite b) c end.

Definition setbb (b : Board) (p : Player) (c : Z) (v : Z) : Board :=
  match p with
  | Black => mkBoard (setChunk (bbBlack b) c v) (bbWhite b) (hashKey b) (side_to_move b)
  | White => mkBoard (bbBlack b) (setChunk (bbWhite b) c v) (hashKey b) (side_to_move b)
  end.

Definition setHash (b : Board) (h : Z) : Board :=
  mkBoard (bbBlack b) (bbWhite b) h (side_to_move b).

Definition setSide (b : Board) (s : Player) : Board :=
  mkBoard (bbBlack b) (bbWhite b) (hashKey b) s.

(** Helpers of the board header: a cell (x,y) has linear index [y*12 + x];
    [idx >> 6] selects the chunk and [idx & 63] the bit. *)
Definition index (x y : Z) : Z := y * 12 + x.
Definition chunkOf (idx : Z) : Z := Z.shiftr idx 6.
Definition offsetOf (idx : Z) : Z := Z.land idx 63.

Definition inRange (x y : Z) : bool :=
  (0 <=? x) && (x <? 12) && (0 <=? y) && (y <? 12).

(** [1ULL << offsetOf(index(x,y))] *)
Definition cellMask (x y : Z) : Z := Z.shiftl 1 (offsetOf (index x y)).

(** The Zobrist tables, filled in the order of [initZobrist]'s loops
    (y outermost, then x, then the player), then the side marker. *)
Definition zobristValues : list Z :=
  Eval vm_compute in firstn 289 (MT.outputs 5124095577148911).

Definition zobristTable (x y p : Z) : Z :=
  nth (Z.to_nat ((y * 12 + x) * 2 + p)) zobristValues 0.

Definition zobristSide : Z := nth 288 zobristValues 0.

Definition isOccupied (b : Board) (x y : Z) : bool :=
  if negb (inRange x y) then true
  else
    let idx := index x y in
    let c := chunkOf idx in
    let mask := Z.shiftl 1 (offsetOf idx) in
    negb (Z.land (Z.lor (bb b Black c) (bb b White c)) mask =? 0).

Definition makeMove (b : Board) (x y : Z) : bool * Board :=
  if negb (inRange x y) then (false, b)
  else if isOccupied b x y then (false, b)
  else
    let idx := index x y in
    let c := chunkOf idx in
    let off := offsetOf idx in
    let p := side_to_move b in
    let b := setbb b p c (Z.lor (bb b p c) (Z.shiftl 1 off)) in
    let b := setHash b (Z.lxor (hashKey b) (zobristTable x y (playerIndex p))) in
    let b := setSide b (other (side_to_move b)) in
    let b := setHash b (Z.lxor (hashKey b) zobristSide) in
    (true, b).

Definition unmakeMove (b : Board) (x y : Z) : bool * Board :=
  let b := setSide b (other (side_to_move b)) in
  let b := setHash b (Z.lxor (hashKey b) zobristSide) in
  let idx := index x y in
  let c := chunkOf idx in
  let off := offsetOf idx in
  let mask := Z.shiftl 1 off in
  let p := side_to_move b in
  let b := setbb b p c (Z.land (bb b p c) (Z.lnot mask)) in
  let b := setHash b (Z.lxor (hashKey b) (zobristTable x y (playerIndex p))) in
  (true, b).

Definition getCellState (b : Board) (x y : Z) : Z :=
  if negb (inRange x y) then -1
  else
    let idx := index x y in
    let c := chunkOf idx in
    let mask := Z.shiftl 1 (offsetOf idx) in
    if negb (Z.land (bb b Black c) mask =? 0) then 1
    else if negb (Z.land (bb b White c) mask =? 0) then 2
    else 0.

Definition sideToMove (b : Board) : Player := side_to_move b.
Definition getHashKey (b : Board) : Z := hashKey b.

(** The constructor: the four starting stones, Black to move. *)
Definition placeInitial (p : Player) (b : Board) (pos : Z * Z) : Board :=
  let '(x, y) := pos in
  let idx := index x y in
  let c := chunkOf idx in
  let b := setbb b p c (Z.lor (bb b p c) (Z.shiftl 1 (offsetOf idx))) in
  setHash b (Z.lxor (hashKey b) (zobristTable x y (playerIndex p))).

Definition emptyBoard : Board :=
  mkBoard (mkChunks 0 0 0) (mkChunks 0 0 0) 0 Black.

Definition initialBoard : Board :=
  let b := fold_left (placeInitial White) [(6, 6); (5, 5)] emptyBoard in
  let b := fold_left (placeInitial Black) [(6, 5); (5, 6)] b in
  setSide b Black.

(** [(bb[p][c] & (1ULL << off)) != 0]: the test [checkWin] makes on a cell. *)
Definition hasStone (b : Board) (p : Player) (x y : Z) : bool :=
  let idx := index x y in
  negb (Z.land (bb b p (chunkOf idx)) (Z.shiftl 1 (offsetOf idx)) =? 0).

Definition dirs : list (Z * Z) := [(1, 0); (0, 1); (1, 1); (1, -1)].

(** The two [while] loops of [checkWin]: walk from (nx,ny) by (dx,dy) while
    on the board and on a stone of [p]; [fuel] bounds the iterations (twelve
    are enough, lemma [extend_fuel]). *)
Fixpoint extend (fuel : nat) (b : Board) (p : Player)
    (nx ny dx dy count : Z) : Z :=
  match fuel with
  | O => count
  | S fuel' =>
      if inRange nx ny then
        if hasStone b p nx ny
        then extend fuel' b p (nx + dx) (ny + dy) dx dy (count + 1)
        else count
      else count
  end.

Definition lineCount (b : Board) (p : Player) (x y dx dy : Z) : Z :=
  let count := 1 in
  let count := extend 12 b p (x + dx) (y + dy) dx dy count in
  extend 12 b p (x - dx) (y - dy) (- dx) (- dy) count.

Definition checkWin (b : Board) (player : Player) : bool :=
  existsb (fun y =>
    existsb (fun x =>
      if negb (hasStone b player x y) then false
      else existsb (fun d => 5 <=? lineCount b player x y (fst d) (snd d)) dirs)
      (seqZ 0 12))
    (seqZ 0 12).

Definition getLegalMoves (b : Board) : list Move :=
  flat_map (fun y =>
    flat_map (fun x => if negb (isOccupied b x y) then [mkMove x y] else [])
             (seqZ 0 12))
    (seqZ 0 12).

(** The bounding box of [getCandidateMoves]:
    [(min_x, max_x, min_y, max_y, found)]. *)
Definition growBox (b : Board) (y : Z) (acc : Z * Z * Z * Z * bool) (x : Z)
    : Z * Z * Z * Z * bool :=
  let '(min_x, max_x, min_y, max_y, found) := acc in
  if isOccupied b x y then
    (if x <? min_x then x else min_x,
     if max_x <? x then x else max_x,
     if y <? min_y then y else min_y,
     if max_y <? y then y else max_y,
     true)
  else acc.

Definition boundingBox (b : Board) : Z * Z * Z * Z * bool :=
  fold_left (fun acc y => fold_left (growBox b y) (seqZ 0 12) acc)
            (seqZ 0 12) (12, -1, 12, -1, false).

Definition hasNeighbor (b : Board) (x y : Z) : bool :=
  existsb (fun dy =>
    existsb (fun dx =>
      if (dx =? 0) && (dy =? 0) then false
      else
        let nx := x + dx in
        let ny := y + dy in
        inRange nx ny && isOccupied b nx ny)
      [-1; 0; 1])
    [-1; 0; 1].

Definition getCandidateMoves (b : Board) : list Move :=
  let '(min_x, max_x, min_y, max_y, found) := boundingBox b in
  if negb found then [mkMove 5 5]
  else
    let min_x := Z.max 0 (min_x - 2) in
    let min_y := Z.max 0 (min_y - 2) in
    let max_x := Z.min 11 (max_x + 2) in
    let max_y := Z.min 11 (max_y + 2) in
    let moves :=
      flat_map (fun y =>
        flat_map (fun x =>
          if negb (isOccupied b x y) && hasNeighbor b x y
          then [mkMove x y] else [])
          (seqZ min_x (max_x - min_x + 1)))
        (seqZ min_y (max_y - min_y + 1)) in
    match moves with
    | [] => getLegalMoves b
    | _ => moves
    end.

(** Kernighan's bit count; a 64-bit word needs at most 64 rounds. *)
Fixpoint popcount64 (fuel : nat) (x : Z) (cnt : Z) : Z :=
  match fuel with
  | O => cnt
  | S fuel' =>
      if x =? 0 then cnt else popcount64 fuel' (Z.land x (x - 1)) (cnt + 1)
  end.

Definition countStones (b : Board) (player : Player) : Z :=
  fold_left (fun total c => total + popcount64 64 (bb b player c) 0) [0; 1; 2] 0.

(** The board a successful [makeMove] produces. *)
Definition placed (b : Board) (x y : Z) : Board :=
  let c := chunkOf (index x y) in
  let p := side_to_move b in
  let b1 := setbb b p c (Z.lor (bb b p c) (cellMask x y)) in
  mkBoard (bbBlack b1) (bbWhite b1)
    (Z.lxor (Z.lxor (hashKey b) (zobristTable x y (playerIndex p))) zobristSide)
    (other p).


(** ** C++ arithmetic and library behaviour *)

(** The value of an [int] computation whose mathematical result is [z]:
    the representative of [z] modulo 2^32 in [-2^31, 2^31). *)
Definition wrapInt (z : Z) : Z :=
  (z + 2147483648) mod 4294967296 - 2147483648.

(** The two library behaviours the engine relies on and the standard does
    not fix.  [sortDescending key l] stands for [std::sort] on [l] with a
    comparator [key a > key b]: a permutation of [l] in which the keys
    never increase; elements with equal keys come in an order of the
    library's choice.  [traverse m] is the order in which a range-for loop
    visits the entries of the [std::unordered_map] [m]. *)
Class StdLibrary := {
  sortDescending : forall {A : Type}, (A -> Z) -> list A -> list A;
  sortDescending_Permutation :
    forall {A : Type} (key : A -> Z) (l : list A), sortDescending key l ≡ₚ l;
  sortDescending_sorted :
    forall {A : Type} (key : A -> Z) (l : list A),
      StronglySorted (fun a b => key b <= key a) (sortDescending key l);
  traverse : gmap Z Z -> list (Z * Z);
  traverse_Permutation : forall m, traverse m ≡ₚ map_to_list m
}.

(** [a] may stand before [b] in a list sorted by descending [key]. *)
Definition descending {A : Type} (key : A -> Z) (a b : A) : Prop :=
  key b <= key a.

#[global] Instance descending_dec {A : Type} (key : A -> Z) a b :
  Decision (descending key a b).
Proof. unfold descending. apply _. Defined.

#[global] Instance descending_total {A : Type} (key : A -> Z) :
  Total (descending key).
Proof. intros a b. unfold descending. lia. Qed.

#[global] Instance descending_trans {A : Type} (key : A -> Z) :
  Transitive (descending key).
Proof. intros a b c. unfold descending. lia. Qed.

(** One library, used to run the model on examples: a stable merge sort,
    and the entries of a table in the order of [map_to_list].  A statement
    about a run on a given board that names no library is about this one;
    a statement with a library [L] among its variables holds for every
    library. *)
#[global, refine] Instance stableLibrary : StdLibrary := {
  sortDescending A key l := merge_sort (descending key) l;
  traverse m := map_to_list m
}.
Proof.
  - intros A key l. apply merge_sort_Permutation.
  - intros A key l. apply (StronglySorted_merge_sort (descending key)).
  - reflexivity.
Defined.

(** ** ThreatSolver *)

Record ThreatMove := mkThreat { move : Move; severity : Z }.

Module LineContext.
Record t := mk { xStart : Z; yStart : Z; dx : Z; dy : Z; length : Z }.
End LineContext.

Definition coordKey (x y : Z) : Z := y * 12 + x.

(** [int grid[12][12]], read as [grid y x]: 1 for the attacker, -1 for the
    defender, 0 for empty.  The solver reads it on the board only
    (lemma [allLines_on_board]). *)
Definition buildGrid (board : Board) (defender : Player) : Z -> Z -> Z :=
  fun y x =>
    let attacker := match defender with Black => White | White => Black end in
    let state := getCellState board x y in
    if ((state =? 1) && Player_eqb attacker Black)
       || ((state =? 2) && Player_eqb attacker White) then 1
    else if ((state =? 1) && Player_eqb defender Black)
            || ((state =? 2) && Player_eqb defender White) then -1
    else 0.

Definition addMoveIfStronger (x y severity : Z) (bestSeverity : gmap Z Z)
    : gmap Z Z :=
  if negb (inRange x y) then bestSeverity
  else
    let key := coordKey x y in
    match bestSeverity !! key with
    | None => <[ key := severity ]> bestSeverity
    | Some old =>
        if old <? severity then <[ key := severity ]> bestSeverity
        else bestSeverity
    end.

Definition OPEN_FOUR : Z := 1000000.
Definition SIMPLE_FOUR : Z := 500000.
Definition OPEN_THREE : Z := 120000.
Definition BROKEN_THREE : Z := 60000.

Definition cellAt (grid : Z -> Z -> Z) (ctx : LineContext.t) (offset : Z) : Z :=
  let x := LineContext.xStart ctx + offset * LineContext.dx ctx in
  let y := LineContext.yStart ctx + offset * LineContext.dy ctx in
  grid y x.

(** The inner loop over [j]:
    [(defenderStones, attackerStones, empties, emptyOffsets)]. *)
Definition countWindow (grid : Z -> Z -> Z) (ctx : LineContext.t) (i : Z)
    : Z * Z * Z * list Z :=
  fold_left (fun acc j =>
      let '(defenderStones, attackerStones, empties, emptyOffsets) := acc in
      let val := cellAt grid ctx (i + j) in
      if val =? -1 then (defenderStones + 1, attackerStones, empties, emptyOffsets)
      else if val =? 1 then (defenderStones, attackerStones + 1, empties, emptyOffsets)
      else (defenderStones, attackerStones, empties + 1, emptyOffsets ++ [j]))
    (seqZ 0 5) (0, 0, 0, []).

(** Coordinates of the window cell at [offset]. *)
Definition windowCell (ctx : LineContext.t) (i offset : Z) : Z * Z :=
  (LineContext.xStart ctx + (i + offset) * LineContext.dx ctx,
   LineContext.yStart ctx + (i + offset) * LineContext.dy ctx).

(** One round of [processLine]'s loop over the window start [i]. *)
Definition processWindow (grid : Z -> Z -> Z) (ctx : LineContext.t)
    (bestSeverity : gmap Z Z) (i : Z) : gmap Z Z :=
  let '(defenderStones, attackerStones, empties, emptyOffsets) :=
    countWindow grid ctx i in
  if 0 <? defenderStones then bestSeverity
  else
    let leftOpen := (0 <=? i - 1) && (cellAt grid ctx (i - 1) =? 0) in
    let rightOpen :=
      (i + 5 <? LineContext.length ctx) && (cellAt grid ctx (i + 5) =? 0) in
    if (attackerStones =? 4) && (empties =? 1) then
      let offset := nth 0 emptyOffsets 0 in
      let '(x, y) := windowCell ctx i offset in
      let severity := if leftOpen && rightOpen then OPEN_FOUR else SIMPLE_FOUR in
      addMoveIfStronger x y severity bestSeverity
    else if (attackerStones =? 3) && (empties =? 2) then
      if leftOpen && rightOpen then
        fold_left (fun m offset =>
            let '(x, y) := windowCell ctx i offset in
            addMoveIfStronger x y OPEN_THREE m) emptyOffsets bestSeverity
      else if leftOpen || rightOpen then
        fold_left (fun m offset =>
            let '(x, y) := windowCell ctx i offset in
            addMoveIfStronger x y BROKEN_THREE m) emptyOffsets bestSeverity
      else bestSeverity
    else bestSeverity.

(** [for (int i = 0; i + 5 <= ctx.length; ++i)] *)
Definition processLine (grid : Z -> Z -> Z) (ctx : LineContext.t)
    (bestSeverity : gmap Z Z) : gmap Z Z :=
  fold_left (processWindow grid ctx) (seqZ 0 (LineContext.length ctx - 4))
            bestSeverity.

Definition horizontalLines : list LineContext.t :=
  map (fun y => LineContext.mk 0 y 1 0 12) (seqZ 0 12).

Definition verticalLines : list LineContext.t :=
  map (fun x => LineContext.mk x 0 0 1 12) (seqZ 0 12).

Definition diagonalLines : list LineContext.t :=
  map (fun k =>
      let xStart := Z.max 0 k in
      let yStart := Z.max 0 (- k) in
      let len := Z.min (12 - xStart) (12 - yStart) in
      LineContext.mk xStart yStart 1 1 len)
    (seqZ (-11) 23).

Definition antiDiagonalLines : list LineContext.t :=
  map (fun s =>
      let xStart := Z.max 0 (s - 11) in
      let yStart := Z.min 11 s in
      let len := Z.min (yStart + 1) (12 - xStart) in
      LineContext.mk xStart yStart 1 (-1) len)
    (seqZ 0 23).

(** The lines in the order [findBlockingMoves] scans them. *)
Definition allLines : list LineContext.t :=
  horizontalLines ++ verticalLines ++ diagonalLines ++ antiDiagonalLines.

(** The order of the final [std::sort], whose comparator is
    [a.severity > b.severity]: [a] may stand before [b]. *)
Definition severityGe (a b : ThreatMove) : Prop := severity b <= severity a.

#[global] Instance severityGe_dec a b : Decision (severityGe a b).
Proof. unfold severityGe. apply _. Defined.

(** The table after all four families of lines have been scanned. *)
Definition scanBoard (board : Board) (defender : Player) : gmap Z Z :=
  let grid := buildGrid board defender in
  fold_left (fun m ctx => processLine grid ctx m) allLines ∅.

Definition findBlockingMoves {L : StdLibrary} (board : Board) (defender : Player)
    : list ThreatMove :=
  let bestSeverity := scanBoard board defender in
  let result :=
    map (fun entry : Z * Z =>
        let key := fst entry in
        let y := Z.quot key 12 in
        let x := Z.rem key 12 in
        mkThreat (mkMove x y) (snd entry))
      (traverse bestSeverity) in
  sortDescending severity result.

(** ** HistoryHeuristic *)

(** [int table[12][12]], flattened: entry [x][y] is at index [x*12 + y]. *)
Module HistoryHeuristic.

Definition slot (m : Move) : nat := Z.to_nat (mx m * 12 + my m).

Definition reset : list Z := replicate 144 0.

(** [int bonus = depth * depth; table[m.x][m.y] += bonus;], both in [int]
    arithmetic. *)
Definition increment (table : list Z) (m : Move) (depth : Z) : list Z :=
  if inRange (mx m) (my m) then
    let bonus := wrapInt (depth * depth) in
    <[ slot m := wrapInt (nth (slot m) table 0 + bonus) ]> table
  else table.

Definition get (table : list Z) (m : Move) : Z :=
  if inRange (mx m) (my m) then nth (slot m) table 0 else 0.

End HistoryHeuristic.

(** ** SearchEngine *)

Module TTEntry.
Record t := mk { depth : Z; score : Z; flag : Z; bestMove : Move }.
End TTEntry.

Module EvalResult.
Record t := mk {
  patternScore : Z;
  longestRun : Z;
  longestOpenEnds : Z;
  hasOpenFourDouble : bool
}.
End EvalResult.

Definition MAX_PLY : Z := 64.
Definition INT_MIN : Z := -2147483648.
Definition INT_MAX : Z := 2147483647.
Definition noMove : Move := mkMove (-1) (-1).

(** The engine's fields.  [clockReads] is not a field of the class: it counts
    the readings of [steady_clock] made so far, so that every reading can
    get its own value from the clock. *)
Record SearchEngine := mkEngine {
  timeEnd : Z;
  maxDepthReached : Z;
  transTable : gmap Z TTEntry.t;
  killerMoves : list (Move * Move);
  history : list Z;
  clockReads : nat
}.

Definition setTransTable (s : SearchEngine) (tt : gmap Z TTEntry.t) :=
  mkEngine (timeEnd s) (maxDepthReached s) tt (killerMoves s) (history s)
           (clockReads s).
Definition setKillerMoves (s : SearchEngine) (k : list (Move * Move)) :=
  mkEngine (timeEnd s) (maxDepthReached s) (transTable s) k (history s)
           (clockReads s).
Definition setHistory (s : SearchEngine) (h : list Z) :=
  mkEngine (timeEnd s) (maxDepthReached s) (transTable s) (killerMoves s) h
           (clockReads s).
Definition setMaxDepthReached (s : SearchEngine) (d : Z) :=
  mkEngine (timeEnd s) d (transTable s) (killerMoves s) (history s)
           (clockReads s).

Definition patternScore (count : Z) (leftOpen rightOpen : bool) : Z :=
  if 5 <=? count then 100000000
  else if (count =? 4) && (leftOpen && rightOpen) then 10000000
  else if (count =? 4) && (leftOpen || rightOpen) then 1000000
  else if (count =? 3) && (leftOpen && rightOpen) then 100000
  else if (count =? 3) && (leftOpen || rightOpen) then 10000
  else if (count =? 2) && (leftOpen && rightOpen) then 1000
  else if (count =? 2) && (leftOpen || rightOpen) then 100
  else 0.

(** The grid of [evaluatePlayer]: 1 for [player], -1 for the opponent. *)
Definition playerGrid (board : Board) (player : Player) : Z -> Z -> Z :=
  fun y x =>
    let state := getCellState board x y in
    if state =? 0 then 0
    else if ((state =? 1) && Player_eqb player Black)
            || ((state =? 2) && Player_eqb player White) then 1
    else -1.

(** End of the run of 1s that starts at [j]. *)
Fixpoint runEnd (fuel : nat) (grid : Z -> Z -> Z) (ctx : LineContext.t) (j : Z) : Z :=
  match fuel with
  | O => j
  | S fuel' =>
      if (j <? LineContext.length ctx) && (cellAt grid ctx j =? 1)
      then runEnd fuel' grid ctx (j + 1)
      else j
  end.

(** What [evaluatePlayer] does with one run: [score += patternScore(...)]
    and the update of the longest run. *)
Definition recordRun (r : EvalResult.t) (count : Z) (leftOpen rightOpen : bool)
    : EvalResult.t :=
  let score :=
    wrapInt (EvalResult.patternScore r + patternScore count leftOpen rightOpen) in
  let openEnds := (if leftOpen then 1 else 0) + (if rightOpen then 1 else 0) in
  let better :=
    (EvalResult.longestRun r <? count)
    || ((count =? EvalResult.longestRun r)
        && (EvalResult.longestOpenEnds r <? openEnds)) in
  EvalResult.mk score
    (if better then count else EvalResult.longestRun r)
    (if better then openEnds else EvalResult.longestOpenEnds r)
    (EvalResult.hasOpenFourDouble r
     || ((count =? 4) && leftOpen && rightOpen)).

(** The scan of one line for maximal runs; the same loop is written four
    times in [evaluatePlayer], once per family of lines. *)
Fixpoint scanRuns (fuel : nat) (grid : Z -> Z -> Z) (ctx : LineContext.t)
    (i : Z) (r : EvalResult.t) : EvalResult.t :=
  match fuel with
  | O => r
  | S fuel' =>
      if i <? LineContext.length ctx then
        if cellAt grid ctx i =? 1 then
          let j := runEnd 12 grid ctx i in
          let count := j - i in
          let leftOpen := (0 <=? i - 1) && (cellAt grid ctx (i - 1) =? 0) in
          let rightOpen :=
            (j <? LineContext.length ctx) && (cellAt grid ctx j =? 0) in
          scanRuns fuel' grid ctx j (recordRun r count leftOpen rightOpen)
        else scanRuns fuel' grid ctx (i + 1) r
      else r
  end.

Definition evaluatePlayer (board : Board) (player : Player) : EvalResult.t :=
  let grid := playerGrid board player in
  fold_left (fun r ctx => scanRuns 12 grid ctx 0 r) allLines
            (EvalResult.mk 0 0 0 false).

(** The lambda [longestBias]; a run is at most 12 long and has at most two
    open ends, so the result is at most 904000. *)
Definition longestBias (r : EvalResult.t) : Z :=
  let runScore :=
    EvalResult.longestRun r * EvalResult.longestRun r * EvalResult.longestRun r * 500 in
  let opennessBonus := EvalResult.longestOpenEnds r * 20000 in
  runScore + opennessBonus.

Definition evaluate (board : Board) (myColor : Player) : Z :=
  let opponent := match myColor with Black => White | White => Black end in
  let myEval := evaluatePlayer board myColor in
  let oppEval := evaluatePlayer board opponent in
  if EvalResult.hasOpenFourDouble myEval
     && negb (EvalResult.hasOpenFourDouble oppEval) then 90000000
  else if EvalResult.hasOpenFourDouble oppEval
          && negb (EvalResult.hasOpenFourDouble myEval) then -90000000
  else
    let positionalScore :=
      wrapInt (EvalResult.patternScore myEval - EvalResult.patternScore oppEval) in
    let shapeScore := longestBias myEval - longestBias oppEval in
    wrapInt (positionalScore + shapeScore).

(** [cellOf] of [isWinningMove]. *)
Definition cellOf (board : Board) (player : Player) (cx cy : Z) : Z :=
  let state := getCellState board cx cy in
  if state =? 0 then 0
  else if Player_eqb (if state =? 1 then Black else White) player then 1
  else -1.

Fixpoint extendOwn (fuel : nat) (board : Board) (player : Player)
    (nx ny dx dy count : Z) : Z :=
  match fuel with
  | O => count
  | S fuel' =>
      if inRange nx ny && (cellOf board player nx ny =? 1)
      then extendOwn fuel' board player (nx + dx) (ny + dy) dx dy (count + 1)
      else count
  end.

Definition isWinningMove (board : Board) (player : Player) (x y : Z) : bool :=
  if isOccupied board x y then false
  else
    existsb (fun d =>
        let dx := fst d in
        let dy := snd d in
        let count := 1 in
        let count := extendOwn 12 board player (x + dx) (y + dy) dx dy count in
        let count :=
          extendOwn 12 board player (x - dx) (y - dy) (- dx) (- dy) count in
        5 <=? count)
      dirs.

Definition getOpeningMove (board : Board) (myColor : Player) : option Move :=
  let total := countStones board Black + countStones board White in
  if (total =? 4) && Player_eqb (sideToMove board) myColor then
    if Player_eqb myColor Black then
      find (fun m => negb (isOccupied board (mx m) (my m)))
           [mkMove 7 7; mkMove 7 4; mkMove 4 7; mkMove 4 4]
    else None
  else None.

(** The order of the two [std::sort] calls on scored moves, whose
    comparator is [a.first > b.first]: [a] may stand before [b]. *)
Definition scoreGe (a b : Z * Move) : Prop := fst b <= fst a.

#[global] Instance scoreGe_dec a b : Decision (scoreGe a b).
Proof. unfold scoreGe. apply _. Defined.

(** The killer update made at a cutoff. *)
Definition recordKiller (ply : Z) (m : Move) (s : SearchEngine) : SearchEngine :=
  if ply <? MAX_PLY then
    let k := nth (Z.to_nat ply) (killerMoves s) (noMove, noMove) in
    if negb ((mx (fst k) =? mx m) && (my (fst k) =? my m)) then
      setKillerMoves s (<[ Z.to_nat ply := (m, fst k) ]> (killerMoves s))
    else s
  else s.

(** The probe of the transposition table at the head of [alphaBeta]: either
    the node returns the stored score, or the search goes on with a window. *)
Inductive Probe :=
| ProbeReturn (score : Z)
| ProbeWindow (alpha beta : Z).

Definition probe (found : option TTEntry.t) (depth alpha beta : Z) : Probe :=
  match found with
  | None => ProbeWindow alpha beta
  | Some entry =>
      if depth <=? TTEntry.depth entry then
        if TTEntry.flag entry =? 0 then ProbeReturn (TTEntry.score entry)
        else
          let alpha :=
            if (TTEntry.flag entry =? 1) && (alpha <? TTEntry.score entry)
            then TTEntry.score entry else alpha in
          let beta :=
            if negb (TTEntry.flag entry =? 1) && (TTEntry.flag entry =? 2)
               && (TTEntry.score entry <? beta)
            then TTEntry.score entry else beta in
          if beta <=? alpha then ProbeReturn (TTEntry.score entry)
          else ProbeWindow alpha beta
      else ProbeWindow alpha beta
  end.

(** The bound flag stored after the move loop. *)
Definition boundFlag (bestValue alphaOrig betaOrig : Z) : Z :=
  if bestValue <=? alphaOrig then 2
  else if betaOrig <=? bestValue then 1
  else 0.

(** How a move loop of [alphaBeta] ends: by [return 0] after the clock ran
    out, or by leaving the loop (at its end, on [break]). *)
Inductive LoopResult :=
| LoopReturn0
| LoopDone (bestValue : Z) (bestMove : Move).

(** How the sweep over the root moves ends. *)
Inductive RootResult :=
| RootWin (m : Move)
| RootDone (currentBestVal : Z) (currentBestMove : Move).

(** How one round of the iterative-deepening loop ends. *)
Inductive IterResult :=
| IterReturn (m : Move)
| IterNext (rootMoves : list Move) (bestMove : Move) (bestVal : Z).

Section Engine.

Context {L : StdLibrary}.

(** [now n] is what the [n]-th reading of [std::chrono::steady_clock::now()]
    returns, in milliseconds. *)
Variable now : nat -> Z.

Definition tick (s : SearchEngine) : SearchEngine :=
  mkEngine (timeEnd s) (maxDepthReached s) (transTable s) (killerMoves s)
           (history s) (S (clockReads s)).

Definition startTimer (timeLimitMs : Z) (s : SearchEngine) : SearchEngine :=
  mkEngine (now (clockReads s) + timeLimitMs) 0 (transTable s) (killerMoves s)
           (history s) (S (clockReads s)).

Definition timeUp (s : SearchEngine) : bool * SearchEngine :=
  (timeEnd s <=? now (clockReads s), tick s).

(** The body of [orderMoves]' loop for one candidate [m]; the board is
    played on and restored. *)
Definition scoreMove (currentPlayer myColor : Player) (ply : Z)
    (s : SearchEngine) (defensiveLookup : gmap Z Z)
    (board : Board) (m : Move) : Z * Board :=
  let opponent := match currentPlayer with Black => White | White => Black end in
  let board := snd (makeMove board (mx m) (my m)) in
  let winForCurrent := checkWin board currentPlayer in
  let oppCandidates := getCandidateMoves board in
  let winForOpp :=
    existsb (fun oppMove => isWinningMove board opponent (mx oppMove) (my oppMove))
            oppCandidates in
  let evalScore := evaluate board myColor in
  let board := snd (unmakeMove board (mx m) (my m)) in
  let score :=
    if winForCurrent then 100000000
    else if winForOpp then -10000000
    else evalScore in
  let dx := mx m - 5 in
  let dy := my m - 5 in
  let score := wrapInt (score - (dx * dx + dy * dy)) in
  let key := my m * 12 + mx m in
  let score :=
    match defensiveLookup !! key with
    | Some sev => wrapInt (score + sev)
    | None => score
    end in
  let score :=
    if ply <? MAX_PLY then
      let k := nth (Z.to_nat ply) (killerMoves s) (noMove, noMove) in
      if (mx (fst k) =? mx m) && (my (fst k) =? my m)
      then wrapInt (score + 1000000)
      else if (mx (snd k) =? mx m) && (my (snd k) =? my m)
      then wrapInt (score + 500000)
      else score
    else score in
  let score := wrapInt (score + HistoryHeuristic.get (history s) m) in
  (score, board).

Definition orderMoves (board : Board) (currentPlayer myColor : Player)
    (ply : Z) (s : SearchEngine) : list Move * Board :=
  let moves := getCandidateMoves board in
  let defensiveMoves := findBlockingMoves board currentPlayer in
  let defensiveLookup :=
    fold_left (fun (lookup : gmap Z Z) t =>
        let key := my (move t) * 12 + mx (move t) in
        match lookup !! key with
        | None => <[ key := severity t ]> lookup
        | Some old =>
            if old <? severity t then <[ key := severity t ]> lookup else lookup
        end)
      defensiveMoves ∅ in
  let '(scored, board) :=
    fold_left (fun (acc : list (Z * Move) * Board) m =>
        let '(score, board) :=
          scoreMove currentPlayer myColor ply s defensiveLookup (snd acc) m in
        (fst acc ++ [(score, m)], board))
      moves ([], board) in
  (map snd (sortDescending fst scored), board).

Section MoveLoops.

(** The recursive call made on each move: [alphaBeta] one ply deeper, given
    the board after the move and the current window. *)
Variable child : Board -> Z -> Z -> SearchEngine -> Z * Board * SearchEngine.
Variables (depth ply : Z).

Definition cutoff (m : Move) (s : SearchEngine) : SearchEngine :=
  let s := recordKiller ply m s in
  setHistory s (HistoryHeuristic.increment (history s) m depth).

(** The loop of the maximising side. *)
Fixpoint maxLoop (moves : list Move) (board : Board) (alpha beta : Z)
    (bestValue : Z) (bestMove : Move) (s : SearchEngine)
    : LoopResult * Board * SearchEngine :=
  match moves with
  | [] => (LoopDone bestValue bestMove, board, s)
  | m :: rest =>
      let '(up, s) := timeUp s in
      if up then (LoopDone bestValue bestMove, board, s)
      else
        let board := snd (makeMove board (mx m) (my m)) in
        let '(val, board, s) := child board alpha beta s in
        let board := snd (unmakeMove board (mx m) (my m)) in
        let '(up, s) := timeUp s in
        if up then (LoopReturn0, board, s)
        else
          let better := bestValue <? val in
          let bestValue := if better then val else bestValue in
          let bestMove := if better then m else bestMove in
          let alpha := if alpha <? bestValue then bestValue else alpha in
          if beta <=? alpha
          then (LoopDone bestValue bestMove, board, cutoff m s)
          else maxLoop rest board alpha beta bestValue bestMove s
  end.

(** The loop of the minimising side. *)
Fixpoint minLoop (moves : list Move) (board : Board) (alpha beta : Z)
    (bestValue : Z) (bestMove : Move) (s : SearchEngine)
    : LoopResult * Board * SearchEngine :=
  match moves with
  | [] => (LoopDone bestValue bestMove, board, s)
  | m :: rest =>
      let '(up, s) := timeUp s in
      if up then (LoopDone bestValue bestMove, board, s)
      else
        let board := snd (makeMove board (mx m) (my m)) in
        let '(val, board, s) := child board alpha beta s in
        let board := snd (unmakeMove board (mx m) (my m)) in
        let '(up, s) := timeUp s in
        if up then (LoopReturn0, board, s)
        else
          let better := val <? bestValue in
          let bestValue := if better then val else bestValue in
          let bestMove := if better then m else bestMove in
          let beta := if bestValue <? beta then bestValue else beta in
          if beta <=? alpha
          then (LoopDone bestValue bestMove, board, cutoff m s)
          else minLoop rest board alpha beta bestValue bestMove s
  end.

End MoveLoops.

(** The part of [alphaBeta] below the probe: move generation, ordering, the
    move loop and the store into the table.  [key] is the hash read before
    the probe. *)
Definition expand
    (child : Board -> Z -> Z -> SearchEngine -> Z * Board * SearchEngine)
    (board : Board) (depth alpha beta : Z) (currentPlayer myColor : Player)
    (ply : Z) (key : Z) (s : SearchEngine) : Z * Board * SearchEngine :=
  match getCandidateMoves board with
  | [] => (evaluate board myColor, board, s)
  | _ :: _ =>
      let '(ordered, board) := orderMoves board currentPlayer myColor ply s in
      let alphaOrig := alpha in
      let betaOrig := beta in
      let '(res, board, s) :=
        if Player_eqb currentPlayer myColor
        then maxLoop child depth ply ordered board alpha beta INT_MIN noMove s
        else minLoop child depth ply ordered board alpha beta INT_MAX noMove s in
      match res with
      | LoopReturn0 => (0, board, s)
      | LoopDone bestValue bestMove =>
          let flag := boundFlag bestValue alphaOrig betaOrig in
          let newEntry := TTEntry.mk depth bestValue flag bestMove in
          (bestValue, board,
           setTransTable s (<[ key := newEntry ]> (transTable s)))
      end
  end.

(** [alphaBeta]; [fuel] bounds the recursion depth and is never the reason
    to stop when it is at least [depth] (lemma [alphaBetaFuel_enough]). *)
Fixpoint alphaBetaFuel (fuel : nat) (board : Board) (depth alpha beta : Z)
    (currentPlayer myColor : Player) (ply : Z) (s : SearchEngine)
    : Z * Board * SearchEngine :=
  let '(up, s) := timeUp s in
  if up then (0, board, s)
  else if checkWin board myColor
  then (100000000 - (maxDepthReached s - depth), board, s)
  else
    let opponent := match myColor with Black => White | White => Black end in
    if checkWin board opponent
    then (-100000000 + (maxDepthReached s - depth), board, s)
    else if depth <=? 0 then (evaluate board myColor, board, s)
    else
      match fuel with
      | O => (evaluate board myColor, board, s)
      | S fuel' =>
          let key := getHashKey board in
          match probe (transTable s !! key) depth alpha beta with
          | ProbeReturn score => (score, board, s)
          | ProbeWindow alpha beta =>
              expand
                (fun board alpha beta s =>
                   alphaBetaFuel fuel' board (depth - 1) alpha beta
                     (match currentPlayer with Black => White | White => Black end)
                     myColor (ply + 1) s)
                board depth alpha beta currentPlayer myColor ply key s
          end
      end.

Definition alphaBeta (board : Board) (depth alpha beta : Z)
    (currentPlayer myColor : Player) (ply : Z) (s : SearchEngine)
    : Z * Board * SearchEngine :=
  alphaBetaFuel (Z.to_nat depth) board depth alpha beta currentPlayer myColor ply s.

(** The root call made on a root move at iteration [depth]. *)
Definition rootSearch (depth : Z) (myColor : Player) (board : Board)
    (s : SearchEngine) : Z * Board * SearchEngine :=
  alphaBeta board (depth - 1) (INT_MIN + 1) (INT_MAX - 1)
    (match myColor with Black => White | White => Black end) myColor 1 s.

(** The sweep over the root moves at one depth. *)
Fixpoint rootSweep (depth : Z) (myColor : Player) (moves : list Move)
    (board : Board) (currentBestVal : Z) (currentBestMove : Move)
    (s : SearchEngine) : RootResult * Board * SearchEngine :=
  match moves with
  | [] => (RootDone currentBestVal currentBestMove, board, s)
  | m :: rest =>
      let '(up, s) := timeUp s in
      if up then (RootDone currentBestVal currentBestMove, board, s)
      else
        let board := snd (makeMove board (mx m) (my m)) in
        let '(val, board, s) := rootSearch depth myColor board s in
        let board := snd (unmakeMove board (mx m) (my m)) in
        let '(up, s) := timeUp s in
        if up then (RootDone currentBestVal currentBestMove, board, s)
        else if 90000000 <? val then (RootWin m, board, s)
        else
          let better := currentBestVal <? val in
          rootSweep depth myColor rest board
            (if better then val else currentBestVal)
            (if better then m else currentBestMove) s
  end.

(** The second pass over the root moves, made after a completed depth. *)
Fixpoint rescore (depth : Z) (myColor : Player) (moves : list Move)
    (board : Board) (s : SearchEngine)
    : list (Z * Move) * Board * SearchEngine :=
  match moves with
  | [] => ([], board, s)
  | m :: rest =>
      let board := snd (makeMove board (mx m) (my m)) in
      let '(val, board, s) := rootSearch depth myColor board s in
      let board := snd (unmakeMove board (mx m) (my m)) in
      let '(scored, board, s) := rescore depth myColor rest board s in
      ((val, m) :: scored, board, s)
  end.

(** One round of the iterative-deepening loop: at depth [depth], with the
    root moves in their current order and the best move and value recorded
    so far.  The round either ends the search with a move, or completes the
    depth and hands the next round the re-sorted root moves and what it
    recorded. *)
Definition iteration (depth : Z) (myColor : Player)
    (rootMoves : list Move) (bestMove : Move) (bestVal : Z)
    (board : Board) (s : SearchEngine) : IterResult * Board * SearchEngine :=
  let '(up, s) := timeUp s in
  if up then (IterReturn bestMove, board, s)
  else
    let s := setMaxDepthReached s depth in
    let currentBestMove := hd noMove rootMoves in
    let currentBestVal := INT_MIN in
    let '(res, board, s) :=
      rootSweep depth myColor rootMoves board currentBestVal currentBestMove s in
    match res with
    | RootWin m => (IterReturn m, board, s)
    | RootDone currentBestVal currentBestMove =>
        let '(up, s) := timeUp s in
        if negb up then
          let bestVal := currentBestVal in
          let bestMove := currentBestMove in
          let '(scored, board, s) := rescore depth myColor rootMoves board s in
          let rootMoves := map snd (sortDescending fst scored) in
          (IterNext rootMoves bestMove bestVal, board, s)
        else (IterReturn bestMove, board, s)
    end.

(** The loop [for (int depth = 1; ; ++depth)] itself.  It has no bound of
    its own; [fuel] counts the rounds still allowed and [None] means they
    ran out. *)
Fixpoint deepen (fuel : nat) (depth : Z) (myColor : Player)
    (rootMoves : list Move) (bestMove : Move) (bestVal : Z)
    (board : Board) (s : SearchEngine) : option (Move * Board * SearchEngine) :=
  match fuel with
  | O => None
  | S fuel' =>
      let '(res, board, s) :=
        iteration depth myColor rootMoves bestMove bestVal board s in
      match res with
      | IterReturn m => Some (m, board, s)
      | IterNext rootMoves bestMove bestVal =>
          deepen fuel' (depth + 1) myColor rootMoves bestMove bestVal board s
      end
  end.

(** The block of the opponent's winning cell that keeps the best static
    evaluation. *)
Definition pickBlock (myColor : Player) (opponentWins : list Move)
    (board : Board) : Move * Board :=
  let '(bestBlock, _, board) :=
    fold_left (fun (acc : Move * Z * Board) block =>
        let '(bestBlock, bestScore, board) := acc in
        let board := snd (makeMove board (mx block) (my block)) in
        let score := evaluate board myColor in
        let board := snd (unmakeMove board (mx block) (my block)) in
        if bestScore <? score then (block, score, board)
        else (bestBlock, bestScore, board))
      opponentWins (hd noMove opponentWins, INT_MIN, board) in
  (bestBlock, board).

(** The tail of [findBestMove], from the ordering of the root moves on. *)
Definition searchRoot (fuel : nat) (board : Board) (myColor : Player)
    (s : SearchEngine) : option (Move * Board * SearchEngine) :=
  let bestMove := noMove in
  let '(rootMoves, board) := orderMoves board myColor myColor 0 s in
  match rootMoves with
  | [] => Some (bestMove, board, s)
  | _ :: _ => deepen fuel 1 myColor rootMoves bestMove INT_MIN board s
  end.

Definition findBestMove (fuel : nat) (board : Board) (myColor : Player)
    (timeLimitMs : Z) (s : SearchEngine)
    : option (Move * Board * SearchEngine) :=
  let s := startTimer timeLimitMs s in
  let s := setTransTable s ∅ in
  let s := setHistory s HistoryHeuristic.reset in
  let s := setKillerMoves s (replicate (Z.to_nat MAX_PLY) (noMove, noMove)) in
  match getOpeningMove board myColor with
  | Some bookMove => Some (bookMove, board, s)
  | None =>
      let legalMoves := getLegalMoves board in
      match find (fun m => isWinningMove board myColor (mx m) (my m)) legalMoves with
      | Some m => Some (m, board, s)
      | None =>
          let opponent := match myColor with Black => White | White => Black end in
          let opponentWins :=
            List.filter (fun m => isWinningMove board opponent (mx m) (my m))
                        legalMoves in
          match opponentWins with
          | _ :: _ =>
              let '(bestBlock, board) := pickBlock myColor opponentWins board in
              Some (bestBlock, board, s)
          | [] =>
              let defensiveMoves := findBlockingMoves board myColor in
              let urgent :=
                match defensiveMoves with
                | t :: _ => 500000 <=? severity t
                | [] => false
                end in
              if urgent
              then Some (move (hd (mkThreat noMove 0) defensiveMoves), board, s)
              else searchRoot fuel board myColor s
          end
      end
  end.

End Engine.

(** ** Notions used to state the properties *)

(** *** Positions reached in play

    A board starts as [initialBoard] and is changed by [makeMove] and by
    [unmakeMove] on the cell played last (the lifecycle the search follows).
    The list records the moves played and not yet undone, most recent
    first. *)
Inductive reachable : Board -> list (Z * Z) -> Prop :=
| reach_init : reachable initialBoard []
| reach_make b played x y b' :
    reachable b played ->
    makeMove b x y = (true, b') ->
    reachable b' ((x, y) :: played)
| reach_refused b played x y b' :
    reachable b played ->
    makeMove b x y = (false, b') ->
    reachable b' played
| reach_unmake b played x y b' :
    reachable b ((x, y) :: played) ->
    unmakeMove b x y = (true, b') ->
    reachable b' played.

(** *** The Zobrist key of a position

    The key that belongs to the cell states [cells] and the side to move:
    the xor of one table entry per stone and of the side marker when White
    is to move.  It reads nothing but the states of the 144 cells and the
    side. *)
Definition allCells : list (Z * Z) :=
  flat_map (fun y => map (fun x => (x, y)) (seqZ 0 12)) (seqZ 0 12).

Definition cellKey (state x y : Z) : Z :=
  if state =? 1 then zobristTable x y 0
  else if state =? 2 then zobristTable x y 1
  else 0.

Definition sideKey (p : Player) : Z :=
  match p with Black => 0 | White => zobristSide end.

Definition zobristOf (cells : Z -> Z -> Z) (side : Player) : Z :=
  fold_right (fun c h => Z.lxor (cellKey (cells (fst c) (snd c)) (fst c) (snd c)) h)
             (sideKey side) allCells.

(** *** Five in a row

    [n] stones of [p] on consecutive cells from (x,y) in direction (dx,dy),
    all of them on the board. *)
Definition rowOf (b : Board) (p : Player) (x y dx dy n : Z) : Prop :=
  forall k, 0 <= k < n ->
    inRange (x + k * dx) (y + k * dy) = true /\
    hasStone b p (x + k * dx) (y + k * dy) = true.

Definition fiveInRow (b : Board) (p : Player) : Prop :=
  exists x y dx dy n,
    In (dx, dy) dirs /\ 5 <= n /\ rowOf b p x y dx dy n.

(** Boards built for examples: the moves are played in turn from the
    initial position. *)
Definition playAll (b : Board) (ms : list (Z * Z)) : Board :=
  fold_left (fun b m => snd (makeMove b (fst m) (snd m))) ms b.

(** The boards built by legal moves alone, with the moves made. *)
Inductive played : Board -> list (Z * Z) -> Prop :=
| played_init : played initialBoard []
| played_step b ms x y :
    played b ms ->
    inRange x y = true -> isOccupied b x y = false ->
    played (placed b x y) ((x, y) :: ms).

(** The same notion read through [getCellState] (1 is Black, 2 is White). *)
Definition rowOfState (b : Board) (p : Player) (x y dx dy n : Z) : Prop :=
  forall k, 0 <= k < n ->
    getCellState b (x + k * dx) (y + k * dy) = playerIndex p + 1.

Definition fiveInRowState (b : Board) (p : Player) : Prop :=
  exists x y dx dy n,
    In (dx, dy) dirs /\ 5 <= n /\ rowOfState b p x y dx dy n.


(** The key of a board equals the key of its position. *)
Definition hashOK (b : Board) : Prop :=
  hashKey b = zobristOf (getCellState b) (side_to_move b).

(** In play no cell ever holds a stone of both sides. *)
Definition disjoint (b : Board) : Prop :=
  forall x y, inRange x y = true ->
    hasStone b Black x y && hasStone b White x y = false.


(** *** Windows of five cells

    A window is given by its first cell and a direction of [dirs]; it lies
    on the board when its first and last cells do. *)
Record Window := mkWindow { wx : Z; wy : Z; wdx : Z; wdy : Z }.

Definition winCell (w : Window) (j : Z) : Z * Z :=
  (wx w + j * wdx w, wy w + j * wdy w).

Definition winCells (w : Window) : list (Z * Z) := map (winCell w) (seqZ 0 5).

Definition isWindow (w : Window) : Prop :=
  In (wdx w, wdy w) dirs /\
  inRange (fst (winCell w 0)) (snd (winCell w 0)) = true /\
  inRange (fst (winCell w 4)) (snd (winCell w 4)) = true.

(** The state [getCellState] reports for a stone of [p]. *)
Definition stateOf (p : Player) : Z := playerIndex p + 1.

Definition countState (b : Board) (cells : list (Z * Z)) (state : Z) : Z :=
  Z.of_nat (List.length
    (List.filter (fun c => getCellState b (fst c) (snd c) =? state) cells)).

(** A cell just outside a window counts as open when it is on the board and
    empty. *)
Definition openEnd (b : Board) (c : Z * Z) : bool :=
  inRange (fst c) (snd c) && (getCellState b (fst c) (snd c) =? 0).

(** The severity a window calls for, following the table of the threat
    solver: nothing if a defender stone is in the window; four attacker
    stones and one empty cell give 1,000,000 with both ends open and 500,000
    otherwise; three attacker stones and two empty cells give 120,000 with
    both ends open, 60,000 with one, nothing with none. *)
Definition windowSeverity (b : Board) (defender : Player) (w : Window)
    : option Z :=
  let cells := winCells w in
  let attackers := countState b cells (stateOf (other defender)) in
  let empties := countState b cells 0 in
  let leftOpen := openEnd b (winCell w (-1)) in
  let rightOpen := openEnd b (winCell w 5) in
  if negb (countState b cells (stateOf defender) =? 0) then None
  else if (attackers =? 4) && (empties =? 1) then
    Some (if leftOpen && rightOpen then 1000000 else 500000)
  else if (attackers =? 3) && (empties =? 2) then
    if leftOpen && rightOpen then Some 120000
    else if leftOpen || rightOpen then Some 60000
    else None
  else None.

(** Window [w] nominates the cell (x,y) at severity [s]: the cell is one of
    the window's empty cells. *)
Definition nominates (b : Board) (defender : Player) (w : Window)
    (x y s : Z) : Prop :=
  isWindow w /\ windowSeverity b defender w = Some s /\
  In (x, y) (winCells w) /\ getCellState b x y = 0.

(** The severity the code's loop gives to window [i] of line [ctx], read off
    the counters of [countWindow]. *)
Definition codeSeverity (grid : Z -> Z -> Z) (ctx : LineContext.t) (i : Z)
    : option Z :=
  let '(defenderStones, attackerStones, empties, _) := countWindow grid ctx i in
  let leftOpen := (0 <=? i - 1) && (cellAt grid ctx (i - 1) =? 0) in
  let rightOpen :=
    (i + 5 <? LineContext.length ctx) && (cellAt grid ctx (i + 5) =? 0) in
  if 0 <? defenderStones then None
  else if (attackerStones =? 4) && (empties =? 1) then
    Some (if leftOpen && rightOpen then OPEN_FOUR else SIMPLE_FOUR)
  else if (attackerStones =? 3) && (empties =? 2) then
    if leftOpen && rightOpen then Some OPEN_THREE
    else if leftOpen || rightOpen then Some BROKEN_THREE
    else None
  else None.

(** One call of [addMoveIfStronger], as a triple (cell, severity). *)
Definition addCall (m : gmap Z Z) (c : Z * Z * Z) : gmap Z Z :=
  addMoveIfStronger (fst (fst c)) (snd (fst c)) (snd c) m.

Definition emptyOffsets (grid : Z -> Z -> Z) (ctx : LineContext.t) (i : Z)
    : list Z :=
  List.filter (fun j => negb (cellAt grid ctx (i + j) =? -1)
                        && negb (cellAt grid ctx (i + j) =? 1)) (seqZ 0 5).

(** The calls of [addMoveIfStronger] made for one window, one line, and the
    whole board, in order. *)
Definition windowCalls (grid : Z -> Z -> Z) (ctx : LineContext.t) (i : Z)
    : list (Z * Z * Z) :=
  match codeSeverity grid ctx i with
  | None => []
  | Some sev => map (fun o => (windowCell ctx i o, sev)) (emptyOffsets grid ctx i)
  end.

Definition lineCalls (grid : Z -> Z -> Z) (ctx : LineContext.t)
    : list (Z * Z * Z) :=
  flat_map (windowCalls grid ctx) (seqZ 0 (LineContext.length ctx - 4)).

Definition allCalls (b : Board) (defender : Player) : list (Z * Z * Z) :=
  flat_map (lineCalls (buildGrid b defender)) allLines.

(** The window of line [ctx] that starts at offset [i]. *)
Definition windowOf (ctx : LineContext.t) (i : Z) : Window :=
  mkWindow (LineContext.xStart ctx + i * LineContext.dx ctx)
           (LineContext.yStart ctx + i * LineContext.dy ctx)
           (LineContext.dx ctx) (LineContext.dy ctx).

(** A line of the scan runs through the board from edge to edge: offset [k]
    is on the line exactly when its cell is on the board. *)
Definition fullLine (ctx : LineContext.t) : Prop :=
  In (LineContext.dx ctx, LineContext.dy ctx) dirs /\
  forall k,
    inRange (LineContext.xStart ctx + k * LineContext.dx ctx)
            (LineContext.yStart ctx + k * LineContext.dy ctx) = true <->
    0 <= k < LineContext.length ctx.


(** The state of the cell [k] steps from (x,y) in direction (dx,dy). *)
Definition stateAt (b : Board) (x y dx dy k : Z) : Z :=
  getCellState b (x + k * dx) (y + k * dy).

(** White has four in a row on (1,1)..(4,1), with (0,1) and (5,1) empty;
    Black's stones are in the far column. *)
Definition edgeFourBoard : Board :=
  playAll initialBoard
    [(11, 0); (1, 1); (11, 1); (2, 1); (11, 2); (3, 1); (11, 3); (4, 1)].

(** *** Playable moves and the frame of the search *)

(** A move that [makeMove] accepts on [b]. *)
Definition playable (b : Board) (m : Move) : Prop :=
  inRange (mx m) (my m) = true /\ isOccupied b (mx m) (my m) = false.

(** What the search may do to the timer: the deadline stays, the clock is
    only read. *)
Definition sameTimer (s s' : SearchEngine) : Prop :=
  timeEnd s' = timeEnd s /\ (clockReads s <= clockReads s')%nat.

(** A search procedure that gives the board back as it got it. *)
Definition restores
    (child : Board -> Z -> Z -> SearchEngine -> Z * Board * SearchEngine) : Prop :=
  forall board alpha beta s,
    snd (fst (child board alpha beta s)) = board /\
    sameTimer s (snd (child board alpha beta s)).

(** The engine as [findBestMove] sets it up before it looks for a move. *)
Definition freshEngine (now : nat -> Z) (timeLimitMs : Z) (s : SearchEngine)
    : SearchEngine :=
  setKillerMoves
    (setHistory (setTransTable (startTimer now timeLimitMs s) ∅)
                HistoryHeuristic.reset)
    (replicate (Z.to_nat MAX_PLY) (noMove, noMove)).





(** An engine just constructed, and clocks for the examples. *)
Definition engine0 : SearchEngine := mkEngine 0 0 ∅ [] [] 0.

(** A clock that advances five milliseconds between two readings. *)
Definition slowClock (n : nat) : Z := 5 * Z.of_nat n.

(** A clock that advances one millisecond between two readings. *)
Definition steadyClock (n : nat) : Z := Z.of_nat n.

(** Black's opening move answered: the position in which White first asks
    the engine for a move. *)
Definition afterOpening : Board := playAll initialBoard [(7, 7)].

(** The engine after White's first answer with a budget of 100 milliseconds
    and a clock that advances one millisecond per reading. *)
Definition completedRunEngine : SearchEngine :=
  match findBestMove steadyClock 2 afterOpening White 100 engine0 with
  | Some (_, _, s') => s'
  | None => engine0
  end.

(** The moves that fill the board from the initial position without a row
    of five for either side: Black takes the cells with
    [(x + 2y) mod 4 < 2], White the others, in turn. *)
Definition drawCell (c : Z * Z) : bool := (fst c + 2 * snd c) mod 4 <? 2.

Fixpoint interleave (l1 l2 : list (Z * Z)) : list (Z * Z) :=
  match l1, l2 with
  | a :: l1', b :: l2' => a :: b :: interleave l1' l2'
  | _, _ => l1 ++ l2
  end.

Definition drawMoves : list (Z * Z) :=
  let free := List.filter (fun c => negb (isOccupied initialBoard (fst c) (snd c)))
                          allCells in
  interleave (List.filter drawCell free)
             (List.filter (fun c => negb (drawCell c)) free).

Definition fullBoard : Board := playAll initialBoard drawMoves.

(** Every move of the list is accepted when played in turn. *)
Fixpoint allAccepted (b : Board) (ms : list (Z * Z)) : bool :=
  match ms with
  | [] => true
  | m :: ms' =>
      fst (makeMove b (fst m) (snd m))
      && allAccepted (snd (makeMove b (fst m) (snd m))) ms'
  end.

(** An engine in the middle of a search at depth 1 with a distant deadline,
    whose transposition table is [table]. *)
Definition searchingEngine (table : gmap Z TTEntry.t) : SearchEngine :=
  setTransTable (setMaxDepthReached (freshEngine steadyClock 1000000 engine0) 1)
                table.

(** A table whose only entry is [entry], stored for the position
    [afterOpening]. *)
Definition tableWith (entry : TTEntry.t) : gmap Z TTEntry.t :=
  <[ getHashKey afterOpening := entry ]> ∅.

(** *** The rounds of the iterative deepening *)

(** The loop [for (int depth = 1; ; ++depth)] at the head of a round: the
    depth, the root moves in their current order, the move and the value
    recorded so far ([bestMove], [bestVal]) and the engine. *)
Record Round := mkRound {
  roundDepth : Z;
  roundMoves : list Move;
  recordedMove : Move;
  recordedVal : Z;
  roundEngine : SearchEngine
}.

(** The round [findBestMove] enters the loop with: depth 1, nothing
    recorded. *)
Definition firstRound (rootMoves : list Move) (s : SearchEngine) : Round :=
  mkRound 1 rootMoves noMove INT_MIN s.

Definition runRound {L : StdLibrary} (now : nat -> Z) (myColor : Player)
    (board : Board) (r : Round) : IterResult * Board * SearchEngine :=
  iteration now (roundDepth r) myColor (roundMoves r) (recordedMove r)
            (recordedVal r) board (roundEngine r).

(** Round [r] completes its depth: the body of [if (!timeUp())] is reached,
    a move and a value are recorded, the root moves are sorted again and the
    loop goes on with round [r']. *)
Definition completes {L : StdLibrary} (now : nat -> Z) (myColor : Player)
    (board : Board) (r r' : Round) : Prop :=
  runRound now myColor board r =
    (IterNext (roundMoves r') (recordedMove r') (recordedVal r'), board,
     roundEngine r') /\
  roundDepth r' = roundDepth r + 1.

(** [k] depths completed one after the other lead from round [r] to round
    [r']. *)
Inductive completedDepths {L : StdLibrary} (now : nat -> Z) (myColor : Player)
    (board : Board) : nat -> Round -> Round -> Prop :=
| completed_none r : completedDepths now myColor board 0 r r
| completed_more k r r1 r2 :
    completedDepths now myColor board k r r1 ->
    completes now myColor board r1 r2 ->
    completedDepths now myColor board (S k) r r2.

(** The values of a sweep that is not cut short: what [alphaBeta] returns
    for each root move, in the order of the sweep; the clock is read before
    and after each call, as [rootSweep] does. *)
Fixpoint sweepScores {L : StdLibrary} (now : nat -> Z) (depth : Z)
    (myColor : Player) (moves : list Move) (board : Board) (s : SearchEngine)
    : list (Z * Move) :=
  match moves with
  | [] => []
  | m :: rest =>
      let '(val, board1, s1) :=
        rootSearch now depth myColor (snd (makeMove board (mx m) (my m)))
                   (tick s) in
      (val, m) ::
      sweepScores now depth myColor rest (snd (unmakeMove board1 (mx m) (my m)))
                  (tick s1)
  end.

(** The value and the move a sweep keeps: those of the first move whose
    value is above the values of all moves before it; the sweep starts with
    the lowest value and the first root move. *)
Definition pick (best p : Z * Move) : Z * Move :=
  if fst best <? fst p then p else best.

Definition bestOf (moves : list Move) (scored : list (Z * Move)) : Z * Move :=
  fold_left pick scored (INT_MIN, hd noMove moves).

(** What the round [r] that completes its depth hands to the next round
    [r']: the best of a full sweep of its root moves, none of which reached
    the value of a certain win, and the same root moves in a new order. *)
Definition recordsSweep {L : StdLibrary} (now : nat -> Z) (myColor : Player)
    (board : Board) (r r' : Round) : Prop :=
  let scored :=
    sweepScores now (roundDepth r) myColor (roundMoves r) board
                (setMaxDepthReached (tick (roundEngine r)) (roundDepth r)) in
  map snd scored = roundMoves r /\
  (recordedVal r', recordedMove r') = bestOf (roundMoves r) scored /\
  Forall (fun p => fst p <= 90000000 /\ fst p <= recordedVal r') scored /\
  In (recordedMove r') (roundMoves r) /\
  roundMoves r' ≡ₚ roundMoves r.

(** None of the tests [findBestMove] makes before the search yields a move:
    no opening move, no winning cell for either side, no threat of severity
    500000 or more at the head of the list of [findBlockingMoves]. *)
Definition noShortcut {L : StdLibrary} (board : Board) (myColor : Player) : Prop :=
  getOpeningMove board myColor = None /\
  find (fun m => isWinningMove board myColor (mx m) (my m))
       (getLegalMoves board) = None /\
  List.filter (fun m => isWinningMove board (other myColor) (mx m) (my m))
              (getLegalMoves board) = [] /\
  (forall t ts, findBlockingMoves board myColor = t :: ts ->
                severity t < 500000).

(** The sweep of round [r] finds a certain win at [m]: the value
    [alphaBeta] returns for [m] in this sweep is above 90000000. *)
Definition sweepWins {L : StdLibrary} (now : nat -> Z) (myColor : Player)
    (board : Board) (r : Round) (m : Move) : Prop :=
  exists val,
    In (val, m)
       (sweepScores now (roundDepth r) myColor (roundMoves r) board
                    (setMaxDepthReached (tick (roundEngine r)) (roundDepth r))) /\
    90000000 < val.

(** ** Notions used for the further properties of the code *)

(** The order in which the board scans visit the cells: row by row, each
    row from left to right. *)
Definition rowMajor (m1 m2 : Move) : Prop :=
  my m1 < my m2 \/ (my m1 = my m2 /\ mx m1 < mx m2).

(** A cell with a stone on one of the eight cells around it. *)
Definition nextToStone (b : Board) (x y : Z) : Prop :=
  exists dx dy,
    -1 <= dx <= 1 /\ -1 <= dy <= 1 /\ (dx <> 0 \/ dy <> 0) /\
    inRange (x + dx) (y + dy) = true /\
    isOccupied b (x + dx) (y + dy) = true.

(** A cell inside the box computed by [boundingBox]. *)
Definition inBox (box : Z * Z * Z * Z * bool) (x y : Z) : Prop :=
  let '(min_x, max_x, min_y, max_y, _) := box in
  min_x <= x <= max_x /\ min_y <= y <= max_y.

(** The number of bits set among the [n] lowest bits of a word. *)
Definition bitsBelow (n : Z) (w : Z) : nat :=
  List.length (List.filter (Z.testbit w) (seqZ 0 n)).

(** The words of a board are 64-bit words, and the third word of a
    bitboard only uses the 16 bits of the cells 128 to 143. *)
Definition wordsOK (b : Board) : Prop :=
  forall p c, 0 <= c <= 2 ->
    0 <= bb b p c < 2 ^ 64 /\ (c = 2 -> bb b p c < 2 ^ 16).

(** The stones of [p] on the board, counted cell by cell. *)
Definition stonesOf (b : Board) (p : Player) : Z :=
  countState b allCells (stateOf p).

(** Black has four stones in a row on the top edge, from (0,0) to (3,0),
    and is to move; White's stones are on the bottom edge. *)
Definition fourMoves : list (Z * Z) :=
  [(0, 0); (0, 11); (1, 0); (1, 11); (2, 0); (3, 11); (3, 0); (5, 11)].

Definition fourBoard : Board := playAll initialBoard fourMoves.

(** The table [orderMoves] builds from the moves of [findBlockingMoves]. *)
Definition defensiveLookupOf {L : StdLibrary} (board : Board) (currentPlayer : Player)
    : gmap Z Z :=
  fold_left (fun (lookup : gmap Z Z) t =>
      let key := my (move t) * 12 + mx (move t) in
      match lookup !! key with
      | None => <[ key := severity t ]> lookup
      | Some old =>
          if old <? severity t then <[ key := severity t ]> lookup else lookup
      end)
    (findBlockingMoves board currentPlayer) ∅.

(** The score [orderMoves] gives to a candidate. *)
Definition moveScore {L : StdLibrary} (currentPlayer myColor : Player) (ply : Z)
    (s : SearchEngine) (board : Board) (m : Move) : Z :=
  fst (scoreMove currentPlayer myColor ply s
         (defensiveLookupOf board currentPlayer) board m).

(** [fourBoard] before White's last reply: White is to move and Black
    threatens to complete the row at (4,0). *)
Definition threatMoves : list (Z * Z) :=
  [(0, 0); (0, 11); (1, 0); (1, 11); (2, 0); (3, 11); (3, 0)].

Definition threatBoard : Board := playAll initialBoard threatMoves.

(** An engine left by an earlier search: a table entry, a deadline and a
    depth that [findBestMove] must not look at. *)
Definition usedEngine : SearchEngine :=
  mkEngine 5 7 (tableWith (TTEntry.mk 3 1000 0 noMove))
           [(mkMove 1 1, mkMove 2 2)] [5; 6; 7] 0.

(** The result of a scan of [evaluatePlayer] so far: its score is the
    [int] value of a sum [t] of pattern scores, and the longest run it has
    seen fits on a line. *)
Definition scoreIs (r : EvalResult.t) (t : Z) : Prop :=
  EvalResult.patternScore r = wrapInt t /\
  0 <= EvalResult.longestRun r <= 12 /\
  0 <= EvalResult.longestOpenEnds r <= 2.

(** ** The driver

    The loop of [main] on the commands read from the standard input, after
    they have been split into tokens and numbers; [Malformed] stands for a
    command whose numbers cannot be read, on which [main] leaves the loop,
    and [Ignored] for [DEBUG] and for unknown commands. *)
Inductive Command :=
| START (field : Z)
| PLACE (x y : Z)
| TURN
| END (field : Z)
| Malformed
| Ignored.

(** What [main] prints. *)
Inductive Reply :=
| ReplyOK
| ReplyMove (x y : Z).

Record Session := mkSession {
  sessionBoard : Board;
  sessionEngine : SearchEngine;
  sessionColor : Player;
  sessionReplies : list Reply
}.

(** The branch of [main] for [TURN]: the move of the engine, replaced by
    the first candidate or by (0,0) when a coordinate is negative, is played
    on the board. *)
Definition takeTurn {L : StdLibrary} (now : nat -> Z) (fuel : nat) (board : Board)
    (myColor : Player) (engine : SearchEngine)
    : option (Move * Board * SearchEngine) :=
  match findBestMove now fuel board myColor 1800 engine with
  | None => None
  | Some (myMove, board, engine) =>
      let myMove :=
        if (mx myMove <? 0) || (my myMove <? 0) then
          match getCandidateMoves board with
          | c :: _ => c
          | [] => mkMove 0 0
          end
        else myMove in
      let board := snd (makeMove board (mx myMove) (my myMove)) in
      Some (myMove, board, engine)
  end.

(** The loop of [main]; [None] when a search ran out of [fuel]. *)
Fixpoint runSession {L : StdLibrary} (now : nat -> Z) (fuel : nat) (cmds : list Command)
    (st : Session) : option Session :=
  match cmds with
  | [] => Some st
  | START field :: rest =>
      let myColor := if field =? 1 then Black else White in
      runSession now fuel rest
        (mkSession initialBoard (sessionEngine st) myColor
                   (sessionReplies st ++ [ReplyOK]))
  | PLACE x y :: rest =>
      runSession now fuel rest
        (mkSession (snd (makeMove (sessionBoard st) x y)) (sessionEngine st)
                   (sessionColor st) (sessionReplies st))
  | TURN :: rest =>
      match takeTurn now fuel (sessionBoard st) (sessionColor st)
                     (sessionEngine st) with
      | None => None
      | Some (myMove, board, engine) =>
          runSession now fuel rest
            (mkSession board engine (sessionColor st)
                       (sessionReplies st ++ [ReplyMove (mx myMove) (my myMove)]))
      end
  | END _ :: _ => Some st
  | Malformed :: _ => Some st
  | Ignored :: rest => runSession now fuel rest st
  end.

(** The session [main] starts with. *)
Definition session0 : Session := mkSession initialBoard engine0 Black [].

(** ** The state of the engine during a search *)

(** A transposition entry as [alphaBeta] stores them: a remaining depth of
    at least 1 and a flag among 0 (exact), 1 (lower bound), 2 (upper
    bound). *)
Definition entryOK (e : TTEntry.t) : Prop :=
  1 <= TTEntry.depth e /\
  (TTEntry.flag e = 0 \/ TTEntry.flag e = 1 \/ TTEntry.flag e = 2).

(** The tables of the engine have their shape: entries as above, 64 rows of
    killer moves, 144 history scores, each of them an [int]. *)
Definition engineOK (s : SearchEngine) : Prop :=
  (forall key e, transTable s !! key = Some e -> entryOK e) /\
  List.length (killerMoves s) = 64%nat /\
  List.length (history s) = 144%nat /\
  Forall (fun v => INT_MIN <= v <= INT_MAX) (history s).

(** What a search below the root may do to the engine: the deadline and the
    depth reported stay, the clock is only read, and the tables keep their
    shape. *)
Definition keeps (s s' : SearchEngine) : Prop :=
  timeEnd s' = timeEnd s /\
  maxDepthReached s' = maxDepthReached s /\
  (clockReads s <= clockReads s')%nat /\
  (engineOK s -> engineOK s').

Definition keepsEngine
    (child : Board -> Z -> Z -> SearchEngine -> Z * Board * SearchEngine) : Prop :=
  forall board alpha beta s, keeps s (snd (child board alpha beta s)).
(** * The test programs

    [tests/threat_solver_test.cpp], [tests/search_tactical_test.cpp] and the
    self-play harness drive the board and the engine from outside.  An
    [assert] that fails aborts the program: [None]. *)

Definition kFillerMoves : list Move :=
  [mkMove 11 0; mkMove 11 1; mkMove 11 2; mkMove 11 3; mkMove 11 4;
   mkMove 11 5; mkMove 11 6; mkMove 11 7; mkMove 11 8; mkMove 11 9;
   mkMove 10 0; mkMove 10 1; mkMove 10 2; mkMove 10 3; mkMove 10 4;
   mkMove 10 5; mkMove 10 6; mkMove 10 7; mkMove 10 8; mkMove 10 9].

(** [syncTurn]: filler moves are played until [desired] is to move.
    [fillers] stands for [fillerIndex]: it holds the filler moves from that
    index on, and is empty when the index has reached the end of
    [kFillerMoves]. *)
Fixpoint syncTurn (board : Board) (desired : Player) (fillers : list Move)
    : option (Board * list Move) :=
  if Player_eqb (sideToMove board) desired then Some (board, fillers)
  else
    match fillers with
    | [] => None
    | filler :: fillers =>
        let '(placed, board) := makeMove board (mx filler) (my filler) in
        if placed then syncTurn board desired fillers else None
    end.

(** [placeStoneFor]: the same loop, then the stone itself. *)
Definition placeStoneFor (board : Board) (player : Player) (x y : Z)
    (fillers : list Move) : option (Board * list Move) :=
  match syncTurn board player fillers with
  | None => None
  | Some (board, fillers) =>
      let '(ok, board) := makeMove board x y in
      if ok then Some (board, fillers) else None
  end.

(** The calls of [placeStoneFor] a test starts with, in order, on a new
    board with no filler move used. *)
Definition placeStones (stones : list (Player * Z * Z))
    : option (Board * list Move) :=
  fold_left
    (fun st stone =>
       match st with
       | None => None
       | Some (board, fillers) =>
           placeStoneFor board (fst (fst stone)) (snd (fst stone)) (snd stone)
                         fillers
       end)
    stones (Some (initialBoard, kFillerMoves)).

Definition findSeverity (moves : list ThreatMove) (x y : Z) : Z :=
  match find (fun m => (mx (move m) =? x) && (my (move m) =? y)) moves with
  | Some m => severity m
  | None => 0
  end.

(** ** The self-play harness *)

Inductive GameEnd := BlackWins | WhiteWins | NoMoves.

(** The loop of the harness, at most [rounds] times round; [None] when a
    search ran out of [fuel] or the rounds are used up.  Printing reads the
    board only and is left out.  [legal] is not empty where the fallback
    takes its first move, so the inner test of the source always holds. *)
Fixpoint selfPlay {L : StdLibrary} (now : nat -> Z) (fuel rounds : nat) (board : Board)
    (engine : SearchEngine) (moveCount : Z)
    : option (GameEnd * Board * SearchEngine * Z) :=
  match rounds with
  | O => None
  | S rounds =>
      let current := sideToMove board in
      let blackWin := checkWin board Black in
      let whiteWin := checkWin board White in
      if blackWin || whiteWin then
        Some (if blackWin then BlackWins else WhiteWins, board, engine, moveCount)
      else
        let legal := getLegalMoves board in
        match legal with
        | [] => Some (NoMoves, board, engine, moveCount)
        | front :: _ =>
            match findBestMove now fuel board current 2000 engine with
            | None => None
            | Some (mv, board, engine) =>
                let mv :=
                  if (mx mv <? 0) || (my mv <? 0)
                     || isOccupied board (mx mv) (my mv)
                  then front else mv in
                let board := snd (makeMove board (mx mv) (my mv)) in
                selfPlay now fuel rounds board engine (moveCount + 1)
            end
        end
  end.
#[global] Opaque zobristValues zobristTable zobristSide.

(** * [int] arithmetic *)

Lemma wrapInt_range z : INT_MIN <= wrapInt z <= INT_MAX.
Proof.
  unfold wrapInt, INT_MIN, INT_MAX.
  pose proof (Z.mod_pos_bound (z + 2147483648) 4294967296 ltac:(lia)). lia.
Qed.

(** Inside the range of [int] nothing wraps. *)
Lemma wrapInt_small z : INT_MIN <= z <= INT_MAX -> wrapInt z = z.
Proof.
  unfold wrapInt, INT_MIN, INT_MAX. intros Hz.
  rewrite Z.mod_small by lia. lia.
Qed.

Lemma wrapInt_modulo z : exists k, wrapInt z = z + k * 4294967296.
Proof.
  exists (- ((z + 2147483648) / 4294967296)). unfold wrapInt.
  pose proof (Z.div_mod (z + 2147483648) 4294967296 ltac:(lia)). lia.
Qed.

Lemma wrapInt_unique z v k :
  INT_MIN <= v <= INT_MAX -> v = z + k * 4294967296 -> wrapInt z = v.
Proof.
  unfold wrapInt, INT_MIN, INT_MAX. intros Hv ->.
  replace (z + 2147483648) with ((z + k * 4294967296 + 2147483648) + (- k) * 4294967296)
    by lia.
  rewrite Z.mod_add by lia. rewrite Z.mod_small by lia. lia.
Qed.

Lemma wrapInt_add_l a b : wrapInt (wrapInt a + b) = wrapInt (a + b).
Proof.
  destruct (wrapInt_modulo a) as [k Ek].
  destruct (wrapInt_modulo (wrapInt a + b)) as [k' Ek'].
  symmetry. apply (wrapInt_unique _ _ (k + k')); [apply wrapInt_range | lia].
Qed.

Lemma wrapInt_add_r a b : wrapInt (a + wrapInt b) = wrapInt (a + b).
Proof. rewrite (Z.add_comm a), wrapInt_add_l. f_equal. lia. Qed.

Lemma wrapInt_sub_l a b : wrapInt (wrapInt a - b) = wrapInt (a - b).
Proof. unfold Z.sub. apply wrapInt_add_l. Qed.

Lemma wrapInt_sub_r a b : wrapInt (a - wrapInt b) = wrapInt (a - b).
Proof.
  destruct (wrapInt_modulo b) as [k Ek].
  destruct (wrapInt_modulo (a - wrapInt b)) as [k' Ek'].
  symmetry. apply (wrapInt_unique _ _ (k' - k)); [apply wrapInt_range | lia].
Qed.

(** Negation commutes with wrapping, except at the lowest [int]. *)
Lemma wrapInt_opp z : wrapInt z <> INT_MIN -> wrapInt (- z) = - wrapInt z.
Proof.
  intros Hz. destruct (wrapInt_modulo z) as [k Ek].
  pose proof (wrapInt_range z) as Hr.
  apply (wrapInt_unique _ _ (- k)); unfold INT_MIN, INT_MAX in *; lia.
Qed.
(** ** Facts about the bit layout *)

Lemma inRange_iff x y : inRange x y = true <-> 0 <= x < 12 /\ 0 <= y < 12.
Proof. unfold inRange. rewrite !andb_true_iff. lia. Qed.

Lemma inRange_false_iff x y :
  inRange x y = false <-> ~ (0 <= x < 12 /\ 0 <= y < 12).
Proof. rewrite <- inRange_iff. destruct (inRange x y); intuition congruence. Qed.

Lemma index_split x y :
  index x y = 64 * chunkOf (index x y) + offsetOf (index x y).
Proof.
  unfold chunkOf, offsetOf.
  rewrite Z.shiftr_div_pow2 by lia.
  change 63 with (Z.ones 6). rewrite Z.land_ones by lia.
  change (2 ^ 6) with 64. apply Z.div_mod. lia.
Qed.

Lemma offsetOf_range idx : 0 <= offsetOf idx < 64.
Proof.
  unfold offsetOf. change 63 with (Z.ones 6). rewrite Z.land_ones by lia.
  change (2 ^ 6) with 64. apply Z.mod_pos_bound. lia.
Qed.

Lemma chunkOf_range x y :
  inRange x y = true -> 0 <= chunkOf (index x y) <= 2.
Proof.
  rewrite inRange_iff. intros H. unfold chunkOf, index.
  rewrite Z.shiftr_div_pow2 by lia. change (2 ^ 6) with 64.
  split; [apply Z.div_pos; lia | ].
  assert (y * 12 + x < 64 * 3) by lia.
  apply Z.div_lt_upper_bound in H0; lia.
Qed.

Lemma index_inj x y x' y' :
  inRange x y = true -> inRange x' y' = true ->
  chunkOf (index x y) = chunkOf (index x' y') ->
  offsetOf (index x y) = offsetOf (index x' y') ->
  x = x' /\ y = y'.
Proof.
  rewrite !inRange_iff. intros Hr Hr' Hc Ho.
  pose proof (index_split x y) as E. pose proof (index_split x' y') as E'.
  rewrite Hc, Ho in E. rewrite <- E' in E. unfold index in E. lia.
Qed.

Lemma testbit_bit n k : 0 <= n -> Z.testbit (Z.shiftl 1 n) k = (n =? k).
Proof. intros Hn. rewrite Z.shiftl_1_l. apply Z.pow2_bits_eqb, Hn. Qed.

(** [w & (1 << n)] is non-zero exactly when bit [n] of [w] is set. *)
Lemma land_bit w n :
  0 <= n -> negb (Z.land w (Z.shiftl 1 n) =? 0) = Z.testbit w n.
Proof.
  intros Hn. destruct (Z.testbit w n) eqn:E.
  - apply negb_true_iff, Z.eqb_neq. intros H0.
    assert (Z.testbit (Z.land w (Z.shiftl 1 n)) n = true) as Hb.
    { rewrite Z.land_spec, E, testbit_bit, Z.eqb_refl by lia. reflexivity. }
    rewrite H0, Z.bits_0 in Hb. discriminate.
  - apply negb_false_iff, Z.eqb_eq. apply Z.bits_inj'. intros k Hk.
    rewrite Z.land_spec, Z.bits_0, testbit_bit by lia.
    destruct (Z.eqb_spec n k) as [->|Hne]; [rewrite E; reflexivity|].
    apply andb_false_r.
Qed.

Lemma clear_set_bit w n :
  0 <= n -> Z.testbit w n = false ->
  Z.land (Z.lor w (Z.shiftl 1 n)) (Z.lnot (Z.shiftl 1 n)) = w.
Proof.
  intros Hn Hw. apply Z.bits_inj'. intros k Hk.
  rewrite Z.land_spec, Z.lor_spec, Z.lnot_spec, testbit_bit by lia.
  destruct (Z.eqb_spec n k) as [->|Hne]; simpl.
  - rewrite Hw. reflexivity.
  - rewrite orb_false_r, andb_true_r. reflexivity.
Qed.

(** Xor-ing the same two keys in and out again. *)
Lemma lxor_undo h z s : Z.lxor (Z.lxor (Z.lxor (Z.lxor h z) s) s) z = h.
Proof.
  rewrite (Z.lxor_assoc (Z.lxor h z) s s), Z.lxor_nilpotent, Z.lxor_0_r.
  rewrite Z.lxor_assoc, Z.lxor_nilpotent, Z.lxor_0_r. reflexivity.
Qed.

Lemma other_involutive p : other (other p) = p.
Proof. destruct p; reflexivity. Qed.

Lemma chunk_setChunk cs c v : chunk (setChunk cs c v) c = v.
Proof. unfold chunk, setChunk. destruct (c =? 0), (c =? 1); reflexivity. Qed.

Lemma chunk_setChunk_ne cs c c' v :
  0 <= c <= 2 -> 0 <= c' <= 2 -> c <> c' ->
  chunk (setChunk cs c v) c' = chunk cs c'.
Proof.
  intros Hc Hc' Hne. unfold chunk, setChunk.
  destruct (Z.eqb_spec c 0), (Z.eqb_spec c 1), (Z.eqb_spec c' 0),
    (Z.eqb_spec c' 1); simpl; try reflexivity; lia.
Qed.

Lemma setChunk_setChunk cs c v v' :
  setChunk (setChunk cs c v) c v' = setChunk cs c v'.
Proof. unfold setChunk. destruct (c =? 0), (c =? 1); reflexivity. Qed.

Lemma setChunk_chunk cs c : setChunk cs c (chunk cs c) = cs.
Proof.
  destruct cs. unfold chunk, setChunk. destruct (c =? 0), (c =? 1); reflexivity.
Qed.

Lemma bb_setbb b p c v : bb (setbb b p c v) p c = v.
Proof. destruct p; simpl; apply chunk_setChunk. Qed.

Lemma bb_setbb_other b p c v c' : bb (setbb b p c v) (other p) c' = bb b (other p) c'.
Proof. destruct p; reflexivity. Qed.

Lemma bb_setbb_ne b p c v p' c' :
  0 <= c <= 2 -> 0 <= c' <= 2 -> c <> c' ->
  bb (setbb b p c v) p' c' = bb b p' c'.
Proof.
  intros Hc Hc' Hne. destruct p, p'; simpl; try reflexivity;
    apply chunk_setChunk_ne; assumption.
Qed.

Lemma hasStone_testbit b p x y :
  hasStone b p x y =
  Z.testbit (bb b p (chunkOf (index x y))) (offsetOf (index x y)).
Proof. unfold hasStone. apply land_bit, offsetOf_range. Qed.

Lemma isOccupied_bits b x y :
  inRange x y = true ->
  isOccupied b x y = hasStone b Black x y || hasStone b White x y.
Proof.
  intros Hr. unfold isOccupied. rewrite Hr. simpl negb. cbv iota.
  rewrite land_bit by apply offsetOf_range.
  rewrite Z.lor_spec, !hasStone_testbit. reflexivity.
Qed.

Lemma getCellState_bits b x y :
  inRange x y = true ->
  getCellState b x y =
  if hasStone b Black x y then 1 else if hasStone b White x y then 2 else 0.
Proof. intros Hr. unfold getCellState. rewrite Hr. reflexivity. Qed.

Lemma isOccupied_false_stones b x y :
  inRange x y = true -> isOccupied b x y = false ->
  forall p, hasStone b p x y = false.
Proof.
  intros Hr Ho p. rewrite isOccupied_bits in Ho by assumption.
  apply orb_false_iff in Ho. destruct p; tauto.
Qed.

Lemma isOccupied_state b x y :
  isOccupied b x y = negb (getCellState b x y =? 0).
Proof.
  destruct (inRange x y) eqn:Hr.
  - rewrite isOccupied_bits, getCellState_bits by assumption.
    destruct (hasStone b Black x y), (hasStone b White x y); reflexivity.
  - unfold isOccupied, getCellState. rewrite Hr. reflexivity.
Qed.

Lemma makeMove_ok b x y :
  inRange x y = true -> isOccupied b x y = false ->
  makeMove b x y = (true, placed b x y).
Proof.
  intros Hr Ho. unfold makeMove. rewrite Hr, Ho. simpl negb. cbv iota.
  destruct b as [cb cw h s]. destruct s; reflexivity.
Qed.

Lemma makeMove_rejects b x y :
  inRange x y = false \/ isOccupied b x y = true ->
  makeMove b x y = (false, b).
Proof.
  intros [Hr|Ho]; unfold makeMove.
  - rewrite Hr. reflexivity.
  - rewrite Ho. destruct (negb (inRange x y)); reflexivity.
Qed.

Lemma unmakeMove_placed b x y :
  inRange x y = true -> isOccupied b x y = false ->
  unmakeMove (placed b x y) x y = (true, b).
Proof.
  intros Hr Ho.
  pose proof (isOccupied_false_stones b x y Hr Ho (side_to_move b)) as Hs.
  rewrite hasStone_testbit in Hs.
  pose proof (offsetOf_range (index x y)) as Hoff.
  unfold unmakeMove, placed, cellMask.
  destruct b as [cb cw h s]. cbn [side_to_move hashKey] in *.
  f_equal. destruct s; cbn -[Z.shiftl Z.lnot Z.land Z.lor Z.lxor chunkOf offsetOf index] in *;
    rewrite chunk_setChunk, setChunk_setChunk, clear_set_bit, setChunk_chunk
      by (assumption || lia);
    unfold setHash; cbn [bbBlack bbWhite side_to_move];
    rewrite lxor_undo; reflexivity.
Qed.

Lemma isOccupied_false_state b x y :
  isOccupied b x y = false -> getCellState b x y = 0.
Proof.
  rewrite isOccupied_state. intros H.
  apply negb_false_iff, Z.eqb_eq in H. exact H.
Qed.

(** ** Cells of a board after a move *)

Lemma hasStone_placed_same b x y :
  inRange x y = true ->
  hasStone (placed b x y) (side_to_move b) x y = true.
Proof.
  intros Hr. rewrite hasStone_testbit. unfold placed, cellMask.
  pose proof (offsetOf_range (index x y)).
  destruct b as [cb cw h s]; destruct s; cbn [side_to_move bb setbb bbBlack bbWhite];
    rewrite chunk_setChunk, Z.lor_spec, testbit_bit, Z.eqb_refl by lia;
    apply orb_true_r.
Qed.

Lemma hasStone_placed_other_player b x y x' y' :
  hasStone (placed b x y) (other (side_to_move b)) x' y' =
  hasStone b (other (side_to_move b)) x' y'.
Proof.
  rewrite !hasStone_testbit. unfold placed.
  destruct b as [cb cw h s]; destruct s; reflexivity.
Qed.

Lemma hasStone_placed_other_cell b x y p x' y' :
  inRange x y = true -> inRange x' y' = true -> (x', y') <> (x, y) ->
  hasStone (placed b x y) p x' y' = hasStone b p x' y'.
Proof.
  intros Hr Hr' Hne.
  destruct (decide (p = other (side_to_move b))) as [->|Hp].
  { apply hasStone_placed_other_player. }
  assert (p = side_to_move b) as ->
    by (revert Hp; destruct p, (side_to_move b); simpl; congruence).
  rewrite !hasStone_testbit.
  pose proof (chunkOf_range x y Hr) as Hc.
  pose proof (chunkOf_range x' y' Hr') as Hc'.
  pose proof (offsetOf_range (index x y)) as Ho.
  pose proof (offsetOf_range (index x' y')) as Ho'.
  destruct (Z.eq_dec (chunkOf (index x y)) (chunkOf (index x' y'))) as [Ec|Ec].
  - assert (offsetOf (index x y) <> offsetOf (index x' y')) as Eo.
    { intros Eo. destruct (index_inj x y x' y' Hr Hr' Ec Eo). congruence. }
    rewrite <- Ec. unfold placed, cellMask.
    destruct b as [cb cw h s]; destruct s; cbn [side_to_move bb setbb bbBlack bbWhite];
      rewrite chunk_setChunk, Z.lor_spec, testbit_bit by lia;
      (destruct (Z.eqb_spec (offsetOf (index x y)) (offsetOf (index x' y')));
        [contradiction | apply orb_false_r]).
  - unfold placed.
    destruct b as [cb cw h s]; destruct s; cbn [side_to_move bb setbb bbBlack bbWhite];
      rewrite chunk_setChunk_ne by assumption; reflexivity.
Qed.

Lemma getCellState_placed_same b x y :
  inRange x y = true -> isOccupied b x y = false ->
  getCellState (placed b x y) x y = playerIndex (side_to_move b) + 1.
Proof.
  intros Hr Ho. rewrite getCellState_bits by assumption.
  pose proof (hasStone_placed_same b x y Hr) as Hs.
  pose proof (hasStone_placed_other_player b x y x y) as Hn.
  rewrite (isOccupied_false_stones b x y Hr Ho) in Hn.
  destruct (side_to_move b); cbn [other playerIndex] in *; rewrite ?Hs, ?Hn;
    reflexivity.
Qed.

Lemma getCellState_placed_other b x y x' y' :
  inRange x y = true -> (x', y') <> (x, y) ->
  getCellState (placed b x y) x' y' = getCellState b x' y'.
Proof.
  intros Hr Hne. destruct (inRange x' y') eqn:Hr'.
  - rewrite !getCellState_bits by assumption.
    rewrite !(hasStone_placed_other_cell b x y _ x' y') by assumption.
    reflexivity.
  - unfold getCellState. rewrite Hr'. reflexivity.
Qed.

(** ** Claims about [makeMove] and [unmakeMove] *)

(** C3.  A successful [makeMove] on an in-range empty cell, immediately
    followed by [unmakeMove] on the same cell, gives back the very same
    board: both bitboards (hence the state of every cell), the side to move
    and the hash key. *)
Theorem makeMove_unmakeMove_restores (b : Board) (x y : Z) :
  inRange x y = true -> isOccupied b x y = false ->
  exists b1 b2,
    makeMove b x y = (true, b1) /\
    unmakeMove b1 x y = (true, b2) /\
    b2 = b /\
    (forall cx cy, getCellState b2 cx cy = getCellState b cx cy) /\
    sideToMove b2 = sideToMove b /\
    getHashKey b2 = getHashKey b.
Proof.
  intros Hr Ho. exists (placed b x y), b.
  split; [apply makeMove_ok; assumption|].
  split; [apply unmakeMove_placed; assumption|].
  repeat split; reflexivity.
Qed.

Lemma makeMove_unmakeMove_restores_witness :
  exists b1 b2,
    makeMove initialBoard 0 0 = (true, b1) /\
    unmakeMove b1 0 0 = (true, b2) /\
    b2 = initialBoard /\
    (forall cx cy, getCellState b2 cx cy = getCellState initialBoard cx cy) /\
    sideToMove b2 = sideToMove initialBoard /\
    getHashKey b2 = getHashKey initialBoard.
Proof.
  apply (makeMove_unmakeMove_restores initialBoard 0 0); reflexivity.
Defined.

(** C9.  [makeMove] refuses an off-board or occupied cell and then returns
    the board it was given; on an in-range empty cell it succeeds, the cell
    gets the stone of the side that was to move, no other cell changes, the
    two Zobrist keys are xor-ed into the hash and the side to move flips. *)
Theorem makeMove_contract (b : Board) (x y : Z) :
  (inRange x y = false \/ isOccupied b x y = true ->
     makeMove b x y = (false, b)) /\
  (inRange x y = true /\ isOccupied b x y = false ->
     exists b',
       makeMove b x y = (true, b') /\
       getCellState b' x y = playerIndex (sideToMove b) + 1 /\
       (forall cx cy, (cx, cy) <> (x, y) ->
          getCellState b' cx cy = getCellState b cx cy) /\
       getHashKey b' =
         Z.lxor (Z.lxor (getHashKey b)
                        (zobristTable x y (playerIndex (sideToMove b))))
                zobristSide /\
       sideToMove b' = other (sideToMove b)).
Proof.
  split.
  - apply makeMove_rejects.
  - intros [Hr Ho]. exists (placed b x y).
    split; [apply makeMove_ok; assumption|].
    split; [apply getCellState_placed_same; assumption|].
    split; [intros cx cy Hne; apply getCellState_placed_other; assumption|].
    split; reflexivity.
Qed.

(** ** The hash key is determined by the position *)

Lemma key_change (f g : Z * Z -> Z) (c : Z * Z) (k : Z) (l : list (Z * Z)) :
  NoDup l ->
  (forall c', c' ∈ l -> c' <> c -> f c' = g c') ->
  fold_right (fun c h => Z.lxor (f c) h) k l =
  if decide (c ∈ l)
  then Z.lxor (Z.lxor (f c) (g c)) (fold_right (fun c h => Z.lxor (g c) h) k l)
  else fold_right (fun c h => Z.lxor (g c) h) k l.
Proof.
  induction l as [|a l IH]; intros Hnd Hfg.
  - destruct (decide (c ∈ [])) as [Hin|]; [inversion Hin | reflexivity].
  - apply NoDup_cons in Hnd as [Hna Hnd].
    cbn [fold_right]. rewrite IH by (auto using list_elem_of_further).
    destruct (decide (c ∈ l)) as [Hin|Hnin].
    + assert (a <> c) as Hac by (intros ->; contradiction).
      rewrite (Hfg a) by (auto using list_elem_of_here).
      destruct (decide (c ∈ a :: l)) as [_|Hn];
        [|exfalso; apply Hn; auto using list_elem_of_further].
      set (X := Z.lxor (f c) (g c)).
      rewrite <- !Z.lxor_assoc. f_equal. apply Z.lxor_comm.
    + destruct (decide (a = c)) as [->|Hac].
      * destruct (decide (c ∈ c :: l)) as [_|Hn];
          [|exfalso; apply Hn; auto using list_elem_of_here].
        rewrite <- !Z.lxor_assoc. f_equal.
        rewrite Z.lxor_assoc, Z.lxor_nilpotent, Z.lxor_0_r. reflexivity.
      * destruct (decide (c ∈ a :: l)) as [Hin|_].
        { apply elem_of_cons in Hin as [->|?]; contradiction. }
        rewrite (Hfg a) by (auto using list_elem_of_here). reflexivity.
Qed.

Lemma key_side (f : Z * Z -> Z) (k z : Z) (l : list (Z * Z)) :
  fold_right (fun c h => Z.lxor (f c) h) (Z.lxor k z) l =
  Z.lxor (fold_right (fun c h => Z.lxor (f c) h) k l) z.
Proof.
  induction l as [|a l IH]; cbn [fold_right]; [reflexivity|].
  rewrite IH, Z.lxor_assoc. reflexivity.
Qed.

Lemma sideKey_other p : sideKey (other p) = Z.lxor (sideKey p) zobristSide.
Proof.
  destruct p; cbn [other sideKey].
  - rewrite Z.lxor_0_l. reflexivity.
  - rewrite Z.lxor_nilpotent. reflexivity.
Qed.

Lemma allCells_spec c : c ∈ allCells <-> inRange (fst c) (snd c) = true.
Proof.
  rewrite list_elem_of_In.
  unfold allCells. rewrite in_flat_map, inRange_iff. split.
  - intros (y & Hy & Hc). apply in_map_iff in Hc as (x & <- & Hx).
    apply list_elem_of_In, elem_of_seqZ in Hy, Hx. cbn [fst snd]. lia.
  - intros [Hx Hy]. exists (snd c). split.
    + apply list_elem_of_In, elem_of_seqZ. lia.
    + apply in_map_iff. exists (fst c). split; [destruct c; reflexivity|].
      apply list_elem_of_In, elem_of_seqZ. lia.
Qed.

Lemma allCells_NoDup : NoDup allCells.
Proof. apply (bool_decide_unpack _). vm_compute. reflexivity. Qed.

Lemma hashOK_placed b x y :
  inRange x y = true -> isOccupied b x y = false ->
  hashOK b -> hashOK (placed b x y).
Proof.
  intros Hr Ho Hb. unfold hashOK, zobristOf in *.
  rewrite (key_change _ (fun c => cellKey (getCellState b (fst c) (snd c)) (fst c) (snd c))
             (x, y) _ allCells).
  - destruct (decide ((x, y) ∈ allCells)) as [_|Hn];
      [|exfalso; apply Hn, allCells_spec; assumption].
    cbn [fst snd]. rewrite getCellState_placed_same by assumption.
    rewrite (isOccupied_false_state b x y Ho).
    unfold placed at 1 2. cbn [hashKey side_to_move].
    rewrite sideKey_other, key_side, <- Hb.
    assert (cellKey (playerIndex (side_to_move b) + 1) x y =
            zobristTable x y (playerIndex (side_to_move b))) as ->
      by (destruct (side_to_move b); reflexivity).
    change (cellKey 0 x y) with 0. rewrite Z.lxor_0_r.
    rewrite <- Z.lxor_assoc. f_equal. apply Z.lxor_comm.
  - apply allCells_NoDup.
  - intros [cx cy] _ Hne. cbn [fst snd].
    rewrite getCellState_placed_other by assumption. reflexivity.
Qed.

Lemma makeMove_true_inv b x y b' :
  makeMove b x y = (true, b') ->
  inRange x y = true /\ isOccupied b x y = false /\ b' = placed b x y.
Proof.
  intros H. destruct (inRange x y) eqn:Hr.
  - destruct (isOccupied b x y) eqn:Ho.
    + rewrite makeMove_rejects in H by auto. discriminate.
    + rewrite makeMove_ok in H by assumption. inversion H. auto.
  - rewrite makeMove_rejects in H by auto. discriminate.
Qed.

Lemma makeMove_false_inv b x y b' : makeMove b x y = (false, b') -> b' = b.
Proof.
  intros H. destruct (inRange x y) eqn:Hr.
  - destruct (isOccupied b x y) eqn:Ho.
    + rewrite makeMove_rejects in H by auto. congruence.
    + rewrite makeMove_ok in H by assumption. discriminate.
  - rewrite makeMove_rejects in H by auto. congruence.
Qed.

(** Undoing the last move leads back to a board built by moves alone, so
    every reachable board is one. *)
Lemma reachable_played b ms : reachable b ms -> played b ms.
Proof.
  induction 1 as [|b ms x y b' _ IH Hm|b ms x y b' _ IH Hm|b ms x y b' _ IH Hu].
  - constructor.
  - apply makeMove_true_inv in Hm as (Hr & Ho & ->). constructor; assumption.
  - apply makeMove_false_inv in Hm as ->. exact IH.
  - inversion IH as [|b0 ms0 x0 y0 Hp Hr Ho]; subst.
    rewrite unmakeMove_placed in Hu by assumption.
    inversion Hu; subst. exact Hp.
Qed.

Lemma initialBoard_hashOK : hashOK initialBoard.
Proof. vm_compute. reflexivity. Qed.

Lemma played_hashOK b ms : played b ms -> hashOK b.
Proof.
  induction 1; [apply initialBoard_hashOK | apply hashOK_placed; assumption].
Qed.

Lemma zobristOf_ext cells cells' side :
  (forall x y, inRange x y = true -> cells x y = cells' x y) ->
  zobristOf cells side = zobristOf cells' side.
Proof.
  intros H. unfold zobristOf.
  assert (forall l : list (Z * Z), (forall c, c ∈ l -> c ∈ allCells) ->
    fold_right (fun c h => Z.lxor (cellKey (cells (fst c) (snd c)) (fst c) (snd c)) h)
      (sideKey side) l =
    fold_right (fun c h => Z.lxor (cellKey (cells' (fst c) (snd c)) (fst c) (snd c)) h)
      (sideKey side) l) as Hl.
  { induction l as [|a l IH]; intros Hsub; [reflexivity|]. cbn [fold_right].
    rewrite IH by (intros; apply Hsub; auto using list_elem_of_further).
    rewrite H; [reflexivity|]. apply allCells_spec, Hsub, list_elem_of_here. }
  apply Hl. auto.
Qed.

(** C4.  On every board reached from the initial one by [makeMove] calls
    and by [unmakeMove] calls that undo the latest move, the hash key is the
    Zobrist key of the position: a function of the states of the 144 cells
    and of the side to move.  So two such boards with the same stones and
    the same side to move have the same key, whatever the calls that led to
    them. *)
Theorem hash_determined_by_position (b1 b2 : Board) (ms1 ms2 : list (Z * Z)) :
  reachable b1 ms1 -> reachable b2 ms2 ->
  (forall x y, inRange x y = true -> getCellState b1 x y = getCellState b2 x y) ->
  sideToMove b1 = sideToMove b2 ->
  getHashKey b1 = zobristOf (getCellState b1) (sideToMove b1) /\
  getHashKey b1 = getHashKey b2.
Proof.
  intros H1 H2 Hc Hs.
  apply reachable_played, played_hashOK in H1, H2.
  unfold hashOK, getHashKey, sideToMove in *. split; [exact H1|].
  rewrite H1, H2, Hs. apply zobristOf_ext, Hc.
Qed.

Lemma reach_make_snd b ms x y :
  reachable b ms -> fst (makeMove b x y) = true ->
  reachable (snd (makeMove b x y)) ((x, y) :: ms).
Proof.
  intros Hb Hm. apply (reach_make b ms x y); [exact Hb|].
  destruct (makeMove b x y) as [ok b']. cbn in *. subst. reflexivity.
Qed.

(** Two orders of the same four moves, the second one with a move taken
    back on the way. *)
Lemma hash_determined_by_position_witness :
  getHashKey (playAll initialBoard [(0, 0); (1, 0); (2, 0); (3, 0)]) =
    zobristOf (getCellState (playAll initialBoard [(0, 0); (1, 0); (2, 0); (3, 0)]))
              (sideToMove (playAll initialBoard [(0, 0); (1, 0); (2, 0); (3, 0)])) /\
  getHashKey (playAll initialBoard [(0, 0); (1, 0); (2, 0); (3, 0)]) =
  getHashKey (playAll initialBoard [(2, 0); (3, 0); (0, 0); (1, 0)]).
Proof.
  apply (hash_determined_by_position _ _
           [(3, 0); (2, 0); (1, 0); (0, 0)] [(1, 0); (0, 0); (3, 0); (2, 0)]).
  - unfold playAll. cbn [fold_left fst snd].
    repeat (apply reach_make_snd; [|vm_compute; reflexivity]).
    apply reach_init.
  - unfold playAll. cbn [fold_left fst snd].
    do 2 (apply reach_make_snd; [|vm_compute; reflexivity]).
    apply (reach_unmake
             (snd (makeMove (snd (makeMove (snd (makeMove initialBoard 2 0)) 3 0)) 7 7))
             _ 7 7); [|vm_compute; reflexivity].
    repeat (apply reach_make_snd; [|vm_compute; reflexivity]).
    apply reach_init.
  - intros x y _.
    assert (playAll initialBoard [(0, 0); (1, 0); (2, 0); (3, 0)] =
            playAll initialBoard [(2, 0); (3, 0); (0, 0); (1, 0)]) as ->
      by (vm_compute; reflexivity).
    reflexivity.
  - vm_compute. reflexivity.
Defined.

(** ** [checkWin] *)

Lemma extend_spec fuel b p dx dy : forall nx ny c,
  exists k, 0 <= k <= Z.of_nat fuel /\
    extend fuel b p nx ny dx dy c = c + k /\
    forall i, 0 <= i < k ->
      inRange (nx + i * dx) (ny + i * dy) = true /\
      hasStone b p (nx + i * dx) (ny + i * dy) = true.
Proof.
  induction fuel as [|fuel IH]; intros nx ny c; cbn [extend].
  - exists 0. repeat split; lia.
  - destruct (inRange nx ny) eqn:Hr; [|exists 0; repeat split; lia].
    destruct (hasStone b p nx ny) eqn:Hs; [|exists 0; repeat split; lia].
    destruct (IH (nx + dx) (ny + dy) (c + 1)) as (k & Hk & E & Hcells).
    exists (k + 1). split; [lia|]. split; [lia|].
    intros i Hi. destruct (Z.eq_dec i 0) as [->|Hne].
    + rewrite !Z.mul_0_l, !Z.add_0_r. auto.
    + specialize (Hcells (i - 1) ltac:(lia)).
      replace (nx + dx + (i - 1) * dx) with (nx + i * dx) in Hcells by ring.
      replace (ny + dy + (i - 1) * dy) with (ny + i * dy) in Hcells by ring.
      exact Hcells.
Qed.

Lemma extend_lower fuel b p dx dy : forall (n : nat) nx ny c,
  (n <= fuel)%nat ->
  (forall i, 0 <= i < Z.of_nat n ->
     inRange (nx + i * dx) (ny + i * dy) = true /\
     hasStone b p (nx + i * dx) (ny + i * dy) = true) ->
  c + Z.of_nat n <= extend fuel b p nx ny dx dy c.
Proof.
  induction fuel as [|fuel IH]; intros n nx ny c Hn Hcells.
  - assert (n = 0%nat) as -> by lia. cbn. lia.
  - destruct n as [|n].
    { destruct (extend_spec (S fuel) b p dx dy nx ny c) as (k & ? & -> & _). lia. }
    cbn [extend].
    destruct (Hcells 0 ltac:(lia)) as [Hr Hs].
    rewrite !Z.mul_0_l, !Z.add_0_r in Hr, Hs. rewrite Hr, Hs.
    specialize (IH n (nx + dx) (ny + dy) (c + 1) ltac:(lia)).
    etransitivity; [|apply IH]; [lia|].
    intros i Hi. specialize (Hcells (i + 1) ltac:(lia)).
    replace (nx + (i + 1) * dx) with (nx + dx + i * dx) in Hcells by ring.
    replace (ny + (i + 1) * dy) with (ny + dy + i * dy) in Hcells by ring.
    exact Hcells.
Qed.

(** More rounds change nothing once the walk is sure to leave the board. *)
Lemma extend_fuel_stable b p dx dy extra : forall fuel nx ny c,
  (exists k, 0 <= k < Z.of_nat fuel /\
     inRange (nx + k * dx) (ny + k * dy) = false) ->
  extend (fuel + extra) b p nx ny dx dy c = extend fuel b p nx ny dx dy c.
Proof.
  induction fuel as [|fuel IH]; intros nx ny c (k & Hk & Hout); [lia|].
  cbn [extend Nat.add].
  destruct (inRange nx ny) eqn:Hr; [|reflexivity].
  destruct (hasStone b p nx ny); [|reflexivity].
  apply IH. exists (k - 1).
  assert (k <> 0).
  { intros ->. rewrite !Z.mul_0_l, !Z.add_0_r in Hout. congruence. }
  split; [lia|].
  replace (nx + dx + (k - 1) * dx) with (nx + k * dx) by ring.
  replace (ny + dy + (k - 1) * dy) with (ny + k * dy) by ring.
  exact Hout.
Qed.

(** Twelve rounds are enough for both walks of [checkWin]. *)
Lemma extend_fuel b p x y dx dy c extra :
  inRange x y = true -> In (dx, dy) dirs ->
  extend (12 + extra) b p (x + dx) (y + dy) dx dy c =
    extend 12 b p (x + dx) (y + dy) dx dy c /\
  extend (12 + extra) b p (x - dx) (y - dy) (- dx) (- dy) c =
    extend 12 b p (x - dx) (y - dy) (- dx) (- dy) c.
Proof.
  intros Hr Hd. apply inRange_iff in Hr.
  split; apply extend_fuel_stable; exists 11; (split; [lia|]);
    apply inRange_false_iff;
    cbn in Hd; destruct Hd as [E|[E|[E|[E|[]]]]]; inversion E; subst; lia.
Qed.

Lemma checkWin_true_iff b p :
  checkWin b p = true <->
  exists x y dx dy,
    inRange x y = true /\ hasStone b p x y = true /\
    In (dx, dy) dirs /\ 5 <= lineCount b p x y dx dy.
Proof.
  unfold checkWin. rewrite existsb_exists. split.
  - intros (y & Hy & H). apply existsb_exists in H as (x & Hx & H).
    destruct (hasStone b p x y) eqn:Hs; [|discriminate]. cbn [negb] in H.
    apply existsb_exists in H as ([dx dy] & Hd & H). cbn [fst snd] in H.
    exists x, y, dx, dy.
    apply list_elem_of_In, elem_of_seqZ in Hx, Hy.
    split; [apply inRange_iff; lia|]. split; [exact Hs|].
    split; [exact Hd|]. apply Z.leb_le, H.
  - intros (x & y & dx & dy & Hr & Hs & Hd & H). apply inRange_iff in Hr.
    exists y. split; [apply list_elem_of_In, elem_of_seqZ; lia|].
    apply existsb_exists. exists x.
    split; [apply list_elem_of_In, elem_of_seqZ; lia|].
    rewrite Hs. cbn [negb]. apply existsb_exists. exists (dx, dy).
    split; [exact Hd|]. apply Z.leb_le, H.
Qed.

Lemma checkWin_five b p : checkWin b p = true <-> fiveInRow b p.
Proof.
  rewrite checkWin_true_iff. split.
  - intros (x & y & dx & dy & Hr & Hs & Hd & H). unfold lineCount in H.
    destruct (extend_spec 12 b p dx dy (x + dx) (y + dy) 1) as (kf & Hkf & Ef & Hf).
    destruct (extend_spec 12 b p (- dx) (- dy) (x - dx) (y - dy) (1 + kf))
      as (kb & Hkb & Eb & Hb).
    rewrite Ef, Eb in H.
    exists (x - kb * dx), (y - kb * dy), dx, dy, (1 + kf + kb).
    split; [exact Hd|]. split; [exact H|].
    intros k Hk.
    destruct (Z.lt_trichotomy k kb) as [Hlt|[->|Hgt]].
    + specialize (Hb (kb - k - 1) ltac:(lia)).
      replace (x - dx + (kb - k - 1) * - dx) with (x - kb * dx + k * dx) in Hb by ring.
      replace (y - dy + (kb - k - 1) * - dy) with (y - kb * dy + k * dy) in Hb by ring.
      exact Hb.
    + replace (x - kb * dx + kb * dx) with x by ring.
      replace (y - kb * dy + kb * dy) with y by ring. auto.
    + specialize (Hf (k - kb - 1) ltac:(lia)).
      replace (x + dx + (k - kb - 1) * dx) with (x - kb * dx + k * dx) in Hf by ring.
      replace (y + dy + (k - kb - 1) * dy) with (y - kb * dy + k * dy) in Hf by ring.
      exact Hf.
  - intros (x & y & dx & dy & n & Hd & Hn & Hrow).
    exists x, y, dx, dy.
    destruct (Hrow 0 ltac:(lia)) as [Hr Hs].
    rewrite !Z.mul_0_l, !Z.add_0_r in Hr, Hs.
    split; [exact Hr|]. split; [exact Hs|]. split; [exact Hd|].
    unfold lineCount.
    pose proof (extend_lower 12 b p dx dy 4 (x + dx) (y + dy) 1 ltac:(lia)) as Hf.
    destruct (extend_spec 12 b p (- dx) (- dy) (x - dx) (y - dy)
                (extend 12 b p (x + dx) (y + dy) dx dy 1)) as (kb & Hkb & -> & _).
    assert (1 + Z.of_nat 4 <= extend 12 b p (x + dx) (y + dy) dx dy 1) as Hf'.
    { apply Hf. intros i Hi. specialize (Hrow (i + 1) ltac:(lia)).
      replace (x + (i + 1) * dx) with (x + dx + i * dx) in Hrow by ring.
      replace (y + (i + 1) * dy) with (y + dy + i * dy) in Hrow by ring.
      exact Hrow. }
    lia.
Qed.

Lemma initialBoard_disjoint : disjoint initialBoard.
Proof.
  assert (forallb (fun c => negb (hasStone initialBoard Black (fst c) (snd c)
                                  && hasStone initialBoard White (fst c) (snd c)))
                  allCells = true) as H by (vm_compute; reflexivity).
  intros x y Hr. rewrite forallb_forall in H.
  specialize (H (x, y)). cbn [fst snd] in H.
  apply negb_true_iff, H, list_elem_of_In, allCells_spec. exact Hr.
Qed.

Lemma placed_disjoint b x y :
  inRange x y = true -> isOccupied b x y = false ->
  disjoint b -> disjoint (placed b x y).
Proof.
  intros Hr Ho Hd cx cy Hc.
  destruct (decide ((cx, cy) = (x, y))) as [E|Hne].
  - inversion E; subst.
    pose proof (hasStone_placed_other_player b x y x y) as Hn.
    rewrite (isOccupied_false_stones b x y Hr Ho) in Hn.
    destruct (side_to_move b); cbn [other] in Hn; rewrite Hn;
      [apply andb_false_r | apply andb_false_l].
  - rewrite !(hasStone_placed_other_cell b x y _ cx cy) by assumption.
    apply Hd, Hc.
Qed.

Lemma played_disjoint b ms : played b ms -> disjoint b.
Proof.
  induction 1; [apply initialBoard_disjoint | apply placed_disjoint; assumption].
Qed.

Lemma hasStone_state b p x y :
  disjoint b ->
  (inRange x y = true /\ hasStone b p x y = true) <->
  getCellState b x y = playerIndex p + 1.
Proof.
  intros Hd. destruct (inRange x y) eqn:Hr.
  - specialize (Hd x y Hr). rewrite getCellState_bits by assumption.
    destruct p, (hasStone b Black x y), (hasStone b White x y);
      cbn in *; intuition (discriminate || lia).
  - unfold getCellState. rewrite Hr. cbn. destruct p; cbn; intuition (discriminate || lia).
Qed.

Lemma fiveInRow_state b p : disjoint b -> fiveInRow b p <-> fiveInRowState b p.
Proof.
  intros Hd. unfold fiveInRow, fiveInRowState, rowOf, rowOfState.
  split; intros (x & y & dx & dy & n & Hdir & Hn & Hrow);
    exists x, y, dx, dy, n; (split; [exact Hdir|]); (split; [exact Hn|]);
    intros k Hk; apply (hasStone_state b p _ _ Hd), Hrow, Hk.
Qed.


(** ** ThreatSolver: the table built by the scan *)

Lemma countWindow_fold grid ctx i js : forall d a e offs,
  fold_left (fun acc j =>
      let '(defenderStones, attackerStones, empties, emptyOffsets) := acc in
      let val := cellAt grid ctx (i + j) in
      if val =? -1 then (defenderStones + 1, attackerStones, empties, emptyOffsets)
      else if val =? 1 then (defenderStones, attackerStones + 1, empties, emptyOffsets)
      else (defenderStones, attackerStones, empties + 1, emptyOffsets ++ [j]))
    js (d, a, e, offs) =
  (d + Z.of_nat (List.length (List.filter (fun j => cellAt grid ctx (i + j) =? -1) js)),
   a + Z.of_nat (List.length (List.filter (fun j => cellAt grid ctx (i + j) =? 1) js)),
   e + Z.of_nat (List.length (List.filter
         (fun j => negb (cellAt grid ctx (i + j) =? -1)
                   && negb (cellAt grid ctx (i + j) =? 1)) js)),
   offs ++ List.filter
         (fun j => negb (cellAt grid ctx (i + j) =? -1)
                   && negb (cellAt grid ctx (i + j) =? 1)) js).
Proof.
  induction js as [|j js IH]; intros d a e offs; cbn [fold_left List.filter].
  - rewrite !Z.add_0_r, app_nil_r. reflexivity.
  - destruct (Z.eqb_spec (cellAt grid ctx (i + j)) (-1)) as [E|E];
      destruct (Z.eqb_spec (cellAt grid ctx (i + j)) 1) as [E1|E1];
      try (exfalso; lia);
      rewrite IH; cbn [negb andb List.length]; rewrite <- ?app_assoc; cbn [app];
      repeat (apply (f_equal2 pair)); try reflexivity; lia.
Qed.

Lemma countWindow_spec grid ctx i :
  countWindow grid ctx i =
  (Z.of_nat (List.length (List.filter (fun j => cellAt grid ctx (i + j) =? -1) (seqZ 0 5))),
   Z.of_nat (List.length (List.filter (fun j => cellAt grid ctx (i + j) =? 1) (seqZ 0 5))),
   Z.of_nat (List.length (emptyOffsets grid ctx i)),
   emptyOffsets grid ctx i).
Proof. unfold countWindow. rewrite countWindow_fold. reflexivity. Qed.

Lemma fold_left_map_list {A B C} (f : A -> C -> A) (g : B -> C) l : forall a,
  fold_left f (map g l) a = fold_left (fun a x => f a (g x)) l a.
Proof. induction l as [|x l IH]; intros a; cbn; [reflexivity | apply IH]. Qed.

Lemma fold_left_flat_map {A B C} (f : A -> C -> A) (g : B -> list C) l : forall a,
  fold_left f (flat_map g l) a = fold_left (fun a x => fold_left f (g x) a) l a.
Proof.
  induction l as [|x l IH]; intros a; cbn; [reflexivity|].
  rewrite fold_left_app. apply IH.
Qed.

Lemma fold_left_ext_list {A B} (f g : A -> B -> A) l :
  (forall a x, f a x = g a x) -> forall a, fold_left f l a = fold_left g l a.
Proof.
  intros H. induction l as [|x l IH]; intros a; cbn; [reflexivity|].
  rewrite H. apply IH.
Qed.

(** One round of the scan makes the calls listed by [windowCalls]. *)
Lemma processWindow_calls grid ctx m i :
  processWindow grid ctx m i = fold_left addCall (windowCalls grid ctx i) m.
Proof.
  unfold processWindow, windowCalls, codeSeverity.
  rewrite countWindow_spec.
  destruct (0 <? _); [reflexivity|].
  set (offs := emptyOffsets grid ctx i).
  set (L := (0 <=? i - 1) && (cellAt grid ctx (i - 1) =? 0)).
  set (R := (i + 5 <? LineContext.length ctx) && (cellAt grid ctx (i + 5) =? 0)).
  destruct (_ =? 4) eqn:E4; cbn [andb].
  - destruct (Z.eqb_spec (Z.of_nat (List.length offs)) 1) as [E1|E1].
    + destruct offs as [|o [|o' offs']]; cbn [List.length] in E1; try lia.
      reflexivity.
    + destruct (_ =? 3); cbn [andb]; [|reflexivity].
      destruct (_ =? 2); [|reflexivity].
      destruct (L && R); [|destruct (L || R); [|reflexivity]];
        rewrite fold_left_map_list; reflexivity.
  - destruct (_ =? 3); cbn [andb]; [|reflexivity].
    destruct (_ =? 2); [|reflexivity].
    destruct (L && R); [|destruct (L || R); [|reflexivity]];
      rewrite fold_left_map_list; reflexivity.
Qed.

Lemma processLine_calls grid ctx m :
  processLine grid ctx m = fold_left addCall (lineCalls grid ctx) m.
Proof.
  unfold processLine, lineCalls. rewrite fold_left_flat_map.
  apply fold_left_ext_list. intros a x. apply processWindow_calls.
Qed.

Lemma scanBoard_calls b defender :
  scanBoard b defender = fold_left addCall (allCalls b defender) ∅.
Proof.
  unfold scanBoard, allCalls. rewrite fold_left_flat_map.
  apply fold_left_ext_list. intros a x. apply processLine_calls.
Qed.

(** *** What a sequence of [addMoveIfStronger] calls leaves in the table *)

Lemma coordKey_inj x y x' y' :
  inRange x y = true -> inRange x' y' = true ->
  coordKey x y = coordKey x' y' -> x = x' /\ y = y'.
Proof. rewrite !inRange_iff. unfold coordKey. lia. Qed.

Lemma addCall_other (m : gmap Z Z) c key :
  coordKey (fst (fst c)) (snd (fst c)) <> key ->
  addCall m c !! key = m !! key.
Proof.
  intros Hne. unfold addCall, addMoveIfStronger.
  destruct (negb _); [reflexivity|].
  destruct (m !! coordKey _ _) as [old|].
  - destruct (old <? _); [apply lookup_insert_ne; exact Hne | reflexivity].
  - apply lookup_insert_ne. exact Hne.
Qed.

Lemma addCall_out (m : gmap Z Z) c :
  inRange (fst (fst c)) (snd (fst c)) = false -> addCall m c = m.
Proof. intros H. unfold addCall, addMoveIfStronger. rewrite H. reflexivity. Qed.

Lemma addCall_same (m : gmap Z Z) c :
  inRange (fst (fst c)) (snd (fst c)) = true ->
  addCall m c !! coordKey (fst (fst c)) (snd (fst c)) =
  Some (match m !! coordKey (fst (fst c)) (snd (fst c)) with
        | Some old => Z.max old (snd c)
        | None => snd c
        end).
Proof.
  intros Hr. unfold addCall, addMoveIfStronger. rewrite Hr. cbn [negb].
  destruct (m !! coordKey _ _) as [old|] eqn:E.
  - destruct (Z.ltb_spec old (snd c)).
    + rewrite lookup_insert_eq. f_equal. lia.
    + rewrite E. f_equal. lia.
  - apply lookup_insert_eq.
Qed.

(** The entry of [key] after the calls [l]: some call on [key] (or the old
    entry) has the stored severity, and no call on [key] has more. *)
Lemma fold_addCall_lookup l : forall (m : gmap Z Z) key,
  let m' := fold_left addCall l m in
  (forall s, m' !! key = Some s ->
     (m !! key = Some s \/
      exists c, In c l /\ inRange (fst (fst c)) (snd (fst c)) = true /\
                coordKey (fst (fst c)) (snd (fst c)) = key /\ snd c = s)) /\
  (forall s0, m !! key = Some s0 -> exists s, m' !! key = Some s /\ s0 <= s) /\
  (forall c, In c l -> inRange (fst (fst c)) (snd (fst c)) = true ->
     coordKey (fst (fst c)) (snd (fst c)) = key ->
     exists s, m' !! key = Some s /\ snd c <= s).
Proof.
  induction l as [|c l IH]; intros m key; cbn [fold_left].
  - repeat split.
    + intros s Hs. left. exact Hs.
    + intros s0 Hs0. exists s0. split; [exact Hs0 | lia].
    + intros c [].
  - destruct (IH (addCall m c) key) as (IH1 & IH2 & IH3). clear IH.
    destruct (inRange (fst (fst c)) (snd (fst c))) eqn:Hr.
    2:{ rewrite addCall_out in * by exact Hr. repeat split.
        - intros s Hs. destruct (IH1 s Hs) as [?|(c' & ? & ?)]; [left; assumption|].
          right. exists c'. split; [right; assumption | assumption].
        - exact IH2.
        - intros c' [<-|Hin] Hr' Hk; [congruence|]. apply IH3; assumption. }
    destruct (Z.eq_dec (coordKey (fst (fst c)) (snd (fst c))) key) as [Hk|Hk].
    + pose proof (addCall_same m c Hr) as Hsame. rewrite Hk in Hsame.
      repeat split.
      * intros s Hs. destruct (IH1 s Hs) as [Hold|(c' & ? & ?)].
        -- rewrite Hsame in Hold. inversion Hold as [E]. clear Hold.
           destruct (m !! key) as [old|] eqn:Em.
           ++ destruct (Z.max_spec old (snd c)) as [[_ Hmax]|[_ Hmax]];
                rewrite Hmax in *.
              ** right. exists c. repeat split; auto using in_eq.
              ** left. reflexivity.
           ++ right. exists c. repeat split; auto using in_eq.
        -- right. exists c'. split; [right; assumption | assumption].
      * intros s0 Hs0. rewrite Hs0 in Hsame.
        destruct (IH2 _ Hsame) as (s & Hs & Hle). exists s. split; [exact Hs | lia].
      * intros c' [<-|Hin] Hr' Hk'; [|apply IH3; assumption].
        destruct (IH2 _ Hsame) as (s & Hs & Hle). exists s. split; [exact Hs|].
        destruct (m !! key); lia.
    + rewrite (addCall_other m c key Hk) in *. repeat split.
      * intros s Hs. destruct (IH1 s Hs) as [?|(c' & ? & ?)]; [left; assumption|].
        right. exists c'. split; [right; assumption | assumption].
      * exact IH2.
      * intros c' [<-|Hin] Hr' Hk'; [contradiction|]. apply IH3; assumption.
Qed.

Lemma scanBoard_lookup b defender key s :
  scanBoard b defender !! key = Some s <->
  (exists c, In c (allCalls b defender) /\
     inRange (fst (fst c)) (snd (fst c)) = true /\
     coordKey (fst (fst c)) (snd (fst c)) = key /\ snd c = s) /\
  (forall c, In c (allCalls b defender) ->
     inRange (fst (fst c)) (snd (fst c)) = true ->
     coordKey (fst (fst c)) (snd (fst c)) = key -> snd c <= s).
Proof.
  rewrite scanBoard_calls.
  destruct (fold_addCall_lookup (allCalls b defender) ∅ key) as (H1 & _ & H3).
  cbn zeta in *. split.
  - intros Hs. split.
    + destruct (H1 s Hs) as [Hempty|Hc]; [|exact Hc].
      rewrite lookup_empty in Hempty. discriminate.
    + intros c Hin Hr Hk. destruct (H3 c Hin Hr Hk) as (s' & Hs' & Hle).
      rewrite Hs in Hs'. inversion Hs'. subst. exact Hle.
  - intros [(c & Hin & Hr & Hk & Hsev) Hmax].
    destruct (H3 c Hin Hr Hk) as (s' & Hs' & Hle).
    destruct (H1 s' Hs') as [Hempty|(c' & Hin' & Hr' & Hk' & Hsev')].
    { rewrite lookup_empty in Hempty. discriminate. }
    specialize (Hmax c' Hin' Hr' Hk').
    rewrite Hs'. f_equal. lia.
Qed.

(** *** The lines of the scan and the windows of the board *)

Lemma getCellState_range b x y :
  inRange x y = true ->
  getCellState b x y = 0 \/ getCellState b x y = 1 \/ getCellState b x y = 2.
Proof.
  intros Hr. rewrite getCellState_bits by exact Hr.
  destruct (hasStone b Black x y), (hasStone b White x y); auto.
Qed.

Lemma buildGrid_spec b defender x y :
  buildGrid b defender y x =
  if getCellState b x y =? stateOf (other defender) then 1
  else if getCellState b x y =? stateOf defender then -1
  else 0.
Proof.
  unfold buildGrid, stateOf.
  destruct defender; cbn [other playerIndex Player_eqb Z.add];
    rewrite ?andb_true_r, ?andb_false_r, ?orb_false_r, ?orb_false_l;
    change (0 + 1) with 1; change (1 + 1) with 2;
    destruct (Z.eqb_spec (getCellState b x y) 1), (Z.eqb_spec (getCellState b x y) 2);
    try reflexivity; lia.
Qed.

Lemma buildGrid_defender b defender x y :
  (buildGrid b defender y x =? -1) = (getCellState b x y =? stateOf defender).
Proof.
  rewrite buildGrid_spec.
  destruct (Z.eqb_spec (getCellState b x y) (stateOf (other defender))) as [E|E];
    destruct (Z.eqb_spec (getCellState b x y) (stateOf defender)) as [E'|E'];
    try reflexivity.
  exfalso. rewrite E in E'. destruct defender; discriminate.
Qed.

Lemma buildGrid_attacker b defender x y :
  (buildGrid b defender y x =? 1) =
  (getCellState b x y =? stateOf (other defender)).
Proof.
  rewrite buildGrid_spec.
  destruct (Z.eqb_spec (getCellState b x y) (stateOf (other defender)));
    destruct (Z.eqb_spec (getCellState b x y) (stateOf defender)); reflexivity.
Qed.

Lemma buildGrid_empty b defender x y :
  inRange x y = true ->
  (buildGrid b defender y x =? 0) = (getCellState b x y =? 0) /\
  negb (buildGrid b defender y x =? -1) && negb (buildGrid b defender y x =? 1) =
  (getCellState b x y =? 0).
Proof.
  intros Hr. rewrite buildGrid_spec.
  destruct (getCellState_range b x y Hr) as [E|[E|E]]; rewrite E;
    destruct defender; split; reflexivity.
Qed.

Lemma allLines_cases ctx :
  In ctx allLines <->
  (exists y, 0 <= y < 12 /\ ctx = LineContext.mk 0 y 1 0 12) \/
  (exists x, 0 <= x < 12 /\ ctx = LineContext.mk x 0 0 1 12) \/
  (exists k, -11 <= k <= 11 /\
     ctx = LineContext.mk (Z.max 0 k) (Z.max 0 (- k)) 1 1
             (Z.min (12 - Z.max 0 k) (12 - Z.max 0 (- k)))) \/
  (exists s, 0 <= s <= 22 /\
     ctx = LineContext.mk (Z.max 0 (s - 11)) (Z.min 11 s) 1 (-1)
             (Z.min (Z.min 11 s + 1) (12 - Z.max 0 (s - 11)))).
Proof.
  unfold allLines, horizontalLines, verticalLines, diagonalLines, antiDiagonalLines.
  rewrite !in_app_iff, !in_map_iff.
  assert (forall a n k, In k (seqZ a n) <-> a <= k < a + n) as Hseq
    by (intros; rewrite <- list_elem_of_In; apply elem_of_seqZ).
  split.
  - intros [(y & <- & Hy)|[(x & <- & Hx)|[(k & <- & Hk)|(s & <- & Hs)]]];
      apply Hseq in Hy || apply Hseq in Hx || apply Hseq in Hk || apply Hseq in Hs.
    + left. exists y. split; [lia | reflexivity].
    + right; left. exists x. split; [lia | reflexivity].
    + right; right; left. exists k. split; [lia | reflexivity].
    + right; right; right. exists s. split; [lia | reflexivity].
  - intros [(y & Hy & ->)|[(x & Hx & ->)|[(k & Hk & ->)|(s & Hs & ->)]]].
    + left. exists y. split; [reflexivity | apply Hseq; lia].
    + right; left. exists x. split; [reflexivity | apply Hseq; lia].
    + right; right; left. exists k. split; [reflexivity | apply Hseq; lia].
    + right; right; right. exists s. split; [reflexivity | apply Hseq; lia].
Qed.

Lemma allLines_full ctx : In ctx allLines -> fullLine ctx.
Proof.
  intros H. apply allLines_cases in H.
  destruct H as [(y & Hy & ->)|[(x & Hx & ->)|[(k & Hk & ->)|(s & Hs & ->)]]];
    (split; [cbn; tauto|]); intros j; cbn [LineContext.xStart LineContext.yStart
      LineContext.dx LineContext.dy LineContext.length];
    rewrite inRange_iff; lia.
Qed.

Lemma winCell_windowOf ctx i j :
  winCell (windowOf ctx i) j =
  (LineContext.xStart ctx + (i + j) * LineContext.dx ctx,
   LineContext.yStart ctx + (i + j) * LineContext.dy ctx).
Proof. unfold winCell, windowOf. cbn [wx wy wdx wdy]. f_equal; ring. Qed.

Lemma windowOf_inRange ctx i j :
  In ctx allLines ->
  inRange (fst (winCell (windowOf ctx i) j)) (snd (winCell (windowOf ctx i) j)) = true
  <-> 0 <= i + j < LineContext.length ctx.
Proof.
  intros Hctx. rewrite winCell_windowOf. cbn [fst snd].
  apply (allLines_full ctx Hctx).
Qed.

Lemma windowOf_isWindow ctx i :
  In ctx allLines -> 0 <= i -> i + 5 <= LineContext.length ctx ->
  isWindow (windowOf ctx i).
Proof.
  intros Hctx Hi Hlen. split; [apply (allLines_full ctx Hctx)|].
  split; apply windowOf_inRange; auto; lia.
Qed.

(** Every window of the board is a window of one of the scanned lines. *)
Lemma window_on_line w :
  isWindow w ->
  exists ctx i, In ctx allLines /\ 0 <= i /\ i + 5 <= LineContext.length ctx /\
                windowOf ctx i = w.
Proof.
  destruct w as [x0 y0 dx dy]. intros (Hd & H0 & H4).
  unfold winCell in H0, H4. cbn [wx wy wdx wdy fst snd] in *.
  apply inRange_iff in H0, H4.
  cbn in Hd. destruct Hd as [E|[E|[E|[E|[]]]]]; inversion E; subst; clear E.
  - exists (LineContext.mk 0 y0 1 0 12), x0.
    split; [apply allLines_cases; left; exists y0; split; [lia | reflexivity]|].
    unfold windowOf; cbn. repeat split; try lia. f_equal; lia.
  - exists (LineContext.mk x0 0 0 1 12), y0.
    split; [apply allLines_cases; right; left; exists x0; split; [lia | reflexivity]|].
    unfold windowOf; cbn. repeat split; try lia. f_equal; lia.
  - exists (LineContext.mk (Z.max 0 (x0 - y0)) (Z.max 0 (- (x0 - y0))) 1 1
              (Z.min (12 - Z.max 0 (x0 - y0)) (12 - Z.max 0 (- (x0 - y0))))),
           (x0 - Z.max 0 (x0 - y0)).
    split; [apply allLines_cases; right; right; left; exists (x0 - y0);
            split; [lia | reflexivity]|].
    unfold windowOf;
      cbn [LineContext.xStart LineContext.yStart LineContext.dx LineContext.dy
           LineContext.length].
    repeat split; try lia. f_equal; lia.
  - exists (LineContext.mk (Z.max 0 (x0 + y0 - 11)) (Z.min 11 (x0 + y0)) 1 (-1)
              (Z.min (Z.min 11 (x0 + y0) + 1) (12 - Z.max 0 (x0 + y0 - 11)))),
           (x0 - Z.max 0 (x0 + y0 - 11)).
    split; [apply allLines_cases; right; right; right; exists (x0 + y0);
            split; [lia | reflexivity]|].
    unfold windowOf;
      cbn [LineContext.xStart LineContext.yStart LineContext.dx LineContext.dy
           LineContext.length].
    repeat split; try lia. f_equal; lia.
Qed.

Lemma cellAt_window b defender ctx i j :
  cellAt (buildGrid b defender) ctx (i + j) =
  buildGrid b defender (snd (winCell (windowOf ctx i) j))
                       (fst (winCell (windowOf ctx i) j)).
Proof. rewrite winCell_windowOf. reflexivity. Qed.

Lemma filter_map_length {A B} (p : B -> bool) (f : A -> B) l :
  List.length (List.filter p (map f l)) =
  List.length (List.filter (fun x => p (f x)) l).
Proof.
  induction l as [|a l IH]; cbn; [reflexivity|].
  destruct (p (f a)); cbn; rewrite IH; reflexivity.
Qed.

Lemma seqZ_In a n k : In k (seqZ a n) <-> a <= k < a + n.
Proof. rewrite <- list_elem_of_In. apply elem_of_seqZ. Qed.

(** The three counters of the code are the numbers of defender stones,
    attacker stones and empty cells of the window. *)
Lemma counts_window b defender ctx i :
  In ctx allLines -> 0 <= i -> i + 5 <= LineContext.length ctx ->
  Z.of_nat (List.length (List.filter
    (fun j => cellAt (buildGrid b defender) ctx (i + j) =? -1) (seqZ 0 5))) =
    countState b (winCells (windowOf ctx i)) (stateOf defender) /\
  Z.of_nat (List.length (List.filter
    (fun j => cellAt (buildGrid b defender) ctx (i + j) =? 1) (seqZ 0 5))) =
    countState b (winCells (windowOf ctx i)) (stateOf (other defender)) /\
  Z.of_nat (List.length (emptyOffsets (buildGrid b defender) ctx i)) =
    countState b (winCells (windowOf ctx i)) 0.
Proof.
  intros Hctx Hi Hlen. unfold countState, winCells, emptyOffsets.
  rewrite !filter_map_length. repeat split; f_equal; f_equal.
  - apply List.filter_ext. intros j. rewrite cellAt_window. apply buildGrid_defender.
  - apply List.filter_ext. intros j. rewrite cellAt_window. apply buildGrid_attacker.
  - apply List.filter_ext_in. intros j Hj. apply seqZ_In in Hj.
    rewrite cellAt_window. apply buildGrid_empty, windowOf_inRange; auto; lia.
Qed.

Lemma open_end b defender ctx i j (inside : bool) :
  In ctx allLines ->
  (inside = true <-> 0 <= i + j < LineContext.length ctx) ->
  inside && (cellAt (buildGrid b defender) ctx (i + j) =? 0) =
  openEnd b (winCell (windowOf ctx i) j).
Proof.
  intros Hctx Hinside. unfold openEnd.
  pose proof (windowOf_inRange ctx i j Hctx) as Hin.
  destruct (inRange _ _) eqn:Hr.
  - rewrite cellAt_window. rewrite (proj1 (buildGrid_empty b defender _ _ Hr)).
    destruct inside; [reflexivity|].
    assert (false = true) by (apply Hinside, Hin; reflexivity). discriminate.
  - destruct inside; [|reflexivity].
    assert (false = true) by (apply Hin, Hinside; reflexivity). discriminate.
Qed.

Lemma codeSeverity_window b defender ctx i :
  In ctx allLines -> 0 <= i -> i + 5 <= LineContext.length ctx ->
  codeSeverity (buildGrid b defender) ctx i =
  windowSeverity b defender (windowOf ctx i).
Proof.
  intros Hctx Hi Hlen. unfold codeSeverity, windowSeverity.
  rewrite countWindow_spec.
  destruct (counts_window b defender ctx i Hctx Hi Hlen) as (-> & -> & ->).
  assert ((0 <=? i - 1) && (cellAt (buildGrid b defender) ctx (i - 1) =? 0) =
          openEnd b (winCell (windowOf ctx i) (-1))) as ->.
  { replace (i - 1) with (i + -1) by lia.
    apply open_end; [exact Hctx|]. rewrite Z.leb_le. lia. }
  assert ((i + 5 <? LineContext.length ctx)
          && (cellAt (buildGrid b defender) ctx (i + 5) =? 0) =
          openEnd b (winCell (windowOf ctx i) 5)) as ->.
  { apply open_end; [exact Hctx|]. rewrite Z.ltb_lt. lia. }
  assert (0 <= countState b (winCells (windowOf ctx i)) (stateOf defender)) as Hnn
    by (unfold countState; lia).
  destruct (Z.ltb_spec 0 (countState b (winCells (windowOf ctx i)) (stateOf defender)));
    destruct (Z.eqb_spec (countState b (winCells (windowOf ctx i)) (stateOf defender)) 0);
    try lia; reflexivity.
Qed.

Lemma winCells_inRange w x y :
  isWindow w -> In (x, y) (winCells w) -> inRange x y = true.
Proof.
  intros Hw Hin. destruct (window_on_line w Hw) as (ctx & i & Hctx & Hi & Hlen & <-).
  apply in_map_iff in Hin as (j & E & Hj). apply seqZ_In in Hj.
  pose proof (windowOf_inRange ctx i j Hctx) as H. rewrite E in H.
  apply H. lia.
Qed.

(** The calls made by the scan are the nominations of the windows. *)
Lemma allCalls_nominates b defender x y s :
  In (x, y, s) (allCalls b defender) <-> exists w, nominates b defender w x y s.
Proof.
  unfold allCalls, lineCalls. rewrite in_flat_map. split.
  - intros (ctx & Hctx & Hc). apply in_flat_map in Hc as (i & Hi & Hc).
    apply seqZ_In in Hi. unfold windowCalls in Hc.
    destruct (codeSeverity _ ctx i) as [sev|] eqn:Hsev; [|destruct Hc].
    apply in_map_iff in Hc as (o & E & Ho). inversion E; subst; clear E.
    apply filter_In in Ho as [Ho He]. apply seqZ_In in Ho.
    rewrite codeSeverity_window in Hsev by (auto; lia).
    exists (windowOf ctx i).
    split; [apply windowOf_isWindow; auto; lia|].
    split; [exact Hsev|].
    assert (windowCell ctx i o = winCell (windowOf ctx i) o) as Ecell
      by (rewrite winCell_windowOf; reflexivity).
    split.
    + unfold winCells. apply in_map_iff. exists o.
      split; [symmetry; exact Ecell | apply seqZ_In; lia].
    + pose proof (windowOf_inRange ctx i o Hctx) as Hr.
      rewrite cellAt_window in He. rewrite <- Ecell in *.
      rewrite (proj2 (buildGrid_empty b defender _ _ (proj2 Hr ltac:(lia)))) in He.
      apply Z.eqb_eq in He. exact He.
  - intros (w & Hw & Hsev & Hin & Hempty).
    destruct (window_on_line w Hw) as (ctx & i & Hctx & Hi & Hlen & <-).
    exists ctx. split; [exact Hctx|]. apply in_flat_map. exists i.
    split; [apply seqZ_In; lia|]. unfold windowCalls.
    rewrite codeSeverity_window, Hsev by (auto; lia).
    apply in_map_iff in Hin as (o & E & Ho).
    apply in_map_iff. exists o. split.
    + rewrite winCell_windowOf in E. unfold windowCell. rewrite E. reflexivity.
    + apply filter_In. split; [exact Ho|]. apply seqZ_In in Ho.
      pose proof (windowOf_inRange ctx i o Hctx) as Hr.
      rewrite cellAt_window.
      rewrite (proj2 (buildGrid_empty b defender _ _ (proj2 Hr ltac:(lia)))).
      rewrite E. cbn [fst snd]. apply Z.eqb_eq, Hempty.
Qed.

Lemma nominates_inRange b defender w x y s :
  nominates b defender w x y s -> inRange x y = true.
Proof. intros (Hw & _ & Hin & _). apply (winCells_inRange w x y Hw Hin). Qed.

(** The entry of a cell in the table: the greatest severity at which a
    window nominates it. *)
Lemma scanBoard_nominates b defender x y s :
  inRange x y = true ->
  scanBoard b defender !! coordKey x y = Some s <->
  (exists w, nominates b defender w x y s) /\
  (forall w s', nominates b defender w x y s' -> s' <= s).
Proof.
  intros Hr. rewrite scanBoard_lookup. split.
  - intros [([[cx cy] cs] & Hin & Hcr & Hk & Hs) Hmax]. cbn [fst snd] in *.
    destruct (coordKey_inj cx cy x y Hcr Hr Hk) as [-> ->]. subst cs.
    split; [apply allCalls_nominates; exact Hin|].
    intros w s' Hnom. apply (Hmax (x, y, s')); cbn [fst snd]; auto.
    apply allCalls_nominates. exists w. exact Hnom.
  - intros [Hex Hmax]. split.
    + exists (x, y, s). cbn [fst snd]. repeat split; auto.
      apply allCalls_nominates, Hex.
    + intros [[cx cy] cs] Hin Hcr Hk. cbn [fst snd] in *.
      destruct (coordKey_inj cx cy x y Hcr Hr Hk) as [-> ->].
      apply allCalls_nominates in Hin as (w & Hnom). apply (Hmax w cs Hnom).
Qed.

Lemma scanBoard_key b defender key s :
  scanBoard b defender !! key = Some s ->
  exists x y, inRange x y = true /\ key = coordKey x y.
Proof.
  intros H. apply scanBoard_lookup in H as [([[cx cy] cs] & _ & Hr & Hk & _) _].
  exists cx, cy. cbn [fst snd] in *. auto.
Qed.

Lemma decode_coordKey x y :
  inRange x y = true ->
  Z.rem (coordKey x y) 12 = x /\ Z.quot (coordKey x y) 12 = y.
Proof.
  rewrite inRange_iff. intros H. unfold coordKey.
  rewrite Z.rem_mod_nonneg, Z.quot_div_nonneg by lia.
  split; [| symmetry; apply (Z.div_unique _ _ _ x); lia].
  symmetry. apply (Z.mod_unique _ _ y); lia.
Qed.

(** Membership in the list returned by [findBlockingMoves]. *)
Lemma findBlockingMoves_In {L : StdLibrary} b defender t :
  In t (findBlockingMoves b defender) <->
  inRange (mx (move t)) (my (move t)) = true /\
  scanBoard b defender !! coordKey (mx (move t)) (my (move t)) = Some (severity t).
Proof.
  unfold findBlockingMoves. rewrite <- list_elem_of_In.
  rewrite sortDescending_Permutation, traverse_Permutation.
  rewrite list_elem_of_In, in_map_iff. split.
  - intros ([key s] & <- & Hin). cbn [fst snd move severity mx my].
    apply list_elem_of_In, elem_of_map_to_list in Hin.
    destruct (scanBoard_key b defender key s Hin) as (x & y & Hr & ->).
    destruct (decode_coordKey x y Hr) as [-> ->]. auto.
  - intros [Hr Hs]. exists (coordKey (mx (move t)) (my (move t)), severity t).
    cbn [fst snd]. destruct (decode_coordKey _ _ Hr) as [-> ->].
    split; [destruct t as [[x y] s]; reflexivity|].
    apply list_elem_of_In, elem_of_map_to_list. exact Hs.
Qed.

(** Two libraries report the same threats, up to the order. *)
Lemma findBlockingMoves_library (L1 L2 : StdLibrary) b defender :
  @findBlockingMoves L1 b defender ≡ₚ @findBlockingMoves L2 b defender.
Proof.
  unfold findBlockingMoves.
  rewrite !sortDescending_Permutation, !traverse_Permutation. reflexivity.
Qed.

Lemma findBlockingMoves_sorted {L : StdLibrary} b defender :
  StronglySorted severityGe (findBlockingMoves b defender).
Proof. unfold findBlockingMoves. apply sortDescending_sorted. Qed.

Lemma findBlockingMoves_NoDup {L : StdLibrary} b defender :
  NoDup (map move (findBlockingMoves b defender)).
Proof.
  unfold findBlockingMoves.
  rewrite sortDescending_Permutation, traverse_Permutation.
  rewrite map_map. cbn [move].
  change (map (fun x : Z * Z => mkMove (Z.rem (fst x) 12) (Z.quot (fst x) 12))
              (map_to_list (scanBoard b defender)))
    with ((fun x : Z * Z => mkMove (Z.rem (fst x) 12) (Z.quot (fst x) 12))
            <$> map_to_list (scanBoard b defender)).
  apply NoDup_fmap_2_strong; [|apply NoDup_map_to_list].
  intros [k1 s1] [k2 s2] H1 H2 E. cbn [fst] in E.
  apply elem_of_map_to_list in H1, H2.
  destruct (scanBoard_key _ _ _ _ H1) as (x1 & y1 & Hr1 & ->).
  destruct (scanBoard_key _ _ _ _ H2) as (x2 & y2 & Hr2 & ->).
  destruct (decode_coordKey x1 y1 Hr1) as [E1 E1'].
  destruct (decode_coordKey x2 y2 Hr2) as [E2 E2'].
  rewrite E1, E1', E2, E2' in E. inversion E; subst.
  rewrite H1 in H2. inversion H2. reflexivity.
Qed.

Lemma windowSeverity_bound b defender w s :
  windowSeverity b defender w = Some s ->
  s = 1000000 \/ s = 500000 \/ s = 120000 \/ s = 60000.
Proof.
  unfold windowSeverity. intros H.
  repeat match type of H with
         | (if ?c then _ else _) = _ => destruct c
         | Some (if ?c then _ else _) = _ => destruct c
         end; inversion H; auto.
Qed.

(** A nominated cell is reported, with the severity of the nomination or a
    greater one. *)
Lemma nominated_reported {L : StdLibrary} b defender w x y s :
  nominates b defender w x y s ->
  exists s', In (mkThreat (mkMove x y) s') (findBlockingMoves b defender) /\
             s <= s' <= 1000000.
Proof.
  intros Hnom. pose proof (nominates_inRange _ _ _ _ _ _ Hnom) as Hr.
  destruct (scanBoard b defender !! coordKey x y) as [s'|] eqn:E.
  - pose proof E as E'. apply scanBoard_nominates in E' as [(w' & Hnom') Hmax]; [|exact Hr].
    exists s'. split.
    + apply findBlockingMoves_In. cbn [move severity mx my]. auto.
    + split; [apply (Hmax w s Hnom)|].
      destruct Hnom' as (_ & Hsev & _).
      apply windowSeverity_bound in Hsev. lia.
  - exfalso. rewrite scanBoard_calls in E.
    destruct (fold_addCall_lookup (allCalls b defender) ∅ (coordKey x y))
      as (_ & _ & H3).
    destruct (H3 (x, y, s)) as (s' & Hs' & _); cbn [fst snd]; auto.
    + apply allCalls_nominates. exists w. exact Hnom.
    + cbn zeta in Hs'. rewrite E in Hs'. discriminate.
Qed.

Lemma getCellState_on_board b x y :
  getCellState b x y <> -1 -> inRange x y = true.
Proof.
  unfold getCellState. destruct (inRange x y); [reflexivity|]. cbn. congruence.
Qed.

Lemma countState_map b cells st :
  countState b cells st =
  Z.of_nat (List.length (List.filter (fun v => v =? st)
    (map (fun c => getCellState b (fst c) (snd c)) cells))).
Proof. unfold countState. rewrite filter_map_length. reflexivity. Qed.

(** The severity of a window whose five cells are known. *)
Lemma windowSeverity_cells b defender x y dx dy (s0 s1 s2 s3 s4 : Z) :
  stateAt b x y dx dy 0 = s0 -> stateAt b x y dx dy 1 = s1 ->
  stateAt b x y dx dy 2 = s2 -> stateAt b x y dx dy 3 = s3 ->
  stateAt b x y dx dy 4 = s4 ->
  windowSeverity b defender (mkWindow x y dx dy) =
  let cnt st := Z.of_nat (List.length (List.filter (fun v => v =? st) [s0; s1; s2; s3; s4])) in
  let leftOpen := openEnd b (x + -1 * dx, y + -1 * dy) in
  let rightOpen := openEnd b (x + 5 * dx, y + 5 * dy) in
  if negb (cnt (stateOf defender) =? 0) then None
  else if (cnt (stateOf (other defender)) =? 4) && (cnt 0 =? 1) then
    Some (if leftOpen && rightOpen then 1000000 else 500000)
  else if (cnt (stateOf (other defender)) =? 3) && (cnt 0 =? 2) then
    if leftOpen && rightOpen then Some 120000
    else if leftOpen || rightOpen then Some 60000
    else None
  else None.
Proof.
  intros <- <- <- <- <-. unfold windowSeverity. rewrite !countState_map.
  unfold winCells, stateAt, winCell. change (seqZ 0 5) with [0; 1; 2; 3; 4].
  cbn [map wx wy wdx wdy fst snd]. reflexivity.
Qed.

Lemma stateAt_shift b x y dx dy j k :
  stateAt b (x + j * dx) (y + j * dy) dx dy k = stateAt b x y dx dy (j + k).
Proof. unfold stateAt. f_equal; ring. Qed.

Lemma stateAt_open b x y dx dy k :
  stateAt b x y dx dy k = 0 -> openEnd b (x + k * dx, y + k * dy) = true.
Proof.
  unfold stateAt, openEnd. cbn [fst snd]. intros H.
  rewrite (getCellState_on_board b) by (rewrite H; discriminate).
  rewrite H. reflexivity.
Qed.

(** A window of four attacker stones followed by an empty cell. *)
Lemma four_then_empty b defender x y dx dy :
  In (dx, dy) dirs ->
  (forall k, 0 <= k <= 3 -> stateAt b x y dx dy k = stateOf (other defender)) ->
  stateAt b x y dx dy 4 = 0 ->
  nominates b defender (mkWindow x y dx dy) (x + 4 * dx) (y + 4 * dy)
    (if openEnd b (x + -1 * dx, y + -1 * dy) && openEnd b (x + 5 * dx, y + 5 * dy)
     then 1000000 else 500000).
Proof.
  intros Hd Ha He.
  assert (stateOf (other defender) <> -1) as Hne by (destruct defender; discriminate).
  split; [|split; [|split]].
  - split; [exact Hd|]. unfold winCell. cbn [wx wy wdx wdy fst snd].
    split; apply (getCellState_on_board b).
    + fold (stateAt b x y dx dy 0). rewrite Ha by lia. exact Hne.
    + fold (stateAt b x y dx dy 4). rewrite He. discriminate.
  - rewrite (windowSeverity_cells b defender x y dx dy _ _ _ _ _
               (Ha 0 ltac:(lia)) (Ha 1 ltac:(lia)) (Ha 2 ltac:(lia))
               (Ha 3 ltac:(lia)) He).
    destruct defender; reflexivity.
  - unfold winCells. change (seqZ 0 5) with [0; 1; 2; 3; 4]. cbn [map].
    do 4 right. left. reflexivity.
  - exact He.
Qed.

(** A window of an empty cell followed by four attacker stones. *)
Lemma empty_then_four b defender x y dx dy :
  In (dx, dy) dirs ->
  stateAt b x y dx dy 0 = 0 ->
  (forall k, 1 <= k <= 4 -> stateAt b x y dx dy k = stateOf (other defender)) ->
  nominates b defender (mkWindow x y dx dy) x y
    (if openEnd b (x + -1 * dx, y + -1 * dy) && openEnd b (x + 5 * dx, y + 5 * dy)
     then 1000000 else 500000).
Proof.
  intros Hd He Ha.
  assert (stateOf (other defender) <> -1) as Hne by (destruct defender; discriminate).
  split; [|split; [|split]].
  - split; [exact Hd|]. unfold winCell. cbn [wx wy wdx wdy fst snd].
    split; apply (getCellState_on_board b).
    + fold (stateAt b x y dx dy 0). rewrite He. discriminate.
    + fold (stateAt b x y dx dy 4). rewrite Ha by lia. exact Hne.
  - rewrite (windowSeverity_cells b defender x y dx dy _ _ _ _ _
               He (Ha 1 ltac:(lia)) (Ha 2 ltac:(lia)) (Ha 3 ltac:(lia))
               (Ha 4 ltac:(lia))).
    destruct defender; reflexivity.
  - unfold winCells. change (seqZ 0 5) with [0; 1; 2; 3; 4]. cbn [map].
    left. unfold winCell. cbn [wx wy wdx wdy]. f_equal; ring.
  - unfold stateAt in He. rewrite !Z.mul_0_l, !Z.add_0_r in He. exact He.
Qed.

(** An open four with room: the four stones on offsets 1 to 4, empty cells on
    offsets 0 and 5 and, beyond them, on offsets -1 and 6. *)
Lemma open_four_with_room {L : StdLibrary} b defender x y dx dy :
  In (dx, dy) dirs ->
  (forall k, 1 <= k <= 4 -> stateAt b x y dx dy k = stateOf (other defender)) ->
  stateAt b x y dx dy 0 = 0 -> stateAt b x y dx dy 5 = 0 ->
  stateAt b x y dx dy (-1) = 0 -> stateAt b x y dx dy 6 = 0 ->
  In (mkThreat (mkMove x y) 1000000) (findBlockingMoves b defender) /\
  In (mkThreat (mkMove (x + 5 * dx) (y + 5 * dy)) 1000000)
     (findBlockingMoves b defender).
Proof.
  intros Hd Ha H0 H5 Hl Hr. split.
  - pose proof (empty_then_four b defender x y dx dy Hd H0 Ha) as Hnom.
    rewrite (stateAt_open _ _ _ _ _ _ Hl), (stateAt_open _ _ _ _ _ _ H5) in Hnom.
    destruct (nominated_reported _ _ _ _ _ _ Hnom) as (s' & Hin & Hs').
    assert (s' = 1000000) as -> by (cbn in Hs'; lia). exact Hin.
  - pose proof (four_then_empty b defender (x + 1 * dx) (y + 1 * dy) dx dy Hd) as Hnom.
    replace (x + 1 * dx + 4 * dx) with (x + 5 * dx) in Hnom by ring.
    replace (y + 1 * dy + 4 * dy) with (y + 5 * dy) in Hnom by ring.
    replace (x + 1 * dx + -1 * dx) with (x + 0 * dx) in Hnom by ring.
    replace (y + 1 * dy + -1 * dy) with (y + 0 * dy) in Hnom by ring.
    replace (x + 1 * dx + 5 * dx) with (x + 6 * dx) in Hnom by ring.
    replace (y + 1 * dy + 5 * dy) with (y + 6 * dy) in Hnom by ring.
    rewrite (stateAt_open _ _ _ _ _ _ H0), (stateAt_open _ _ _ _ _ _ Hr) in Hnom.
    destruct (nominated_reported b defender _ _ _ _ (Hnom
      ltac:(intros k Hk; rewrite stateAt_shift; apply Ha; lia)
      ltac:(rewrite stateAt_shift; exact H5))) as (s' & Hin & Hs').
    assert (s' = 1000000) as -> by (cbn in Hs'; lia). exact Hin.
Qed.

(** A one-sided four: four stones, an empty cell after them, and no open
    cell before them. *)
Lemma one_sided_four {L : StdLibrary} b defender x y dx dy :
  In (dx, dy) dirs ->
  (forall k, 0 <= k <= 3 -> stateAt b x y dx dy k = stateOf (other defender)) ->
  stateAt b x y dx dy 4 = 0 ->
  openEnd b (x + -1 * dx, y + -1 * dy) = false ->
  nominates b defender (mkWindow x y dx dy) (x + 4 * dx) (y + 4 * dy) 500000 /\
  exists s, In (mkThreat (mkMove (x + 4 * dx) (y + 4 * dy)) s)
               (findBlockingMoves b defender) /\ 500000 <= s.
Proof.
  intros Hd Ha He Hl.
  pose proof (four_then_empty b defender x y dx dy Hd Ha He) as Hnom.
  rewrite Hl in Hnom. cbn [andb] in Hnom. split; [exact Hnom|].
  destruct (nominated_reported _ _ _ _ _ _ Hnom) as (s' & Hin & Hs').
  exists s'. split; [exact Hin | lia].
Qed.

(** C6, as amended.  A cell is reported exactly when some window of five
    on-board cells in one of the four directions, free of defender stones,
    nominates it, and it is reported once, with the greatest severity of its
    nominations; the severities follow the table (four attackers and one
    empty: 1,000,000 with both outer neighbours on board and empty, else
    500,000; three attackers and two empties: 120,000, 60,000 or nothing for
    two, one or no open end); the list is in descending order of severity.
    An open four has both its end cells reported at 1,000,000 when the cell
    beyond each end cell is on the board and empty too, and a four with one
    closed side has its blocking cell nominated at 500,000 by the window of
    the four, hence reported at 500,000 or more. *)
Theorem findBlockingMoves_by_windows {L : StdLibrary} (b : Board) (defender : Player) :
  (forall x y s,
     In (mkThreat (mkMove x y) s) (findBlockingMoves b defender) <->
     (exists w, nominates b defender w x y s) /\
     (forall w s', nominates b defender w x y s' -> s' <= s)) /\
  StronglySorted severityGe (findBlockingMoves b defender) /\
  NoDup (map move (findBlockingMoves b defender)) /\
  (forall x y dx dy,
     In (dx, dy) dirs ->
     (forall k, 1 <= k <= 4 -> stateAt b x y dx dy k = stateOf (other defender)) ->
     stateAt b x y dx dy 0 = 0 -> stateAt b x y dx dy 5 = 0 ->
     stateAt b x y dx dy (-1) = 0 -> stateAt b x y dx dy 6 = 0 ->
     In (mkThreat (mkMove x y) 1000000) (findBlockingMoves b defender) /\
     In (mkThreat (mkMove (x + 5 * dx) (y + 5 * dy)) 1000000)
        (findBlockingMoves b defender)) /\
  (forall x y dx dy,
     In (dx, dy) dirs ->
     (forall k, 0 <= k <= 3 -> stateAt b x y dx dy k = stateOf (other defender)) ->
     stateAt b x y dx dy 4 = 0 ->
     openEnd b (x + -1 * dx, y + -1 * dy) = false ->
     nominates b defender (mkWindow x y dx dy) (x + 4 * dx) (y + 4 * dy) 500000 /\
     exists s, In (mkThreat (mkMove (x + 4 * dx) (y + 4 * dy)) s)
                  (findBlockingMoves b defender) /\ 500000 <= s).
Proof.
  split; [|split; [|split; [|split]]].
  - intros x y s. rewrite findBlockingMoves_In. cbn [move severity mx my]. split.
    + intros [Hr Hs]. apply scanBoard_nominates; assumption.
    + intros [(w & Hnom) Hmax].
      pose proof (nominates_inRange _ _ _ _ _ _ Hnom) as Hr.
      split; [exact Hr|]. apply scanBoard_nominates; eauto.
  - apply findBlockingMoves_sorted.
  - apply findBlockingMoves_NoDup.
  - apply open_four_with_room.
  - apply one_sided_four.
Qed.

(** C6 as first stated fails: on [edgeFourBoard] White's four on (1,1)..(4,1)
    has both end cells (0,1) and (5,1) empty, an open four, but the end cell
    at the edge is reported at 500,000, not at 1,000,000. *)
Lemma open_four_at_edge :
  getCellState edgeFourBoard 0 1 = 0 /\
  getCellState edgeFourBoard 1 1 = 2 /\ getCellState edgeFourBoard 2 1 = 2 /\
  getCellState edgeFourBoard 3 1 = 2 /\ getCellState edgeFourBoard 4 1 = 2 /\
  getCellState edgeFourBoard 5 1 = 0 /\
  findBlockingMoves edgeFourBoard Black =
    [mkThreat (mkMove 5 1) 1000000; mkThreat (mkMove 0 1) 500000;
     mkThreat (mkMove 6 1) 60000] /\
  ~ In (mkThreat (mkMove 0 1) 1000000) (findBlockingMoves edgeFourBoard Black).
Proof.
  assert (findBlockingMoves edgeFourBoard Black =
    [mkThreat (mkMove 5 1) 1000000; mkThreat (mkMove 0 1) 500000;
     mkThreat (mkMove 6 1) 60000]) as E by (vm_compute; reflexivity).
  repeat split; try (vm_compute; reflexivity).
  rewrite E. intros [H|[H|[H|[]]]]; discriminate.
Qed.

Lemma blocking_move_playable {L : StdLibrary} b defender t :
  In t (findBlockingMoves b defender) -> playable b (move t).
Proof.
  intros Hin. apply findBlockingMoves_In in Hin as [Hr Hs].
  split; [exact Hr|].
  apply scanBoard_nominates in Hs as [(w & _ & _ & _ & Hempty) _]; [|exact Hr].
  rewrite isOccupied_state, Hempty. reflexivity.
Qed.

(** C10.  Every move suggested by [findBlockingMoves] is on the board and
    names a cell that is empty on the board given. *)
Theorem findBlockingMoves_playable {L : StdLibrary} (b : Board)
    (defender : Player) (t : ThreatMove) :
  In t (findBlockingMoves b defender) ->
  inRange (mx (move t)) (my (move t)) = true /\
  isOccupied b (mx (move t)) (my (move t)) = false.
Proof. intros Hin. exact (blocking_move_playable b defender t Hin). Qed.

Lemma findBlockingMoves_playable_witness :
  inRange 5 1 = true /\ isOccupied edgeFourBoard 5 1 = false.
Proof.
  apply (findBlockingMoves_playable edgeFourBoard Black (mkThreat (mkMove 5 1) 1000000)).
  vm_compute. left. reflexivity.
Defined.

(** ** Move generation *)

Lemma getLegalMoves_spec b m : In m (getLegalMoves b) <-> playable b m.
Proof.
  unfold getLegalMoves, playable. rewrite in_flat_map. split.
  - intros (y & Hy & H). apply in_flat_map in H as (x & Hx & H).
    apply seqZ_In in Hx, Hy.
    destruct (isOccupied b x y) eqn:Ho; cbn in H; [destruct H|].
    destruct H as [<-|[]]. cbn [mx my]. split; [apply inRange_iff; lia | exact Ho].
  - intros [Hr Ho]. apply inRange_iff in Hr. exists (my m).
    split; [apply seqZ_In; lia|]. apply in_flat_map. exists (mx m).
    split; [apply seqZ_In; lia|]. rewrite Ho. left. destruct m; reflexivity.
Qed.

Lemma growBox_found b y xs : forall acc,
  snd (fold_left (growBox b y) xs acc) =
  snd acc || existsb (fun x => isOccupied b x y) xs.
Proof.
  induction xs as [|x xs IH]; intros acc; cbn [fold_left existsb].
  - rewrite orb_false_r. reflexivity.
  - rewrite IH. destruct acc as [[[[a1 a2] a3] a4] found]. unfold growBox.
    destruct (isOccupied b x y); cbn [snd orb].
    + rewrite orb_true_r. reflexivity.
    + reflexivity.
Qed.

Lemma boundingBox_found b :
  snd (boundingBox b) =
  existsb (fun y => existsb (fun x => isOccupied b x y) (seqZ 0 12)) (seqZ 0 12).
Proof.
  unfold boundingBox.
  assert (forall ys acc,
    snd (fold_left (fun acc y => fold_left (growBox b y) (seqZ 0 12) acc) ys acc) =
    snd acc || existsb (fun y => existsb (fun x => isOccupied b x y) (seqZ 0 12)) ys)
    as H.
  { induction ys as [|y ys IH]; intros acc; cbn [fold_left existsb].
    - rewrite orb_false_r. reflexivity.
    - rewrite IH, growBox_found, orb_assoc. reflexivity. }
  rewrite H. reflexivity.
Qed.

Lemma no_stone_on_board b x y :
  snd (boundingBox b) = false -> inRange x y = true -> isOccupied b x y = false.
Proof.
  rewrite boundingBox_found. intros H Hr. apply inRange_iff in Hr.
  destruct (isOccupied b x y) eqn:Ho; [|reflexivity].
  assert (existsb (fun y => existsb (fun x => isOccupied b x y) (seqZ 0 12))
                  (seqZ 0 12) = true) as Ht; [|congruence].
  apply existsb_exists. exists y. split; [apply seqZ_In; lia|].
  apply existsb_exists. exists x. split; [apply seqZ_In; lia | exact Ho].
Qed.

(** Candidate moves are empty cells of the board. *)
Lemma getCandidateMoves_playable b m :
  In m (getCandidateMoves b) -> playable b m.
Proof.
  unfold getCandidateMoves.
  destruct (boundingBox b) as [[[[min_x max_x] min_y] max_y] found] eqn:Ebox.
  destruct found; cbn [negb].
  - set (moves := flat_map _ _).
    assert (forall m, In m moves -> playable b m) as Hmoves.
    { intros m' H. unfold moves in H.
      apply in_flat_map in H as (y & Hy & H). apply in_flat_map in H as (x & Hx & H).
      apply seqZ_In in Hx, Hy.
      destruct (isOccupied b x y) eqn:Ho; cbn [negb andb] in H; [destruct H|].
      destruct (hasNeighbor b x y); [|destruct H].
      destruct H as [<-|[]]. split; [apply inRange_iff; cbn [mx my]; lia | exact Ho]. }
    destruct moves as [|m0 moves'] eqn:Em.
    + apply getLegalMoves_spec.
    + apply Hmoves.
  - intros [<-|[]]. split; [reflexivity|]. cbn [mx my].
    apply no_stone_on_board; [rewrite Ebox|]; reflexivity.
Qed.

(** [getCandidateMoves] finds a move whenever the board has an empty cell. *)
Lemma getCandidateMoves_nil b :
  getCandidateMoves b = [] -> getLegalMoves b = [].
Proof.
  unfold getCandidateMoves.
  destruct (boundingBox b) as [[[[min_x max_x] min_y] max_y] found].
  destruct found; cbn [negb]; [|discriminate].
  destruct (flat_map _ _); [auto | discriminate].
Qed.

(** ** The search gives the board back *)

Lemma sameTimer_refl s : sameTimer s s.
Proof. split; [reflexivity | lia]. Qed.

Lemma sameTimer_trans s1 s2 s3 :
  sameTimer s1 s2 -> sameTimer s2 s3 -> sameTimer s1 s3.
Proof. unfold sameTimer. intros [E1 L1] [E2 L2]. split; [congruence | lia]. Qed.

Lemma sameTimer_tick s : sameTimer s (tick s).
Proof. split; [reflexivity | cbn; lia]. Qed.

Lemma sameTimer_setTransTable s tt : sameTimer s (setTransTable s tt).
Proof. split; [reflexivity | cbn; lia]. Qed.

Lemma sameTimer_setMaxDepthReached s d : sameTimer s (setMaxDepthReached s d).
Proof. split; [reflexivity | cbn; lia]. Qed.

Lemma sameTimer_recordKiller ply m s : sameTimer s (recordKiller ply m s).
Proof.
  unfold recordKiller. destruct (ply <? MAX_PLY); [|apply sameTimer_refl].
  destruct (negb _); split; (reflexivity || (cbn; lia)).
Qed.

Lemma sameTimer_cutoff depth ply m s : sameTimer s (cutoff depth ply m s).
Proof.
  unfold cutoff. eapply sameTimer_trans; [apply sameTimer_recordKiller|].
  split; [reflexivity | cbn; lia].
Qed.

Create HintDb timer.

#[local] Hint Resolve sameTimer_refl sameTimer_tick sameTimer_cutoff
  sameTimer_setTransTable sameTimer_setMaxDepthReached : timer.

(** Playing a playable move and taking it back. *)
Lemma make_unmake board m :
  playable board m ->
  snd (makeMove board (mx m) (my m)) = placed board (mx m) (my m) /\
  snd (unmakeMove (placed board (mx m) (my m)) (mx m) (my m)) = board.
Proof.
  intros [Hr Ho]. rewrite makeMove_ok, unmakeMove_placed by assumption. auto.
Qed.

Lemma scoreMove_board currentPlayer myColor ply s lookup board m :
  playable board m ->
  snd (scoreMove currentPlayer myColor ply s lookup board m) = board.
Proof.
  intros Hp. destruct (make_unmake board m Hp) as [Em Eu].
  unfold scoreMove. rewrite Em, Eu. reflexivity.
Qed.

Lemma orderMoves_fold currentPlayer myColor ply s lookup board l : forall acc,
  Forall (playable board) l ->
  fold_left (fun (acc : list (Z * Move) * Board) m =>
      let '(score, board) :=
        scoreMove currentPlayer myColor ply s lookup (snd acc) m in
      (fst acc ++ [(score, m)], board))
    l (acc, board) =
  (acc ++ map (fun m =>
       (fst (scoreMove currentPlayer myColor ply s lookup board m), m)) l,
   board).
Proof.
  induction l as [|m l IH]; intros acc Hl; cbn [fold_left map].
  - rewrite app_nil_r. reflexivity.
  - apply Forall_cons in Hl as [Hm Hl]. cbn [fst snd].
    pose proof (scoreMove_board currentPlayer myColor ply s lookup board m Hm) as E.
    destruct (scoreMove currentPlayer myColor ply s lookup board m) as [sc b'].
    cbn [fst snd] in *. subst b'. rewrite IH by exact Hl.
    rewrite <- app_assoc. reflexivity.
Qed.

Lemma getCandidateMoves_Forall board : Forall (playable board) (getCandidateMoves board).
Proof. apply Forall_forall. intros m Hm. apply getCandidateMoves_playable, list_elem_of_In, Hm. Qed.

(** [orderMoves] returns the candidate moves in some order and leaves the
    board as it was. *)
Lemma orderMoves_spec {L : StdLibrary} board currentPlayer myColor ply s :
  snd (orderMoves board currentPlayer myColor ply s) = board /\
  fst (orderMoves board currentPlayer myColor ply s) ≡ₚ getCandidateMoves board.
Proof.
  unfold orderMoves. cbv zeta.
  rewrite orderMoves_fold by apply getCandidateMoves_Forall.
  cbv beta iota. cbn [app fst snd]. split; [reflexivity|].
  etransitivity; [apply Permutation_map, sortDescending_Permutation|].
  rewrite map_map. cbn [snd]. rewrite map_id. reflexivity.
Qed.

Lemma orderMoves_Forall {L : StdLibrary} board currentPlayer myColor ply s :
  Forall (playable board) (fst (orderMoves board currentPlayer myColor ply s)).
Proof.
  rewrite (proj2 (orderMoves_spec board currentPlayer myColor ply s)).
  apply getCandidateMoves_Forall.
Qed.

Lemma hd_In (l : list Move) : l <> [] -> In (hd noMove l) l.
Proof. destruct l; [congruence | left; reflexivity]. Qed.

Lemma getOpeningMove_playable board myColor m :
  getOpeningMove board myColor = Some m -> playable board m.
Proof.
  unfold getOpeningMove. intros H.
  destruct (_ && _); [|discriminate].
  destruct (Player_eqb myColor Black); [|discriminate].
  apply find_some in H as [Hin Ho]. apply negb_true_iff in Ho.
  split; [|exact Ho].
  cbn in Hin. destruct Hin as [<-|[<-|[<-|[<-|[]]]]]; reflexivity.
Qed.

Lemma pickBlock_fold myColor l : forall board bestBlock bestScore,
  Forall (playable board) l ->
  exists block score,
    fold_left (fun (acc : Move * Z * Board) block =>
        let '(bestBlock, bestScore, board) := acc in
        let board := snd (makeMove board (mx block) (my block)) in
        let score := evaluate board myColor in
        let board := snd (unmakeMove board (mx block) (my block)) in
        if bestScore <? score then (block, score, board)
        else (bestBlock, bestScore, board))
      l (bestBlock, bestScore, board) = (block, score, board) /\
    (block = bestBlock \/ In block l).
Proof.
  induction l as [|m l IH]; intros board bestBlock bestScore Hl; cbn [fold_left].
  - exists bestBlock, bestScore. auto.
  - apply Forall_cons in Hl as [Hm Hl].
    destruct (make_unmake board m Hm) as [Em Eu]. rewrite Em, Eu.
    destruct (bestScore <? _).
    + destruct (IH board m (evaluate (placed board (mx m) (my m)) myColor) Hl)
        as (block & score & E & Hb).
      exists block, score. split; [exact E|]. right.
      destruct Hb as [->|Hin]; [left; reflexivity | right; exact Hin].
    + destruct (IH board bestBlock bestScore Hl) as (block & score & E & Hb).
      exists block, score. split; [exact E|].
      destruct Hb as [->|Hin]; [left; reflexivity | right; right; exact Hin].
Qed.

Lemma pickBlock_spec myColor opponentWins board :
  Forall (playable board) opponentWins -> opponentWins <> [] ->
  snd (pickBlock myColor opponentWins board) = board /\
  In (fst (pickBlock myColor opponentWins board)) opponentWins.
Proof.
  intros Hl Hne.
  pose proof (pickBlock_fold myColor opponentWins board (hd noMove opponentWins)
                INT_MIN Hl) as H.
  cbv zeta in H. unfold pickBlock. cbv zeta.
  destruct H as (block & score & -> & Hb).
  cbn [fst snd]. split; [reflexivity|].
  destruct Hb as [->|Hin]; [apply hd_In, Hne | exact Hin].
Qed.

(** From here on the board queries and the evaluation are used through
    their lemmas only. *)
#[global] Opaque getCandidateMoves getLegalMoves evaluate findBlockingMoves
  checkWin isWinningMove orderMoves getOpeningMove pickBlock.

Section EngineFacts.

Variable now : nat -> Z.
Context {L : StdLibrary}.

Lemma restores_eq child board alpha beta s val board' s' :
  restores child -> child board alpha beta s = (val, board', s') ->
  board' = board /\ sameTimer s s'.
Proof.
  intros Hch E. destruct (Hch board alpha beta s) as [Eb Ht].
  rewrite E in Eb, Ht. auto.
Qed.

(** A probe of one move: play it, search below, take it back. *)
Lemma probe_restores child board m alpha beta s val board' s' :
  restores child -> playable board m ->
  child (snd (makeMove board (mx m) (my m))) alpha beta s = (val, board', s') ->
  snd (unmakeMove board' (mx m) (my m)) = board /\ sameTimer s s'.
Proof.
  intros Hch Hp E. destruct (make_unmake board m Hp) as [Em Eu].
  apply (restores_eq child) in E as [-> Ht]; [|exact Hch].
  rewrite Em, Eu. auto.
Qed.

Lemma maxLoop_frame child depth ply moves :
  restores child ->
  forall board alpha beta bestValue bestMove s r board' s',
    Forall (playable board) moves ->
    maxLoop now child depth ply moves board alpha beta bestValue bestMove s
      = (r, board', s') ->
    board' = board /\ sameTimer s s'.
Proof.
  intros Hch. induction moves as [|m moves IH];
    intros board alpha beta bestValue bestMove s r board' s' Hl E;
    cbn [maxLoop] in E.
  - inversion E; subst. split; [reflexivity | apply sameTimer_refl].
  - apply Forall_cons in Hl as [Hm Hl].
    unfold timeUp in E. cbv beta iota in E.
    destruct (timeEnd s <=? now (clockReads s)).
    { inversion E; subst. split; [reflexivity | apply sameTimer_tick]. }
    destruct (child (snd (makeMove board (mx m) (my m))) alpha beta (tick s))
      as [[val b1] s1] eqn:Ech.
    apply (probe_restores child board m) in Ech as [Eb Ht]; [|exact Hch|exact Hm].
    rewrite Eb in E.
    assert (sameTimer s (tick s1)) as Hts1.
    { eapply sameTimer_trans; [apply sameTimer_tick|].
      eapply sameTimer_trans; [exact Ht | apply sameTimer_tick]. }
    destruct (timeEnd s1 <=? now (clockReads s1)).
    { inversion E; subst. split; [reflexivity | exact Hts1]. }
    destruct (beta <=? _).
    + inversion E; subst. split; [reflexivity|].
      eapply sameTimer_trans; [exact Hts1 | apply sameTimer_cutoff].
    + apply IH in E as [E1 E2]; [|exact Hl].
      split; [exact E1|]. eapply sameTimer_trans; [exact Hts1 | exact E2].
Qed.

Lemma minLoop_frame child depth ply moves :
  restores child ->
  forall board alpha beta bestValue bestMove s r board' s',
    Forall (playable board) moves ->
    minLoop now child depth ply moves board alpha beta bestValue bestMove s
      = (r, board', s') ->
    board' = board /\ sameTimer s s'.
Proof.
  intros Hch. induction moves as [|m moves IH];
    intros board alpha beta bestValue bestMove s r board' s' Hl E;
    cbn [minLoop] in E.
  - inversion E; subst. split; [reflexivity | apply sameTimer_refl].
  - apply Forall_cons in Hl as [Hm Hl].
    unfold timeUp in E. cbv beta iota in E.
    destruct (timeEnd s <=? now (clockReads s)).
    { inversion E; subst. split; [reflexivity | apply sameTimer_tick]. }
    destruct (child (snd (makeMove board (mx m) (my m))) alpha beta (tick s))
      as [[val b1] s1] eqn:Ech.
    apply (probe_restores child board m) in Ech as [Eb Ht]; [|exact Hch|exact Hm].
    rewrite Eb in E.
    assert (sameTimer s (tick s1)) as Hts1.
    { eapply sameTimer_trans; [apply sameTimer_tick|].
      eapply sameTimer_trans; [exact Ht | apply sameTimer_tick]. }
    destruct (timeEnd s1 <=? now (clockReads s1)).
    { inversion E; subst. split; [reflexivity | exact Hts1]. }
    destruct (_ <=? alpha).
    + inversion E; subst. split; [reflexivity|].
      eapply sameTimer_trans; [exact Hts1 | apply sameTimer_cutoff].
    + apply IH in E as [E1 E2]; [|exact Hl].
      split; [exact E1|]. eapply sameTimer_trans; [exact Hts1 | exact E2].
Qed.

(** The node below the probe. *)
Lemma expand_frame child board depth alpha beta currentPlayer myColor ply key s
    val board' s' :
  restores child ->
  expand now child board depth alpha beta currentPlayer myColor ply key s
    = (val, board', s') ->
  board' = board /\ sameTimer s s'.
Proof.
  intros Hch E. unfold expand in E.
  destruct (getCandidateMoves board) eqn:Ec.
  { inversion E; subst. split; [reflexivity | apply sameTimer_refl]. }
  pose proof (orderMoves_spec board currentPlayer myColor ply s) as [Eb _].
  pose proof (orderMoves_Forall board currentPlayer myColor ply s) as Hl.
  destruct (orderMoves board currentPlayer myColor ply s) as [ordered b0].
  cbn [fst snd] in Eb, Hl. subst b0.
  destruct (Player_eqb currentPlayer myColor).
  - destruct (maxLoop now child depth ply ordered board alpha beta INT_MIN noMove s)
      as [[r b1] s1] eqn:El.
    apply (maxLoop_frame child depth ply ordered Hch) in El as [-> Ht]; [|exact Hl].
    destruct r; inversion E; subst; split; try reflexivity; exact Ht.
  - destruct (minLoop now child depth ply ordered board alpha beta INT_MAX noMove s)
      as [[r b1] s1] eqn:El.
    apply (minLoop_frame child depth ply ordered Hch) in El as [-> Ht]; [|exact Hl].
    destruct r; inversion E; subst; split; try reflexivity; exact Ht.
Qed.

(** [alphaBeta] gives the board back on every path, and only reads the
    clock. *)
Lemma alphaBetaFuel_restores fuel :
  forall depth currentPlayer myColor ply,
    restores (fun board alpha beta s =>
      alphaBetaFuel now fuel board depth alpha beta currentPlayer myColor ply s).
Proof.
  induction fuel as [|fuel IH]; intros depth currentPlayer myColor ply
    board alpha beta s.
  - cbn [alphaBetaFuel]. unfold timeUp. cbv beta iota.
    repeat match goal with
           | |- context [if ?c then _ else _] => destruct c
           end; cbn [fst snd]; auto using sameTimer_tick.
  - destruct (alphaBetaFuel now (S fuel) board depth alpha beta currentPlayer
                myColor ply s) as [[val b'] s'] eqn:E.
    cbn [fst snd]. cbn [alphaBetaFuel] in E. unfold timeUp in E.
    cbv beta iota in E.
    destruct (timeEnd s <=? now (clockReads s));
      [inversion E; subst; auto using sameTimer_tick|].
    destruct (checkWin board myColor);
      [inversion E; subst; auto using sameTimer_tick|].
    cbv zeta in E.
    destruct (checkWin board _);
      [inversion E; subst; auto using sameTimer_tick|].
    destruct (depth <=? 0);
      [inversion E; subst; auto using sameTimer_tick|].
    destruct (probe _ depth alpha beta) as [sc|alpha' beta'];
      [inversion E; subst; auto using sameTimer_tick|].
    apply expand_frame in E as [-> Ht]; [|apply IH].
    split; [reflexivity|]. eapply sameTimer_trans; [apply sameTimer_tick | exact Ht].
Qed.

Lemma rootSearch_probe depth myColor board m s val board' s' :
  playable board m ->
  rootSearch now depth myColor (snd (makeMove board (mx m) (my m))) s
    = (val, board', s') ->
  snd (unmakeMove board' (mx m) (my m)) = board /\ sameTimer s s'.
Proof.
  intros Hp E.
  apply (probe_restores
           (fun board (_ _ : Z) s => rootSearch now depth myColor board s)
           board m 0 0 s val board' s'); [|exact Hp|exact E].
  intros b0 a0 b1 s0. unfold rootSearch, alphaBeta. apply alphaBetaFuel_restores.
Qed.

(** The sweep over the root moves: the board comes back, and the move it
    reports is one of the moves swept (or the one it started with). *)
Lemma rootSweep_spec depth myColor moves :
  forall board currentBestVal currentBestMove s r board' s',
    Forall (playable board) moves ->
    rootSweep now depth myColor moves board currentBestVal currentBestMove s
      = (r, board', s') ->
    board' = board /\ sameTimer s s' /\
    match r with
    | RootWin m => In m moves
    | RootDone _ cm => cm = currentBestMove \/ In cm moves
    end.
Proof.
  induction moves as [|m moves IH];
    intros board cv cm s r board' s' Hl E; cbn [rootSweep] in E.
  - inversion E; subst. split; [reflexivity|]. split; [apply sameTimer_refl | auto].
  - apply Forall_cons in Hl as [Hm Hl].
    unfold timeUp in E. cbv beta iota in E.
    destruct (timeEnd s <=? now (clockReads s)).
    { inversion E; subst. split; [reflexivity|]. split; [apply sameTimer_tick | auto]. }
    destruct (rootSearch now depth myColor (snd (makeMove board (mx m) (my m))) (tick s))
      as [[val b1] s1] eqn:Ech.
    apply (rootSearch_probe depth myColor board m) in Ech as [Eb Ht]; [|exact Hm].
    rewrite Eb in E.
    assert (sameTimer s (tick s1)) as Hts1.
    { eapply sameTimer_trans; [apply sameTimer_tick|].
      eapply sameTimer_trans; [exact Ht | apply sameTimer_tick]. }
    destruct (timeEnd s1 <=? now (clockReads s1)).
    { inversion E; subst. split; [reflexivity|]. split; [exact Hts1 | auto]. }
    destruct (90000000 <? val).
    { inversion E; subst. split; [reflexivity|]. split; [exact Hts1 | left; reflexivity]. }
    apply IH in E as (E1 & E2 & E3); [|exact Hl].
    split; [exact E1|]. split; [eapply sameTimer_trans; [exact Hts1 | exact E2]|].
    destruct r as [mw|v mb].
    + right. exact E3.
    + destruct E3 as [->|Hin]; [|right; right; exact Hin].
      destruct (cv <? val); [right; left; reflexivity | left; reflexivity].
Qed.

(** The second pass searches and scores every root move. *)
Lemma rescore_spec depth myColor moves :
  forall board s scored board' s',
    Forall (playable board) moves ->
    rescore now depth myColor moves board s = (scored, board', s') ->
    board' = board /\ sameTimer s s' /\ map snd scored = moves.
Proof.
  induction moves as [|m moves IH]; intros board s scored board' s' Hl E;
    cbn [rescore] in E.
  - inversion E; subst. split; [reflexivity|]. split; [apply sameTimer_refl | reflexivity].
  - apply Forall_cons in Hl as [Hm Hl].
    destruct (rootSearch now depth myColor (snd (makeMove board (mx m) (my m))) s)
      as [[val b1] s1] eqn:Ech.
    apply (rootSearch_probe depth myColor board m) in Ech as [Eb Ht]; [|exact Hm].
    rewrite Eb in E.
    destruct (rescore now depth myColor moves board s1) as [[sc b2] s2] eqn:Er.
    apply IH in Er as (E1 & E2 & E3); [|exact Hl].
    inversion E; subst. split; [reflexivity|].
    split; [eapply sameTimer_trans; eassumption | reflexivity].
Qed.

(** One round of the deepening loop.  It returns the move recorded before
    it only when a reading of the clock has reached the deadline. *)
Lemma iteration_spec depth myColor rootMoves bestMove bestVal board s r board' s' :
  Forall (playable board) rootMoves -> rootMoves <> [] ->
  iteration now depth myColor rootMoves bestMove bestVal board s = (r, board', s') ->
  board' = board /\ timeEnd s' = timeEnd s /\
  (clockReads s < clockReads s')%nat /\
  match r with
  | IterReturn m =>
      (m = bestMove /\ exists n, (clockReads s <= n)%nat /\ timeEnd s <= now n)
      \/ In m rootMoves
  | IterNext rootMoves' bm _ => rootMoves' ≡ₚ rootMoves /\ In bm rootMoves
  end.
Proof.
  intros Hl Hne E. unfold iteration in E. unfold timeUp at 1 in E.
  cbv beta iota in E.
  destruct (timeEnd s <=? now (clockReads s)) eqn:Eup.
  { inversion E; subst. cbn. repeat split; auto.
    left. split; [reflexivity|]. exists (clockReads s). split; [lia | apply Z.leb_le, Eup]. }
  cbv zeta in E.
  destruct (rootSweep now depth myColor rootMoves board INT_MIN (hd noMove rootMoves)
              (setMaxDepthReached (tick s) depth)) as [[res b1] s1] eqn:Esw.
  apply rootSweep_spec in Esw as (-> & [Et Ec] & Hres); [|exact Hl].
  cbn [timeEnd clockReads setMaxDepthReached tick] in Et, Ec.
  destruct res as [mw|cv cm].
  { inversion E; subst. repeat split; auto; lia. }
  unfold timeUp in E. cbv beta iota in E.
  destruct (timeEnd s1 <=? now (clockReads s1)) eqn:Eup1; cbn [negb] in E.
  { inversion E; subst. cbn. repeat split; auto; try lia.
    left. split; [reflexivity|]. exists (clockReads s1).
    split; [lia | rewrite <- Et; apply Z.leb_le, Eup1]. }
  destruct (rescore now depth myColor rootMoves board (tick s1)) as [[scored b2] s2] eqn:Er.
  apply rescore_spec in Er as (-> & [Et2 Ec2] & Escored); [|exact Hl].
  cbn [timeEnd clockReads tick] in Et2, Ec2.
  inversion E; subst. split; [reflexivity|]. split; [congruence|].
  split; [lia|]. split.
  - apply Permutation_map, sortDescending_Permutation.
  - destruct Hres as [->|Hin]; [apply hd_In, Hne | exact Hin].
Qed.

(** The deepening loop returns one of the root moves, or else the move
    recorded when it was entered, and this only when a reading of the clock
    has reached the deadline. *)
Lemma deepen_spec fuel :
  forall depth myColor rootMoves bestMove bestVal board s m board' s',
    Forall (playable board) rootMoves -> rootMoves <> [] ->
    deepen now fuel depth myColor rootMoves bestMove bestVal board s
      = Some (m, board', s') ->
    board' = board /\ sameTimer s s' /\
    ((m = bestMove /\ exists n, (clockReads s <= n)%nat /\ timeEnd s <= now n)
     \/ In m rootMoves).
Proof.
  induction fuel as [|fuel IH];
    intros depth myColor rootMoves bestMove bestVal board s m board' s' Hl Hne E;
    cbn [deepen] in E; [discriminate|].
  destruct (iteration now depth myColor rootMoves bestMove bestVal board s)
    as [[r b1] s1] eqn:Eit.
  apply iteration_spec in Eit as (-> & Et & Ec & Hr); [|exact Hl|exact Hne].
  destruct r as [mr|rootMoves' bm bv].
  - inversion E; subst. split; [reflexivity|]. split; [split; [exact Et | lia] | exact Hr].
  - destruct Hr as [Hperm Hbm].
    apply IH in E as (-> & [Et2 Ec2] & Hm).
    + split; [reflexivity|]. split; [split; [congruence | lia]|].
      right. destruct Hm as [[-> _]|Hin]; [exact Hbm|].
      apply list_elem_of_In. rewrite <- Hperm. apply list_elem_of_In. exact Hin.
    + rewrite Hperm. exact Hl.
    + intros ->. apply Permutation_nil_l in Hperm. symmetry in Hperm. contradiction.
Qed.

(** With a clock that reaches the deadline, the loop ends: each round reads
    the clock, so the round that starts at reading [N] or later returns. *)
Lemma deepen_returns (N : nat) fuel :
  forall depth myColor rootMoves bestMove bestVal board s,
    Forall (playable board) rootMoves -> rootMoves <> [] ->
    (forall n, (N <= n)%nat -> timeEnd s <= now n) ->
    (N <= clockReads s + fuel)%nat ->
    exists r, deepen now (S fuel) depth myColor rootMoves bestMove bestVal board s
              = Some r.
Proof.
  induction fuel as [|fuel IH];
    intros depth myColor rootMoves bestMove bestVal board s Hl Hne Hclock HN.
  - cbn [deepen]. unfold iteration, timeUp. cbv beta iota.
    assert ((timeEnd s <=? now (clockReads s)) = true) as ->
      by (apply Z.leb_le, Hclock; lia).
    eexists. reflexivity.
  - change (deepen now (S (S fuel)) depth myColor rootMoves bestMove bestVal board s)
      with (let '(res, board, s) :=
              iteration now depth myColor rootMoves bestMove bestVal board s in
            match res with
            | IterReturn m => Some (m, board, s)
            | IterNext rootMoves bestMove bestVal =>
                deepen now (S fuel) (depth + 1) myColor rootMoves bestMove bestVal board s
            end).
    destruct (iteration now depth myColor rootMoves bestMove bestVal board s)
      as [[r b1] s1] eqn:Eit.
    apply iteration_spec in Eit as (-> & Et & Ec & Hr); [|exact Hl|exact Hne].
    destruct r as [mr|rootMoves' bm bv]; [eexists; reflexivity|].
    destruct Hr as [Hperm Hbm]. apply IH.
    + rewrite Hperm. exact Hl.
    + intros ->. apply Permutation_nil_l in Hperm. symmetry in Hperm. contradiction.
    + intros n Hn. rewrite Et. apply Hclock, Hn.
    + lia.
Qed.

End EngineFacts.

(** ** The move returned by [findBestMove] *)

Lemma searchRoot_spec {L : StdLibrary} now fuel board myColor s m board' s' :
  searchRoot now fuel board myColor s = Some (m, board', s') ->
  board' = board /\ sameTimer s s' /\
  (playable board m \/
   (m = noMove /\
    (getLegalMoves board = [] \/
     exists n, (clockReads s <= n)%nat /\ timeEnd s <= now n))).
Proof.
  unfold searchRoot. intros E. cbv zeta in E.
  pose proof (orderMoves_spec board myColor myColor 0 s) as [Eb Hperm].
  pose proof (orderMoves_Forall board myColor myColor 0 s) as Hl.
  destruct (orderMoves board myColor myColor 0 s) as [rootMoves b0].
  cbn [fst snd] in *. subst b0.
  destruct rootMoves as [|r0 rest] eqn:Er.
  - inversion E; subst. split; [reflexivity|]. split; [apply sameTimer_refl|].
    right. split; [reflexivity|]. left. apply getCandidateMoves_nil.
    apply Permutation_nil_l in Hperm. symmetry. exact Hperm.
  - rewrite <- Er in *. apply deepen_spec in E as (-> & Ht & Hm);
      [|exact Hl|rewrite Er; discriminate].
    split; [reflexivity|]. split; [exact Ht|].
    destruct Hm as [[-> Hn]|Hin].
    + right. split; [reflexivity|]. right. exact Hn.
    + left. apply (proj1 (Forall_forall _ _) Hl), list_elem_of_In, Hin.
Qed.

Lemma findBestMove_spec {L : StdLibrary} now fuel board myColor timeLimitMs s m board' s' :
  findBestMove now fuel board myColor timeLimitMs s = Some (m, board', s') ->
  board' = board /\
  (playable board m \/
   (m = noMove /\
    (getLegalMoves board = [] \/
     exists n, (clockReads s < n)%nat /\
               now (clockReads s) + timeLimitMs <= now n))).
Proof.
  unfold findBestMove. cbv zeta. fold (freshEngine now timeLimitMs s).
  intros E.
  destruct (getOpeningMove board myColor) as [bookMove|] eqn:Ebook.
  { injection E as <- <- <-. split; [reflexivity|]. left.
    apply (getOpeningMove_playable board myColor), Ebook. }
  destruct (find _ (getLegalMoves board)) as [mw|] eqn:Ewin.
  { injection E as <- <- <-. split; [reflexivity|]. left.
    apply find_some in Ewin as [Hin _]. apply getLegalMoves_spec, Hin. }
  set (opponentWins := List.filter _ (getLegalMoves board)) in E.
  assert (Forall (playable board) opponentWins) as Hwins.
  { apply Forall_forall. intros x Hx. apply list_elem_of_In in Hx.
    apply filter_In in Hx as [Hx _]. apply getLegalMoves_spec, Hx. }
  destruct opponentWins as [|w0 wins] eqn:Ew.
  - destruct (match findBlockingMoves board myColor with
              | [] => false
              | t :: _ => 500000 <=? severity t
              end) eqn:Eurgent.
    + injection E as <- <- <-. split; [reflexivity|]. left.
      destruct (findBlockingMoves board myColor) as [|t ts] eqn:Eb; [discriminate|].
      cbn [hd]. apply (blocking_move_playable board myColor). rewrite Eb. left. reflexivity.
    + apply searchRoot_spec in E as (-> & _ & Hm). split; [reflexivity|].
      destruct Hm as [Hp|[-> [Hnil|(n & Hn & Hdl)]]]; [left; exact Hp | |].
      * right. split; [reflexivity|]. left. exact Hnil.
      * right. split; [reflexivity|]. right. exists n.
        cbn in Hn, Hdl. split; [lia | exact Hdl].
  - rewrite <- Ew in *.
    destruct (pickBlock_spec myColor opponentWins board Hwins) as [Eb Hin];
      [rewrite Ew; discriminate|].
    destruct (pickBlock myColor opponentWins board) as [bestBlock b1].
    cbn [fst snd] in *. injection E as <- <- <-. split; [exact Eb|]. left.
    apply (proj1 (Forall_forall _ _) Hwins), list_elem_of_In, Hin.
Qed.

(** ** The recursion bound of [alphaBeta] *)

Section FuelFacts.

Variable now : nat -> Z.
Context {L : StdLibrary}.

Lemma maxLoop_ext child1 child2 depth ply moves :
  (forall board alpha beta s, child1 board alpha beta s = child2 board alpha beta s) ->
  forall board alpha beta bestValue bestMove s,
    maxLoop now child1 depth ply moves board alpha beta bestValue bestMove s =
    maxLoop now child2 depth ply moves board alpha beta bestValue bestMove s.
Proof.
  intros Hch. induction moves as [|m moves IH];
    intros board alpha beta bestValue bestMove s; cbn [maxLoop]; [reflexivity|].
  destruct (timeUp now s) as [up s1]. destruct up; [reflexivity|].
  rewrite Hch.
  destruct (child2 (snd (makeMove board (mx m) (my m))) alpha beta s1)
    as [[val b1] s2].
  destruct (timeUp now s2) as [up s3]. destruct up; [reflexivity|].
  cbv zeta. destruct (beta <=? _); [reflexivity | apply IH].
Qed.

Lemma minLoop_ext child1 child2 depth ply moves :
  (forall board alpha beta s, child1 board alpha beta s = child2 board alpha beta s) ->
  forall board alpha beta bestValue bestMove s,
    minLoop now child1 depth ply moves board alpha beta bestValue bestMove s =
    minLoop now child2 depth ply moves board alpha beta bestValue bestMove s.
Proof.
  intros Hch. induction moves as [|m moves IH];
    intros board alpha beta bestValue bestMove s; cbn [minLoop]; [reflexivity|].
  destruct (timeUp now s) as [up s1]. destruct up; [reflexivity|].
  rewrite Hch.
  destruct (child2 (snd (makeMove board (mx m) (my m))) alpha beta s1)
    as [[val b1] s2].
  destruct (timeUp now s2) as [up s3]. destruct up; [reflexivity|].
  cbv zeta. destruct (_ <=? alpha); [reflexivity | apply IH].
Qed.

Lemma expand_ext child1 child2 board depth alpha beta currentPlayer myColor ply key s :
  (forall board alpha beta s, child1 board alpha beta s = child2 board alpha beta s) ->
  expand now child1 board depth alpha beta currentPlayer myColor ply key s =
  expand now child2 board depth alpha beta currentPlayer myColor ply key s.
Proof.
  intros Hch. unfold expand.
  destruct (getCandidateMoves board); [reflexivity|].
  destruct (orderMoves board currentPlayer myColor ply s) as [ordered b0].
  destruct (Player_eqb currentPlayer myColor).
  - rewrite (maxLoop_ext child1 child2 depth ply ordered Hch). reflexivity.
  - rewrite (minLoop_ext child1 child2 depth ply ordered Hch). reflexivity.
Qed.

(** The result of [alphaBeta] does not depend on the bound once the bound is
    at least the depth: the bound is never what stops the recursion. *)
Lemma alphaBetaFuel_enough fuel :
  forall board depth alpha beta currentPlayer myColor ply s,
    (Z.to_nat depth <= fuel)%nat ->
    alphaBetaFuel now fuel board depth alpha beta currentPlayer myColor ply s =
    alphaBeta now board depth alpha beta currentPlayer myColor ply s.
Proof.
  unfold alphaBeta.
  induction fuel as [|fuel IH];
    intros board depth alpha beta currentPlayer myColor ply s Hfuel.
  - assert (Z.to_nat depth = 0%nat) as -> by lia. reflexivity.
  - destruct (Z.to_nat depth) as [|k] eqn:Ek.
    + assert ((depth <=? 0) = true) as Hd by (apply Z.leb_le; lia).
      cbn [alphaBetaFuel]. rewrite Hd. reflexivity.
    + cbn [alphaBetaFuel].
      destruct (timeUp now s) as [up s1]. destruct up; [reflexivity|].
      destruct (checkWin board myColor); [reflexivity|]. cbv zeta.
      destruct (checkWin board _); [reflexivity|].
      destruct (depth <=? 0); [reflexivity|].
      destruct (probe _ depth alpha beta) as [sc|alpha' beta']; [reflexivity|].
      apply expand_ext. intros b0 a0 b1 s0.
      assert (k = Z.to_nat (depth - 1)) as -> by lia.
      apply IH. lia.
Qed.

End FuelFacts.

(** ** Claims about the search *)

(** [findBestMove] returns whenever the clock reaches the deadline: with
    [N] the reading from which the clock is past it, [N] rounds of the
    deepening loop are enough. *)
Lemma findBestMove_returns {L : StdLibrary} now (N : nat) fuel board myColor timeLimitMs s :
  (forall n, (N <= n)%nat -> now (clockReads s) + timeLimitMs <= now n) ->
  (N <= fuel)%nat ->
  exists r, findBestMove now (S fuel) board myColor timeLimitMs s = Some r.
Proof.
  intros Hclock Hfuel. unfold findBestMove. cbv zeta.
  fold (freshEngine now timeLimitMs s).
  destruct (getOpeningMove board myColor); [eexists; reflexivity|].
  destruct (find _ (getLegalMoves board)); [eexists; reflexivity|].
  destruct (List.filter _ (getLegalMoves board)).
  2:{ destruct (pickBlock _ _ _). eexists; reflexivity. }
  destruct (match findBlockingMoves board myColor with
            | [] => false
            | t :: _ => 500000 <=? severity t
            end); [eexists; reflexivity|].
  unfold searchRoot. cbv zeta.
  pose proof (orderMoves_spec board myColor myColor 0 (freshEngine now timeLimitMs s))
    as [Eb _].
  pose proof (orderMoves_Forall board myColor myColor 0 (freshEngine now timeLimitMs s))
    as Hl.
  destruct (orderMoves board myColor myColor 0 (freshEngine now timeLimitMs s))
    as [rootMoves b0].
  cbn [fst snd] in Eb, Hl. subst b0.
  destruct rootMoves as [|r0 rest] eqn:Er; [eexists; reflexivity|].
  rewrite <- Er in *.
  apply (deepen_returns now N); [exact Hl | rewrite Er; discriminate | exact Hclock|].
  cbn. lia.
Qed.

(** C8.  [alphaBeta], whatever the recursion bound, the window, the table
    and the clock, returns the board it was given; so does [findBestMove].
    The board is one record, so every cell, the side to move and the hash
    key are those at entry.  The paths taken when the clock runs out are
    paths of these functions like the others. *)
Theorem search_restores_board {L : StdLibrary} (now : nat -> Z) :
  (forall fuel board depth alpha beta currentPlayer myColor ply s val board' s',
     alphaBetaFuel now fuel board depth alpha beta currentPlayer myColor ply s
       = (val, board', s') ->
     board' = board) /\
  (forall board depth alpha beta currentPlayer myColor ply s val board' s',
     alphaBeta now board depth alpha beta currentPlayer myColor ply s
       = (val, board', s') ->
     board' = board /\
     (forall x y, getCellState board' x y = getCellState board x y) /\
     sideToMove board' = sideToMove board /\
     getHashKey board' = getHashKey board) /\
  (forall fuel board myColor timeLimitMs s m board' s',
     findBestMove now fuel board myColor timeLimitMs s = Some (m, board', s') ->
     board' = board /\
     (forall x y, getCellState board' x y = getCellState board x y) /\
     sideToMove board' = sideToMove board /\
     getHashKey board' = getHashKey board).
Proof.
  split; [|split].
  - intros fuel board depth alpha beta currentPlayer myColor ply s val board' s' E.
    destruct (alphaBetaFuel_restores now fuel depth currentPlayer myColor ply
                board alpha beta s) as [Eb _].
    rewrite E in Eb. exact Eb.
  - intros board depth alpha beta currentPlayer myColor ply s val board' s' E.
    unfold alphaBeta in E.
    destruct (alphaBetaFuel_restores now (Z.to_nat depth) depth currentPlayer
                myColor ply board alpha beta s) as [Eb _].
    rewrite E in Eb. cbn [fst snd] in Eb. subst board'. repeat split.
  - intros fuel board myColor timeLimitMs s m board' s' E.
    apply findBestMove_spec in E as [-> _]. repeat split.
Qed.

Lemma playAll_reachable ms : forall b played,
  allAccepted b ms = true -> reachable b played ->
  reachable (playAll b ms) (rev ms ++ played).
Proof.
  induction ms as [|m ms IH]; intros b played Hok Hb; cbn [allAccepted] in Hok.
  - exact Hb.
  - apply andb_true_iff in Hok as [Hm Hrest].
    cbn [rev]. rewrite <- app_assoc. cbn [app].
    change (playAll b (m :: ms)) with (playAll (snd (makeMove b (fst m) (snd m))) ms).
    apply IH; [exact Hrest|].
    destruct m as [x y]. apply reach_make_snd; assumption.
Qed.

Lemma afterOpening_reachable : reachable afterOpening [(7, 7)].
Proof.
  apply (playAll_reachable [(7, 7)] initialBoard []);
    [vm_compute; reflexivity | apply reach_init].
Qed.

Lemma fullBoard_reachable : reachable fullBoard (rev drawMoves).
Proof.
  rewrite <- (app_nil_r (rev drawMoves)).
  apply playAll_reachable; [vm_compute; reflexivity | apply reach_init].
Qed.

(** On the full board the engine has no move to return, whatever the clock
    and the budget. *)
Lemma findBestMove_fullBoard {L : StdLibrary} now fuel timeLimitMs s :
  findBestMove now fuel fullBoard Black timeLimitMs s =
  Some (noMove, fullBoard, freshEngine now timeLimitMs s).
Proof.
  assert (getOpeningMove fullBoard Black = None) as Hbook
    by (vm_compute; reflexivity).
  assert (getLegalMoves fullBoard = []) as Hlegal by (vm_compute; reflexivity).
  assert (findBlockingMoves fullBoard Black = []) as Hblock.
  { apply Permutation_nil_r.
    rewrite (findBlockingMoves_library _ stableLibrary). vm_compute. reflexivity. }
  assert (getCandidateMoves fullBoard = []) as Hcand by (vm_compute; reflexivity).
  unfold findBestMove. cbv zeta. fold (freshEngine now timeLimitMs s).
  rewrite Hbook, Hlegal. cbn [find List.filter]. rewrite Hblock.
  unfold searchRoot. cbv zeta.
  pose proof (orderMoves_spec fullBoard Black Black 0 (freshEngine now timeLimitMs s))
    as [Eb Hperm].
  destruct (orderMoves fullBoard Black Black 0 (freshEngine now timeLimitMs s))
    as [rootMoves b0].
  cbn [fst snd] in Eb, Hperm. subst b0. rewrite Hcand in Hperm.
  apply Permutation_nil_r in Hperm. subst rootMoves. reflexivity.
Qed.

(** ** The rounds of the deepening loop *)

Section RoundFacts.
Context {L : StdLibrary}.
Variable now : nat -> Z.

Lemma now_monotone n n' :
  (forall k, now k <= now (S k)) -> (n <= n')%nat -> now n <= now n'.
Proof.
  intros Hmono Hle. induction Hle as [|n' _ IH]; [lia|].
  specialize (Hmono n'). lia.
Qed.

(** [sweepScores] has a value for every move, in order. *)
Lemma sweepScores_moves depth myColor moves : forall board s,
  map snd (sweepScores now depth myColor moves board s) = moves.
Proof.
  induction moves as [|m0 moves IH]; intros board s; cbn [sweepScores];
    [reflexivity|].
  destruct (rootSearch now depth myColor (snd (makeMove board (mx m0) (my m0)))
                       (tick s)) as [[val b1] s1].
  cbn [map snd]. rewrite IH. reflexivity.
Qed.

(** A sweep that ends on a certain win has found it in the values of the
    sweep. *)
Lemma rootSweep_wins depth myColor moves :
  forall board cv cm s m board' s',
    Forall (playable board) moves ->
    rootSweep now depth myColor moves board cv cm s = (RootWin m, board', s') ->
    exists val,
      In (val, m) (sweepScores now depth myColor moves board s) /\
      90000000 < val.
Proof.
  induction moves as [|m0 moves IH];
    intros board cv cm s m board' s' Hl E; cbn [rootSweep] in E; [discriminate|].
  apply Forall_cons in Hl as [Hm Hl].
  unfold timeUp in E. cbv beta iota in E.
  destruct (timeEnd s <=? now (clockReads s)); [discriminate|].
  cbn [sweepScores].
  destruct (rootSearch now depth myColor (snd (makeMove board (mx m0) (my m0)))
                       (tick s)) as [[val b1] s1] eqn:Ech.
  pose proof (rootSearch_probe now depth myColor board m0 _ _ _ _ Hm Ech) as [Eb _].
  rewrite Eb in *.
  destruct (timeEnd s1 <=? now (clockReads s1)); [discriminate|].
  destruct (90000000 <? val) eqn:Ewin.
  - injection E as <- _ _. exists val. split; [left; reflexivity|].
    apply Z.ltb_lt, Ewin.
  - apply IH in E as (v & Hin & Hv); [|exact Hl].
    exists v. split; [right; exact Hin | exact Hv].
Qed.

Lemma fold_pick_max scored : forall best,
  fst best <= fst (fold_left pick scored best) /\
  Forall (fun p => fst p <= fst (fold_left pick scored best)) scored.
Proof.
  induction scored as [|p scored IH]; intros best; cbn [fold_left].
  - split; [lia | constructor].
  - destruct (IH (pick best p)) as [H1 H2].
    assert (fst best <= fst (pick best p) /\ fst p <= fst (pick best p)) as [Hb Hp].
    { unfold pick. destruct (Z.ltb_spec (fst best) (fst p)); lia. }
    split; [lia|]. constructor; [lia | exact H2].
Qed.

(** A sweep that runs to its end while the clock, which never runs
    backwards, is not up after it: no check of the clock has cut it short,
    so it has the values of [sweepScores] and keeps the best of them. *)
Lemma rootSweep_full depth myColor moves :
  forall board cv cm s v x board' s',
    (forall k, now k <= now (S k)) ->
    Forall (playable board) moves ->
    rootSweep now depth myColor moves board cv cm s = (RootDone v x, board', s') ->
    now (clockReads s') < timeEnd s' ->
    (v, x) = fold_left pick (sweepScores now depth myColor moves board s) (cv, cm) /\
    Forall (fun p => fst p <= 90000000)
           (sweepScores now depth myColor moves board s) /\
    map snd (sweepScores now depth myColor moves board s) = moves.
Proof.
  induction moves as [|m0 moves IH];
    intros board cv cm s v x board' s' Hmono Hl E Hlate; cbn [rootSweep] in E.
  - injection E as <- <- _ _. cbn. auto.
  - apply Forall_cons in Hl as [Hm Hl].
    unfold timeUp in E. cbv beta iota in E.
    destruct (Z.leb_spec (timeEnd s) (now (clockReads s))) as [Hup|Hup].
    { injection E as _ _ _ <-. cbn [tick timeEnd clockReads] in Hlate.
      pose proof (Hmono (clockReads s)). lia. }
    cbn [sweepScores].
    destruct (rootSearch now depth myColor (snd (makeMove board (mx m0) (my m0)))
                         (tick s)) as [[val b1] s1] eqn:Ech.
    pose proof (rootSearch_probe now depth myColor board m0 _ _ _ _ Hm Ech)
      as [Eb [Et Ec]].
    rewrite Eb in *.
    destruct (Z.leb_spec (timeEnd s1) (now (clockReads s1))) as [Hup1|Hup1].
    { injection E as _ _ _ <-. cbn [tick timeEnd clockReads] in Hlate.
      pose proof (Hmono (clockReads s1)). lia. }
    destruct (90000000 <? val) eqn:Ewin; [discriminate|].
    apply Z.ltb_ge in Ewin.
    apply IH in E as (E1 & E2 & E3); [|assumption..].
    cbn [fold_left map snd]. rewrite E3. split; [|split; [|reflexivity]].
    + rewrite E1. f_equal. unfold pick. cbn [fst].
      destruct (cv <? val); reflexivity.
    + constructor; [cbn; lia | exact E2].
Qed.

(** What a round that completes its depth hands on, for every clock. *)
Lemma completes_spec myColor board r r' :
  Forall (playable board) (roundMoves r) -> roundMoves r <> [] ->
  completes now myColor board r r' ->
  roundMoves r' ≡ₚ roundMoves r /\ In (recordedMove r') (roundMoves r) /\
  timeEnd (roundEngine r') = timeEnd (roundEngine r) /\
  (clockReads (roundEngine r) < clockReads (roundEngine r'))%nat.
Proof.
  intros Hl Hne [E _]. unfold runRound in E.
  apply iteration_spec in E as (_ & Et & Ec & Hperm & Hin); auto.
Qed.

Lemma completedDepths_spec myColor board k r0 r :
  Forall (playable board) (roundMoves r0) -> roundMoves r0 <> [] ->
  completedDepths now myColor board k r0 r ->
  roundMoves r ≡ₚ roundMoves r0 /\
  roundDepth r = roundDepth r0 + Z.of_nat k /\
  timeEnd (roundEngine r) = timeEnd (roundEngine r0) /\
  (clockReads (roundEngine r0) <= clockReads (roundEngine r))%nat.
Proof.
  intros Hl Hne Hk. induction Hk as [r|k r r1 r2 Hk IH Hc].
  - repeat split; [reflexivity | lia | lia].
  - destruct (IH Hl Hne) as (Hperm & Hd & Ht & Hc1).
    assert (Forall (playable board) (roundMoves r1)) as Hl1
      by (rewrite Hperm; exact Hl).
    assert (roundMoves r1 <> []) as Hne1.
    { intros E. rewrite E in Hperm. symmetry in Hperm.
      apply Permutation_nil_r in Hperm. contradiction. }
    destruct (completes_spec myColor board r1 r2 Hl1 Hne1 Hc)
      as (Hperm2 & _ & Ht2 & Hc2).
    destruct Hc as [_ Hd2].
    split; [etransitivity; eassumption|].
    split; [lia|]. split; [congruence | lia].
Qed.

Lemma completedDepths_last myColor board k r0 r :
  completedDepths now myColor board k r0 r ->
  match k with
  | O => r = r0
  | S k1 =>
      exists r1,
        completedDepths now myColor board k1 r0 r1 /\
        completes now myColor board r1 r
  end.
Proof. intros Hk. destruct Hk as [r|k r r1 r2 Hk Hc]; [reflexivity | eauto]. Qed.

(** With a clock that never runs backwards, the move a completed depth
    records is the best of a full sweep. *)
Lemma completes_records myColor board r r' :
  (forall k, now k <= now (S k)) ->
  Forall (playable board) (roundMoves r) -> roundMoves r <> [] ->
  completes now myColor board r r' ->
  recordsSweep now myColor board r r'.
Proof.
  intros Hmono Hl Hne Hc.
  destruct (completes_spec myColor board r r' Hl Hne Hc) as (Hperm & Hin & _ & _).
  destruct Hc as [E _]. unfold runRound, iteration in E.
  unfold timeUp at 1 in E. cbv beta iota in E.
  destruct (timeEnd (roundEngine r) <=? now (clockReads (roundEngine r)));
    [discriminate|].
  cbv zeta in E.
  destruct (rootSweep now (roundDepth r) myColor (roundMoves r) board INT_MIN
              (hd noMove (roundMoves r))
              (setMaxDepthReached (tick (roundEngine r)) (roundDepth r)))
    as [[res b1] s1] eqn:Esw.
  destruct res as [mw|cv cm]; [discriminate|].
  unfold timeUp in E. cbv beta iota in E.
  destruct (Z.leb_spec (timeEnd s1) (now (clockReads s1))) as [Hup|Hup];
    cbn [negb] in E; [discriminate|].
  destruct (rescore now (roundDepth r) myColor (roundMoves r) b1 (tick s1))
    as [[scored b2] s2].
  injection E as _ Ebm Ebv _ _.
  destruct (rootSweep_full _ _ _ _ _ _ _ _ _ _ _ Hmono Hl Esw Hup)
    as (Ebest & Hwin & Hmoves).
  unfold recordsSweep. cbv zeta.
  set (sc := sweepScores now (roundDepth r) myColor (roundMoves r) board
               (setMaxDepthReached (tick (roundEngine r)) (roundDepth r))) in *.
  assert ((recordedVal r', recordedMove r') = bestOf (roundMoves r) sc) as Hbest.
  { unfold bestOf. rewrite <- Ebm, <- Ebv. exact Ebest. }
  split; [exact Hmoves|]. split; [exact Hbest|].
  split; [|split; [exact Hin | exact Hperm]].
  destruct (fold_pick_max sc (INT_MIN, hd noMove (roundMoves r))) as [_ Hmax].
  fold (bestOf (roundMoves r) sc) in Hmax. rewrite <- Hbest in Hmax.
  cbn [fst] in Hmax.
  apply Forall_forall. intros p Hp.
  split; [exact (proj1 (Forall_forall _ _) Hwin p Hp)
         | exact (proj1 (Forall_forall _ _) Hmax p Hp)].
Qed.

(** How a round ends the search: by the clock, with the move recorded
    before it, or by a certain win found in its sweep. *)
Lemma runRound_returns myColor board r m b1 s1 :
  Forall (playable board) (roundMoves r) -> roundMoves r <> [] ->
  runRound now myColor board r = (IterReturn m, b1, s1) ->
  b1 = board /\
  ((m = recordedMove r /\
    exists n, (clockReads (roundEngine r) <= n < clockReads s1)%nat /\
              timeEnd (roundEngine r) <= now n) \/
   sweepWins now myColor board r m).
Proof.
  intros Hl Hne E.
  pose proof (iteration_spec now _ _ _ _ _ _ _ _ _ _ Hl Hne E) as (Hb & _ & _ & _).
  split; [exact Hb|]. unfold runRound, iteration in E.
  unfold timeUp at 1 in E. cbv beta iota in E.
  destruct (Z.leb_spec (timeEnd (roundEngine r))
                       (now (clockReads (roundEngine r)))) as [Hup|Hup].
  { injection E as <- _ <-. left. split; [reflexivity|].
    exists (clockReads (roundEngine r)). cbn [tick clockReads].
    split; [lia | exact Hup]. }
  cbv zeta in E.
  destruct (rootSweep now (roundDepth r) myColor (roundMoves r) board INT_MIN
              (hd noMove (roundMoves r))
              (setMaxDepthReached (tick (roundEngine r)) (roundDepth r)))
    as [[res b2] s2] eqn:Esw.
  pose proof (rootSweep_spec now _ _ _ _ _ _ _ _ _ _ Hl Esw) as (_ & [Et Ec] & _).
  cbn [timeEnd clockReads setMaxDepthReached tick] in Et, Ec.
  destruct res as [mw|cv cm].
  { injection E as <- _ _. right.
    apply rootSweep_wins in Esw; [exact Esw | exact Hl]. }
  unfold timeUp in E. cbv beta iota in E.
  destruct (Z.leb_spec (timeEnd s2) (now (clockReads s2))) as [Hup2|Hup2];
    cbn [negb] in E.
  - injection E as <- _ <-. left. split; [reflexivity|].
    exists (clockReads s2). cbn [tick clockReads].
    split; [lia | rewrite <- Et; exact Hup2].
  - destruct (rescore now (roundDepth r) myColor (roundMoves r) b2 (tick s2))
      as [[scored b3] s3]. discriminate.
Qed.

(** The run of the deepening loop from a round on: some depths are
    completed one after the other, then a round ends the search. *)
Lemma deepen_run myColor board r0 fuel :
  forall k r m board' s',
    Forall (playable board) (roundMoves r0) -> roundMoves r0 <> [] ->
    completedDepths now myColor board k r0 r ->
    deepen now fuel (roundDepth r) myColor (roundMoves r) (recordedMove r)
           (recordedVal r) board (roundEngine r) = Some (m, board', s') ->
    exists k' r',
      completedDepths now myColor board k' r0 r' /\
      runRound now myColor board r' = (IterReturn m, board, s') /\
      board' = board.
Proof.
  induction fuel as [|fuel IH]; intros k r m board' s' Hl Hne Hk E;
    cbn [deepen] in E; [discriminate|].
  fold (runRound now myColor board r) in E.
  destruct (runRound now myColor board r) as [[res b1] s1] eqn:Er.
  destruct (completedDepths_spec myColor board k r0 r Hl Hne Hk) as (Hperm & _).
  assert (Forall (playable board) (roundMoves r)) as Hlr by (rewrite Hperm; exact Hl).
  assert (roundMoves r <> []) as Hner.
  { intros E0. rewrite E0 in Hperm. symmetry in Hperm.
    apply Permutation_nil_r in Hperm. contradiction. }
  pose proof Er as Er'. unfold runRound in Er'.
  apply iteration_spec in Er' as (-> & _); [|assumption..].
  destruct res as [mr|rootMoves' bm bv].
  - injection E as <- <- <-. exists k, r. auto.
  - apply (IH (S k) (mkRound (roundDepth r + 1) rootMoves' bm bv s1)) in E;
      [exact E | exact Hl | exact Hne|].
    eapply completed_more; [exact Hk|]. split; [exact Er | reflexivity].
Qed.

End RoundFacts.

(** The move of [findBestMove] comes from one of the tests made before the
    search, and is a cell a stone can be put on, or from the search. *)
Lemma findBestMove_cases {L : StdLibrary} now fuel board myColor timeLimitMs s m
    board' s' :
  findBestMove now fuel board myColor timeLimitMs s = Some (m, board', s') ->
  (playable board m /\ board' = board) \/
  searchRoot now fuel board myColor (freshEngine now timeLimitMs s)
    = Some (m, board', s').
Proof.
  unfold findBestMove. cbv zeta. fold (freshEngine now timeLimitMs s).
  intros E.
  destruct (getOpeningMove board myColor) as [bookMove|] eqn:Ebook.
  { injection E as <- <- <-. left. split; [|reflexivity].
    apply (getOpeningMove_playable board myColor), Ebook. }
  destruct (find _ (getLegalMoves board)) as [mw|] eqn:Ewin.
  { injection E as <- <- <-. left. split; [|reflexivity].
    apply find_some in Ewin as [Hin _]. apply getLegalMoves_spec, Hin. }
  set (opponentWins := List.filter _ (getLegalMoves board)) in E.
  assert (Forall (playable board) opponentWins) as Hwins.
  { apply Forall_forall. intros x Hx. apply list_elem_of_In in Hx.
    apply filter_In in Hx as [Hx _]. apply getLegalMoves_spec, Hx. }
  destruct opponentWins as [|w0 wins] eqn:Ew.
  - destruct (match findBlockingMoves board myColor with
              | [] => false
              | t :: _ => 500000 <=? severity t
              end) eqn:Eurgent.
    + injection E as <- <- <-. left. split; [|reflexivity].
      destruct (findBlockingMoves board myColor) as [|t ts] eqn:Eb; [discriminate|].
      cbn [hd]. apply (blocking_move_playable board myColor). rewrite Eb. left. reflexivity.
    + right. exact E.
  - rewrite <- Ew in *.
    destruct (pickBlock_spec myColor opponentWins board Hwins) as [Eb Hin];
      [rewrite Ew; discriminate|].
    destruct (pickBlock myColor opponentWins board) as [bestBlock b1].
    cbn [fst snd] in *. injection E as <- <- <-. left. split; [|exact Eb].
    apply (proj1 (Forall_forall _ _) Hwins), list_elem_of_In, Hin.
Qed.

(** The search itself: no root move, or the run of the deepening loop from
    its first round. *)
Lemma searchRoot_run {L : StdLibrary} now fuel board myColor s0 m board' s' :
  searchRoot now fuel board myColor s0 = Some (m, board', s') ->
  let rootMoves := fst (orderMoves board myColor myColor 0 s0) in
  board' = board /\ Forall (playable board) rootMoves /\
  ((rootMoves = [] /\ getLegalMoves board = [] /\ m = noMove /\ s' = s0) \/
   (rootMoves <> [] /\
    exists k r,
      completedDepths now myColor board k (firstRound rootMoves s0) r /\
      runRound now myColor board r = (IterReturn m, board, s'))).
Proof.
  unfold searchRoot. intros E. cbv zeta in E |- *.
  pose proof (orderMoves_spec board myColor myColor 0 s0) as [Eb Hperm].
  pose proof (orderMoves_Forall board myColor myColor 0 s0) as Hl.
  destruct (orderMoves board myColor myColor 0 s0) as [rootMoves b0].
  cbn [fst snd] in *. subst b0.
  destruct rootMoves as [|r0 rest] eqn:Er.
  - injection E as <- <- <-. split; [reflexivity|]. split; [constructor|]. left.
    split; [reflexivity|]. split; [|auto].
    apply getCandidateMoves_nil.
    apply Permutation_nil_l in Hperm. symmetry. exact Hperm.
  - rewrite <- Er in *.
    assert (rootMoves <> []) as Hne by (rewrite Er; discriminate).
    apply (deepen_run now myColor board (firstRound rootMoves s0) fuel 0%nat
             (firstRound rootMoves s0)) in E as (k & r & Hk & Hr & ->);
      [|exact Hl|exact Hne|constructor].
    split; [reflexivity|]. split; [exact Hl|]. right.
    split; [exact Hne|]. exists k, r. auto.
Qed.

(** C1, as amended.  The move [findBestMove] returns is an in-range cell that
    is empty on the board given, or else the sentinel (-1,-1).  The sentinel
    is returned only when the board has no empty cell, or when the first
    round of the deepening loop, the one of depth 1, ends the search by the
    clock: no depth has been completed, and a reading of the clock made
    during the call, after the one that set the deadline, is at or past the
    deadline.  This holds for every board, budget, clock and library. *)
Theorem findBestMove_playable_or_sentinel {L : StdLibrary} (now : nat -> Z)
    (fuel : nat) (board : Board) (myColor : Player) (timeLimitMs : Z)
    (s : SearchEngine) (m : Move) (board' : Board) (s' : SearchEngine) :
  findBestMove now fuel board myColor timeLimitMs s = Some (m, board', s') ->
  (inRange (mx m) (my m) = true /\ isOccupied board (mx m) (my m) = false) \/
  (m = noMove /\
   (getLegalMoves board = [] \/
    let s0 := freshEngine now timeLimitMs s in
    let rootMoves := fst (orderMoves board myColor myColor 0 s0) in
    runRound now myColor board (firstRound rootMoves s0)
      = (IterReturn noMove, board, s') /\
    exists n, (clockReads s < n < clockReads s')%nat /\
              now (clockReads s) + timeLimitMs <= now n)).
Proof.
  intros E. apply findBestMove_cases in E as [[Hp _]|E]; [left; exact Hp|].
  apply searchRoot_run in E. cbv zeta in E |- *.
  set (s0 := freshEngine now timeLimitMs s) in *.
  set (rootMoves := fst (orderMoves board myColor myColor 0 s0)) in *.
  destruct E as (_ & Hl & [(_ & Hnil & -> & _)|(Hne & k & r & Hk & Hr)]).
  { right. split; [reflexivity|]. left. exact Hnil. }
  destruct (completedDepths_spec now myColor board k (firstRound rootMoves s0) r Hl Hne Hk)
    as (Hperm & _ & Ht & Hc).
  assert (Forall (playable board) (roundMoves r)) as Hlr by (rewrite Hperm; exact Hl).
  assert (roundMoves r <> []) as Hner.
  { intros E0. rewrite E0 in Hperm. symmetry in Hperm.
    apply Permutation_nil_r in Hperm. contradiction. }
  destruct (runRound_returns now myColor board r m _ _ Hlr Hner Hr)
    as (_ & [[Em (n & Hn & Hdl)]|(val & Hin & _)]).
  - pose proof (completedDepths_last now myColor board k _ r Hk) as Hlast.
    destruct k as [|k].
    + right. subst r. cbn [firstRound recordedMove] in Em. subst m.
      split; [reflexivity|]. right. split; [exact Hr|].
      exists n. cbn [firstRound roundEngine] in Hn, Hdl. subst s0.
      cbn in Hn, Hdl. split; [lia | exact Hdl].
    + left. subst m. destruct Hlast as (r1 & Hk1 & Hc2).
      destruct (completedDepths_spec now myColor board k
                  (firstRound rootMoves s0) r1 Hl Hne Hk1) as (Hperm1 & _).
      assert (Forall (playable board) (roundMoves r1)) as Hl1
        by (rewrite Hperm1; exact Hl).
      assert (roundMoves r1 <> []) as Hne1.
      { intros E0. rewrite E0 in Hperm1. symmetry in Hperm1.
        apply Permutation_nil_r in Hperm1. contradiction. }
      destruct (completes_spec now myColor board r1 r Hl1 Hne1 Hc2)
        as (_ & Hin & _).
      apply (proj1 (Forall_forall _ _) Hl1), list_elem_of_In, Hin.
  - left. apply (proj1 (Forall_forall _ _) Hlr), list_elem_of_In.
    apply (in_map snd) in Hin. cbn [snd] in Hin.
    rewrite sweepScores_moves in Hin. exact Hin.
Qed.

(** White's first answer with a budget of one millisecond and a clock that
    advances five milliseconds between two readings: the deadline is set
    at the reading 0, and the reading 1, at the head of the round of depth
    1, is past it. *)
Lemma findBestMove_playable_or_sentinel_witness :
  (inRange (mx noMove) (my noMove) = true /\
   isOccupied afterOpening (mx noMove) (my noMove) = false) \/
  (noMove = noMove /\
   (getLegalMoves afterOpening = [] \/
    let s0 := freshEngine slowClock 1 engine0 in
    let rootMoves := fst (orderMoves afterOpening White White 0 s0) in
    runRound slowClock White afterOpening (firstRound rootMoves s0)
      = (IterReturn noMove, afterOpening, tick (freshEngine slowClock 1 engine0)) /\
    exists n,
      (clockReads engine0 < n < clockReads (tick (freshEngine slowClock 1 engine0)))%nat /\
      slowClock (clockReads engine0) + 1 <= slowClock n)).
Proof.
  apply (findBestMove_playable_or_sentinel slowClock 1 afterOpening White 1
           engine0 noMove afterOpening (tick (freshEngine slowClock 1 engine0))).
  vm_compute. reflexivity.
Defined.

(** C1 as first stated fails.  After Black's first move, White's engine with
    a budget of one millisecond and a clock that is past the deadline at its
    first check returns (-1,-1); and on a board filled by legal moves, with
    no row of five, it returns (-1,-1) whatever the budget and the clock. *)
Lemma findBestMove_sentinel_returned :
  (reachable afterOpening [(7, 7)] /\ 0 < 1 /\
   exists s',
     findBestMove slowClock 1 afterOpening White 1 engine0
       = Some (noMove, afterOpening, s')) /\
  (reachable fullBoard (rev drawMoves) /\
   checkWin fullBoard Black = false /\ checkWin fullBoard White = false /\
   sideToMove fullBoard = Black /\
   forall now fuel timeLimitMs s,
     findBestMove now fuel fullBoard Black timeLimitMs s
       = Some (noMove, fullBoard, freshEngine now timeLimitMs s)) /\
  inRange (mx noMove) (my noMove) = false.
Proof.
  split; [|split].
  - split; [apply afterOpening_reachable|]. split; [lia|].
    eexists. vm_compute. reflexivity.
  - split; [apply fullBoard_reachable|].
    split; [vm_compute; reflexivity|]. split; [vm_compute; reflexivity|].
    split; [vm_compute; reflexivity|]. apply findBestMove_fullBoard.
  - reflexivity.
Qed.


(** When none of the tests made before the search yields a move,
    [findBestMove] is the search. *)
Lemma findBestMove_searches {L : StdLibrary} now fuel board myColor timeLimitMs s :
  noShortcut board myColor ->
  findBestMove now fuel board myColor timeLimitMs s =
  searchRoot now fuel board myColor (freshEngine now timeLimitMs s).
Proof.
  intros (Hbook & Hwin & Hopp & Hurgent).
  unfold findBestMove. cbv zeta. fold (freshEngine now timeLimitMs s).
  rewrite Hbook, Hwin.
  change (match myColor with Black => White | White => Black end)
    with (other myColor). rewrite Hopp.
  destruct (findBlockingMoves board myColor) as [|t ts] eqn:Eb; [reflexivity|].
  pose proof (Hurgent t ts eq_refl) as Ht.
  destruct (Z.leb_spec 500000 (severity t)); [lia | reflexivity].
Qed.

(** C2, as amended.  When none of the tests made before the search yields a
    move, [findBestMove] runs the deepening loop from its first round, with
    the ordered root moves and the sentinel (-1,-1) as the move recorded so
    far: [k] depths are completed one after the other, then the round of
    depth [k + 1] ends the search.
    - It ends it by the clock with the move recorded so far.  When no depth
      has been completed ([k = 0]) this is the sentinel, not the first
      candidate; the same holds when there is no root move at all.
      Otherwise it is the move recorded by the last completed depth, which
      is one of the root moves.
    - Or it ends it with a root move for which its sweep got a value above
      90000000.
    What a completed depth records when the clock never runs backwards: its
    sweep has searched every root move, no value was above 90000000, and
    the move recorded is the first one, in the order of the sweep, whose
    value is the largest. *)
Theorem deepening_returns_recorded_move {L : StdLibrary} (now : nat -> Z)
    (fuel : nat) (board : Board) (myColor : Player) (timeLimitMs : Z)
    (s : SearchEngine) (m : Move) (board' : Board) (s' : SearchEngine) :
  noShortcut board myColor ->
  findBestMove now fuel board myColor timeLimitMs s = Some (m, board', s') ->
  let s0 := freshEngine now timeLimitMs s in
  let rootMoves := fst (orderMoves board myColor myColor 0 s0) in
  exists (k : nat) (r : Round),
    roundDepth r = 1 + Z.of_nat k /\
    match k with
    | O => r = firstRound rootMoves s0
    | S k1 =>
        exists r1,
          completedDepths now myColor board k1 (firstRound rootMoves s0) r1 /\
          completes now myColor board r1 r /\
          In (recordedMove r) rootMoves /\
          ((forall n, now n <= now (S n)) ->
           recordsSweep now myColor board r1 r)
    end /\
    ((m = recordedMove r /\
      (rootMoves = [] \/
       runRound now myColor board r = (IterReturn m, board, s') /\
       exists n, (clockReads s < n < clockReads s')%nat /\
                 now (clockReads s) + timeLimitMs <= now n)) \/
     (runRound now myColor board r = (IterReturn m, board, s') /\
      sweepWins now myColor board r m)).
Proof.
  intros Hno E. cbv zeta.
  set (s0 := freshEngine now timeLimitMs s).
  set (rootMoves := fst (orderMoves board myColor myColor 0 s0)).
  assert (searchRoot now fuel board myColor s0 = Some (m, board', s')) as Es.
  { rewrite <- E. symmetry. apply findBestMove_searches. exact Hno. }
  apply searchRoot_run in Es. cbv zeta in Es. fold rootMoves in Es.
  destruct Es as (_ & Hl & [(Hnil & _ & -> & _)|(Hne & k & r & Hk & Hr)]).
  { exists 0%nat, (firstRound rootMoves s0).
    split; [reflexivity|]. split; [reflexivity|].
    left. split; [reflexivity|]. left. exact Hnil. }
  destruct (completedDepths_spec now myColor board k
              (firstRound rootMoves s0) r Hl Hne Hk) as (Hperm & Hd & Ht & Hc).
  assert (Forall (playable board) (roundMoves r)) as Hlr by (rewrite Hperm; exact Hl).
  assert (roundMoves r <> []) as Hner.
  { intros E0. rewrite E0 in Hperm. symmetry in Hperm.
    apply Permutation_nil_r in Hperm. contradiction. }
  exists k, r. split; [exact Hd|]. split.
  - pose proof (completedDepths_last now myColor board k _ r Hk) as Hlast.
    destruct k as [|k]; [exact Hlast|]. destruct Hlast as (r1 & Hk1 & Hc2).
    exists r1. split; [exact Hk1|]. split; [exact Hc2|].
    destruct (completedDepths_spec now myColor board k
                (firstRound rootMoves s0) r1 Hl Hne Hk1) as (Hperm1 & _).
    assert (Forall (playable board) (roundMoves r1)) as Hl1
      by (rewrite Hperm1; exact Hl).
    assert (roundMoves r1 <> []) as Hne1.
    { intros E0. rewrite E0 in Hperm1. symmetry in Hperm1.
      apply Permutation_nil_r in Hperm1. contradiction. }
    split.
    + destruct (completes_spec now myColor board r1 r Hl1 Hne1 Hc2)
        as (_ & Hin & _).
      apply list_elem_of_In. apply list_elem_of_In in Hin.
      rewrite Hperm1 in Hin. exact Hin.
    + intros Hmono. apply completes_records; assumption.
  - destruct (runRound_returns now myColor board r m _ _ Hlr Hner Hr)
      as (_ & [[Em (n & Hn & Hdl)]|Hw]).
    + left. split; [exact Em|]. right. split; [exact Hr|].
      exists n. rewrite Ht in Hdl. subst s0.
      cbn in Hc, Hdl. split; [lia | exact Hdl].
    + right. split; [exact Hr | exact Hw].
Qed.

(** White's first answer with a budget of 100 milliseconds and a clock that
    advances one millisecond per reading: depth 1 is completed, and the
    search ends during depth 2. *)
Lemma deepening_returns_recorded_move_witness :
  let s0 := freshEngine steadyClock 100 engine0 in
  let rootMoves := fst (orderMoves afterOpening White White 0 s0) in
  exists (k : nat) (r : Round),
    roundDepth r = 1 + Z.of_nat k /\
    match k with
    | O => r = firstRound rootMoves s0
    | S k1 =>
        exists r1,
          completedDepths steadyClock White afterOpening k1
                          (firstRound rootMoves s0) r1 /\
          completes steadyClock White afterOpening r1 r /\
          In (recordedMove r) rootMoves /\
          ((forall n, steadyClock n <= steadyClock (S n)) ->
           recordsSweep steadyClock White afterOpening r1 r)
    end /\
    ((mkMove 6 4 = recordedMove r /\
      (rootMoves = [] \/
       runRound steadyClock White afterOpening r
         = (IterReturn (mkMove 6 4), afterOpening, completedRunEngine) /\
       exists n, (clockReads engine0 < n < clockReads completedRunEngine)%nat /\
                 steadyClock (clockReads engine0) + 100 <= steadyClock n)) \/
     (runRound steadyClock White afterOpening r
        = (IterReturn (mkMove 6 4), afterOpening, completedRunEngine) /\
      sweepWins steadyClock White afterOpening r (mkMove 6 4))).
Proof.
  apply (deepening_returns_recorded_move steadyClock 2 afterOpening White 100
           engine0 (mkMove 6 4) afterOpening completedRunEngine).
  - repeat split; try (vm_compute; reflexivity).
    intros t ts E. vm_compute in E. discriminate.
  - vm_compute. reflexivity.
Defined.

(** C2 as first stated fails.  After Black's first move no shortcut applies
    for White and the ordered root moves start with (6,4); with a budget of
    one millisecond and a clock past the deadline at its first check, no
    depth is completed and the engine returns (-1,-1), not (6,4).  The same
    happens when the clock runs out during the sweep of depth 1. *)
Lemma first_candidate_not_returned :
  getOpeningMove afterOpening White = None /\
  find (fun m => isWinningMove afterOpening White (mx m) (my m))
       (getLegalMoves afterOpening) = None /\
  List.filter (fun m => isWinningMove afterOpening Black (mx m) (my m))
              (getLegalMoves afterOpening) = [] /\
  findBlockingMoves afterOpening White = [] /\
  hd noMove (fst (orderMoves afterOpening White White 0
                    (freshEngine slowClock 1 engine0))) = mkMove 6 4 /\
  fst (timeUp slowClock (freshEngine slowClock 1 engine0)) = true /\
  (exists s',
     findBestMove slowClock 1 afterOpening White 1 engine0
       = Some (noMove, afterOpening, s')) /\
  (exists s',
     findBestMove steadyClock 1 afterOpening White 30 engine0
       = Some (noMove, afterOpening, s') /\ maxDepthReached s' = 1) /\
  noMove <> mkMove 6 4.
Proof.
  repeat split; try (vm_compute; reflexivity).
  - eexists. vm_compute. reflexivity.
  - eexists. vm_compute. split; reflexivity.
  - discriminate.
Qed.

(** A run in which depth 1 is completed: with a budget of 100 milliseconds
    and a clock that advances one millisecond per reading, the engine
    returns one of the root moves during depth 2. *)
Lemma completed_depth_example :
  exists s',
    findBestMove steadyClock 2 afterOpening White 100 engine0
      = Some (mkMove 6 4, afterOpening, s') /\ maxDepthReached s' = 2.
Proof. eexists. vm_compute. split; reflexivity. Qed.

(** * The transposition table in [alphaBeta] *)

Section TableFacts.
Variable now : nat -> Z.
Context {L : StdLibrary}.








End TableFacts.




(** * Further properties of [Board] *)

#[local] Transparent getCandidateMoves getLegalMoves.

Lemma seqZ_sorted m n : StronglySorted Z.lt (seqZ m n).
Proof.
  destruct (Z.le_gt_cases n 0) as [Hn|Hn].
  { rewrite seqZ_nil by exact Hn. constructor. }
  rewrite <- (Z2Nat.id n) by lia. generalize (Z.to_nat n) as k. clear Hn.
  induction k as [|k IH]; [constructor|].
  rewrite seqZ_S. apply StronglySorted_app_2; [|exact IH|repeat constructor].
  intros x1 x2 H1 H2. apply elem_of_seqZ in H1. apply list_elem_of_In in H2.
  destruct H2 as [<-|[]]. lia.
Qed.

Lemma scan_row_In (P : Z -> Z -> bool) xs y m :
  In m (flat_map (fun x => if P x y then [mkMove x y] else []) xs) ->
  my m = y /\ In (mx m) xs.
Proof.
  intros H. apply in_flat_map in H as (x & Hx & H).
  destruct (P x y); [|destruct H]. destruct H as [<-|[]]. auto.
Qed.

Lemma scan_row_sorted (P : Z -> Z -> bool) xs y :
  StronglySorted Z.lt xs ->
  StronglySorted rowMajor
    (flat_map (fun x => if P x y then [mkMove x y] else []) xs).
Proof.
  intros Hxs. induction Hxs as [|x xs' Hs IH Hall]; [constructor|].
  cbn [flat_map]. apply StronglySorted_app_2; [|destruct (P x y); repeat constructor|exact IH].
  intros m1 m2 H1 H2. apply list_elem_of_In in H1, H2.
  destruct (P x y); [|destruct H1]. destruct H1 as [<-|[]].
  apply scan_row_In in H2 as [E2 Hx2].
  right. cbn [mx my]. split; [congruence|].
  rewrite Forall_forall in Hall. apply Hall, list_elem_of_In, Hx2.
Qed.

(** A scan of a grid of cells that keeps the cells passing a test lists them
    in reading order. *)
Lemma scan_sorted (P : Z -> Z -> bool) xs ys :
  StronglySorted Z.lt xs -> StronglySorted Z.lt ys ->
  StronglySorted rowMajor
    (flat_map (fun y =>
       flat_map (fun x => if P x y then [mkMove x y] else []) xs) ys).
Proof.
  intros Hxs Hys.
  induction Hys as [|y ys' Hs IH Hall]; [constructor|].
  cbn [flat_map].
  apply StronglySorted_app_2; [|apply scan_row_sorted, Hxs|exact IH].
  intros m1 m2 H1 H2. apply list_elem_of_In in H1, H2.
  apply scan_row_In in H1 as [E1 _].
  apply in_flat_map in H2 as (y2 & Hy2 & H2). apply scan_row_In in H2 as [E2 _].
  left. rewrite E1, E2. rewrite Forall_forall in Hall.
  apply Hall, list_elem_of_In, Hy2.
Qed.

Lemma rowMajor_irrefl m : ~ rowMajor m m.
Proof. unfold rowMajor. lia. Qed.

Lemma sorted_NoDup {A} (R : relation A) (l : list A) :
  (forall a, ~ R a a) -> StronglySorted R l -> List.NoDup l.
Proof.
  intros Hirr Hs. induction Hs as [|a l Hs IH Hall]; constructor; [|exact IH].
  intros Hin. rewrite Forall_forall in Hall. apply (Hirr a), Hall, list_elem_of_In, Hin.
Qed.

Lemma getLegalMoves_sorted b : StronglySorted rowMajor (getLegalMoves b).
Proof.
  unfold getLegalMoves.
  apply (scan_sorted (fun x y => negb (isOccupied b x y))); apply seqZ_sorted.
Qed.

(** X1.  [isOccupied] and [getCellState] agree: a cell counts as occupied
    exactly when its state is not 0.  Off the board the state is -1, so a
    cell off the board counts as occupied; on the board the state is 0, 1
    or 2. *)
Theorem occupied_iff_state_nonzero (b : Board) (x y : Z) :
  (isOccupied b x y = true <-> getCellState b x y <> 0) /\
  (getCellState b x y = -1 <-> inRange x y = false) /\
  (inRange x y = false -> isOccupied b x y = true) /\
  (inRange x y = true ->
   getCellState b x y = 0 \/ getCellState b x y = 1 \/ getCellState b x y = 2).
Proof.
  split; [|split; [|split]].
  - rewrite isOccupied_state.
    destruct (Z.eqb_spec (getCellState b x y) 0); cbn; split; congruence.
  - destruct (inRange x y) eqn:Hr.
    + pose proof (getCellState_range b x y Hr). split; [lia | discriminate].
    + unfold getCellState. rewrite Hr. cbn. split; reflexivity.
  - intros Hr. unfold isOccupied. rewrite Hr. reflexivity.
  - apply getCellState_range.
Qed.

(** X2.  [getLegalMoves] lists exactly the empty cells of the board, each
    once, in reading order (row by row, left to right). *)
Theorem getLegalMoves_lists_empty_cells (b : Board) :
  (forall m, In m (getLegalMoves b) <->
             inRange (mx m) (my m) = true /\ isOccupied b (mx m) (my m) = false) /\
  StronglySorted rowMajor (getLegalMoves b) /\
  List.NoDup (getLegalMoves b).
Proof.
  split; [intros m; apply getLegalMoves_spec|].
  split; [apply getLegalMoves_sorted|].
  apply (sorted_NoDup rowMajor); [apply rowMajor_irrefl | apply getLegalMoves_sorted].
Qed.

(** ** The bounding box and the candidates *)

Lemma growBox_keeps b y acc x x0 y0 :
  inBox acc x0 y0 -> inBox (growBox b y acc x) x0 y0.
Proof.
  destruct acc as [[[[a1 a2] a3] a4] found]. unfold growBox, inBox.
  destruct (isOccupied b x y); [|auto].
  destruct (Z.ltb_spec x a1), (Z.ltb_spec a2 x), (Z.ltb_spec y a3),
    (Z.ltb_spec a4 y); lia.
Qed.

Lemma growBox_covers b y acc x :
  isOccupied b x y = true -> inBox (growBox b y acc x) x y.
Proof.
  destruct acc as [[[[a1 a2] a3] a4] found]. unfold growBox, inBox.
  intros ->.
  destruct (Z.ltb_spec x a1), (Z.ltb_spec a2 x), (Z.ltb_spec y a3),
    (Z.ltb_spec a4 y); lia.
Qed.

Lemma growRow_box b y xs : forall acc,
  (forall x0 y0, inBox acc x0 y0 ->
     inBox (fold_left (growBox b y) xs acc) x0 y0) /\
  (forall x, In x xs -> isOccupied b x y = true ->
     inBox (fold_left (growBox b y) xs acc) x y).
Proof.
  induction xs as [|x xs IH]; intros acc; cbn [fold_left].
  - split; [auto | intros x []].
  - destruct (IH (growBox b y acc x)) as [IH1 IH2]. split.
    + intros x0 y0 H. apply IH1, growBox_keeps, H.
    + intros x' [<-|Hin] Ho; [|apply IH2; assumption].
      apply IH1, growBox_covers, Ho.
Qed.

Lemma boundingBox_covers b x y :
  inRange x y = true -> isOccupied b x y = true -> inBox (boundingBox b) x y.
Proof.
  intros Hr Ho. apply inRange_iff in Hr. unfold boundingBox.
  assert (forall ys acc,
    (forall x0 y0, inBox acc x0 y0 ->
       inBox (fold_left (fun acc y => fold_left (growBox b y) (seqZ 0 12) acc)
                        ys acc) x0 y0) /\
    (In y ys ->
       inBox (fold_left (fun acc y => fold_left (growBox b y) (seqZ 0 12) acc)
                        ys acc) x y)) as H.
  { induction ys as [|y' ys IH]; intros acc; cbn [fold_left].
    - split; [auto | intros []].
    - destruct (IH (fold_left (growBox b y') (seqZ 0 12) acc)) as [IH1 IH2].
      destruct (growRow_box b y' (seqZ 0 12) acc) as [R1 R2]. split.
      + intros x0 y0 H. apply IH1, R1, H.
      + intros [->|Hin]; [|apply IH2, Hin].
        apply IH1, R2; [apply seqZ_In; lia | exact Ho]. }
  apply H, seqZ_In. lia.
Qed.

Lemma hasNeighbor_spec b x y :
  hasNeighbor b x y = true <-> nextToStone b x y.
Proof.
  unfold hasNeighbor, nextToStone. rewrite existsb_exists. split.
  - intros (dy & Hdy & H). apply existsb_exists in H as (dx & Hdx & H).
    exists dx, dy.
    destruct (Z.eqb_spec dx 0), (Z.eqb_spec dy 0); cbn [andb] in H;
      try discriminate; apply andb_true_iff in H as [H1 H2];
      cbn in Hdx, Hdy; repeat split; try assumption; lia.
  - intros (dx & dy & Hdx & Hdy & Hne & Hr & Ho). exists dy.
    split; [cbn; lia|]. apply existsb_exists. exists dx.
    split; [cbn; lia|].
    destruct (Z.eqb_spec dx 0), (Z.eqb_spec dy 0); cbn [andb]; [lia|..];
      rewrite Hr, Ho; reflexivity.
Qed.

(** On a board with a stone and an empty cell, some empty cell touches a
    stone: walk from the empty cell towards the stone. *)
Lemma empty_cell_next_to_stone b ox oy :
  inRange ox oy = true -> isOccupied b ox oy = true ->
  forall (n : nat) ex ey,
    inRange ex ey = true -> isOccupied b ex ey = false ->
    Z.max (Z.abs (ox - ex)) (Z.abs (oy - ey)) <= Z.of_nat n ->
    exists x y, inRange x y = true /\ isOccupied b x y = false /\
                nextToStone b x y.
Proof.
  intros Hor Ho. apply inRange_iff in Hor.
  induction n as [|n IH]; intros ex ey Her He Hd.
  - assert (ex = ox /\ ey = oy) as [-> ->] by lia. congruence.
  - pose proof Her as Her'. apply inRange_iff in Her'.
    set (sx := Z.sgn (ox - ex)). set (sy := Z.sgn (oy - ey)).
    assert (inRange (ex + sx) (ey + sy) = true) as Hr1.
    { apply inRange_iff. unfold sx, sy. lia. }
    destruct (isOccupied b (ex + sx) (ey + sy)) eqn:Ho1.
    + exists ex, ey. split; [exact Her|]. split; [exact He|].
      exists sx, sy. repeat split; try assumption; unfold sx, sy; try lia.
      destruct (Z.eq_dec ex ox) as [->|]; [|lia].
      destruct (Z.eq_dec ey oy) as [->|]; [congruence | lia].
    + apply (IH (ex + sx) (ey + sy)); [exact Hr1 | exact Ho1|].
      unfold sx, sy. lia.
Qed.

Lemma candidate_scan b box m :
  boundingBox b = box ->
  let '(min_x, max_x, min_y, max_y, _) := box in
  In m (flat_map (fun y =>
          flat_map (fun x =>
            if negb (isOccupied b x y) && hasNeighbor b x y
            then [mkMove x y] else [])
            (seqZ (Z.max 0 (min_x - 2))
                  (Z.min 11 (max_x + 2) - Z.max 0 (min_x - 2) + 1)))
          (seqZ (Z.max 0 (min_y - 2))
                (Z.min 11 (max_y + 2) - Z.max 0 (min_y - 2) + 1)))
  <-> playable b m /\ nextToStone b (mx m) (my m).
Proof.
  intros Ebox. destruct box as [[[[min_x max_x] min_y] max_y] found].
  rewrite in_flat_map. split.
  - intros (y & Hy & H). apply in_flat_map in H as (x & Hx & H).
    apply seqZ_In in Hx, Hy.
    destruct (isOccupied b x y) eqn:Ho; cbn [negb andb] in H; [destruct H|].
    destruct (hasNeighbor b x y) eqn:Hn; [|destruct H].
    destruct H as [<-|[]]. cbn [mx my]. split.
    + split; [apply inRange_iff; cbn [mx my]; lia | exact Ho].
    + apply hasNeighbor_spec, Hn.
  - intros [[Hr Ho] Hn]. pose proof Hn as (dx & dy & Hdx & Hdy & _ & Hr2 & Ho2).
    pose proof (boundingBox_covers b _ _ Hr2 Ho2) as Hbox.
    rewrite Ebox in Hbox. unfold inBox in Hbox.
    apply inRange_iff in Hr. apply inRange_iff in Hr2.
    exists (my m). split; [apply seqZ_In; lia|].
    apply in_flat_map. exists (mx m). split; [apply seqZ_In; lia|].
    rewrite Ho. apply hasNeighbor_spec in Hn. rewrite Hn. cbn [negb andb].
    left. destruct m; reflexivity.
Qed.

Lemma boundingBox_found_iff b :
  snd (boundingBox b) = true <->
  exists x y, inRange x y = true /\ isOccupied b x y = true.
Proof.
  rewrite boundingBox_found, existsb_exists. split.
  - intros (y & Hy & H). apply existsb_exists in H as (x & Hx & H).
    apply seqZ_In in Hx, Hy. exists x, y. split; [apply inRange_iff; lia | exact H].
  - intros (x & y & Hr & Ho). apply inRange_iff in Hr. exists y.
    split; [apply seqZ_In; lia|]. apply existsb_exists. exists x.
    split; [apply seqZ_In; lia | exact Ho].
Qed.

Lemma getCandidateMoves_near_stones b m :
  (exists x y, inRange x y = true /\ isOccupied b x y = true) ->
  In m (getCandidateMoves b) <-> playable b m /\ nextToStone b (mx m) (my m).
Proof.
  intros Hstone. pose proof Hstone as Hfound.
  apply boundingBox_found_iff in Hfound.
  pose proof (fun m => candidate_scan b (boundingBox b) m eq_refl) as Hscan.
  unfold getCandidateMoves.
  destruct (boundingBox b) as [[[[min_x max_x] min_y] max_y] found].
  cbn [snd] in Hfound. subst found. cbn [negb].
  set (moves := flat_map _ _) in *.
  destruct moves as [|m0 moves'] eqn:Em; [|apply Hscan].
  (* the scan found nothing: then no cell of the board is empty *)
  split.
  - intros Hin. exfalso. apply getLegalMoves_spec in Hin as [Hr Ho].
    destruct Hstone as (ox & oy & Hor & Hoo).
    destruct (empty_cell_next_to_stone b ox oy Hor Hoo
                (Z.to_nat (Z.max (Z.abs (ox - mx m)) (Z.abs (oy - my m))))
                (mx m) (my m) Hr Ho) as (x & y & Hr' & Ho' & Hn); [lia|].
    apply (proj2 (Hscan (mkMove x y))). split; [split|]; assumption.
  - intros H. exfalso. apply (proj2 (Hscan m)), H.
Qed.

Lemma getCandidateMoves_sorted b : StronglySorted rowMajor (getCandidateMoves b).
Proof.
  unfold getCandidateMoves.
  destruct (boundingBox b) as [[[[min_x max_x] min_y] max_y] found].
  destruct found; cbn [negb]; [|repeat constructor].
  match goal with |- context [match ?l with [] => _ | _ :: _ => _ end] =>
    assert (StronglySorted rowMajor l) as Hs end.
  { apply (scan_sorted (fun x y => negb (isOccupied b x y) && hasNeighbor b x y));
      apply seqZ_sorted. }
  destruct (flat_map _ _); [apply getLegalMoves_sorted | exact Hs].
Qed.

(** X3.  [getCandidateMoves] on a board that holds a stone lists exactly the
    empty cells with a stone on one of the eight cells around them, each
    once, in reading order.  The fall-back to all legal moves only fires
    when no cell is empty, and then gives the empty list. *)
Theorem getCandidateMoves_next_to_stones (b : Board) :
  (exists x y, inRange x y = true /\ isOccupied b x y = true) ->
  (forall m, In m (getCandidateMoves b) <->
             (inRange (mx m) (my m) = true /\
              isOccupied b (mx m) (my m) = false) /\
             nextToStone b (mx m) (my m)) /\
  StronglySorted rowMajor (getCandidateMoves b) /\
  List.NoDup (getCandidateMoves b).
Proof.
  intros Hstone. split; [intros m; apply getCandidateMoves_near_stones, Hstone|].
  split; [apply getCandidateMoves_sorted|].
  apply (sorted_NoDup rowMajor); [apply rowMajor_irrefl|].
  apply getCandidateMoves_sorted.
Qed.

Lemma getCandidateMoves_next_to_stones_witness :
  (forall m, In m (getCandidateMoves initialBoard) <->
             (inRange (mx m) (my m) = true /\
              isOccupied initialBoard (mx m) (my m) = false) /\
             nextToStone initialBoard (mx m) (my m)) /\
  StronglySorted rowMajor (getCandidateMoves initialBoard) /\
  List.NoDup (getCandidateMoves initialBoard).
Proof.
  apply getCandidateMoves_next_to_stones.
  exists 5, 5. split; vm_compute; reflexivity.
Defined.

(** X4.  [getCandidateMoves] answers [(5,5)] alone on a board without
    stones, only proposes legal moves, and is empty exactly when
    [getLegalMoves] is: the search has a candidate whenever a move can be
    played. *)
Theorem getCandidateMoves_covers_legal (b : Board) :
  ((forall x y, inRange x y = true -> isOccupied b x y = false) ->
   getCandidateMoves b = [mkMove 5 5]) /\
  (forall m, In m (getCandidateMoves b) -> In m (getLegalMoves b)) /\
  (getCandidateMoves b = [] <-> getLegalMoves b = []).
Proof.
  split; [|split].
  - intros Hempty. unfold getCandidateMoves.
    destruct (boundingBox b) as [[[[min_x max_x] min_y] max_y] found] eqn:Ebox.
    destruct found; [|reflexivity].
    assert (snd (boundingBox b) = true) as Hf by (rewrite Ebox; reflexivity).
    apply boundingBox_found_iff in Hf as (x & y & Hr & Ho).
    rewrite (Hempty x y Hr) in Ho. discriminate.
  - intros m H. apply getLegalMoves_spec, getCandidateMoves_playable, H.
  - split; [apply getCandidateMoves_nil|].
    intros Hnil.
    destruct (getCandidateMoves b) as [|m ms] eqn:Ec; [reflexivity|].
    assert (In m (getLegalMoves b)) as Hin.
    { apply getLegalMoves_spec, getCandidateMoves_playable. rewrite Ec. left.
      reflexivity. }
    rewrite Hnil in Hin. destruct Hin.
Qed.

#[global] Opaque getCandidateMoves getLegalMoves.

(** ** [countStones]: Kernighan's loop counts the bits of a word *)

Lemma bitsBelow_step n w :
  0 <= n ->
  bitsBelow (Z.succ n) w =
  ((if Z.odd w then 1 else 0) + bitsBelow n (w / 2))%nat.
Proof.
  intros Hn. unfold bitsBelow. rewrite seqZ_cons by lia.
  rewrite Z.pred_succ. cbn [List.filter]. rewrite Z.bit0_odd.
  change (Z.succ 0) with (1 + 0). rewrite <- fmap_add_seqZ.
  change (Z.add 1 <$> seqZ 0 n) with (map (Z.add 1) (seqZ 0 n)).
  assert (List.length (List.filter (Z.testbit w) (map (Z.add 1) (seqZ 0 n))) =
          List.length (List.filter (Z.testbit (w / 2)) (seqZ 0 n))) as E.
  { rewrite filter_map_length. f_equal. apply filter_ext_in.
    intros i Hi. apply seqZ_In in Hi.
    rewrite Z.div2_bits by lia. f_equal. lia. }
  destruct (Z.odd w); cbn [List.length]; rewrite E; reflexivity.
Qed.

Lemma bitsBelow_zero n : bitsBelow n 0 = 0%nat.
Proof.
  unfold bitsBelow. induction (seqZ 0 n) as [|i l IH]; [reflexivity|].
  cbn [List.filter]. rewrite Z.bits_0. exact IH.
Qed.

Lemma bitsBelow_le n w : 0 <= n -> (bitsBelow n w <= Z.to_nat n)%nat.
Proof.
  intros Hn. unfold bitsBelow.
  etransitivity; [apply List.filter_length_le|]. rewrite length_seqZ. lia.
Qed.

(** [x & (x - 1)] on an odd and on an even word. *)
Lemma clear_lowest_odd a : Z.land (2 * a + 1) (2 * a + 1 - 1) = 2 * a.
Proof.
  replace (2 * a + 1 - 1) with (2 * a) by lia.
  apply Z.bits_inj'. intros i Hi. rewrite Z.land_spec.
  destruct (Z.eq_dec i 0) as [->|Hne].
  - rewrite Z.testbit_odd_0, Z.testbit_even_0. reflexivity.
  - replace i with (Z.succ (i - 1)) by lia.
    rewrite Z.testbit_odd_succ, Z.testbit_even_succ by lia.
    apply andb_diag.
Qed.

Lemma clear_lowest_even a : Z.land (2 * a) (2 * a - 1) = 2 * Z.land a (a - 1).
Proof.
  replace (2 * a - 1) with (2 * (a - 1) + 1) by lia.
  apply Z.bits_inj'. intros i Hi. rewrite Z.land_spec.
  destruct (Z.eq_dec i 0) as [->|Hne].
  - rewrite !Z.testbit_even_0. reflexivity.
  - replace i with (Z.succ (i - 1)) by lia.
    rewrite Z.testbit_odd_succ, !Z.testbit_even_succ, Z.land_spec by lia.
    reflexivity.
Qed.

(** One round of Kernighan's loop clears exactly one bit. *)
Lemma clear_lowest_bits (n : nat) : forall w,
  0 < w < 2 ^ Z.of_nat n ->
  (bitsBelow (Z.of_nat n) (Z.land w (w - 1)) + 1)%nat = bitsBelow (Z.of_nat n) w.
Proof.
  induction n as [|n IH]; intros w Hw.
  { cbn in Hw. lia. }
  rewrite Nat2Z.inj_succ in *. rewrite Z.pow_succ_r in Hw by lia.
  rewrite !bitsBelow_step by lia.
  destruct (Z.Even_or_Odd w) as [[a ->]|[a ->]].
  - rewrite clear_lowest_even.
    rewrite !Z.odd_mul, !(Z.mul_comm 2), !Z.div_mul by lia.
    cbn [Z.odd orb andb Nat.add]. apply IH. lia.
  - rewrite clear_lowest_odd.
    replace (Z.odd (2 * a + 1)) with true
      by (symmetry; rewrite Z.odd_add, Z.odd_mul; reflexivity).
    replace ((2 * a + 1) / 2) with a
      by (apply Z.div_unique with (r := 1); lia).
    rewrite Z.odd_mul, (Z.mul_comm 2), Z.div_mul by lia.
    cbn [Z.odd orb andb Nat.add]. lia.
Qed.

Lemma land_pred_range n w :
  0 <= n -> 0 < w < 2 ^ n -> 0 <= Z.land w (w - 1) < 2 ^ n.
Proof.
  intros Hn Hw.
  assert (0 <= Z.land w (w - 1)) as H0 by (apply Z.land_nonneg; lia).
  split; [exact H0|].
  destruct (Z.eq_dec (Z.land w (w - 1)) 0) as [->|Hne]; [lia|].
  apply Z.log2_lt_pow2; [lia|].
  pose proof (Z.log2_land w (w - 1) ltac:(lia) ltac:(lia)).
  assert (Z.log2 w < n) by (apply Z.log2_lt_pow2; lia). lia.
Qed.

Lemma popcount64_spec (n : nat) : forall (fuel : nat) w cnt,
  0 <= w < 2 ^ Z.of_nat n ->
  (bitsBelow (Z.of_nat n) w <= fuel)%nat ->
  popcount64 fuel w cnt = cnt + Z.of_nat (bitsBelow (Z.of_nat n) w).
Proof.
  induction fuel as [|fuel IH]; intros w cnt Hw Hf; cbn [popcount64].
  - lia.
  - destruct (Z.eqb_spec w 0) as [->|Hne].
    + rewrite bitsBelow_zero. lia.
    + pose proof (clear_lowest_bits n w ltac:(lia)) as Hc.
      rewrite IH; [lia | apply land_pred_range; lia | lia].
Qed.

Lemma popcount64_word w :
  0 <= w < 2 ^ 64 -> popcount64 64 w 0 = Z.of_nat (bitsBelow 64 w).
Proof.
  intros Hw. pose proof (popcount64_spec 64 64 w 0) as H.
  change (Z.of_nat 64) with 64 in H.
  rewrite H; [lia | exact Hw | apply (bitsBelow_le 64); lia].
Qed.

(** ** The words of a board in play *)

Lemma lor_bit_range n w k :
  0 <= w < 2 ^ n -> 0 <= k < n -> 0 <= Z.lor w (Z.shiftl 1 k) < 2 ^ n.
Proof.
  intros Hw Hk. rewrite Z.shiftl_1_l.
  assert (0 < 2 ^ k) as Hp by (apply Z.pow_pos_nonneg; lia).
  assert (0 <= Z.lor w (2 ^ k)) as H0 by (apply Z.lor_nonneg; lia).
  split; [exact H0|].
  destruct (Z.eq_dec (Z.lor w (2 ^ k)) 0) as [->|Hne].
  { apply Z.pow_pos_nonneg; lia. }
  apply Z.log2_lt_pow2; [lia|].
  rewrite Z.log2_lor, Z.log2_pow2 by lia.
  destruct (Z.eq_dec w 0) as [->|Hw0]; [cbn; lia|].
  assert (Z.log2 w < n) by (apply Z.log2_lt_pow2; lia). lia.
Qed.

Lemma initialBoard_wordsOK : wordsOK initialBoard.
Proof.
  intros p c Hc.
  assert (c = 0 \/ c = 1 \/ c = 2) as [->|[->| ->]] by lia;
    destruct p; vm_compute; repeat split; congruence.
Qed.

Lemma bb_placed b x y p c :
  bb (placed b x y) p c =
  bb (setbb b (side_to_move b) (chunkOf (index x y))
            (Z.lor (bb b (side_to_move b) (chunkOf (index x y))) (cellMask x y)))
     p c.
Proof. unfold placed. destruct p; reflexivity. Qed.

Lemma placed_wordsOK b x y :
  inRange x y = true -> wordsOK b -> wordsOK (placed b x y).
Proof.
  intros Hr Hw p c Hc. rewrite bb_placed.
  pose proof (chunkOf_range x y Hr) as Hc0.
  pose proof (offsetOf_range (index x y)) as Ho.
  pose proof (index_split x y) as Hs.
  apply inRange_iff in Hr. unfold index in Hs at 1.
  destruct (Player_eq_dec p (side_to_move b)) as [->|Hp].
  - destruct (Z.eq_dec c (chunkOf (index x y))) as [->|Hne].
    + rewrite bb_setbb. unfold cellMask.
      destruct (Hw (side_to_move b) _ Hc0) as [H64 H16]. split.
      * apply lor_bit_range; lia.
      * intros E. apply (lor_bit_range 16); [specialize (H16 E)|]; lia.
    + rewrite bb_setbb_ne by (auto; lia). apply Hw, Hc.
  - assert (p = other (side_to_move b)) as ->
      by (destruct p, (side_to_move b); cbn; congruence).
    rewrite bb_setbb_other. apply Hw, Hc.
Qed.

Lemma played_wordsOK b ms : played b ms -> wordsOK b.
Proof.
  induction 1; [apply initialBoard_wordsOK | apply placed_wordsOK; assumption].
Qed.

(** ** Bits and cells *)

Lemma allCells_indices :
  map (fun c => index (fst c) (snd c)) allCells = seqZ 0 144.
Proof. vm_compute. reflexivity. Qed.

Lemma word_of_index :
  Forall (fun i => chunkOf i = 0 /\ offsetOf i = i) (seqZ 0 64) /\
  Forall (fun i => chunkOf (64 + i) = 1 /\ offsetOf (64 + i) = i) (seqZ 0 64) /\
  Forall (fun i => chunkOf (128 + i) = 2 /\ offsetOf (128 + i) = i) (seqZ 0 16).
Proof.
  repeat split; apply (bool_decide_unpack _); vm_compute; exact I.
Qed.

Lemma filter_none {A} (f : A -> bool) l :
  (forall a, In a l -> f a = false) -> List.filter f l = [].
Proof.
  induction l as [|a l IH]; intros H; [reflexivity|].
  cbn [List.filter]. rewrite (H a) by (left; reflexivity).
  apply IH. intros a' Ha. apply H. right. exact Ha.
Qed.

Lemma bitsBelow_high w :
  0 <= w < 2 ^ 16 -> bitsBelow 64 w = bitsBelow 16 w.
Proof.
  intros Hw. unfold bitsBelow.
  change 64 with (16 + 48). rewrite seqZ_app by lia.
  rewrite List.filter_app, length_app.
  rewrite (filter_none _ (seqZ (0 + 16) 48)); [apply Nat.add_0_r|].
  intros i Hi. apply seqZ_In in Hi.
  rewrite <- (Z.mod_small w (2 ^ 16)) by exact Hw.
  apply Z.mod_pow2_bits_high. lia.
Qed.

Lemma filter_length_ext {A} (f g : A -> bool) l :
  (forall a, In a l -> f a = g a) ->
  List.length (List.filter f l) = List.length (List.filter g l).
Proof. intros H. rewrite (filter_ext_in f g l H). reflexivity. Qed.

(** The bits of the three words of a bitboard are the stones on the cells. *)
Lemma stones_by_words b p :
  wordsOK b ->
  Z.of_nat (List.length
    (List.filter (fun c => hasStone b p (fst c) (snd c)) allCells)) =
  countStones b p.
Proof.
  intros Hw.
  destruct (Hw p 0 ltac:(lia)) as [H0 _], (Hw p 1 ltac:(lia)) as [H1 _],
    (Hw p 2 ltac:(lia)) as [H2 H16]. specialize (H16 eq_refl).
  unfold countStones. cbn [fold_left].
  rewrite !popcount64_word by assumption.
  rewrite (bitsBelow_high (bb b p 2)) by lia.
  rewrite (filter_length_ext _
             (fun c => (fun i => Z.testbit (bb b p (chunkOf i)) (offsetOf i))
                         (index (fst c) (snd c))))
    by (intros c _; apply hasStone_testbit).
  rewrite <- (filter_map_length
                (fun i => Z.testbit (bb b p (chunkOf i)) (offsetOf i))
                (fun c => index (fst c) (snd c))).
  rewrite allCells_indices.
  set (g := fun i => Z.testbit (bb b p (chunkOf i)) (offsetOf i)).
  destruct word_of_index as (W0 & W1 & W2).
  rewrite Forall_forall in W0, W1, W2.
  assert (List.length (List.filter g (seqZ 0 64)) = bitsBelow 64 (bb b p 0)) as E0.
  { apply filter_length_ext. intros i Hi. unfold g.
    apply list_elem_of_In, W0 in Hi as [-> ->]. reflexivity. }
  assert (List.length (List.filter g (map (Z.add 64) (seqZ 0 64))) =
          bitsBelow 64 (bb b p 1)) as E1.
  { rewrite filter_map_length. apply filter_length_ext. intros i Hi. unfold g.
    apply list_elem_of_In, W1 in Hi as [-> ->]. reflexivity. }
  assert (List.length (List.filter g (map (Z.add 128) (seqZ 0 16))) =
          bitsBelow 16 (bb b p 2)) as E2.
  { rewrite filter_map_length. apply filter_length_ext. intros i Hi. unfold g.
    apply list_elem_of_In, W2 in Hi as [-> ->]. reflexivity. }
  change 144 with (64 + (64 + 16)). rewrite !seqZ_app by lia.
  rewrite !List.filter_app, !length_app.
  change (0 + 64) with (64 + 0). change (64 + 0 + 64) with (128 + 0).
  rewrite <- !fmap_add_seqZ.
  change (Z.add 64 <$> seqZ 0 64) with (map (Z.add 64) (seqZ 0 64)).
  change (Z.add 128 <$> seqZ 0 16) with (map (Z.add 128) (seqZ 0 16)).
  rewrite E0, E1, E2. lia.
Qed.

Lemma state_is_stone b p c :
  disjoint b -> inRange (fst c) (snd c) = true ->
  (getCellState b (fst c) (snd c) =? stateOf p) = hasStone b p (fst c) (snd c).
Proof.
  intros Hd Hr. specialize (Hd _ _ Hr). rewrite getCellState_bits by exact Hr.
  destruct p, (hasStone b Black (fst c) (snd c)),
    (hasStone b White (fst c) (snd c)); cbn in Hd |- *;
    first [reflexivity | discriminate].
Qed.

Lemma stonesOf_words b p :
  disjoint b -> wordsOK b -> countStones b p = stonesOf b p.
Proof.
  intros Hd Hw. rewrite <- stones_by_words by exact Hw.
  unfold stonesOf, countState. f_equal. apply filter_length_ext.
  intros c Hc. symmetry. apply state_is_stone; [exact Hd|].
  apply allCells_spec, list_elem_of_In, Hc.
Qed.

(** X5.  Kernighan's loop in [countStones] returns the number of bits set
    in a 64-bit word; and on a board reached in play [countStones] is the
    number of cells of the board whose state is that of the player's
    stones. *)
Theorem countStones_counts_cells :
  (forall w, 0 <= w < 2 ^ 64 ->
     popcount64 64 w 0 =
     Z.of_nat (List.length (List.filter (Z.testbit w) (seqZ 0 64)))) /\
  (forall b ms p,
     reachable b ms ->
     countStones b p =
     Z.of_nat (List.length
       (List.filter (fun c => getCellState b (fst c) (snd c) =? playerIndex p + 1)
                    allCells))).
Proof.
  split; [intros w Hw; rewrite popcount64_word by exact Hw; reflexivity|].
  intros b ms p Hreach. apply reachable_played in Hreach.
  apply stonesOf_words; [eapply played_disjoint | eapply played_wordsOK]; eassumption.
Qed.

Lemma countStones_examples :
  popcount64 64 0 0 = 0 /\ popcount64 64 (2 ^ 64 - 1) 0 = 64 /\
  countStones afterOpening Black = 3 /\ countStones afterOpening White = 2.
Proof. repeat split; vm_compute; reflexivity. Qed.

(** Changing a test at one element of a list without repetition. *)
Lemma filter_length_gain {A} (f g : A -> bool) (l : list A) (a : A) :
  List.NoDup l -> In a l -> f a = false -> g a = true ->
  (forall c, In c l -> c <> a -> g c = f c) ->
  List.length (List.filter g l) = S (List.length (List.filter f l)).
Proof.
  intros Hnd. induction Hnd as [|c l Hc Hnd IH]; intros Hin Hf Hg Hrest;
    [destruct Hin|].
  cbn [List.filter]. destruct Hin as [->|Hin].
  - rewrite Hf, Hg. cbn [List.length]. f_equal. apply filter_length_ext.
    intros c Hcl. apply Hrest; [right; exact Hcl|]. intros ->. contradiction.
  - rewrite (Hrest c) by (try (left; reflexivity); intros ->; contradiction).
    assert (List.length (List.filter g l) = S (List.length (List.filter f l))) as E.
    { apply IH; try assumption. intros c' Hc' Hne. apply Hrest; [right|]; assumption. }
    destruct (f c); cbn [List.length]; rewrite E; reflexivity.
Qed.

Lemma allCells_NoDup_list : List.NoDup allCells.
Proof. apply NoDup_ListNoDup, allCells_NoDup. Qed.

Lemma stonesOf_placed b x y p :
  inRange x y = true -> isOccupied b x y = false ->
  stonesOf (placed b x y) p =
  stonesOf b p + (if Player_eqb p (side_to_move b) then 1 else 0).
Proof.
  intros Hr Ho. unfold stonesOf, countState.
  pose proof (isOccupied_false_state b x y Ho) as Hs0.
  pose proof (getCellState_placed_same b x y Hr Ho) as Hs1.
  destruct (Player_eqb p (side_to_move b)) eqn:Ep.
  - assert (p = side_to_move b) as -> by (destruct p, (side_to_move b); cbn in Ep; congruence).
    rewrite (filter_length_gain
               (fun c => getCellState b (fst c) (snd c) =? stateOf (side_to_move b))
               _ allCells (x, y)); [lia | apply allCells_NoDup_list | | | |].
    + apply list_elem_of_In, allCells_spec. exact Hr.
    + cbn [fst snd]. rewrite Hs0. destruct (side_to_move b); reflexivity.
    + cbn [fst snd]. rewrite Hs1. apply Z.eqb_refl.
    + intros [cx cy] _ Hne. cbn [fst snd].
      rewrite getCellState_placed_other by assumption. reflexivity.
  - rewrite Z.add_0_r. f_equal. apply filter_length_ext. intros [cx cy] _.
    cbn [fst snd]. destruct (decide ((cx, cy) = (x, y))) as [E|Hne].
    + inversion E; subst. rewrite Hs0, Hs1.
      destruct p, (side_to_move b); cbn in Ep; try discriminate; reflexivity.
    + rewrite getCellState_placed_other by assumption. reflexivity.
Qed.

Lemma scan_as_filter (P : Z -> Z -> bool) xs ys :
  flat_map (fun y => flat_map (fun x => if P x y then [mkMove x y] else []) xs) ys =
  map (fun c => mkMove (fst c) (snd c))
      (List.filter (fun c => P (fst c) (snd c))
         (flat_map (fun y => map (fun x => (x, y)) xs) ys)).
Proof.
  induction ys as [|y ys IH]; [reflexivity|].
  cbn [flat_map]. rewrite List.filter_app, map_app, IH. f_equal.
  clear IH. induction xs as [|x xs IH]; [reflexivity|].
  cbn [flat_map map List.filter fst snd]. destruct (P x y); cbn; rewrite IH; reflexivity.
Qed.

Lemma states_partition b (l : list (Z * Z)) :
  (forall c, In c l -> inRange (fst c) (snd c) = true) ->
  Z.of_nat (List.length l) =
  countState b l 0 + countState b l 1 + countState b l 2.
Proof.
  unfold countState. induction l as [|c l IH]; intros Hl; [reflexivity|].
  cbn [List.filter].
  destruct (getCellState_range b (fst c) (snd c)) as [E|[E|E]];
    [apply Hl; left; reflexivity|..]; rewrite E; cbn [Z.eqb Pos.eqb];
    cbn [List.length]; rewrite !Nat2Z.inj_succ, IH;
    try lia; intros c' Hc'; apply Hl; right; exact Hc'.
Qed.

#[local] Transparent getLegalMoves.

Lemma legal_count b :
  Z.of_nat (List.length (getLegalMoves b)) + stonesOf b Black + stonesOf b White
  = 144.
Proof.
  unfold getLegalMoves.
  rewrite (scan_as_filter (fun x y => negb (isOccupied b x y))).
  fold allCells. rewrite length_map.
  rewrite (filter_length_ext _ (fun c => getCellState b (fst c) (snd c) =? 0)).
  2:{ intros c _. rewrite isOccupied_state. apply negb_involutive. }
  pose proof (states_partition b allCells) as H.
  change (Z.of_nat (List.length allCells)) with 144 in H.
  unfold stonesOf. change (stateOf Black) with 1. change (stateOf White) with 2.
  unfold countState in *. rewrite H; [lia|].
  intros c Hc. apply allCells_spec, list_elem_of_In, Hc.
Qed.

#[global] Opaque getLegalMoves.

Lemma played_counts b ms :
  played b ms ->
  stonesOf b Black + stonesOf b White = 4 + Z.of_nat (List.length ms) /\
  stonesOf b Black =
    stonesOf b White + (if Player_eqb (side_to_move b) Black then 0 else 1).
Proof.
  induction 1 as [|b ms x y Hp [IH1 IH2] Hr Ho].
  - split; vm_compute; reflexivity.
  - rewrite !stonesOf_placed by assumption.
    cbn [List.length]. rewrite Nat2Z.inj_succ.
    change (side_to_move (placed b x y)) with (other (side_to_move b)).
    destruct (side_to_move b); cbn in *; lia.
Qed.

(** X6.  On a board reached in play with [n] moves made and not undone,
    the two sides have 4 + n stones together, Black has as many stones as
    White when Black is to move and one more when White is to move, and
    [getLegalMoves] has 140 - n moves. *)
Theorem stones_follow_the_moves (b : Board) (ms : list (Z * Z)) :
  reachable b ms ->
  countStones b Black + countStones b White = 4 + Z.of_nat (List.length ms) /\
  (sideToMove b = Black -> countStones b Black = countStones b White) /\
  (sideToMove b = White -> countStones b Black = countStones b White + 1) /\
  Z.of_nat (List.length (getLegalMoves b)) = 140 - Z.of_nat (List.length ms).
Proof.
  intros Hreach. apply reachable_played in Hreach.
  pose proof (played_disjoint _ _ Hreach) as Hd.
  pose proof (played_wordsOK _ _ Hreach) as Hw.
  rewrite !(stonesOf_words b) by assumption.
  destruct (played_counts b ms Hreach) as [H1 H2].
  pose proof (legal_count b) as H3. unfold sideToMove.
  split; [lia|]. split; [|split; [|lia]].
  - intros E. rewrite E in H2. cbn [Player_eqb] in H2. lia.
  - intros E. rewrite E in H2. cbn [Player_eqb] in H2. lia.
Qed.

Lemma stones_follow_the_moves_witness :
  countStones afterOpening Black + countStones afterOpening White
    = 4 + Z.of_nat (List.length [(7, 7)]) /\
  (sideToMove afterOpening = Black ->
   countStones afterOpening Black = countStones afterOpening White) /\
  (sideToMove afterOpening = White ->
   countStones afterOpening Black = countStones afterOpening White + 1) /\
  Z.of_nat (List.length (getLegalMoves afterOpening))
    = 140 - Z.of_nat (List.length [(7, 7)]).
Proof.
  apply (stones_follow_the_moves afterOpening [(7, 7)]).
  apply afterOpening_reachable.
Defined.

(** ** Wins persist when stones are added *)

Lemma hasStone_placed_keeps b x y p cx cy :
  inRange x y = true -> isOccupied b x y = false ->
  inRange cx cy = true -> hasStone b p cx cy = true ->
  hasStone (placed b x y) p cx cy = true.
Proof.
  intros Hr Ho Hc Hs.
  destruct (decide ((cx, cy) = (x, y))) as [E|Hne].
  - inversion E; subst.
    rewrite (isOccupied_false_stones b x y Hr Ho p) in Hs. discriminate.
  - rewrite hasStone_placed_other_cell by assumption. exact Hs.
Qed.

Lemma fiveInRow_placed b x y p :
  inRange x y = true -> isOccupied b x y = false ->
  fiveInRow b p -> fiveInRow (placed b x y) p.
Proof.
  intros Hr Ho (x0 & y0 & dx & dy & n & Hd & Hn & Hrow).
  exists x0, y0, dx, dy, n. split; [exact Hd|]. split; [exact Hn|].
  intros k Hk. destruct (Hrow k Hk) as [Hc Hs].
  split; [exact Hc|]. apply hasStone_placed_keeps; assumption.
Qed.

Lemma fiveInRow_placed_opponent b x y :
  fiveInRow (placed b x y) (other (side_to_move b)) <->
  fiveInRow b (other (side_to_move b)).
Proof.
  split; intros (x0 & y0 & dx & dy & n & Hd & Hn & Hrow);
    exists x0, y0, dx, dy, n; (split; [exact Hd|]); (split; [exact Hn|]);
    intros k Hk; destruct (Hrow k Hk) as [Hc Hs]; (split; [exact Hc|]);
    rewrite hasStone_placed_other_player in *; exact Hs.
Qed.

(** X7.  An accepted [makeMove] never takes a win away, and it leaves
    [checkWin] of the side that did not move as it was: only the mover can
    gain a row of five. *)
Theorem checkWin_after_makeMove (b : Board) (x y : Z) (b' : Board) :
  makeMove b x y = (true, b') ->
  (forall p, checkWin b p = true -> checkWin b' p = true) /\
  checkWin b' (other (sideToMove b)) = checkWin b (other (sideToMove b)).
Proof.
  intros Hm. apply makeMove_true_inv in Hm as (Hr & Ho & ->). split.
  - intros p Hw. apply checkWin_five. apply checkWin_five in Hw.
    apply fiveInRow_placed; assumption.
  - unfold sideToMove.
    pose proof (checkWin_five (placed b x y) (other (side_to_move b))) as H1.
    pose proof (checkWin_five b (other (side_to_move b))) as H2.
    pose proof (fiveInRow_placed_opponent b x y) as H3.
    destruct (checkWin (placed b x y) (other (side_to_move b))),
      (checkWin b (other (side_to_move b))); try reflexivity.
    + symmetry. apply H2, H3, H1. reflexivity.
    + apply H1, H3, H2. reflexivity.
Qed.

Lemma checkWin_after_makeMove_witness :
  (forall p, checkWin initialBoard p = true ->
             checkWin (placed initialBoard 0 0) p = true) /\
  checkWin (placed initialBoard 0 0) (other (sideToMove initialBoard)) =
  checkWin initialBoard (other (sideToMove initialBoard)).
Proof.
  apply (checkWin_after_makeMove initialBoard 0 0 (placed initialBoard 0 0)).
  apply makeMove_ok; vm_compute; reflexivity.
Defined.

(** ** The Zobrist numbers *)

Lemma zobristValues_facts :
  List.length zobristValues = 289%nat /\
  NoDup zobristValues /\
  Forall (fun v => 0 < v < 2 ^ 64) zobristValues.
Proof.
  split; [vm_compute; reflexivity|].
  split; apply (bool_decide_unpack _); vm_compute; exact I.
Qed.

Lemma zobrist_slot x y p :
  inRange x y = true ->
  (Z.to_nat ((y * 12 + x) * 2 + playerIndex p) < 288)%nat.
Proof. intros Hr. apply inRange_iff in Hr. destruct p; cbn [playerIndex]; lia. Qed.

#[local] Transparent zobristTable zobristSide.

Lemma zobristTable_range x y p :
  inRange x y = true -> 0 < zobristTable x y (playerIndex p) < 2 ^ 64.
Proof.
  intros Hr. destruct zobristValues_facts as (Hlen & _ & Hall).
  rewrite Forall_forall in Hall. apply Hall, list_elem_of_In, nth_In.
  pose proof (zobrist_slot x y p Hr). lia.
Qed.

Lemma zobristSide_range : 0 < zobristSide < 2 ^ 64.
Proof.
  destruct zobristValues_facts as (Hlen & _ & Hall).
  rewrite Forall_forall in Hall. apply Hall, list_elem_of_In, nth_In. lia.
Qed.

Lemma zobristTable_inj x y p x' y' p' :
  inRange x y = true -> inRange x' y' = true ->
  zobristTable x y (playerIndex p) = zobristTable x' y' (playerIndex p') ->
  x = x' /\ y = y' /\ p = p'.
Proof.
  intros Hr Hr' E. destruct zobristValues_facts as (Hlen & Hnd & _).
  apply NoDup_ListNoDup in Hnd.
  pose proof (zobrist_slot x y p Hr) as Hs.
  pose proof (zobrist_slot x' y' p' Hr') as Hs'.
  unfold zobristTable in E.
  apply (proj1 (List.NoDup_nth zobristValues 0) Hnd) in E; [|lia|lia].
  apply inRange_iff in Hr. apply inRange_iff in Hr'.
  destruct p, p'; cbn [playerIndex] in E; repeat split; lia.
Qed.

Lemma zobristTable_not_side x y p :
  inRange x y = true -> zobristTable x y (playerIndex p) <> zobristSide.
Proof.
  intros Hr E. destruct zobristValues_facts as (Hlen & Hnd & _).
  apply NoDup_ListNoDup in Hnd.
  pose proof (zobrist_slot x y p Hr) as Hs.
  unfold zobristTable, zobristSide in E.
  apply (proj1 (List.NoDup_nth zobristValues 0) Hnd) in E; lia.
Qed.

#[global] Opaque zobristTable zobristSide.

(** X8.  The numbers [initZobrist] draws are 64-bit words, not zero, and
    differ from one another: two different stones never share a table
    entry, and no entry equals the side marker. *)
Theorem zobrist_numbers_distinct :
  (forall x y p, inRange x y = true ->
     0 < zobristTable x y (playerIndex p) < 2 ^ 64 /\
     zobristTable x y (playerIndex p) <> zobristSide) /\
  0 < zobristSide < 2 ^ 64 /\
  (forall x y p x' y' p',
     inRange x y = true -> inRange x' y' = true ->
     zobristTable x y (playerIndex p) = zobristTable x' y' (playerIndex p') ->
     x = x' /\ y = y' /\ p = p').
Proof.
  split; [|split].
  - intros x y p Hr. split; [apply zobristTable_range | apply zobristTable_not_side];
      exact Hr.
  - apply zobristSide_range.
  - apply zobristTable_inj.
Qed.

Lemma lxor_range n a b :
  0 < n -> 0 <= a < 2 ^ n -> 0 <= b < 2 ^ n -> 0 <= Z.lxor a b < 2 ^ n.
Proof.
  intros Hn Ha Hb.
  assert (0 <= Z.lxor a b) as H0 by (apply Z.lxor_nonneg; lia).
  split; [exact H0|].
  destruct (Z.eq_dec (Z.lxor a b) 0) as [->|Hne]; [apply Z.pow_pos_nonneg; lia|].
  apply Z.log2_lt_pow2; [lia|].
  pose proof (Z.log2_lxor a b ltac:(lia) ltac:(lia)).
  assert (Z.log2 a < n).
  { destruct (Z.eq_dec a 0) as [->|]; [cbn; lia | apply Z.log2_lt_pow2; lia]. }
  assert (Z.log2 b < n).
  { destruct (Z.eq_dec b 0) as [->|]; [cbn; lia | apply Z.log2_lt_pow2; lia]. }
  lia.
Qed.

Lemma played_hash_range b ms : played b ms -> 0 <= hashKey b < 2 ^ 64.
Proof.
  induction 1 as [|b ms x y Hp IH Hr Ho].
  - vm_compute. split; congruence.
  - cbn [placed hashKey].
    pose proof (zobristTable_range x y (side_to_move b) Hr).
    pose proof zobristSide_range.
    apply lxor_range; [lia| |lia]. apply lxor_range; lia.
Qed.

(** X9.  On a board reached in play the hash key is a 64-bit word, and an
    accepted [makeMove] always changes it: the position after a move never
    has the key of the position before. *)
Theorem hash_changes_with_a_move (b : Board) (ms : list (Z * Z)) :
  reachable b ms ->
  0 <= getHashKey b < 2 ^ 64 /\
  (forall x y b', makeMove b x y = (true, b') -> getHashKey b' <> getHashKey b).
Proof.
  intros Hreach. apply reachable_played in Hreach.
  split; [apply (played_hash_range b ms Hreach)|].
  intros x y b' Hm. apply makeMove_true_inv in Hm as (Hr & Ho & ->).
  unfold getHashKey. cbn [placed hashKey]. intros E.
  rewrite Z.lxor_assoc in E.
  apply (f_equal (Z.lxor (hashKey b))) in E.
  rewrite <- Z.lxor_assoc, Z.lxor_nilpotent, Z.lxor_0_l in E.
  apply Z.lxor_eq in E. apply (zobristTable_not_side x y _ Hr E).
Qed.

Lemma hash_changes_with_a_move_witness :
  0 <= getHashKey afterOpening < 2 ^ 64 /\
  (forall x y b', makeMove afterOpening x y = (true, b') ->
                  getHashKey b' <> getHashKey afterOpening).
Proof.
  apply (hash_changes_with_a_move afterOpening [(7, 7)]).
  apply afterOpening_reachable.
Defined.

(** ** [unmakeMove] does not check what it undoes *)

Lemma clear_unset_bit w n :
  0 <= n -> Z.testbit w n = false ->
  Z.land w (Z.lnot (Z.shiftl 1 n)) = w.
Proof.
  intros Hn Hb. apply Z.bits_inj'. intros k Hk.
  rewrite Z.land_spec, Z.lnot_spec, testbit_bit by lia.
  destruct (Z.eqb_spec n k) as [->|]; cbn [negb].
  - rewrite Hb. reflexivity.
  - apply andb_true_r.
Qed.

Lemma setbb_same b p c : setbb b p c (bb b p c) = b.
Proof.
  destruct b as [cb cw h s]. destruct p; cbn [setbb bb bbBlack bbWhite hashKey
    side_to_move]; rewrite setChunk_chunk; reflexivity.
Qed.

Lemma zobristOf_other cells p :
  zobristOf cells (other p) = Z.lxor (zobristOf cells p) zobristSide.
Proof. unfold zobristOf. rewrite sideKey_other. apply key_side. Qed.

Lemma unmakeMove_no_stone b x y :
  hasStone b (other (side_to_move b)) x y = false ->
  unmakeMove b x y =
  (true,
   mkBoard (bbBlack b) (bbWhite b)
     (Z.lxor (Z.lxor (hashKey b) zobristSide)
             (zobristTable x y (playerIndex (other (side_to_move b)))))
     (other (side_to_move b))).
Proof.
  intros Hs. rewrite hasStone_testbit in Hs.
  pose proof (offsetOf_range (index x y)) as Ho.
  unfold unmakeMove. cbv zeta.
  cbn [setSide setHash side_to_move hashKey].
  f_equal.
  match goal with
  | |- context [setbb ?b0 ?p ?c (Z.land ?w _)] =>
      change w with (bb b p c); change (setbb b0 p c) with
        (setbb (mkBoard (bbBlack b) (bbWhite b) (Z.lxor (hashKey b) zobristSide)
                        (other (side_to_move b))) p c)
  end.
  rewrite clear_unset_bit by (try lia; exact Hs).
  destruct b as [cb cw h s]. destruct s;
    cbn [other setbb bb bbBlack bbWhite hashKey side_to_move setHash];
    rewrite setChunk_chunk; reflexivity.
Qed.

(** X29.  [unmakeMove] never refuses and does not look at the cell it is
    given: on a board reached in play, called on a cell of the board that
    does not hold a stone of the side that moved last, it leaves every cell
    as it is, yet it passes the turn and changes the hash key, which is then
    no longer the key of the position. *)
Theorem unmakeMove_does_not_check (b : Board) (ms : list (Z * Z)) (x y : Z) :
  reachable b ms -> inRange x y = true ->
  getCellState b x y <> playerIndex (other (sideToMove b)) + 1 ->
  exists b',
    unmakeMove b x y = (true, b') /\
    (forall cx cy, getCellState b' cx cy = getCellState b cx cy) /\
    sideToMove b' = other (sideToMove b) /\
    getHashKey b' <> zobristOf (getCellState b') (sideToMove b').
Proof.
  intros Hreach Hr Hstate. apply reachable_played in Hreach.
  pose proof (played_disjoint _ _ Hreach) as Hd.
  pose proof (played_hashOK _ _ Hreach) as Hh.
  assert (hasStone b (other (side_to_move b)) x y = false) as Hs.
  { destruct (hasStone b (other (side_to_move b)) x y) eqn:E; [|reflexivity].
    exfalso. apply Hstate. apply (hasStone_state b _ x y Hd). auto. }
  eexists. split; [apply unmakeMove_no_stone, Hs|].
  split; [intros cx cy; reflexivity|]. split; [reflexivity|].
  unfold getHashKey, sideToMove. cbn [hashKey side_to_move].
  change (getCellState (mkBoard (bbBlack b) (bbWhite b) _ _))
    with (getCellState b).
  rewrite zobristOf_other. unfold hashOK in Hh. rewrite <- Hh.
  intros E.
  pose proof (zobristTable_range x y (other (side_to_move b)) Hr) as Ht.
  apply (f_equal (Z.lxor (Z.lxor (hashKey b) zobristSide))) in E.
  rewrite <- Z.lxor_assoc, !Z.lxor_nilpotent, Z.lxor_0_l in E. lia.
Qed.

Lemma unmakeMove_does_not_check_witness :
  exists b',
    unmakeMove initialBoard 0 0 = (true, b') /\
    (forall cx cy, getCellState b' cx cy = getCellState initialBoard cx cy) /\
    sideToMove b' = other (sideToMove initialBoard) /\
    getHashKey b' <> zobristOf (getCellState b') (sideToMove b').
Proof.
  apply (unmakeMove_does_not_check initialBoard [] 0 0).
  - apply reach_init.
  - reflexivity.
  - vm_compute. discriminate.
Defined.

(** * Further properties of [HistoryHeuristic] and [ThreatSolver] *)

Lemma slot_inj m m' :
  inRange (mx m) (my m) = true -> inRange (mx m') (my m') = true ->
  HistoryHeuristic.slot m = HistoryHeuristic.slot m' -> m = m'.
Proof.
  intros Hr Hr' E. apply inRange_iff in Hr. apply inRange_iff in Hr'.
  unfold HistoryHeuristic.slot in E. destruct m as [x y], m' as [x' y'].
  cbn [mx my] in *. f_equal; lia.
Qed.

Lemma slot_range m :
  inRange (mx m) (my m) = true -> (HistoryHeuristic.slot m < 144)%nat.
Proof.
  intros Hr. apply inRange_iff in Hr. unfold HistoryHeuristic.slot. lia.
Qed.

(** X10.  The history table: every score is 0 after [reset].  [increment]
    adds depth * depth to the score of the move it is given, in [int]
    arithmetic: the new score is the sum reduced modulo 2^32 into the range
    of [int], and it is the sum itself whenever the sum and depth * depth
    are in that range; thus from depth 46341 on the bonus wraps, and at
    depth 50000 a score of 0 becomes -1794967296.  [increment] leaves the
    scores of the other moves and the size of the table as they are; for a
    move off the board it does nothing and [get] answers 0. *)
Theorem history_increment_get :
  (forall m, HistoryHeuristic.get HistoryHeuristic.reset m = 0) /\
  List.length HistoryHeuristic.reset = 144%nat /\
  (forall table m depth,
     List.length (HistoryHeuristic.increment table m depth) = List.length table) /\
  (forall table m depth,
     List.length table = 144%nat -> inRange (mx m) (my m) = true ->
     let old := HistoryHeuristic.get table m in
     let new := HistoryHeuristic.get (HistoryHeuristic.increment table m depth) m in
     new = wrapInt (old + wrapInt (depth * depth)) /\
     INT_MIN <= new <= INT_MAX /\
     (exists k, new = old + depth * depth + k * 4294967296) /\
     (depth * depth <= INT_MAX -> INT_MIN <= old + depth * depth <= INT_MAX ->
      new = old + depth * depth)) /\
  HistoryHeuristic.get
    (HistoryHeuristic.increment HistoryHeuristic.reset (mkMove 0 0) 50000)
    (mkMove 0 0) = -1794967296 /\
  (forall table m depth m',
     m' <> m ->
     HistoryHeuristic.get (HistoryHeuristic.increment table m depth) m' =
     HistoryHeuristic.get table m') /\
  (forall table m depth,
     inRange (mx m) (my m) = false ->
     HistoryHeuristic.increment table m depth = table /\
     HistoryHeuristic.get table m = 0).
Proof.
  split; [|split; [|split; [|split; [|split; [|split]]]]].
  - intros m. unfold HistoryHeuristic.get, HistoryHeuristic.reset.
    destruct (inRange (mx m) (my m)) eqn:Hr; [|reflexivity].
    rewrite nth_lookup, lookup_replicate_2; [reflexivity|].
    apply slot_range, Hr.
  - reflexivity.
  - intros table m depth. unfold HistoryHeuristic.increment.
    destruct (inRange (mx m) (my m)); [apply length_insert | reflexivity].
  - intros table m depth Hlen Hr old new.
    assert (new = wrapInt (old + wrapInt (depth * depth))) as E.
    { subst old new.
      unfold HistoryHeuristic.get, HistoryHeuristic.increment. rewrite Hr.
      cbv zeta. rewrite !nth_lookup.
      rewrite list_lookup_insert_eq; [reflexivity|].
      rewrite Hlen. apply slot_range, Hr. }
    rewrite E. split; [reflexivity|]. split; [apply wrapInt_range|].
    rewrite wrapInt_add_r. split; [|intros _ Hsum; apply wrapInt_small, Hsum].
    destruct (wrapInt_modulo (old + depth * depth)) as [k Ek]. exists k. exact Ek.
  - vm_compute. reflexivity.
  - intros table m depth m' Hne.
    unfold HistoryHeuristic.get, HistoryHeuristic.increment.
    destruct (inRange (mx m') (my m')) eqn:Hr'; [|reflexivity].
    destruct (inRange (mx m) (my m)) eqn:Hr; [|reflexivity].
    cbv zeta. rewrite !nth_lookup.
    rewrite list_lookup_insert_ne; [reflexivity|].
    intros E. apply Hne. symmetry. apply slot_inj; assumption.
  - intros table m depth Hr.
    unfold HistoryHeuristic.get, HistoryHeuristic.increment. rewrite Hr. auto.
Qed.

(** X11.  [addMoveIfStronger] keeps for a cell of the board the largest
    severity it was given: after the call the cell holds the maximum of its
    former severity and the new one.  The other cells keep theirs, and a
    cell off the board changes nothing. *)
Theorem addMoveIfStronger_keeps_maximum (x y sev : Z) (best : gmap Z Z) :
  (inRange x y = false -> addMoveIfStronger x y sev best = best) /\
  (inRange x y = true ->
   addMoveIfStronger x y sev best !! coordKey x y =
   Some (match best !! coordKey x y with
         | Some old => Z.max old sev
         | None => sev
         end)) /\
  (forall x' y', inRange x' y' = true -> (x', y') <> (x, y) ->
     addMoveIfStronger x y sev best !! coordKey x' y' = best !! coordKey x' y').
Proof.
  split; [|split].
  - intros Hr. unfold addMoveIfStronger. rewrite Hr. reflexivity.
  - intros Hr. apply (addCall_same best (x, y, sev)). exact Hr.
  - intros x' y' Hr' Hne.
    destruct (inRange x y) eqn:Hr.
    + apply (addCall_other best (x, y, sev)). cbn [fst snd]. intros E.
      apply coordKey_inj in E as [-> ->]; [congruence | exact Hr | exact Hr'].
    + unfold addMoveIfStronger. rewrite Hr. reflexivity.
Qed.

(** X12.  [coordKey] and the decoding [findBlockingMoves] applies to the
    keys of its table ([key / 12], [key % 12]) are inverse on the board, and
    two cells of the board never share a key. *)
Theorem coordKey_round_trip :
  (forall x y, inRange x y = true ->
     Z.rem (coordKey x y) 12 = x /\ Z.quot (coordKey x y) 12 = y /\
     0 <= coordKey x y < 144) /\
  (forall key, 0 <= key < 144 ->
     inRange (Z.rem key 12) (Z.quot key 12) = true /\
     coordKey (Z.rem key 12) (Z.quot key 12) = key) /\
  (forall x y x' y', inRange x y = true -> inRange x' y' = true ->
     coordKey x y = coordKey x' y' -> x = x' /\ y = y').
Proof.
  split; [|split].
  - intros x y Hr. destruct (decode_coordKey x y Hr) as [E1 E2].
    split; [exact E1|]. split; [exact E2|].
    apply inRange_iff in Hr. unfold coordKey. lia.
  - intros key Hk. rewrite Z.rem_mod_nonneg, Z.quot_div_nonneg by lia.
    pose proof (Z.div_mod key 12 ltac:(lia)).
    pose proof (Z.mod_pos_bound key 12 ltac:(lia)).
    assert (0 <= key / 12 < 12).
    { split; [apply Z.div_pos; lia | apply Z.div_lt_upper_bound; lia]. }
    split; [apply inRange_iff; lia | unfold coordKey; lia].
  - apply coordKey_inj.
Qed.

(** X13.  The grid of [buildGrid] holds 1 on the attacker's stones, -1 on
    the defender's and 0 on the empty cells, and exchanging the roles of the
    two sides negates it. *)
Theorem buildGrid_roles (b : Board) (defender : Player) (x y : Z) :
  inRange x y = true ->
  (buildGrid b defender y x = 1 <->
   getCellState b x y = playerIndex (other defender) + 1) /\
  (buildGrid b defender y x = -1 <->
   getCellState b x y = playerIndex defender + 1) /\
  (buildGrid b defender y x = 0 <-> getCellState b x y = 0) /\
  buildGrid b (other defender) y x = - buildGrid b defender y x.
Proof.
  intros Hr. rewrite !buildGrid_spec. rewrite other_involutive.
  unfold stateOf.
  destruct (getCellState_range b x y Hr) as [E|[E|E]]; rewrite E;
    destruct defender; vm_compute; repeat split; intros; congruence.
Qed.

Lemma buildGrid_roles_witness :
  (buildGrid initialBoard Black 5 5 = 1 <->
   getCellState initialBoard 5 5 = playerIndex (other Black) + 1) /\
  (buildGrid initialBoard Black 5 5 = -1 <->
   getCellState initialBoard 5 5 = playerIndex Black + 1) /\
  (buildGrid initialBoard Black 5 5 = 0 <-> getCellState initialBoard 5 5 = 0) /\
  buildGrid initialBoard (other Black) 5 5 = - buildGrid initialBoard Black 5 5.
Proof. apply (buildGrid_roles initialBoard Black 5 5). reflexivity. Defined.

Lemma reported_severity {L : StdLibrary} b defender t :
  In t (findBlockingMoves b defender) ->
  severity t = 1000000 \/ severity t = 500000 \/
  severity t = 120000 \/ severity t = 60000.
Proof.
  intros Hin. apply findBlockingMoves_In in Hin as [Hr Hl].
  apply scanBoard_nominates in Hl; [|exact Hr].
  destruct Hl as [(w & Hw & Hs & _) _]. apply (windowSeverity_bound _ _ _ _ Hs).
Qed.

(** X14.  Every severity [findBlockingMoves] reports is one of the four
    constants of [processLine], and the first move reported has the largest
    severity of all. *)
Theorem findBlockingMoves_severities {L : StdLibrary} (b : Board) (defender : Player) :
  (forall t, In t (findBlockingMoves b defender) ->
     severity t = 1000000 \/ severity t = 500000 \/
     severity t = 120000 \/ severity t = 60000) /\
  (forall t0 rest t,
     findBlockingMoves b defender = t0 :: rest -> In t (t0 :: rest) ->
     severity t <= severity t0).
Proof.
  split; [intros t; apply reported_severity|].
  intros t0 rest t E Hin.
  pose proof (findBlockingMoves_sorted b defender) as Hs. rewrite E in Hs.
  destruct Hin as [<-|Hin]; [lia|].
  apply StronglySorted_inv in Hs as [_ Hall].
  rewrite Forall_forall in Hall. apply (Hall t), list_elem_of_In, Hin.
Qed.

(** * Further properties of [SearchEngine] *)

Ltac split_tests :=
  repeat match goal with
  | |- context [?a <=? ?b] => destruct (Z.leb_spec a b)
  | |- context [?a =? ?b] => destruct (Z.eqb_spec a b)
  end.

(** X15.  [patternScore] is between 0 and the score of a five, grows with
    the length of the run and with each open end, does not tell the left end
    from the right, and is the score of a five exactly when the run has five
    stones or more; a run shorter than five with no open end scores 0. *)
Theorem patternScore_grows :
  (forall count l r, 0 <= patternScore count l r <= 100000000) /\
  (forall count count' l r,
     count <= count' -> patternScore count l r <= patternScore count' l r) /\
  (forall count r l', patternScore count false r <= patternScore count l' r) /\
  (forall count l r', patternScore count l false <= patternScore count l r') /\
  (forall count l r, patternScore count l r = patternScore count r l) /\
  (forall count l r, patternScore count l r = 100000000 <-> 5 <= count) /\
  (forall count, count < 5 -> patternScore count false false = 0).
Proof.
  unfold patternScore.
  split; [|split; [|split; [|split; [|split; [|split]]]]].
  - intros count [] []; cbn [andb orb]; split_tests; cbn [andb]; lia.
  - intros count count' [] [] Hc; cbn [andb orb]; split_tests; cbn [andb]; lia.
  - intros count [] []; cbn [andb orb]; split_tests; cbn [andb]; lia.
  - intros count [] []; cbn [andb orb]; split_tests; cbn [andb]; lia.
  - intros count [] []; reflexivity.
  - intros count [] []; cbn [andb orb]; split_tests; cbn [andb]; lia.
  - intros count Hc. cbn [andb orb]. split_tests; cbn [andb]; lia.
Qed.


(** ** [isWinningMove] and [checkWin] *)

Lemma cellOf_own b p cx cy :
  disjoint b -> inRange cx cy = true ->
  (cellOf b p cx cy =? 1) = hasStone b p cx cy.
Proof.
  intros Hd Hr. specialize (Hd _ _ Hr). unfold cellOf.
  rewrite getCellState_bits by exact Hr.
  destruct p, (hasStone b Black cx cy), (hasStone b White cx cy);
    cbn in Hd |- *; first [reflexivity | discriminate].
Qed.

Lemma extendOwn_extend b p dx dy :
  disjoint b ->
  forall fuel nx ny c,
    extendOwn fuel b p nx ny dx dy c = extend fuel b p nx ny dx dy c.
Proof.
  intros Hd. induction fuel as [|fuel IH]; intros nx ny c; [reflexivity|].
  cbn [extendOwn extend]. destruct (inRange nx ny) eqn:Hr; [|reflexivity].
  cbn [andb]. rewrite cellOf_own by assumption.
  destruct (hasStone b p nx ny); [apply IH | reflexivity].
Qed.

(** A walk that leaves from the cell just played never comes back to it. *)
Lemma extend_placed b x y p dx dy :
  inRange x y = true -> (dx <> 0 \/ dy <> 0) ->
  forall fuel k c, 1 <= k ->
    extend fuel (placed b x y) p (x + k * dx) (y + k * dy) dx dy c =
    extend fuel b p (x + k * dx) (y + k * dy) dx dy c.
Proof.
  intros Hr Hd. induction fuel as [|fuel IH]; intros k c Hk; [reflexivity|].
  cbn [extend]. destruct (inRange (x + k * dx) (y + k * dy)) eqn:Hr'; [|reflexivity].
  rewrite hasStone_placed_other_cell; [|exact Hr|exact Hr'|].
  - destruct (hasStone b p (x + k * dx) (y + k * dy)); [|reflexivity].
    replace (x + k * dx + dx) with (x + (k + 1) * dx) by ring.
    replace (y + k * dy + dy) with (y + (k + 1) * dy) by ring.
    apply IH. lia.
  - intros E. inversion E as [[E1 E2]].
    assert (k * dx = 0) as H1 by lia. assert (k * dy = 0) as H2 by lia.
    apply Z.mul_eq_0 in H1, H2. lia.
Qed.

Lemma dirs_nonzero dx dy : In (dx, dy) dirs -> dx <> 0 \/ dy <> 0.
Proof.
  intros [E|[E|[E|[E|[]]]]]; inversion E; lia.
Qed.

Lemma lineCount_placed b x y p dx dy :
  disjoint b -> inRange x y = true -> In (dx, dy) dirs ->
  lineCount (placed b x y) p x y dx dy =
  extendOwn 12 b p (x - dx) (y - dy) (- dx) (- dy)
            (extendOwn 12 b p (x + dx) (y + dy) dx dy 1).
Proof.
  intros Hd Hr Hdir. apply dirs_nonzero in Hdir.
  unfold lineCount. cbv zeta. rewrite !extendOwn_extend by exact Hd.
  pose proof (extend_placed b x y p dx dy Hr Hdir 12 1) as Hf.
  rewrite !Z.mul_1_l in Hf. rewrite Hf by lia.
  pose proof (extend_placed b x y p (- dx) (- dy) Hr ltac:(lia) 12 1) as Hb.
  replace (x + 1 * - dx) with (x - dx) in Hb by ring.
  replace (y + 1 * - dy) with (y - dy) in Hb by ring.
  apply Hb. lia.
Qed.

#[local] Transparent isWinningMove.

Lemma isWinningMove_lineCount b p x y :
  disjoint b -> inRange x y = true -> isOccupied b x y = false ->
  isWinningMove b p x y = true <->
  exists dx dy, In (dx, dy) dirs /\ 5 <= lineCount (placed b x y) p x y dx dy.
Proof.
  intros Hd Hr Ho. unfold isWinningMove. rewrite Ho, existsb_exists. split.
  - intros ([dx dy] & Hin & H). exists dx, dy. split; [exact Hin|].
    rewrite lineCount_placed by assumption. apply Z.leb_le. exact H.
  - intros (dx & dy & Hin & H). exists (dx, dy). split; [exact Hin|].
    rewrite lineCount_placed in H by assumption. apply Z.leb_le. exact H.
Qed.

Lemma isWinningMove_playable b p x y :
  isWinningMove b p x y = true ->
  inRange x y = true /\ isOccupied b x y = false.
Proof.
  unfold isWinningMove. destruct (isOccupied b x y) eqn:Ho; [discriminate|].
  intros _. split; [|reflexivity].
  destruct (inRange x y) eqn:Hr; [reflexivity|].
  unfold isOccupied in Ho. rewrite Hr in Ho. discriminate.
Qed.

#[global] Opaque isWinningMove.

(** A row of five or more through the cell just played gives a count of
    five or more at this cell. *)
Lemma row_through_cell b p x0 y0 dx dy n k :
  In (dx, dy) dirs -> 5 <= n -> 0 <= k < n ->
  rowOf b p x0 y0 dx dy n ->
  5 <= lineCount b p (x0 + k * dx) (y0 + k * dy) dx dy.
Proof.
  intros Hdir Hn Hk Hrow. unfold lineCount. cbv zeta.
  set (s := Z.min k (n - 5)).
  pose proof (extend_lower 12 b p dx dy (Z.to_nat (s + 4 - k))
                (x0 + k * dx + dx) (y0 + k * dy + dy) 1 ltac:(lia)) as Hf.
  pose proof (extend_lower 12 b p (- dx) (- dy) (Z.to_nat (k - s))
                (x0 + k * dx - dx) (y0 + k * dy - dy)
                (extend 12 b p (x0 + k * dx + dx) (y0 + k * dy + dy) dx dy 1)
                ltac:(lia)) as Hb.
  assert (1 + Z.of_nat (Z.to_nat (s + 4 - k))
          <= extend 12 b p (x0 + k * dx + dx) (y0 + k * dy + dy) dx dy 1) as Hf'.
  { apply Hf. intros i Hi.
    replace (x0 + k * dx + dx + i * dx) with (x0 + (k + 1 + i) * dx) by ring.
    replace (y0 + k * dy + dy + i * dy) with (y0 + (k + 1 + i) * dy) by ring.
    apply Hrow. lia. }
  etransitivity; [|apply Hb].
  - lia.
  - intros i Hi.
    replace (x0 + k * dx - dx + i * - dx) with (x0 + (k - 1 - i) * dx) by ring.
    replace (y0 + k * dy - dy + i * - dy) with (y0 + (k - 1 - i) * dy) by ring.
    apply Hrow. lia.
Qed.

Lemma checkWin_placed_cases b p x y :
  disjoint b -> inRange x y = true -> isOccupied b x y = false ->
  checkWin (placed b x y) p = true ->
  checkWin b p = true \/ isWinningMove b p x y = true.
Proof.
  intros Hd Hr Ho Hw. apply checkWin_five in Hw.
  destruct Hw as (x0 & y0 & dx & dy & n & Hdir & Hn & Hrow).
  set (k := if dx =? 0 then y - y0 else x - x0).
  destruct (decide (0 <= k < n /\ x0 + k * dx = x /\ y0 + k * dy = y))
    as [(Hk & Ex & Ey)|Hout].
  - right. apply isWinningMove_lineCount; try assumption.
    exists dx, dy. split; [exact Hdir|]. clearbody k. subst x y.
    apply (row_through_cell _ p x0 y0 dx dy n k); assumption.
  - left. apply checkWin_five. exists x0, y0, dx, dy, n.
    split; [exact Hdir|]. split; [exact Hn|].
    intros j Hj. destruct (Hrow j Hj) as [Hc Hs]. split; [exact Hc|].
    rewrite hasStone_placed_other_cell in Hs; [exact Hs|exact Hr|exact Hc|].
    intros E. inversion E as [[E1 E2]]. apply Hout.
    assert (j = k) as <-; [|auto].
    unfold k. destruct Hdir as [D|[D|[D|[D|[]]]]]; inversion D; subst;
      cbn [Z.eqb]; lia.
Qed.

Lemma fourBoard_reachable : reachable fourBoard (rev fourMoves).
Proof.
  rewrite <- (app_nil_r (rev fourMoves)).
  apply playAll_reachable; [vm_compute; reflexivity | apply reach_init].
Qed.

Lemma isWinningMove_checkWin b x y :
  disjoint b -> inRange x y = true -> isOccupied b x y = false ->
  isWinningMove b (side_to_move b) x y = true ->
  checkWin (placed b x y) (side_to_move b) = true.
Proof.
  intros Hd Hr Ho Hi.
  apply isWinningMove_lineCount in Hi as (dx & dy & Hdir & H); try assumption.
  apply checkWin_true_iff. exists x, y, dx, dy.
  split; [exact Hr|]. split; [apply hasStone_placed_same, Hr|]. auto.
Qed.

(** X17.  On a board reached in play, [isWinningMove] tells for the side to
    move whether playing a cell makes a row of five: after an accepted
    [makeMove], [checkWin] of the mover holds exactly when it held before or
    [isWinningMove] held for the cell.  For either side, [isWinningMove]
    only answers true on an empty cell of the board. *)
Theorem isWinningMove_agrees_with_checkWin (b : Board) (ms : list (Z * Z))
    (x y : Z) (b' : Board) :
  reachable b ms -> makeMove b x y = (true, b') ->
  checkWin b' (sideToMove b) =
    checkWin b (sideToMove b) || isWinningMove b (sideToMove b) x y /\
  (forall p x' y',
     isWinningMove b p x' y' = true ->
     inRange x' y' = true /\ isOccupied b x' y' = false).
Proof.
  intros Hreach Hm. split; [|intros p x' y'; apply isWinningMove_playable].
  apply reachable_played, played_disjoint in Hreach.
  apply makeMove_true_inv in Hm as (Hr & Ho & ->). unfold sideToMove.
  destruct (checkWin (placed b x y) (side_to_move b)) eqn:Hw.
  - symmetry. apply orb_true_iff. apply checkWin_placed_cases; assumption.
  - symmetry. apply orb_false_iff. split.
    + destruct (checkWin b (side_to_move b)) eqn:Hb; [|reflexivity].
      apply checkWin_five, (fiveInRow_placed b x y _ Hr Ho), checkWin_five in Hb.
      congruence.
    + destruct (isWinningMove b (side_to_move b) x y) eqn:Hi; [|reflexivity].
      apply isWinningMove_lineCount in Hi as (dx & dy & Hdir & H); try assumption.
      assert (checkWin (placed b x y) (side_to_move b) = true) as Hc; [|congruence].
      apply checkWin_true_iff. exists x, y, dx, dy.
      split; [exact Hr|]. split; [apply hasStone_placed_same, Hr|]. auto.
Qed.

(** Black completes the row of [fourBoard] at (4,0). *)
Lemma isWinningMove_agrees_with_checkWin_witness :
  checkWin (placed fourBoard 4 0) (sideToMove fourBoard) =
    checkWin fourBoard (sideToMove fourBoard)
    || isWinningMove fourBoard (sideToMove fourBoard) 4 0 /\
  (forall p x' y',
     isWinningMove fourBoard p x' y' = true ->
     inRange x' y' = true /\ isOccupied fourBoard x' y' = false).
Proof.
  apply (isWinningMove_agrees_with_checkWin fourBoard (rev fourMoves) 4 0).
  - apply fourBoard_reachable.
  - apply makeMove_ok; vm_compute; reflexivity.
Defined.

Lemma fourBoard_win :
  isWinningMove fourBoard Black 4 0 = true /\
  checkWin fourBoard Black = false /\
  checkWin (placed fourBoard 4 0) Black = true.
Proof. repeat split; vm_compute; reflexivity. Qed.

(** ** The opening book *)

Lemma played_nil b : played b [] -> b = initialBoard.
Proof. intros H. inversion H. reflexivity. Qed.

#[local] Transparent getOpeningMove.

Lemma opening_book_reachable b ms myColor :
  reachable b ms ->
  getOpeningMove b myColor =
  match ms, myColor with
  | [], Black => Some (mkMove 7 7)
  | _, _ => None
  end.
Proof.
  intros Hreach. apply reachable_played in Hreach.
  destruct ms as [|m ms].
  - apply played_nil in Hreach. subst b. destruct myColor; vm_compute; reflexivity.
  - pose proof (played_disjoint _ _ Hreach) as Hd.
    pose proof (played_wordsOK _ _ Hreach) as Hw.
    destruct (played_counts _ _ Hreach) as [Hc _].
    unfold getOpeningMove. cbv zeta.
    rewrite !(stonesOf_words b) by assumption.
    cbn [List.length] in Hc. rewrite Nat2Z.inj_succ in Hc.
    destruct (Z.eqb_spec (stonesOf b Black + stonesOf b White) 4) as [E|_]; [lia|].
    destruct myColor; reflexivity.
Qed.

(** X18.  On a board reached in play the opening book answers only in the
    starting position (no move made yet), only for Black, and then with
    (7,7); in every other case [getOpeningMove] finds no move. *)
Theorem getOpeningMove_only_first_move (b : Board) (ms : list (Z * Z))
    (myColor : Player) :
  reachable b ms ->
  getOpeningMove b myColor =
  match ms, myColor with
  | [], Black => Some (mkMove 7 7)
  | _, _ => None
  end.
Proof. apply opening_book_reachable. Qed.

Lemma getOpeningMove_only_first_move_witness :
  getOpeningMove initialBoard Black = Some (mkMove 7 7).
Proof. apply (getOpeningMove_only_first_move initialBoard [] Black), reach_init. Defined.

#[global] Opaque getOpeningMove.

(** ** Move ordering *)

#[local] Transparent orderMoves.

Lemma orderMoves_scored {L : StdLibrary} board currentPlayer myColor ply s :
  orderMoves board currentPlayer myColor ply s =
  (map snd (sortDescending fst
     (map (fun m => (moveScore currentPlayer myColor ply s board m, m))
          (getCandidateMoves board))),
   board).
Proof.
  unfold orderMoves. cbv zeta.
  rewrite orderMoves_fold by apply getCandidateMoves_Forall.
  reflexivity.
Qed.

#[global] Opaque orderMoves.

Lemma sorted_map_snd (score : Move -> Z) (l : list (Z * Move)) :
  Forall (fun a => fst a = score (snd a)) l ->
  StronglySorted scoreGe l ->
  StronglySorted (fun m1 m2 => score m2 <= score m1) (map snd l).
Proof.
  intros Hall Hs. induction Hs as [|a l Hs IH Ha]; [constructor|].
  apply Forall_cons in Hall as [Ea Hall]. cbn [map]. constructor; [apply IH, Hall|].
  rewrite Forall_forall in Ha, Hall. apply Forall_forall. intros m Hm.
  apply list_elem_of_In, in_map_iff in Hm as (a' & <- & Ha').
  apply list_elem_of_In in Ha'. specialize (Ha a' Ha'). specialize (Hall a' Ha').
  unfold scoreGe in Ha. lia.
Qed.

(** The table built from a list of threats on distinct cells gives each of
    these cells its severity. *)
Lemma lookup_of_threats (l : list ThreatMove) :
  NoDup (map (fun t => my (move t) * 12 + mx (move t)) l) ->
  forall (acc : gmap Z Z),
    (forall t, In t l -> acc !! (my (move t) * 12 + mx (move t)) = None) ->
    forall key,
      fold_left (fun (lookup : gmap Z Z) t =>
          let key := my (move t) * 12 + mx (move t) in
          match lookup !! key with
          | None => <[ key := severity t ]> lookup
          | Some old =>
              if old <? severity t then <[ key := severity t ]> lookup else lookup
          end) l acc !! key =
      match List.find (fun t => my (move t) * 12 + mx (move t) =? key) l with
      | Some t => Some (severity t)
      | None => acc !! key
      end.
Proof.
  induction l as [|t l IH]; intros Hnd acc Hacc key; [reflexivity|].
  cbn [map] in Hnd. apply NoDup_cons in Hnd as [Hnotin Hnd].
  cbn [fold_left List.find]. cbv zeta.
  rewrite (Hacc t) by (left; reflexivity).
  rewrite IH; [|exact Hnd|].
  - destruct (Z.eqb_spec (my (move t) * 12 + mx (move t)) key) as [E|Hne].
    + destruct (List.find _ l) as [t'|] eqn:Ef.
      * exfalso. apply find_some in Ef as [Hin Et]. apply Z.eqb_eq in Et.
        apply Hnotin. rewrite E, <- Et. apply list_elem_of_In.
        apply (in_map (fun t => my (move t) * 12 + mx (move t))), Hin.
      * rewrite <- E. apply lookup_insert_eq.
    + destruct (List.find _ l); [reflexivity|]. apply lookup_insert_ne, Hne.
  - intros t' Hin. rewrite lookup_insert_ne; [apply Hacc; right; exact Hin|].
    intros E. apply Hnotin. rewrite E. apply list_elem_of_In.
    apply (in_map (fun t => my (move t) * 12 + mx (move t))), Hin.
Qed.

Lemma threat_keys_NoDup {L : StdLibrary} b defender :
  NoDup (map (fun t => my (move t) * 12 + mx (move t))
             (findBlockingMoves b defender)).
Proof.
  pose proof (findBlockingMoves_NoDup b defender) as Hnd.
  change (map (fun t => my (move t) * 12 + mx (move t))
              (findBlockingMoves b defender))
    with ((fun t => coordKey (mx (move t)) (my (move t)))
            <$> findBlockingMoves b defender).
  apply NoDup_fmap_2_strong.
  - intros t1 t2 H1 H2 E. apply list_elem_of_In in H1, H2.
    pose proof (blocking_move_playable _ _ _ H1) as [Hr1 _].
    pose proof (blocking_move_playable _ _ _ H2) as [Hr2 _].
    apply coordKey_inj in E as [Ex Ey]; try assumption.
    assert (move t1 = move t2) as Em
      by (destruct (move t1), (move t2); cbn in *; congruence).
    apply findBlockingMoves_In in H1 as [_ L1].
    apply findBlockingMoves_In in H2 as [_ L2].
    rewrite Em in L1. rewrite L1 in L2.
    destruct t1, t2; cbn in *; congruence.
  - apply (NoDup_fmap_1 move). exact Hnd.
Qed.

Lemma defensiveLookupOf_spec {L : StdLibrary} b currentPlayer m sev :
  inRange (mx m) (my m) = true ->
  defensiveLookupOf b currentPlayer !! (my m * 12 + mx m) = Some sev <->
  In (mkThreat m sev) (findBlockingMoves b currentPlayer).
Proof.
  intros Hr. unfold defensiveLookupOf.
  rewrite lookup_of_threats;
    [|apply threat_keys_NoDup | intros; apply lookup_empty].
  destruct (List.find _ (findBlockingMoves b currentPlayer)) as [t|] eqn:Ef.
  - apply find_some in Ef as [Hin Et]. apply Z.eqb_eq in Et.
    pose proof (blocking_move_playable _ _ _ Hin) as [Hrt _].
    apply (coordKey_inj (mx (move t)) (my (move t)) (mx m) (my m)) in Et
      as [Ex Ey]; try assumption.
    assert (move t = m) as Em by (destruct (move t), m; cbn in *; congruence).
    split.
    + intros E. inversion E; subst. destruct t; exact Hin.
    + intros Hin'. f_equal.
      apply findBlockingMoves_In in Hin as [_ L1].
      apply findBlockingMoves_In in Hin' as [_ L2]. cbn [move severity] in L2.
      rewrite Em in L1. congruence.
  - rewrite lookup_empty. split; [discriminate|]. intros Hin. exfalso.
    apply (find_none _ _ Ef) in Hin. cbn [move severity] in Hin.
    apply Z.eqb_neq in Hin. congruence.
Qed.

(** X19.  [orderMoves] gives the board back as it got it and returns the
    candidate moves of [getCandidateMoves], each once, sorted by decreasing
    score.  The defensive bonus in the score of a cell of the board is the
    severity [findBlockingMoves] reports for this cell, if it reports
    one. *)
Theorem orderMoves_sorts_candidates {L : StdLibrary} (board : Board)
    (currentPlayer myColor : Player) (ply : Z) (s : SearchEngine) :
  snd (orderMoves board currentPlayer myColor ply s) = board /\
  fst (orderMoves board currentPlayer myColor ply s) ≡ₚ getCandidateMoves board /\
  StronglySorted
    (fun m1 m2 => moveScore currentPlayer myColor ply s board m2
                  <= moveScore currentPlayer myColor ply s board m1)
    (fst (orderMoves board currentPlayer myColor ply s)) /\
  (forall m sev,
     inRange (mx m) (my m) = true ->
     defensiveLookupOf board currentPlayer !! (my m * 12 + mx m) = Some sev <->
     In (mkThreat m sev) (findBlockingMoves board currentPlayer)).
Proof.
  split; [apply orderMoves_spec|]. split; [apply orderMoves_spec|].
  split; [|intros m sev; apply defensiveLookupOf_spec].
  rewrite orderMoves_scored. cbn [fst].
  apply sorted_map_snd; [|apply (sortDescending_sorted fst)].
  apply Forall_forall. intros a Ha.
  rewrite sortDescending_Permutation in Ha.
  apply list_elem_of_In, in_map_iff in Ha as (m & <- & _). reflexivity.
Qed.

(** ** The shortcuts of [findBestMove] *)

Lemma find_first {A} (f : A -> bool) l a :
  List.find f l = Some a ->
  exists l1 l2, l = l1 ++ a :: l2 /\ f a = true /\
                forall x, In x l1 -> f x = false.
Proof.
  induction l as [|x l IH]; [discriminate|]. cbn [List.find].
  destruct (f x) eqn:Ex.
  - intros E. inversion E; subst. exists [], l. repeat split; [exact Ex|].
    intros x' [].
  - intros E. destruct (IH E) as (l1 & l2 & -> & Ha & Hl1).
    exists (x :: l1), l2. repeat split; [exact Ha|].
    intros x' [<-|Hx']; [exact Ex | apply Hl1, Hx'].
Qed.

Lemma freshEngine_clock now timeLimitMs s s' :
  clockReads s = clockReads s' ->
  freshEngine now timeLimitMs s = freshEngine now timeLimitMs s'.
Proof.
  intros E. unfold freshEngine, startTimer, setTransTable, setHistory,
    setKillerMoves. cbn. rewrite E. reflexivity.
Qed.

Lemma findBestMove_win {L : StdLibrary} now fuel board myColor timeLimitMs s m :
  getOpeningMove board myColor = None ->
  List.find (fun m => isWinningMove board myColor (mx m) (my m))
            (getLegalMoves board) = Some m ->
  findBestMove now fuel board myColor timeLimitMs s =
  Some (m, board, freshEngine now timeLimitMs s).
Proof.
  intros Hbook Hfind. unfold findBestMove. cbv zeta.
  rewrite Hbook, Hfind. reflexivity.
Qed.

(** X20.  On a board reached in play after the first move, when the side
    to move has a cell that completes a row of five, [findBestMove] returns
    such a cell at once, whatever the clock and the time budget: the first
    winning cell in reading order.  Playing it is accepted and [checkWin]
    then holds for the mover. *)
Theorem findBestMove_takes_the_win {L : StdLibrary} (now : nat -> Z) (fuel : nat) (b : Board)
    (ms : list (Z * Z)) (timeLimitMs : Z) (s : SearchEngine) :
  reachable b ms -> ms <> [] ->
  (exists x y, isWinningMove b (sideToMove b) x y = true) ->
  exists m b',
    findBestMove now fuel b (sideToMove b) timeLimitMs s =
      Some (m, b, freshEngine now timeLimitMs s) /\
    isWinningMove b (sideToMove b) (mx m) (my m) = true /\
    (forall m', isWinningMove b (sideToMove b) (mx m') (my m') = true ->
                m' = m \/ rowMajor m m') /\
    makeMove b (mx m) (my m) = (true, b') /\
    checkWin b' (sideToMove b) = true.
Proof.
  intros Hreach Hms (x & y & Hwin).
  pose proof (opening_book_reachable b ms (sideToMove b) Hreach) as Hbook.
  destruct ms as [|m0 ms]; [congruence|].
  apply reachable_played, played_disjoint in Hreach.
  destruct (List.find (fun m => isWinningMove b (sideToMove b) (mx m) (my m))
                      (getLegalMoves b)) as [m|] eqn:Hfind.
  2:{ exfalso. pose proof (isWinningMove_playable _ _ _ _ Hwin) as Hp.
      apply (getLegalMoves_spec b (mkMove x y)) in Hp.
      apply (find_none _ _ Hfind) in Hp. cbn [mx my] in Hp. congruence. }
  pose proof (find_first _ _ _ Hfind) as (l1 & l2 & El & Hm & Hl1).
  pose proof (isWinningMove_playable _ _ _ _ Hm) as [Hr Ho].
  exists m, (placed b (mx m) (my m)).
  split; [apply findBestMove_win; assumption|].
  split; [exact Hm|]. split.
  - intros m' Hm'. pose proof (isWinningMove_playable _ _ _ _ Hm') as Hp'.
    apply (getLegalMoves_spec b m') in Hp'. rewrite El in Hp'.
    apply in_app_or in Hp' as [H1|[E|H2]].
    + rewrite (Hl1 m' H1) in Hm'. discriminate.
    + left. symmetry. exact E.
    + right. pose proof (getLegalMoves_sorted b) as Hs. rewrite El in Hs.
      apply StronglySorted_app_1_r, StronglySorted_inv in Hs as [_ Hall].
      rewrite Forall_forall in Hall. apply Hall, list_elem_of_In, H2.
  - split; [apply makeMove_ok; assumption|].
    apply isWinningMove_checkWin; assumption.
Qed.

(** Black to move on [fourBoard]: the engine plays (4,0). *)
Lemma findBestMove_takes_the_win_witness :
  exists m b',
    findBestMove steadyClock 0 fourBoard (sideToMove fourBoard) 1 engine0 =
      Some (m, fourBoard, freshEngine steadyClock 1 engine0) /\
    isWinningMove fourBoard (sideToMove fourBoard) (mx m) (my m) = true /\
    (forall m', isWinningMove fourBoard (sideToMove fourBoard) (mx m') (my m')
                = true -> m' = m \/ rowMajor m m') /\
    makeMove fourBoard (mx m) (my m) = (true, b') /\
    checkWin b' (sideToMove fourBoard) = true.
Proof.
  apply (findBestMove_takes_the_win steadyClock 0 fourBoard (rev fourMoves) 1 engine0).
  - apply fourBoard_reachable.
  - discriminate.
  - exists 4, 0. vm_compute. reflexivity.
Defined.

Lemma findBestMove_block {L : StdLibrary} now fuel board myColor timeLimitMs s w ws :
  getOpeningMove board myColor = None ->
  List.find (fun m => isWinningMove board myColor (mx m) (my m))
            (getLegalMoves board) = None ->
  List.filter (fun m => isWinningMove board (other myColor) (mx m) (my m))
              (getLegalMoves board) = w :: ws ->
  exists m,
    findBestMove now fuel board myColor timeLimitMs s =
      Some (m, board, freshEngine now timeLimitMs s) /\
    In m (w :: ws).
Proof.
  intros Hbook Hfind Hopp. unfold findBestMove. cbv zeta.
  rewrite Hbook, Hfind.
  change (match myColor with Black => White | White => Black end)
    with (other myColor).
  rewrite Hopp.
  assert (Forall (playable board) (w :: ws)) as Hl.
  { apply Forall_forall. intros m Hm. rewrite <- Hopp in Hm.
    apply list_elem_of_In, filter_In in Hm as [Hm _].
    apply getLegalMoves_spec, Hm. }
  pose proof (pickBlock_spec myColor (w :: ws) board Hl ltac:(discriminate))
    as [Eb Hin].
  destruct (pickBlock myColor (w :: ws) board) as [bestBlock b0].
  cbn [fst snd] in Eb, Hin. subst b0. exists bestBlock. split; [reflexivity|exact Hin].
Qed.

(** X21.  When [findBestMove] has no book move and no winning cell, and
    the opponent has cells that complete a row of five, the move returned
    is one of these cells, whatever the clock and the time budget. *)
Theorem findBestMove_blocks_the_win {L : StdLibrary} (now : nat -> Z) (fuel : nat)
    (board : Board) (myColor : Player) (timeLimitMs : Z) (s : SearchEngine) :
  getOpeningMove board myColor = None ->
  (forall x y, isWinningMove board myColor x y = false) ->
  (exists x y, isWinningMove board (other myColor) x y = true) ->
  exists m,
    findBestMove now fuel board myColor timeLimitMs s =
      Some (m, board, freshEngine now timeLimitMs s) /\
    isWinningMove board (other myColor) (mx m) (my m) = true.
Proof.
  intros Hbook Hnowin (x & y & Hopp).
  assert (List.find (fun m => isWinningMove board myColor (mx m) (my m))
                    (getLegalMoves board) = None) as Hfind.
  { destruct (List.find _ (getLegalMoves board)) as [m|] eqn:E; [|reflexivity].
    apply find_some in E as [_ E]. rewrite Hnowin in E. discriminate. }
  destruct (List.filter (fun m => isWinningMove board (other myColor) (mx m) (my m))
                        (getLegalMoves board)) as [|w ws] eqn:Ef.
  - exfalso. pose proof (isWinningMove_playable _ _ _ _ Hopp) as Hp.
    apply (getLegalMoves_spec board (mkMove x y)) in Hp.
    assert (In (mkMove x y) []) as []. rewrite <- Ef.
    apply filter_In. split; [exact Hp | exact Hopp].
  - destruct (findBestMove_block now fuel board myColor timeLimitMs s w ws
                Hbook Hfind Ef) as (m & E & Hin).
    exists m. split; [exact E|]. rewrite <- Ef in Hin.
    apply filter_In in Hin as [_ Hin]. exact Hin.
Qed.

Lemma threatBoard_facts :
  getOpeningMove threatBoard White = None /\
  List.find (fun m => isWinningMove threatBoard White (mx m) (my m))
            (getLegalMoves threatBoard) = None /\
  isWinningMove threatBoard Black 4 0 = true.
Proof. repeat split; vm_compute; reflexivity. Qed.

Lemma threatBoard_no_win x y : isWinningMove threatBoard White x y = false.
Proof.
  destruct (isWinningMove threatBoard White x y) eqn:E; [|reflexivity].
  exfalso. pose proof (isWinningMove_playable _ _ _ _ E) as Hp.
  apply (getLegalMoves_spec threatBoard (mkMove x y)) in Hp.
  destruct threatBoard_facts as (_ & Hfind & _).
  apply (find_none _ _ Hfind) in Hp. cbn [mx my] in Hp. congruence.
Qed.

(** White to move on [threatBoard]: the engine plays where Black would
    win. *)
Lemma findBestMove_blocks_the_win_witness :
  exists m,
    findBestMove steadyClock 0 threatBoard White 1 engine0 =
      Some (m, threatBoard, freshEngine steadyClock 1 engine0) /\
    isWinningMove threatBoard (other White) (mx m) (my m) = true.
Proof.
  apply (findBestMove_blocks_the_win steadyClock 0 threatBoard White 1 engine0).
  - apply threatBoard_facts.
  - apply threatBoard_no_win.
  - exists 4, 0. apply threatBoard_facts.
Defined.

(** ** A four is a cell where the attacker wins *)

(** Four stones of [p] on the cells of a window of five around the cell
    [k] give a count of five at this cell. *)
Lemma row_around_cell b p x0 y0 dx dy k :
  0 <= k <= 4 ->
  (forall i, 0 <= i <= 4 -> i <> k ->
     inRange (x0 + i * dx) (y0 + i * dy) = true /\
     hasStone b p (x0 + i * dx) (y0 + i * dy) = true) ->
  5 <= extend 12 b p (x0 + k * dx - dx) (y0 + k * dy - dy) (- dx) (- dy)
         (extend 12 b p (x0 + k * dx + dx) (y0 + k * dy + dy) dx dy 1).
Proof.
  intros Hk Hrow.
  pose proof (extend_lower 12 b p dx dy (Z.to_nat (4 - k))
                (x0 + k * dx + dx) (y0 + k * dy + dy) 1 ltac:(lia)) as Hf.
  pose proof (extend_lower 12 b p (- dx) (- dy) (Z.to_nat k)
                (x0 + k * dx - dx) (y0 + k * dy - dy)
                (extend 12 b p (x0 + k * dx + dx) (y0 + k * dy + dy) dx dy 1)
                ltac:(lia)) as Hb.
  assert (1 + Z.of_nat (Z.to_nat (4 - k))
          <= extend 12 b p (x0 + k * dx + dx) (y0 + k * dy + dy) dx dy 1) as Hf'.
  { apply Hf. intros i Hi.
    replace (x0 + k * dx + dx + i * dx) with (x0 + (k + 1 + i) * dx) by ring.
    replace (y0 + k * dy + dy + i * dy) with (y0 + (k + 1 + i) * dy) by ring.
    apply Hrow; lia. }
  etransitivity; [|apply Hb].
  - lia.
  - intros i Hi.
    replace (x0 + k * dx - dx + i * - dx) with (x0 + (k - 1 - i) * dx) by ring.
    replace (y0 + k * dy - dy + i * - dy) with (y0 + (k - 1 - i) * dy) by ring.
    apply Hrow; lia.
Qed.

Lemma count_four (att s0 s1 s2 s3 s4 : Z) :
  att <> 0 ->
  Z.of_nat (List.length (List.filter (fun v => v =? att) [s0; s1; s2; s3; s4])) = 4 ->
  forall j, 0 <= j <= 4 -> nth (Z.to_nat j) [s0; s1; s2; s3; s4] 0 = 0 ->
  forall k, 0 <= k <= 4 -> k <> j -> nth (Z.to_nat k) [s0; s1; s2; s3; s4] 0 = att.
Proof.
  intros Hatt Hcnt j Hj Ej k Hk Hne. cbn [List.filter] in Hcnt.
  assert (j = 0 \/ j = 1 \/ j = 2 \/ j = 3 \/ j = 4) as Hj' by lia.
  assert (k = 0 \/ k = 1 \/ k = 2 \/ k = 3 \/ k = 4) as Hk' by lia.
  destruct (Z.eqb_spec s0 att), (Z.eqb_spec s1 att), (Z.eqb_spec s2 att),
    (Z.eqb_spec s3 att), (Z.eqb_spec s4 att); cbn [List.length] in Hcnt;
    try lia;
    destruct Hj' as [->|[->|[->|[->| ->]]]];
    cbv [nth Z.to_nat Pos.to_nat Pos.iter_op Nat.add] in Ej; try congruence;
    destruct Hk' as [->|[->|[->|[->| ->]]]];
    cbv [nth Z.to_nat Pos.to_nat Pos.iter_op Nat.add]; congruence.
Qed.

Lemma four_window_cells b defender w x y s :
  nominates b defender w x y s -> 500000 <= s ->
  exists j, 0 <= j <= 4 /\ winCell w j = (x, y) /\
    forall k, 0 <= k <= 4 -> k <> j ->
      stateAt b (wx w) (wy w) (wdx w) (wdy w) k = stateOf (other defender).
Proof.
  intros (Hw & Hs & Hin & He) Hsev. destruct w as [x0 y0 dx dy].
  apply in_map_iff in Hin as (j & Ej & Hj). apply seqZ_In in Hj.
  exists j. split; [lia|]. split; [exact Ej|].
  rewrite (windowSeverity_cells b defender x0 y0 dx dy _ _ _ _ _
             eq_refl eq_refl eq_refl eq_refl eq_refl) in Hs.
  cbv zeta in Hs. cbn [wx wy wdx wdy].
  destruct (negb _); [discriminate|].
  destruct (Z.eqb_spec
    (Z.of_nat (List.length (List.filter (fun v => v =? stateOf (other defender))
       [stateAt b x0 y0 dx dy 0; stateAt b x0 y0 dx dy 1; stateAt b x0 y0 dx dy 2;
        stateAt b x0 y0 dx dy 3; stateAt b x0 y0 dx dy 4]))) 4) as [Hcnt|_].
  2:{ cbn [andb] in Hs.
      destruct (_ && _) in Hs; [|discriminate].
      destruct (_ && _) in Hs; [inversion Hs; lia|].
      destruct (_ || _) in Hs; [inversion Hs; lia | discriminate]. }
  assert (stateOf (other defender) <> 0) as Hatt by (destruct defender; discriminate).
  assert (nth (Z.to_nat j)
            [stateAt b x0 y0 dx dy 0; stateAt b x0 y0 dx dy 1; stateAt b x0 y0 dx dy 2;
             stateAt b x0 y0 dx dy 3; stateAt b x0 y0 dx dy 4] 0 = 0) as Ej0.
  { unfold winCell in Ej. cbn [wx wy wdx wdy] in Ej. inversion Ej; subst x y.
    assert (j = 0 \/ j = 1 \/ j = 2 \/ j = 3 \/ j = 4) as [->|[->|[->|[->| ->]]]]
      by lia; exact He. }
  intros k Hk Hne.
  pose proof (count_four _ _ _ _ _ _ Hatt Hcnt j ltac:(lia) Ej0 k Hk Hne) as Ek.
  assert (k = 0 \/ k = 1 \/ k = 2 \/ k = 3 \/ k = 4) as [->|[->|[->|[->| ->]]]]
    by lia; exact Ek.
Qed.

Lemma four_is_win {L : StdLibrary} b defender t :
  disjoint b ->
  In t (findBlockingMoves b defender) -> 500000 <= severity t ->
  isWinningMove b (other defender) (mx (move t)) (my (move t)) = true.
Proof.
  intros Hd Hin Hsev.
  pose proof (blocking_move_playable _ _ _ Hin) as [Hr Ho].
  apply findBlockingMoves_In in Hin as [_ Hl].
  apply scanBoard_nominates in Hl as [(w & Hnom) _]; [|exact Hr].
  destruct (four_window_cells _ _ _ _ _ _ Hnom Hsev) as (j & Hj & Ej & Hrow).
  destruct Hnom as (Hw & _ & _ & _).
  apply isWinningMove_lineCount; try assumption.
  exists (wdx w), (wdy w). split; [apply Hw|].
  rewrite lineCount_placed by (try assumption; apply Hw).
  rewrite !extendOwn_extend by exact Hd.
  unfold winCell in Ej. injection Ej as Ex Ey. rewrite <- Ex, <- Ey.
  apply row_around_cell; [exact Hj|].
  intros i Hi Hne. apply (hasStone_state b (other defender)); [exact Hd|].
  apply (Hrow i Hi Hne).
Qed.

(** X22.  On a board reached in play, a move that [findBlockingMoves]
    reports with severity 500000 or more (a four) is a cell where the
    attacker completes a row of five.  So when [findBestMove], with no book
    move and no winning cell of its own, finds such a move at the head of
    [findBlockingMoves], it answers with a cell where the opponent would
    win: the test of the urgent defence never decides the move. *)
Theorem fours_are_winning_cells {L : StdLibrary} (b : Board) (ms : list (Z * Z))
    (myColor : Player) :
  reachable b ms ->
  (forall t, In t (findBlockingMoves b myColor) -> 500000 <= severity t ->
     isWinningMove b (other myColor) (mx (move t)) (my (move t)) = true) /\
  (forall now fuel timeLimitMs s t rest,
     getOpeningMove b myColor = None ->
     (forall x y, isWinningMove b myColor x y = false) ->
     findBlockingMoves b myColor = t :: rest -> 500000 <= severity t ->
     exists m,
       findBestMove now fuel b myColor timeLimitMs s =
         Some (m, b, freshEngine now timeLimitMs s) /\
       isWinningMove b (other myColor) (mx m) (my m) = true).
Proof.
  intros Hreach. apply reachable_played, played_disjoint in Hreach.
  split; [intros t; apply four_is_win, Hreach|].
  intros now fuel timeLimitMs s t rest Hbook Hnowin Eb Hsev.
  assert (isWinningMove b (other myColor) (mx (move t)) (my (move t)) = true) as Hopp.
  { apply four_is_win; [exact Hreach | rewrite Eb; left; reflexivity | exact Hsev]. }
  assert (List.find (fun m => isWinningMove b myColor (mx m) (my m))
                    (getLegalMoves b) = None) as Hfind.
  { destruct (List.find _ (getLegalMoves b)) as [m|] eqn:E; [|reflexivity].
    apply find_some in E as [_ E]. rewrite Hnowin in E. discriminate. }
  destruct (List.filter (fun m => isWinningMove b (other myColor) (mx m) (my m))
                        (getLegalMoves b)) as [|w ws] eqn:Ef.
  - exfalso. pose proof (isWinningMove_playable _ _ _ _ Hopp) as Hp.
    apply (getLegalMoves_spec b (move t)) in Hp.
    assert (In (move t) []) as []. rewrite <- Ef.
    apply filter_In. split; [exact Hp | exact Hopp].
  - destruct (findBestMove_block now fuel b myColor timeLimitMs s w ws
                Hbook Hfind Ef) as (m & E & Hin).
    exists m. split; [exact E|]. rewrite <- Ef in Hin.
    apply filter_In in Hin as [_ Hin]. exact Hin.
Qed.

Lemma threatBoard_reachable : reachable threatBoard (rev threatMoves).
Proof.
  rewrite <- (app_nil_r (rev threatMoves)).
  apply playAll_reachable; [vm_compute; reflexivity | apply reach_init].
Qed.

Lemma fours_are_winning_cells_witness :
  (forall t, In t (findBlockingMoves threatBoard White) -> 500000 <= severity t ->
     isWinningMove threatBoard (other White) (mx (move t)) (my (move t)) = true) /\
  (forall now fuel timeLimitMs s t rest,
     getOpeningMove threatBoard White = None ->
     (forall x y, isWinningMove threatBoard White x y = false) ->
     findBlockingMoves threatBoard White = t :: rest -> 500000 <= severity t ->
     exists m,
       findBestMove now fuel threatBoard White timeLimitMs s =
         Some (m, threatBoard, freshEngine now timeLimitMs s) /\
       isWinningMove threatBoard (other White) (mx m) (my m) = true).
Proof.
  apply (fours_are_winning_cells threatBoard (rev threatMoves) White).
  apply threatBoard_reachable.
Defined.

Lemma threatBoard_four :
  findBlockingMoves threatBoard White =
    [mkThreat (mkMove 4 0) 500000; mkThreat (mkMove 5 0) 60000].
Proof. vm_compute. reflexivity. Qed.

(** ** A search starts from a clean engine *)

Lemma findBestMove_fresh {L : StdLibrary} now fuel board myColor timeLimitMs s s' :
  clockReads s = clockReads s' ->
  findBestMove now fuel board myColor timeLimitMs s =
  findBestMove now fuel board myColor timeLimitMs s'.
Proof.
  intros E. unfold findBestMove. cbv zeta.
  fold (freshEngine now timeLimitMs s). fold (freshEngine now timeLimitMs s').
  rewrite (freshEngine_clock now timeLimitMs s s' E). reflexivity.
Qed.

(** X23.  [findBestMove] looks at nothing an earlier search left in the
    engine: the transposition table, the killer moves, the history table,
    the deadline and the depth reached are all set anew, so two engines
    that are at the same reading of the clock give the same move, board and
    engine. *)
Theorem findBestMove_ignores_earlier_searches {L : StdLibrary} (now : nat -> Z) (fuel : nat)
    (board : Board) (myColor : Player) (timeLimitMs : Z)
    (s s' : SearchEngine) :
  clockReads s = clockReads s' ->
  findBestMove now fuel board myColor timeLimitMs s =
  findBestMove now fuel board myColor timeLimitMs s'.
Proof. apply findBestMove_fresh. Qed.

Lemma findBestMove_ignores_earlier_searches_witness :
  findBestMove steadyClock 2 afterOpening White 100 engine0 =
  findBestMove steadyClock 2 afterOpening White 100 usedEngine.
Proof.
  apply (findBestMove_ignores_earlier_searches steadyClock 2 afterOpening White
           100 engine0 usedEngine).
  reflexivity.
Defined.

(** X24.  [findBestMove] returns: when the clock stays at or past the
    deadline from its [N]-th reading on, the loop of the iterative deepening
    ends within [N] rounds. *)
Theorem findBestMove_terminates {L : StdLibrary} (now : nat -> Z) (N fuel : nat) (board : Board)
    (myColor : Player) (timeLimitMs : Z) (s : SearchEngine) :
  (forall n, (N <= n)%nat -> now (clockReads s) + timeLimitMs <= now n) ->
  (N <= fuel)%nat ->
  exists m s',
    findBestMove now (S fuel) board myColor timeLimitMs s = Some (m, board, s').
Proof.
  intros Hclock Hfuel.
  destruct (findBestMove_returns now N fuel board myColor timeLimitMs s
              Hclock Hfuel) as ([[m b'] s'] & E).
  pose proof (findBestMove_spec _ _ _ _ _ _ _ _ _ E) as [-> _].
  exists m, s'. exact E.
Qed.

Lemma findBestMove_terminates_witness :
  exists m s',
    findBestMove steadyClock (S 100) afterOpening White 100 engine0
      = Some (m, afterOpening, s').
Proof.
  apply (findBestMove_terminates steadyClock 100 100 afterOpening White 100 engine0).
  - intros n Hn. unfold steadyClock, engine0. cbn [clockReads]. lia.
  - lia.
Defined.

(** ** The driver *)

Lemma takeTurn_spec {L : StdLibrary} now fuel board myColor engine m b' e' :
  takeTurn now fuel board myColor engine = Some (m, b', e') ->
  (playable board m /\ makeMove board (mx m) (my m) = (true, b')) \/
  (getLegalMoves board = [] /\ m = mkMove 0 0 /\ b' = board).
Proof.
  unfold takeTurn.
  destruct (findBestMove now fuel board myColor 1800 engine)
    as [[[m0 b0] e0]|] eqn:E; [|discriminate].
  pose proof (findBestMove_spec _ _ _ _ _ _ _ _ _ E) as [-> Hm0].
  cbv zeta. intros H. injection H as <- <- <-.
  destruct Hm0 as [Hp|[-> _]].
  - left. destruct Hp as [Hr Ho]. pose proof Hr as Hr'. apply inRange_iff in Hr'.
    destruct (Z.ltb_spec (mx m0) 0); [lia|].
    destruct (Z.ltb_spec (my m0) 0); [lia|]. cbn [orb].
    split; [split; assumption|].
    rewrite makeMove_ok by assumption. reflexivity.
  - cbn [noMove mx my Z.ltb Z.compare orb].
    destruct (getCandidateMoves board) as [|c cs] eqn:Ec.
    + right. split; [apply getCandidateMoves_nil, Ec|]. split; [reflexivity|].
      cbn [mx my]. rewrite makeMove_rejects; [reflexivity|].
      right. pose proof (getCandidateMoves_nil board Ec) as Hnil.
      destruct (isOccupied board 0 0) eqn:Ho; [reflexivity|].
      assert (In (mkMove 0 0) (getLegalMoves board)) as Hin
        by (apply getLegalMoves_spec; split; [reflexivity | exact Ho]).
      rewrite Hnil in Hin. destruct Hin.
    + left. assert (playable board c) as [Hr Ho].
      { apply getCandidateMoves_playable. rewrite Ec. left. reflexivity. }
      split; [split; assumption|].
      rewrite makeMove_ok by assumption. reflexivity.
Qed.

(** X25.  The move [main] plays and prints on [TURN] is an empty cell of
    the board, and the board accepts it, whenever the board has an empty
    cell, also when the search ran out of time and gave (-1,-1); on a full
    board [main] prints (0,0) and the board stays as it is. *)
Theorem main_plays_a_legal_move {L : StdLibrary} (now : nat -> Z) (fuel : nat) (board : Board)
    (myColor : Player) (engine : SearchEngine)
    (m : Move) (b' : Board) (e' : SearchEngine) :
  takeTurn now fuel board myColor engine = Some (m, b', e') ->
  (getLegalMoves board <> [] ->
   inRange (mx m) (my m) = true /\ isOccupied board (mx m) (my m) = false /\
   makeMove board (mx m) (my m) = (true, b') /\
   getCellState b' (mx m) (my m) = playerIndex (sideToMove board) + 1) /\
  (getLegalMoves board = [] -> m = mkMove 0 0 /\ b' = board).
Proof.
  intros E. apply takeTurn_spec in E. split.
  - intros Hlegal. destruct E as [[[Hr Ho] Hm]|[Hnil _]]; [|contradiction].
    split; [exact Hr|]. split; [exact Ho|]. split; [exact Hm|].
    rewrite makeMove_ok in Hm by assumption. injection Hm as <-.
    apply getCellState_placed_same; assumption.
  - intros Hnil. destruct E as [[Hp _]|[_ H]]; [|exact H].
    apply getLegalMoves_spec in Hp. rewrite Hnil in Hp. destruct Hp.
Qed.

(** White's turn after Black's first move, with a clock that is past the
    deadline at its first check: the search gives (-1,-1) and [main] plays
    the first candidate. *)
Lemma main_plays_a_legal_move_witness :
  (getLegalMoves afterOpening <> [] ->
   inRange 4 4 = true /\ isOccupied afterOpening 4 4 = false /\
   makeMove afterOpening 4 4 = (true, placed afterOpening 4 4) /\
   getCellState (placed afterOpening 4 4) 4 4
     = playerIndex (sideToMove afterOpening) + 1) /\
  (getLegalMoves afterOpening = [] ->
   mkMove 4 4 = mkMove 0 0 /\ placed afterOpening 4 4 = afterOpening).
Proof.
  apply (main_plays_a_legal_move (fun n => 2000 * Z.of_nat n) 1 afterOpening White
           engine0 (mkMove 4 4) (placed afterOpening 4 4)
           (tick (freshEngine (fun n => 2000 * Z.of_nat n) 1800 engine0))).
  vm_compute. reflexivity.
Defined.

Lemma makeMove_reachable b ms x y :
  reachable b ms -> exists ms', reachable (snd (makeMove b x y)) ms'.
Proof.
  intros Hb. destruct (makeMove b x y) as [[|] b'] eqn:E; cbn [snd].
  - exists ((x, y) :: ms). eapply reach_make; eassumption.
  - exists ms. eapply reach_refused; eassumption.
Qed.

Lemma runSession_spec {L : StdLibrary} now fuel cmds : forall st st',
  (exists ms, reachable (sessionBoard st) ms) ->
  runSession now fuel cmds st = Some st' ->
  (exists ms', reachable (sessionBoard st') ms') /\
  exists new,
    sessionReplies st' = sessionReplies st ++ new /\
    Forall (fun r => match r with
                     | ReplyOK => True
                     | ReplyMove x y => inRange x y = true
                     end) new.
Proof.
  induction cmds as [|c cmds IH]; intros st st' Hb E; cbn [runSession] in E.
  - injection E as <-. split; [exact Hb|]. exists []. rewrite app_nil_r. auto.
  - destruct c as [field|x y| |field| |].
    + apply IH in E as [Hb' (new & En & Hn)]; [|exists []; apply reach_init].
      split; [exact Hb'|]. cbn [sessionReplies] in En.
      exists (ReplyOK :: new). rewrite En, <- app_assoc. split; [reflexivity|].
      constructor; [exact I | exact Hn].
    + apply IH in E as [Hb' (new & En & Hn)].
      * split; [exact Hb'|]. exists new. auto.
      * cbn [sessionBoard]. destruct Hb as [ms Hb]. eapply makeMove_reachable, Hb.
    + destruct (takeTurn now fuel (sessionBoard st) (sessionColor st)
                         (sessionEngine st)) as [[[m b1] e1]|] eqn:Et; [|discriminate].
      pose proof (takeTurn_spec _ _ _ _ _ _ _ _ Et) as Hm.
      apply IH in E as [Hb' (new & En & Hn)].
      * split; [exact Hb'|]. cbn [sessionReplies] in En.
        exists (ReplyMove (mx m) (my m) :: new). rewrite En, <- app_assoc.
        split; [reflexivity|]. constructor; [|exact Hn].
        destruct Hm as [[[Hr _] _]|(_ & -> & _)]; [exact Hr | reflexivity].
      * cbn [sessionBoard]. destruct Hb as [ms Hb].
        destruct Hm as [[_ Hmk]|(_ & _ & ->)].
        -- exists ((mx m, my m) :: ms). eapply reach_make; eassumption.
        -- exists ms. exact Hb.
    + injection E as <-. split; [exact Hb|]. exists []. rewrite app_nil_r. auto.
    + injection E as <-. split; [exact Hb|]. exists []. rewrite app_nil_r. auto.
    + apply IH in E; assumption.
Qed.

(** X27.  Whatever commands [main] reads, the board it holds is always a
    board reached in play from the starting position, and every move it
    prints has both coordinates on the board: the (-1,-1) of a search that
    ran out of time never reaches the output. *)
Theorem main_keeps_a_legal_game {L : StdLibrary} (now : nat -> Z) (fuel : nat)
    (cmds : list Command) (st st' : Session) :
  (exists ms, reachable (sessionBoard st) ms) ->
  runSession now fuel cmds st = Some st' ->
  (exists ms', reachable (sessionBoard st') ms') /\
  exists new,
    sessionReplies st' = sessionReplies st ++ new /\
    Forall (fun r => match r with
                     | ReplyOK => True
                     | ReplyMove x y => inRange x y = true
                     end) new.
Proof. apply runSession_spec. Qed.

(** A game as White against a clock that is past the deadline at its first
    check: [main] answers OK, then the first candidate. *)
Lemma main_keeps_a_legal_game_witness :
  (exists ms', reachable (placed afterOpening 4 4) ms') /\
  exists new,
    [ReplyOK; ReplyMove 4 4] = [] ++ new /\
    Forall (fun r => match r with
                     | ReplyOK => True
                     | ReplyMove x y => inRange x y = true
                     end) new.
Proof.
  apply (main_keeps_a_legal_game (fun n => 2000 * Z.of_nat n) 1
           [START 2; PLACE 7 7; TURN] session0
           (mkSession (placed afterOpening 4 4)
              (tick (freshEngine (fun n => 2000 * Z.of_nat n) 1800 engine0))
              White [ReplyOK; ReplyMove 4 4])).
  - exists []. apply reach_init.
  - vm_compute. reflexivity.
Defined.

(** ** The engine's tables during the search *)

Lemma keeps_refl s : keeps s s.
Proof. unfold keeps. auto. Qed.

Lemma keeps_trans s1 s2 s3 : keeps s1 s2 -> keeps s2 s3 -> keeps s1 s3.
Proof.
  intros (A1 & A2 & A3 & A4) (B1 & B2 & B3 & B4).
  split; [congruence|]. split; [congruence|]. split; [lia | auto].
Qed.

Lemma keeps_tick s : keeps s (tick s).
Proof.
  split; [reflexivity|]. split; [reflexivity|]. split; [cbn; lia|].
  intros H. exact H.
Qed.

Lemma history_increment_OK table m depth :
  List.length table = 144%nat ->
  Forall (fun v => INT_MIN <= v <= INT_MAX) table ->
  List.length (HistoryHeuristic.increment table m depth) = 144%nat /\
  Forall (fun v => INT_MIN <= v <= INT_MAX)
         (HistoryHeuristic.increment table m depth).
Proof.
  intros Hlen Hall. unfold HistoryHeuristic.increment.
  destruct (inRange (mx m) (my m)); [|auto]. cbv zeta.
  split; [rewrite length_insert; exact Hlen|].
  apply Forall_insert; [exact Hall | apply wrapInt_range].
Qed.

Lemma keeps_recordKiller ply m s : keeps s (recordKiller ply m s).
Proof.
  unfold recordKiller.
  destruct (ply <? MAX_PLY); [|apply keeps_refl].
  cbv zeta. destruct (negb _); [|apply keeps_refl].
  split; [reflexivity|]. split; [reflexivity|]. split; [cbn; lia|].
  intros (Ht & Hk & Hh & Hp). unfold engineOK.
  cbn [setKillerMoves transTable killerMoves history].
  rewrite length_insert. auto.
Qed.

Lemma keeps_increment s m depth :
  keeps s (setHistory s (HistoryHeuristic.increment (history s) m depth)).
Proof.
  split; [reflexivity|]. split; [reflexivity|]. split; [cbn; lia|].
  intros (Ht & Hk & Hh & Hp). unfold engineOK.
  cbn [setHistory transTable killerMoves history].
  destruct (history_increment_OK (history s) m depth Hh Hp) as [Hh' Hp']. auto.
Qed.

Lemma keeps_cutoff depth ply m s : keeps s (cutoff depth ply m s).
Proof.
  unfold cutoff. cbv zeta.
  eapply keeps_trans; [apply keeps_recordKiller | apply keeps_increment].
Qed.

Lemma boundFlag_range v a b :
  boundFlag v a b = 0 \/ boundFlag v a b = 1 \/ boundFlag v a b = 2.
Proof.
  unfold boundFlag. destruct (v <=? a); [auto|]. destruct (b <=? v); auto.
Qed.

Lemma keeps_store s key depth v a b m :
  1 <= depth ->
  keeps s (setTransTable s
             (<[ key := TTEntry.mk depth v (boundFlag v a b) m ]> (transTable s))).
Proof.
  intros Hd. split; [reflexivity|]. split; [reflexivity|]. split; [cbn; lia|].
  intros (Ht & Hk & Hh & Hp). split; [|cbn; auto].
  intros k e. cbn [setTransTable transTable].
  destruct (decide (k = key)) as [->|Hne].
  - rewrite lookup_insert_eq. intros E. inversion E; subst.
    split; [exact Hd | apply boundFlag_range].
  - rewrite lookup_insert_ne by congruence. apply Ht.
Qed.

Section KeepFacts.
Variable now : nat -> Z.
Context {L : StdLibrary}.

Lemma keepsEngine_eq child board alpha beta s val board' s' :
  keepsEngine child -> child board alpha beta s = (val, board', s') ->
  keeps s s'.
Proof. intros Hch E. specialize (Hch board alpha beta s). rewrite E in Hch. exact Hch. Qed.

Lemma maxLoop_keeps child depth ply moves :
  keepsEngine child ->
  forall board alpha beta bestValue bestMove s r board' s',
    maxLoop now child depth ply moves board alpha beta bestValue bestMove s
      = (r, board', s') ->
    keeps s s'.
Proof.
  intros Hch. induction moves as [|m moves IH];
    intros board alpha beta bestValue bestMove s r board' s' E;
    cbn [maxLoop] in E.
  - injection E as <- <- <-. apply keeps_refl.
  - unfold timeUp in E. cbv beta iota in E.
    destruct (timeEnd s <=? now (clockReads s)).
    { injection E as <- <- <-. apply keeps_tick. }
    destruct (child (snd (makeMove board (mx m) (my m))) alpha beta (tick s))
      as [[val b1] s1] eqn:Ech.
    apply (keepsEngine_eq child) in Ech; [|exact Hch].
    assert (keeps s (tick s1)) as Hts1.
    { eapply keeps_trans; [apply keeps_tick|].
      eapply keeps_trans; [exact Ech | apply keeps_tick]. }
    destruct (timeEnd s1 <=? now (clockReads s1)).
    { injection E as <- <- <-. exact Hts1. }
    destruct (beta <=? _).
    + injection E as <- <- <-.
      eapply keeps_trans; [exact Hts1 | apply keeps_cutoff].
    + apply IH in E. eapply keeps_trans; [exact Hts1 | exact E].
Qed.

Lemma minLoop_keeps child depth ply moves :
  keepsEngine child ->
  forall board alpha beta bestValue bestMove s r board' s',
    minLoop now child depth ply moves board alpha beta bestValue bestMove s
      = (r, board', s') ->
    keeps s s'.
Proof.
  intros Hch. induction moves as [|m moves IH];
    intros board alpha beta bestValue bestMove s r board' s' E;
    cbn [minLoop] in E.
  - injection E as <- <- <-. apply keeps_refl.
  - unfold timeUp in E. cbv beta iota in E.
    destruct (timeEnd s <=? now (clockReads s)).
    { injection E as <- <- <-. apply keeps_tick. }
    destruct (child (snd (makeMove board (mx m) (my m))) alpha beta (tick s))
      as [[val b1] s1] eqn:Ech.
    apply (keepsEngine_eq child) in Ech; [|exact Hch].
    assert (keeps s (tick s1)) as Hts1.
    { eapply keeps_trans; [apply keeps_tick|].
      eapply keeps_trans; [exact Ech | apply keeps_tick]. }
    destruct (timeEnd s1 <=? now (clockReads s1)).
    { injection E as <- <- <-. exact Hts1. }
    destruct (_ <=? alpha).
    + injection E as <- <- <-.
      eapply keeps_trans; [exact Hts1 | apply keeps_cutoff].
    + apply IH in E. eapply keeps_trans; [exact Hts1 | exact E].
Qed.

Lemma expand_keeps child board depth alpha beta currentPlayer myColor ply key s
    val board' s' :
  keepsEngine child -> 1 <= depth ->
  expand now child board depth alpha beta currentPlayer myColor ply key s
    = (val, board', s') ->
  keeps s s'.
Proof.
  intros Hch Hd E. unfold expand in E.
  destruct (getCandidateMoves board) eqn:Ec.
  { injection E as <- <- <-. apply keeps_refl. }
  destruct (orderMoves board currentPlayer myColor ply s) as [ordered b0].
  destruct (Player_eqb currentPlayer myColor).
  - destruct (maxLoop now child depth ply ordered b0 alpha beta INT_MIN noMove s)
      as [[r b1] s1] eqn:El.
    apply (maxLoop_keeps child depth ply ordered Hch) in El.
    destruct r; injection E as <- <- <-; [exact El|].
    eapply keeps_trans; [exact El | apply keeps_store, Hd].
  - destruct (minLoop now child depth ply ordered b0 alpha beta INT_MAX noMove s)
      as [[r b1] s1] eqn:El.
    apply (minLoop_keeps child depth ply ordered Hch) in El.
    destruct r; injection E as <- <- <-; [exact El|].
    eapply keeps_trans; [exact El | apply keeps_store, Hd].
Qed.

Lemma alphaBetaFuel_keeps fuel :
  forall depth currentPlayer myColor ply,
    keepsEngine (fun board alpha beta s =>
      alphaBetaFuel now fuel board depth alpha beta currentPlayer myColor ply s).
Proof.
  induction fuel as [|fuel IH]; intros depth currentPlayer myColor ply
    board alpha beta s.
  - cbn [alphaBetaFuel]. unfold timeUp. cbv beta iota.
    repeat match goal with
           | |- context [if ?c then _ else _] => destruct c
           end; cbn [fst snd]; apply keeps_tick.
  - destruct (alphaBetaFuel now (S fuel) board depth alpha beta currentPlayer
                myColor ply s) as [[val b'] s'] eqn:E.
    cbn [fst snd]. cbn [alphaBetaFuel] in E. unfold timeUp in E.
    cbv beta iota in E.
    destruct (timeEnd s <=? now (clockReads s));
      [injection E as <- <- <-; apply keeps_tick|].
    destruct (checkWin board myColor);
      [injection E as <- <- <-; apply keeps_tick|].
    cbv zeta in E.
    destruct (checkWin board _);
      [injection E as <- <- <-; apply keeps_tick|].
    destruct (Z.leb_spec depth 0);
      [injection E as <- <- <-; apply keeps_tick|].
    destruct (probe _ depth alpha beta) as [sc|alpha' beta'];
      [injection E as <- <- <-; apply keeps_tick|].
    apply expand_keeps in E; [|apply IH|lia].
    eapply keeps_trans; [apply keeps_tick | exact E].
Qed.

End KeepFacts.

Lemma freshEngine_OK now timeLimitMs s : engineOK (freshEngine now timeLimitMs s).
Proof.
  unfold engineOK, freshEngine.
  cbn [setKillerMoves setHistory setTransTable transTable killerMoves history].
  split; [intros key e H; rewrite lookup_empty in H; discriminate|].
  split; [reflexivity|]. split; [reflexivity|].
  apply Forall_replicate. unfold INT_MIN, INT_MAX. lia.
Qed.

(** X26.  [alphaBeta] reads the clock at least once and leaves the deadline
    and the depth reported as they are.  It keeps the shape of the engine's
    tables: if before the call every transposition entry has a depth of at
    least 1 and a flag among 0, 1 and 2, the killer table has its 64 rows and
    the history table its 144 scores, each in the range of [int] (not
    necessarily positive: a bonus depth * depth that overflows wraps
    around), then the same holds after the call.  The engine
    [findBestMove] starts the search with has this shape. *)
Theorem alphaBeta_keeps_the_engine {L : StdLibrary} (now : nat -> Z) (board : Board)
    (depth alpha beta : Z) (currentPlayer myColor : Player) (ply : Z)
    (s : SearchEngine) (val : Z) (board' : Board) (s' : SearchEngine) :
  alphaBeta now board depth alpha beta currentPlayer myColor ply s
    = (val, board', s') ->
  timeEnd s' = timeEnd s /\
  maxDepthReached s' = maxDepthReached s /\
  (clockReads s < clockReads s')%nat /\
  (engineOK s -> engineOK s') /\
  (forall timeLimitMs s0, engineOK (freshEngine now timeLimitMs s0)).
Proof.
  intros E. unfold alphaBeta in E.
  assert (keeps (tick s) s') as (H1 & H2 & H3 & H4).
  { destruct (Z.to_nat depth) as [|fuel]; cbn [alphaBetaFuel] in E;
      unfold timeUp in E; cbv beta iota in E.
    - repeat match type of E with
             | context [if ?c then _ else _] => destruct c
             end; injection E as <- <- <-; apply keeps_refl.
    - destruct (timeEnd s <=? now (clockReads s));
        [injection E as <- <- <-; apply keeps_refl|].
      destruct (checkWin board myColor);
        [injection E as <- <- <-; apply keeps_refl|].
      cbv zeta in E.
      destruct (checkWin board _);
        [injection E as <- <- <-; apply keeps_refl|].
      destruct (Z.leb_spec depth 0);
        [injection E as <- <- <-; apply keeps_refl|].
      destruct (probe _ depth alpha beta) as [sc|alpha' beta'];
        [injection E as <- <- <-; apply keeps_refl|].
      apply expand_keeps in E; [exact E | apply alphaBetaFuel_keeps | lia]. }
  cbn [tick timeEnd maxDepthReached clockReads] in H1, H2, H3.
  split; [exact H1|]. split; [exact H2|]. split; [lia|].
  split; [|intros; apply freshEngine_OK].
  intros Hok. apply H4. exact Hok.
Qed.

(** White's node after Black's first move, remaining depth 1. *)
Lemma alphaBeta_keeps_the_engine_witness :
  let r := alphaBeta steadyClock afterOpening 1 (INT_MIN + 1) (INT_MAX - 1)
                     White White 0 (searchingEngine ∅) in
  timeEnd (snd r) = timeEnd (searchingEngine ∅) /\
  maxDepthReached (snd r) = maxDepthReached (searchingEngine ∅) /\
  (clockReads (searchingEngine ∅) < clockReads (snd r))%nat /\
  (engineOK (searchingEngine ∅) -> engineOK (snd r)) /\
  (forall timeLimitMs s0, engineOK (freshEngine steadyClock timeLimitMs s0)).
Proof.
  intros r.
  apply (alphaBeta_keeps_the_engine steadyClock afterOpening 1 (INT_MIN + 1)
           (INT_MAX - 1) White White 0 (searchingEngine ∅)
           (fst (fst r)) (snd (fst r)) (snd r)).
  subst r. destruct (alphaBeta _ _ _ _ _ _ _ _ _) as [[val b'] s']. reflexivity.
Defined.

(** ** The runs [evaluatePlayer] scans *)

Section Runs.
Variable grid : Z -> Z -> Z.
Variable ctx : LineContext.t.

Lemma runEnd_spec fuel : forall j,
  j <= runEnd fuel grid ctx j /\
  (forall k, j <= k < runEnd fuel grid ctx j ->
     k < LineContext.length ctx /\ cellAt grid ctx k = 1) /\
  (LineContext.length ctx - j <= Z.of_nat fuel ->
   ~ (runEnd fuel grid ctx j < LineContext.length ctx /\
      cellAt grid ctx (runEnd fuel grid ctx j) = 1)).
Proof.
  induction fuel as [|fuel IH]; intros j; cbn [runEnd].
  - split; [lia|]. split; [intros k Hk; lia|]. intros Hf [H _]. lia.
  - destruct (Z.ltb_spec j (LineContext.length ctx)) as [Hlt|Hge]; cbn [andb].
    + destruct (Z.eqb_spec (cellAt grid ctx j) 1) as [E|Hne].
      * destruct (IH (j + 1)) as (H1 & H2 & H3). split; [lia|]. split.
        -- intros k Hk. destruct (Z.eq_dec k j) as [->|]; [auto|]. apply H2. lia.
        -- intros Hf. apply H3. lia.
      * split; [lia|]. split; [intros k Hk; lia|]. intros _ [_ H]. contradiction.
    + split; [lia|]. split; [intros k Hk; lia|]. intros _ [H _]. lia.
Qed.

Lemma recordRun_longest r count l ro :
  EvalResult.longestRun (recordRun r count l ro) =
  Z.max (EvalResult.longestRun r) count.
Proof.
  unfold recordRun. cbn [EvalResult.longestRun].
  destruct (Z.ltb_spec (EvalResult.longestRun r) count); cbn [orb]; [lia|].
  destruct (Z.eqb_spec count (EvalResult.longestRun r)); cbn [andb]; [|lia].
  destruct (_ <? _); lia.
Qed.

Lemma scanRuns_mono fuel : forall i r,
  EvalResult.longestRun r <= EvalResult.longestRun (scanRuns fuel grid ctx i r).
Proof.
  induction fuel as [|fuel IH]; intros i r; cbn [scanRuns]; [lia|].
  destruct (i <? LineContext.length ctx); [|lia].
  destruct (cellAt grid ctx i =? 1); [|apply IH]. cbv zeta.
  etransitivity; [|apply IH]. rewrite recordRun_longest. lia.
Qed.

(** What the scan records is the length of a run of the line. *)
Lemma scanRuns_sound fuel : forall i r,
  0 <= i ->
  EvalResult.longestRun (scanRuns fuel grid ctx i r) = EvalResult.longestRun r \/
  exists a,
    0 <= a /\
    a + EvalResult.longestRun (scanRuns fuel grid ctx i r)
      <= LineContext.length ctx /\
    forall k, a <= k < a + EvalResult.longestRun (scanRuns fuel grid ctx i r) ->
      cellAt grid ctx k = 1.
Proof.
  induction fuel as [|fuel IH]; intros i r Hi; cbn [scanRuns]; [auto|].
  destruct (Z.ltb_spec i (LineContext.length ctx)) as [Hlt|Hge]; [|auto].
  destruct (Z.eqb_spec (cellAt grid ctx i) 1) as [E|Hne]; [|apply IH; lia].
  cbv zeta. destruct (runEnd_spec 12 i) as (H1 & H2 & _).
  set (j := runEnd 12 grid ctx i) in *.
  set (r1 := recordRun r (j - i) _ _).
  destruct (IH j r1 ltac:(lia)) as [Eq|Hex]; [|right; exact Hex].
  rewrite Eq. unfold r1. rewrite recordRun_longest.
  destruct (Z.max_spec (EvalResult.longestRun r) (j - i)) as [[_ ->]|[_ ->]];
    [|left; reflexivity].
  right. exists i. split; [exact Hi|].
  assert (j <= LineContext.length ctx).
  { destruct (Z.eq_dec j i) as [->|]; [lia|].
    destruct (H2 (j - 1) ltac:(lia)). lia. }
  split; [lia|]. intros k Hk. apply H2. lia.
Qed.

(** The scan sees every run of the line. *)
Lemma scanRuns_complete a n :
  1 <= n -> a + n <= LineContext.length ctx -> LineContext.length ctx <= 12 ->
  (forall k, a <= k < a + n -> cellAt grid ctx k = 1) ->
  forall fuel i r,
    0 <= i <= a -> LineContext.length ctx - i <= Z.of_nat fuel ->
    n <= EvalResult.longestRun (scanRuns fuel grid ctx i r).
Proof.
  intros Hn Hlen H12 Hrun.
  induction fuel as [|fuel IH]; intros i r Hi Hf; cbn [scanRuns]; [lia|].
  destruct (Z.ltb_spec i (LineContext.length ctx)) as [Hlt|Hge]; [|lia].
  destruct (Z.eqb_spec (cellAt grid ctx i) 1) as [E|Hne].
  - cbv zeta. destruct (runEnd_spec 12 i) as (H1 & H2 & H3).
    set (j := runEnd 12 grid ctx i) in *.
    assert (i < j).
    { destruct (Z.eq_dec j i) as [Ej|]; [|lia]. exfalso.
      apply H3; [lia|]. rewrite Ej. auto. }
    destruct (Z.le_gt_cases j a) as [Hja|Hja].
    + apply IH; lia.
    + etransitivity; [|apply scanRuns_mono]. rewrite recordRun_longest.
      assert (a + n <= j); [|lia].
      destruct (Z.le_gt_cases (a + n) j) as [|Hlt']; [assumption|]. exfalso.
      apply H3; [lia|]. split; [lia|]. apply Hrun. lia.
  - apply IH; [|lia]. destruct (Z.eq_dec i a) as [->|]; [|lia].
    exfalso. apply Hne, Hrun. lia.
Qed.

End Runs.

Lemma allLines_length ctx :
  In ctx allLines -> 0 <= LineContext.length ctx <= 12.
Proof.
  intros H. apply allLines_cases in H.
  destruct H as [(y & _ & ->)|[(x & _ & ->)|[(k & Hk & ->)|(s & Hs & ->)]]];
    cbn [LineContext.length]; lia.
Qed.

(** *** The score [evaluatePlayer] adds up *)

Lemma patternScore_bound count l r :
  0 <= count ->
  0 <= patternScore count l r <= 20000000 * count /\
  exists q, patternScore count l r = 100 * q.
Proof.
  intros Hc. unfold patternScore.
  destruct l, r; cbn [andb orb];
    repeat match goal with
    | |- context [?a <=? ?b] => destruct (Z.leb_spec a b)
    | |- context [?a =? ?b] => destruct (Z.eqb_spec a b)
    end; cbn [andb];
    (split; [lia|]);
    first [ exists 1000000; reflexivity | exists 100000; reflexivity
          | exists 10000; reflexivity | exists 1000; reflexivity
          | exists 100; reflexivity | exists 10; reflexivity
          | exists 1; reflexivity | exists 0; reflexivity ].
Qed.

Section Scores.
Variable grid : Z -> Z -> Z.
Variable ctx : LineContext.t.
Hypothesis ctx_length : LineContext.length ctx <= 12.

Lemma runEnd_le fuel : forall j,
  j <= LineContext.length ctx -> runEnd fuel grid ctx j <= LineContext.length ctx.
Proof.
  induction fuel as [|fuel IH]; intros j Hj; cbn [runEnd]; [exact Hj|].
  destruct (Z.ltb_spec j (LineContext.length ctx)); cbn [andb]; [|exact Hj].
  destruct (cellAt grid ctx j =? 1); [apply IH; lia | exact Hj].
Qed.

Lemma recordRun_score r t count l ro :
  scoreIs r t -> 0 <= count <= 12 ->
  scoreIs (recordRun r count l ro) (t + patternScore count l ro).
Proof.
  intros (Es & Hl & Ho) Hc. unfold scoreIs, recordRun.
  cbn [EvalResult.patternScore EvalResult.longestRun EvalResult.longestOpenEnds].
  rewrite Es, wrapInt_add_l. split; [reflexivity|].
  destruct (_ || _); destruct l, ro; lia.
Qed.

Lemma scanRuns_score fuel : forall i r t,
  0 <= i <= LineContext.length ctx -> scoreIs r t ->
  exists t',
    scoreIs (scanRuns fuel grid ctx i r) t' /\
    t <= t' <= t + 20000000 * (LineContext.length ctx - i) /\
    exists q, t' - t = 100 * q.
Proof.
  induction fuel as [|fuel IH]; intros i r t Hi Hr; cbn [scanRuns].
  { exists t. split; [exact Hr|]. split; [lia|]. exists 0. lia. }
  destruct (Z.ltb_spec i (LineContext.length ctx)) as [Hlt|Hge].
  2:{ exists t. split; [exact Hr|]. split; [lia|]. exists 0. lia. }
  destruct (cellAt grid ctx i =? 1).
  - cbv zeta. destruct (runEnd_spec grid ctx 12 i) as (H1 & _ & _).
    pose proof (runEnd_le 12 i ltac:(lia)) as H2.
    set (j := runEnd 12 grid ctx i) in *.
    set (l := (0 <=? i - 1) && (cellAt grid ctx (i - 1) =? 0)).
    set (ro := (j <? LineContext.length ctx) && (cellAt grid ctx j =? 0)).
    destruct (patternScore_bound (j - i) l ro ltac:(lia)) as [Hb [q Hq]].
    destruct (IH j (recordRun r (j - i) l ro) (t + patternScore (j - i) l ro))
      as (t' & Hs & Ht & [q' Hq']); [lia | apply recordRun_score; [exact Hr | lia]|].
    exists t'. split; [exact Hs|]. split; [lia|]. exists (q + q'). lia.
  - destruct (IH (i + 1) r t) as (t' & Hs & Ht & Hq); [lia | exact Hr|].
    exists t'. split; [exact Hs|]. split; [lia | exact Hq].
Qed.

End Scores.

#[local] Transparent evaluate.

Lemma evaluatePlayer_score board player :
  exists t,
    scoreIs (evaluatePlayer board player) t /\
    0 <= t <= 11520000000 /\ exists q, t = 100 * q.
Proof.
  unfold evaluatePlayer. cbv zeta.
  set (grid := playerGrid board player).
  assert (forall lines r t,
            (forall ctx, In ctx lines -> 0 <= LineContext.length ctx <= 12) ->
            scoreIs r t ->
            exists t',
              scoreIs (fold_left (fun r ctx => scanRuns 12 grid ctx 0 r) lines r) t' /\
              t <= t' <= t + 20000000 * fold_right Z.add 0 (map LineContext.length lines) /\
              exists q, t' - t = 100 * q) as Hfold.
  { induction lines as [|ctx lines IH]; intros r t Hlen Hr; cbn [fold_left map fold_right].
    - exists t. split; [exact Hr|]. split; [lia|]. exists 0. lia.
    - pose proof (Hlen ctx ltac:(left; reflexivity)) as Hc.
      destruct (scanRuns_score grid ctx ltac:(lia) 12 0 r t ltac:(lia) Hr)
        as (t1 & Hs1 & Ht1 & [q1 Hq1]).
      destruct (IH (scanRuns 12 grid ctx 0 r) t1) as (t' & Hs & Ht & [q Hq]);
        [intros c Hin; apply Hlen; right; exact Hin | exact Hs1|].
      exists t'. split; [exact Hs|].
      assert (0 <= fold_right Z.add 0 (map LineContext.length lines)).
      { clear - Hlen. induction lines as [|c lines IH]; cbn; [lia|].
        pose proof (Hlen c ltac:(right; left; reflexivity)).
        assert (0 <= fold_right Z.add 0 (map LineContext.length lines)); [|lia].
        apply IH. intros c0 [->|Hin]; apply Hlen; [left; reflexivity|].
        right. right. exact Hin. }
      split; [lia|]. exists (q1 + q). lia. }
  destruct (Hfold allLines (EvalResult.mk 0 0 0 false) 0) as (t & Hs & Ht & [q Hq]).
  - intros ctx. apply allLines_length.
  - unfold scoreIs. cbn. split; [reflexivity | lia].
  - exists t. split; [exact Hs|].
    assert (fold_right Z.add 0 (map LineContext.length allLines) = 576) as E
      by (vm_compute; reflexivity).
    rewrite E in Ht. split; [lia|]. exists q. lia.
Qed.

Lemma longestBias_bound r :
  0 <= EvalResult.longestRun r <= 12 -> 0 <= EvalResult.longestOpenEnds r <= 2 ->
  0 <= longestBias r <= 904000 /\ exists k, longestBias r = 100 * k.
Proof.
  intros Hl Ho. unfold longestBias. cbv zeta.
  set (n := EvalResult.longestRun r) in *.
  set (o := EvalResult.longestOpenEnds r) in *.
  split; [|exists (5 * n * n * n + 200 * o); ring].
  assert (0 <= n * n <= 144) by nia.
  assert (0 <= n * n * n <= 1728) by nia. lia.
Qed.

(** X16.  [evaluate] is zero-sum: the value of a board for one side is the
    opposite of its value for the other side.  The sums are those of the
    program, reduced into the range of [int]; they never reach the lowest
    [int], the only value whose opposite is not an [int]. *)
Theorem evaluate_zero_sum (b : Board) (p : Player) :
  evaluate b (other p) = - evaluate b p.
Proof.
  unfold evaluate. cbv zeta.
  replace (match other p with Black => White | White => Black end) with p
    by (destruct p; reflexivity).
  replace (match p with Black => White | White => Black end) with (other p)
    by (destruct p; reflexivity).
  destruct (evaluatePlayer_score b p) as (t1 & (E1 & Hl1 & Ho1) & Ht1 & [q1 Hq1]).
  destruct (evaluatePlayer_score b (other p))
    as (t2 & (E2 & Hl2 & Ho2) & Ht2 & [q2 Hq2]).
  destruct (EvalResult.hasOpenFourDouble (evaluatePlayer b p)),
    (EvalResult.hasOpenFourDouble (evaluatePlayer b (other p)));
    cbn [andb negb]; try lia.
  all: rewrite E1, E2, !wrapInt_sub_l, !wrapInt_sub_r, !wrapInt_add_l.
  all: destruct (longestBias_bound (evaluatePlayer b p) Hl1 Ho1)
         as (Hs1 & k1 & Hk1).
  all: destruct (longestBias_bound (evaluatePlayer b (other p)) Hl2 Ho2)
         as (Hs2 & k2 & Hk2).
  all: set (s1 := longestBias (evaluatePlayer b p)) in *.
  all: set (s2 := longestBias (evaluatePlayer b (other p))) in *.
  all: replace (t2 - t1 + (s2 - s1)) with (- (t1 - t2 + (s1 - s2))) by lia.
  all: apply wrapInt_opp.
  all: destruct (wrapInt_modulo (t1 - t2 + (s1 - s2))) as [k Ek].
  all: pose proof (wrapInt_range (t1 - t2 + (s1 - s2))) as Hr.
  all: unfold INT_MIN, INT_MAX in *; lia.
Qed.

#[global] Opaque evaluate.

Lemma scanLines_mono grid lines : forall r,
  EvalResult.longestRun r <=
  EvalResult.longestRun
    (fold_left (fun r ctx => scanRuns 12 grid ctx 0 r) lines r).
Proof.
  induction lines as [|ctx lines IH]; intros r; cbn [fold_left]; [lia|].
  etransitivity; [|apply IH]. apply scanRuns_mono.
Qed.

Lemma scanLines_sound grid lines : forall r,
  let r' := fold_left (fun r ctx => scanRuns 12 grid ctx 0 r) lines r in
  EvalResult.longestRun r' = EvalResult.longestRun r \/
  exists ctx a,
    In ctx lines /\ 0 <= a /\
    a + EvalResult.longestRun r' <= LineContext.length ctx /\
    forall k, a <= k < a + EvalResult.longestRun r' -> cellAt grid ctx k = 1.
Proof.
  induction lines as [|ctx lines IH]; intros r; cbn [fold_left]; [auto|].
  cbv zeta. destruct (IH (scanRuns 12 grid ctx 0 r)) as [Eq|(c & a & Hc & H)].
  - rewrite Eq.
    destruct (scanRuns_sound grid ctx 12 0 r ltac:(lia)) as [Eq'|(a & H)];
      [left; exact Eq'|].
    right. exists ctx, a. split; [left; reflexivity | exact H].
  - right. exists c, a. split; [right; exact Hc | exact H].
Qed.

Lemma scanLines_complete grid lines ctx a n :
  In ctx lines -> 0 <= a -> 1 <= n ->
  a + n <= LineContext.length ctx -> LineContext.length ctx <= 12 ->
  (forall k, a <= k < a + n -> cellAt grid ctx k = 1) ->
  forall r,
    n <= EvalResult.longestRun
           (fold_left (fun r ctx => scanRuns 12 grid ctx 0 r) lines r).
Proof.
  intros Hin Ha Hn Hlen H12 Hrun.
  induction lines as [|c lines IH]; intros r; [destruct Hin|].
  cbn [fold_left]. destruct Hin as [->|Hin]; [|apply IH, Hin].
  etransitivity; [|apply scanLines_mono].
  apply (scanRuns_complete grid ctx a n); try assumption; lia.
Qed.

Lemma playerGrid_own b p x y :
  playerGrid b p y x = 1 <-> getCellState b x y = playerIndex p + 1.
Proof.
  unfold playerGrid. cbv zeta.
  destruct (Z.eqb_spec (getCellState b x y) 0) as [E|Hne].
  - rewrite E. destruct p; cbn; split; discriminate.
  - destruct (Z.eqb_spec (getCellState b x y) 1) as [E1|Hn1];
      destruct (Z.eqb_spec (getCellState b x y) 2) as [E2|Hn2];
      destruct p; cbn; split; intros; try congruence; try lia.
Qed.

Lemma longestRun_five b p :
  5 <= EvalResult.longestRun (evaluatePlayer b p) <-> fiveInRowState b p.
Proof.
  unfold evaluatePlayer. cbv zeta. split.
  - intros H5.
    destruct (scanLines_sound (playerGrid b p) allLines (EvalResult.mk 0 0 0 false))
      as [Eq|(ctx & a & Hctx & Ha & Hlen & Hrun)]; cbv zeta in *.
    { rewrite Eq in H5. cbn in H5. lia. }
    exists (LineContext.xStart ctx + a * LineContext.dx ctx),
           (LineContext.yStart ctx + a * LineContext.dy ctx),
           (LineContext.dx ctx), (LineContext.dy ctx), 5.
    split; [apply (allLines_full ctx Hctx)|]. split; [lia|].
    intros k Hk. apply playerGrid_own.
    specialize (Hrun (a + k) ltac:(lia)). unfold cellAt in Hrun.
    rewrite <- Hrun. f_equal; ring.
  - intros (x & y & dx & dy & n & Hd & Hn & Hrow).
    assert (isWindow (mkWindow x y dx dy)) as Hw.
    { split; [exact Hd|]. unfold winCell. cbn [wx wy wdx wdy fst snd].
      pose proof (Hrow 0 ltac:(lia)) as H0. pose proof (Hrow 4 ltac:(lia)) as H4.
      split; apply (getCellState_on_board b); [rewrite H0 | rewrite H4];
        destruct p; discriminate. }
    destruct (window_on_line _ Hw) as (ctx & i & Hctx & Hi & Hlen & Ew).
    apply (scanLines_complete (playerGrid b p) allLines ctx i 5);
      try assumption; try lia; [apply allLines_length, Hctx|].
    intros k Hk. unfold cellAt. apply playerGrid_own.
    unfold windowOf in Ew. injection Ew as Ex Ey Edx Edy.
    specialize (Hrow (k - i) ltac:(lia)). rewrite <- Hrow.
    rewrite <- Ex, <- Ey, <- Edx, <- Edy. f_equal; ring.
Qed.

(** X28.  The scan of [evaluatePlayer] and [checkWin] agree on a board
    reached in play: the longest run [evaluatePlayer] reports for a player
    has five stones or more exactly when [checkWin] holds for this player.
    The longest run is never negative. *)
Theorem longestRun_agrees_with_checkWin (b : Board) (ms : list (Z * Z))
    (p : Player) :
  reachable b ms ->
  (5 <= EvalResult.longestRun (evaluatePlayer b p) <-> checkWin b p = true) /\
  0 <= EvalResult.longestRun (evaluatePlayer b p).
Proof.
  intros Hreach. apply reachable_played, played_disjoint in Hreach. split.
  - rewrite longestRun_five, checkWin_five. symmetry.
    apply fiveInRow_state, Hreach.
  - unfold evaluatePlayer. cbv zeta.
    apply (scanLines_mono (playerGrid b p) allLines (EvalResult.mk 0 0 0 false)).
Qed.

Lemma longestRun_agrees_with_checkWin_witness :
  (5 <= EvalResult.longestRun (evaluatePlayer (placed fourBoard 4 0) Black) <->
   checkWin (placed fourBoard 4 0) Black = true) /\
  0 <= EvalResult.longestRun (evaluatePlayer (placed fourBoard 4 0) Black).
Proof.
  apply (longestRun_agrees_with_checkWin (placed fourBoard 4 0)
           ((4, 0) :: rev fourMoves) Black).
  eapply reach_make; [apply fourBoard_reachable|].
  apply makeMove_ok; vm_compute; reflexivity.
Defined.

Lemma longestRun_example :
  EvalResult.longestRun (evaluatePlayer (placed fourBoard 4 0) Black) = 5 /\
  EvalResult.longestRun (evaluatePlayer fourBoard Black) = 4 /\
  EvalResult.longestRun (evaluatePlayer initialBoard Black) = 2.
Proof. repeat split; vm_compute; reflexivity. Qed.

(** * The test programs on the model *)

(** ** The expectations of [tests/threat_solver_test.cpp] *)

Lemma testNoThreats_passes : findBlockingMoves initialBoard Black = [].
Proof. vm_compute. reflexivity. Qed.

Lemma testOpenFourBlocksBothEnds_passes :
  exists board fillers,
    placeStones [(White, 3, 0); (White, 4, 0); (White, 5, 0); (White, 6, 0)]
      = Some (board, fillers) /\
    let moves := findBlockingMoves board Black in
    (2 <= List.length moves)%nat /\
    findSeverity moves 2 0 = 1000000 /\
    findSeverity moves 7 0 = 1000000 /\
    severity (List.last moves (mkThreat noMove 0))
      <= severity (List.hd (mkThreat noMove 0) moves).
Proof.
  eexists _, _. split; [vm_compute; reflexivity|].
  vm_compute. repeat split; try discriminate. lia.
Qed.

Lemma testSimpleFourHasSingleBlock_passes :
  exists board fillers,
    placeStones [(White, 0, 1); (White, 1, 1); (White, 2, 1); (White, 3, 1)]
      = Some (board, fillers) /\
    findSeverity (findBlockingMoves board Black) 4 1 = 500000.
Proof.
  eexists _, _. split; [vm_compute; reflexivity|].
  vm_compute. reflexivity.
Qed.

Lemma testOpenThreeFindsBothGaps_passes :
  exists board fillers,
    placeStones [(Black, 4, 2); (Black, 5, 2); (Black, 6, 2)]
      = Some (board, fillers) /\
    findSeverity (findBlockingMoves board White) 3 2 = 120000 /\
    findSeverity (findBlockingMoves board White) 7 2 = 120000.
Proof.
  eexists _, _. split; [vm_compute; reflexivity|].
  split; vm_compute; reflexivity.
Qed.

Lemma testBrokenThreeOneOpenEnd_passes :
  exists board fillers,
    placeStones [(Black, 2, 8); (White, 3, 8); (White, 4, 8); (White, 6, 8)]
      = Some (board, fillers) /\
    findSeverity (findBlockingMoves board Black) 5 8 = 60000 /\
    findSeverity (findBlockingMoves board Black) 7 8 = 60000.
Proof.
  eexists _, _. split; [vm_compute; reflexivity|].
  split; vm_compute; reflexivity.
Qed.

Lemma testSeverityKeepsBestValuePerCell_passes :
  exists board fillers,
    placeStones [(White, 4, 7); (White, 4, 8); (White, 4, 9); (White, 4, 10);
                 (White, 5, 11); (White, 6, 11); (White, 7, 11)]
      = Some (board, fillers) /\
    findSeverity (findBlockingMoves board Black) 4 11 = 500000 /\
    findSeverity (findBlockingMoves board Black) 8 11 = 120000.
Proof.
  eexists _, _. split; [vm_compute; reflexivity|].
  split; vm_compute; reflexivity.
Qed.

(** ** The expectations of [tests/search_tactical_test.cpp]

    Both answers come from the tests before the search, so they hold for
    every clock and every engine. *)

Lemma testImmediateWinChosen_passes {L : StdLibrary} now fuel engine :
  exists board0 fillers0 board fillers engine',
    placeStones [(White, 5, 4); (White, 6, 4); (White, 7, 4); (White, 8, 4);
                 (Black, 9, 4)] = Some (board0, fillers0) /\
    syncTurn board0 White fillers0 = Some (board, fillers) /\
    findBestMove now fuel board White 500 engine
      = Some (mkMove 4 4, board, engine').
Proof.
  eexists _, _, _, _, _. split; [vm_compute; reflexivity|].
  split; [vm_compute; reflexivity|].
  apply findBestMove_win; vm_compute; reflexivity.
Qed.

Lemma testBlocksOpponentImmediateWin_passes {L : StdLibrary} now fuel engine :
  exists board0 fillers0 board fillers engine',
    placeStones [(Black, 6, 7); (Black, 7, 6); (Black, 8, 5); (Black, 9, 4);
                 (White, 10, 3)] = Some (board0, fillers0) /\
    syncTurn board0 White fillers0 = Some (board, fillers) /\
    findBestMove now fuel board White 500 engine
      = Some (mkMove 5 8, board, engine').
Proof.
  eexists _, _, _, _, _. split; [vm_compute; reflexivity|].
  split; [vm_compute; reflexivity|].
  match goal with
  | |- findBestMove _ _ ?b _ _ _ = _ =>
      destruct (findBestMove_block now fuel b White 500 engine (mkMove 5 8) [])
        as (m & E & [<-|[]]); [vm_compute; reflexivity..|exact E]
  end.
Qed.

(** ** The self-play harness *)

Lemma findBestMove_returns_from {L : StdLibrary} now (K : nat) fuel board myColor timeLimitMs s :
  (forall n, (clockReads s + K <= n)%nat ->
             now (clockReads s) + timeLimitMs <= now n) ->
  (K <= S fuel)%nat ->
  exists r, findBestMove now (S fuel) board myColor timeLimitMs s = Some r.
Proof.
  intros Hclock Hfuel. unfold findBestMove. cbv zeta.
  fold (freshEngine now timeLimitMs s).
  destruct (getOpeningMove board myColor); [eexists; reflexivity|].
  destruct (find _ (getLegalMoves board)); [eexists; reflexivity|].
  destruct (List.filter _ (getLegalMoves board)).
  2:{ destruct (pickBlock _ _ _). eexists; reflexivity. }
  destruct (match findBlockingMoves board myColor with
            | [] => false
            | t :: _ => 500000 <=? severity t
            end); [eexists; reflexivity|].
  unfold searchRoot. cbv zeta.
  pose proof (orderMoves_spec board myColor myColor 0 (freshEngine now timeLimitMs s))
    as [Eb _].
  pose proof (orderMoves_Forall board myColor myColor 0 (freshEngine now timeLimitMs s))
    as Hl.
  destruct (orderMoves board myColor myColor 0 (freshEngine now timeLimitMs s))
    as [rootMoves b0].
  cbn [fst snd] in Eb, Hl. subst b0.
  destruct rootMoves as [|r0 rest] eqn:Er; [eexists; reflexivity|].
  rewrite <- Er in *.
  apply (deepen_returns now (clockReads s + K));
    [exact Hl | rewrite Er; discriminate | exact Hclock|].
  cbn. lia.
Qed.

Lemma legal_length b ms :
  played b ms ->
  Z.of_nat (List.length (getLegalMoves b)) = 140 - Z.of_nat (List.length ms).
Proof.
  intros Hp. destruct (played_counts b ms Hp) as [H1 _].
  pose proof (legal_count b). lia.
Qed.

Lemma selfPlay_spec {L : StdLibrary} now (K : nat) fuel :
  (forall k n, (k + K <= n)%nat -> now k + 2000 <= now n) ->
  (K <= S fuel)%nat ->
  forall rounds board ms engine moveCount,
    played board ms ->
    (140 - List.length ms < rounds)%nat ->
    exists out board' engine' ms',
      selfPlay now (S fuel) rounds board engine moveCount
        = Some (out, board', engine', moveCount + Z.of_nat (List.length ms')) /\
      played board' (ms' ++ ms) /\
      match out with
      | BlackWins => checkWin board' Black = true
      | WhiteWins => checkWin board' Black = false /\ checkWin board' White = true
      | NoMoves =>
          checkWin board' Black = false /\ checkWin board' White = false /\
          getLegalMoves board' = []
      end.
Proof.
  intros Hclock Hfuel.
  induction rounds as [|rounds IH]; intros board ms engine moveCount Hp Hr; [lia|].
  cbn [selfPlay]. cbv zeta.
  destruct (checkWin board Black) eqn:Eb; cbn [orb].
  { exists BlackWins, board, engine, []. cbn [List.length app Z.of_nat].
    rewrite Z.add_0_r. auto. }
  destruct (checkWin board White) eqn:Ew.
  { exists WhiteWins, board, engine, []. cbn [List.length app Z.of_nat].
    rewrite Z.add_0_r. auto. }
  destruct (getLegalMoves board) as [|front rest] eqn:El.
  { exists NoMoves, board, engine, []. cbn [List.length app Z.of_nat].
    rewrite Z.add_0_r. auto. }
  destruct (findBestMove_returns_from now K fuel board (sideToMove board) 2000 engine)
    as [[[mv b1] e1] E]; [intros n Hn; apply Hclock, Hn | exact Hfuel|].
  rewrite E.
  pose proof (findBestMove_spec _ _ _ _ _ _ _ _ _ E) as [-> Hm].
  set (mv' := if (mx mv <? 0) || (my mv <? 0) || isOccupied board (mx mv) (my mv)
              then front else mv).
  assert (playable board mv') as [Hr' Ho'].
  { subst mv'.
    destruct ((mx mv <? 0) || (my mv <? 0) || isOccupied board (mx mv) (my mv))
      eqn:Ec.
    - apply getLegalMoves_spec. rewrite El. left. reflexivity.
    - destruct Hm as [Hpl|[-> _]]; [exact Hpl | discriminate Ec]. }
  rewrite makeMove_ok by assumption. cbn [snd].
  pose proof (legal_length _ _ Hp) as Hlen. rewrite El in Hlen.
  cbn [List.length] in Hlen.
  destruct (IH (placed board (mx mv') (my mv')) ((mx mv', my mv') :: ms) e1
               (moveCount + 1))
    as (out & b' & e' & ms' & E' & Hp' & Hout).
  { apply played_step; assumption. }
  { cbn [List.length]. lia. }
  exists out, b', e', (ms' ++ [(mx mv', my mv')]).
  rewrite E', <- app_assoc, length_app. cbn [List.length app].
  split; [do 2 f_equal; lia|]. split; assumption.
Qed.

(** X30.  The self-play harness comes to an end.  Started on a board
    reached by [n] legal moves, with a clock that advances by the time limit
    of 2000 ms within [K] readings and a search allowed [K] iterations, the
    loop stops after at most 140 - [n] further moves; every one of them was
    accepted by the board, the number reported is the number of moves made,
    and the loop stops with a winner exactly on a board where [checkWin]
    holds for that side, otherwise on a full board without a winner. *)
Theorem selfPlay_ends {L : StdLibrary} (now : nat -> Z) (K fuel : nat) (board : Board)
    (ms : list (Z * Z)) (engine : SearchEngine) :
  played board ms ->
  (forall k n, (k + K <= n)%nat -> now k + 2000 <= now n) ->
  (K <= S fuel)%nat ->
  exists out board' engine' ms',
    selfPlay now (S fuel) (141 - List.length ms) board engine 0
      = Some (out, board', engine', Z.of_nat (List.length ms')) /\
    played board' (ms' ++ ms) /\
    (List.length (ms' ++ ms) <= 140)%nat /\
    match out with
    | BlackWins => checkWin board' Black = true
    | WhiteWins => checkWin board' Black = false /\ checkWin board' White = true
    | NoMoves =>
        checkWin board' Black = false /\ checkWin board' White = false /\
        getLegalMoves board' = [] /\ List.length (ms' ++ ms) = 140%nat
    end.
Proof.
  intros Hp Hclock Hfuel.
  pose proof (legal_length _ _ Hp) as Hlen.
  destruct (selfPlay_spec now K fuel Hclock Hfuel (141 - List.length ms) board ms
              engine 0 Hp) as (out & b' & e' & ms' & E & Hp' & Hout); [lia|].
  exists out, b', e', ms'. split; [exact E|]. split; [exact Hp'|].
  pose proof (legal_length _ _ Hp') as Hlen'.
  split; [lia|].
  destruct out; [exact Hout | exact Hout|].
  destruct Hout as (Hb & Hw & Hl). repeat split; try assumption.
  rewrite Hl in Hlen'. cbn [List.length] in Hlen'. lia.
Qed.

(** The harness as it starts, on the initial board, with a clock that is
    3000 ms further at every reading. *)
Lemma selfPlay_ends_witness :
  exists out board' engine' ms',
    selfPlay (fun n => 3000 * Z.of_nat n) 1 (141 - List.length (@nil (Z * Z)))
             initialBoard engine0 0
      = Some (out, board', engine', Z.of_nat (List.length ms')) /\
    played board' (ms' ++ []) /\
    (List.length (ms' ++ []) <= 140)%nat /\
    match out with
    | BlackWins => checkWin board' Black = true
    | WhiteWins => checkWin board' Black = false /\ checkWin board' White = true
    | NoMoves =>
        checkWin board' Black = false /\ checkWin board' White = false /\
        getLegalMoves board' = [] /\ List.length (ms' ++ []) = 140%nat
    end.
Proof.
  apply (selfPlay_ends (fun n => 3000 * Z.of_nat n) 1 0 initialBoard [] engine0).
  - apply played_init.
  - intros k n H. lia.
  - lia.
Defined.
